(** * FASP solver kernels: a shallow embedding and its properties

    The development follows the C sources of the solver package:

    - [blas_vec.c]       dense vector algebra on [dvector];
    - [smoother_poly.c]  the diagonal inversion of the polynomial smoother;
    - [smoother_str.c]   Gauss-Seidel and SOR sweeps on structured matrices;
    - [coarsening_rs.c]  strength graph, C/F splitting, sparsity of P;
    - [io.c]             the symmetric MatrixMarket reader;
    - [spbcgs.c]         BiCGstab with safe net.

    Conventions of the embedding.

    - [INT] values are [Z]; C arrays are lists read with [rd] and written with
      [wr].  Reading outside the list yields the default element and writing
      outside the list leaves it unchanged (in C both are undefined).
    - [REAL] is an abstract scalar with the operations the C code applies to
      doubles (class [Real]).  The instance [binary64] is IEEE double
      arithmetic (primitive floats) and is the arithmetic of the compiled
      code; the instance [exact] is the field of rationals, used to state
      what holds when no rounding, infinity or NaN is involved. *)

From Stdlib Require Import ZArith List Bool Lia Floats QArith Qcanon.
From stdpp Require Import base list.
Import ListNotations.

Local Open Scope Z_scope.

(** ** Arrays *)

Definition rd {A : Type} (d : A) (l : list A) (i : Z) : A :=
  if i <? 0 then d else nth (Z.to_nat i) l d.

Definition wr {A : Type} (l : list A) (i : Z) (x : A) : list A :=
  if i <? 0 then l else <[Z.to_nat i := x]> l.

(** [calloc n] : a zero-initialised block of [n] cells. *)
Definition calloc {A : Type} (z : A) (n : Z) : list A := replicate (Z.to_nat n) z.

(** Indices [lo, lo+1, ..., hi-1] of a C loop [for (j = lo; j < hi; j++)]. *)
Definition range (lo hi : Z) : list Z :=
  map (fun k => lo + Z.of_nat k) (seq 0 (Z.to_nat (hi - lo))).

(** [for (x in xs) { a[index] = x; index++; }] *)
Fixpoint write_list {A : Type} (a : list A) (index : Z) (xs : list A) : list A :=
  match xs with
  | [] => a
  | x :: xs' => write_list (wr a index x) (index + 1) xs'
  end.

(** ** Scalars *)

Class Real (R : Type) : Type := {
  zero : R;
  one : R;
  add : R -> R -> R;
  sub : R -> R -> R;
  mul : R -> R -> R;
  div : R -> R -> R;
  neg : R -> R;
  lt : R -> R -> bool;
  le : R -> R -> bool;
  eq : R -> R -> bool;
  SMALLREAL : R;
  BIGREAL : R
}.

Declare Scope real_scope.
Delimit Scope real_scope with r.
Infix "+" := add : real_scope.
Infix "-" := sub : real_scope.
Infix "*" := mul : real_scope.
Infix "/" := div : real_scope.
Notation "- x" := (neg x) : real_scope.
Infix "<?" := lt : real_scope.
Infix "<=?" := le : real_scope.
Infix "=?" := eq : real_scope.
Notation "x >? y" := (lt y x) (only parsing) : real_scope.
Notation "x >=? y" := (le y x) (only parsing) : real_scope.

(** Modelled from the spec: the numeric sentinels [SMALLREAL = 1e-20] and
    [BIGREAL = 1e36] of the header [fasp_const.h], which is not among the
    sources.  IEEE double arithmetic, round to nearest. *)
#[export] Instance binary64 : Real float := {
  zero := 0%float;
  one := 1%float;
  add := PrimFloat.add;
  sub := PrimFloat.sub;
  mul := PrimFloat.mul;
  div := PrimFloat.div;
  neg := PrimFloat.opp;
  lt := PrimFloat.ltb;
  le := PrimFloat.leb;
  eq := PrimFloat.eqb;
  SMALLREAL := 0x1.79ca10c924223p-67%float;
  BIGREAL := 0x1.812f9cf7920e3p+119%float
}.

Definition Qc_ltb (x y : Qc) : bool :=
  match (x ?= y)%Qc with Lt => true | _ => false end.

Definition Qc_leb (x y : Qc) : bool :=
  match (x ?= y)%Qc with Gt => false | _ => true end.

Definition Qc_eqb (x y : Qc) : bool :=
  match (x ?= y)%Qc with Eq => true | _ => false end.

(** Exact rational arithmetic, with the same sentinels. *)
#[export] Instance exact : Real Qc := {
  zero := 0%Qc;
  one := 1%Qc;
  add := Qcplus;
  sub := Qcminus;
  mul := Qcmult;
  div := Qcdiv;
  neg := Qcopp;
  lt := Qc_ltb;
  le := Qc_leb;
  eq := Qc_eqb;
  SMALLREAL := Q2Qc (1 # 100000000000000000000);
  BIGREAL := Q2Qc (1000000000000000000000000000000000000 # 1)
}.

Section Macros.
Context {R : Type} `{Real R}.

(** Modelled from the spec: the macros [ABS], [MAX] and [MIN] of the header
    [fasp.h], which is not among the sources:
    [ABS(a) = (a >= 0.0) ? a : -a], [MAX(a,b) = (a > b) ? a : b],
    [MIN(a,b) = (a < b) ? a : b]. *)
Definition ABS (a : R) : R := if (a >=? zero)%r then a else (- a)%r.

Definition MAX (a b : R) : R := if (a >? b)%r then a else b.

Definition MIN (a b : R) : R := if (a <? b)%r then a else b.

End Macros.

(** ** Process exit

    [exit(code)] ends the program: a routine that may call it returns
    [Exit code] instead of a value.  [Overrun] marks a run that stores
    outside an allocated block where the embedding tracks the block size
    (undefined behaviour in C). *)

Inductive exit_code : Type :=
  | ERROR_OPEN_FILE
  | ERROR_WRONG_FILE
  | ERROR_DATA_STRUCTURE
  | ERROR_DUMMY_VAR.

Inductive result (A : Type) : Type :=
  | Ok (a : A)
  | Exit (code : exit_code)
  | Overrun.

Arguments Ok {A} a.
Arguments Exit {A} code.
Arguments Overrun {A}.

(** Conversion of an [INT] to [unsigned INT] (32 bits). *)
Definition to_unsigned (n : Z) : Z := n mod 2 ^ 32.

(** ** Data structures (fasp.h) *)

Module dvector.
Record t (R : Type) : Type := mk { row : Z; val : list R }.
Arguments mk {R} row val.
Arguments row {R} _.
Arguments val {R} _.
End dvector.

Module dCSRmat.
Record t (R : Type) : Type := mk {
  row : Z;
  col : Z;
  nnz : Z;
  IA : list Z;
  JA : list Z;
  val : list R
}.
Arguments mk {R} row col nnz IA JA val.
Arguments row {R} _.
Arguments col {R} _.
Arguments nnz {R} _.
Arguments IA {R} _.
Arguments JA {R} _.
Arguments val {R} _.
End dCSRmat.

(** ** blas_vec.c *)

Section BlasVec.
Context {R : Type} `{Real R}.

(** [memcpy(dst, src, n*sizeof(REAL))] *)
Definition memcpy (dst src : list R) (n : Z) : list R :=
  fold_left (fun d i => wr d i (rd zero src i)) (range 0 n) dst.

(** [for (i=0; i<m; ++i) ypt[i] += a*xpt[i];] *)
Definition axpy_loop (m : Z) (a : R) (xpt ypt : list R) : list R :=
  fold_left (fun y i => wr y i (rd zero y i + a * rd zero xpt i)%r) (range 0 m) ypt.

Definition fasp_blas_dvec_axpy (a : R) (x y : dvector.t R) : result (dvector.t R) :=
  let m := to_unsigned (dvector.row x) in
  if negb (to_unsigned (dvector.row y - m) =? 0) then Exit ERROR_DATA_STRUCTURE
  else Ok (dvector.mk (dvector.row y) (axpy_loop m a (dvector.val x) (dvector.val y))).

Definition fasp_blas_dvec_axpyz (a : R) (x y z : dvector.t R) : result (dvector.t R) :=
  let m := dvector.row x in
  if negb (dvector.row y - m =? 0) then Exit ERROR_DATA_STRUCTURE
  else
    let zpt := memcpy (dvector.val z) (dvector.val y) m in
    Ok (dvector.mk m (axpy_loop (to_unsigned m) a (dvector.val x) zpt)).

Definition fasp_blas_dvec_dotprod (x y : dvector.t R) : R :=
  let length := dvector.row x in
  fold_left (fun value i => (value + rd zero (dvector.val x) i * rd zero (dvector.val y) i)%r)
    (range 0 (to_unsigned length)) zero.

End BlasVec.

(** ** smoother_poly.c *)

(** The loop [for (; j < hi; j++) if (P j) break;] run for at most [n] more
    rounds from [j]; the result is the value of [j] when the loop is left. *)
Fixpoint scan_break (P : Z -> bool) (j : Z) (n : nat) : Z :=
  match n with
  | O => j
  | S n' => if P j then j else scan_break P (j + 1) n'
  end.

Section SmootherPoly.
Context {R : Type} `{Real R}.

(** The inner loop of [Diaginv]: [j] after
    [for (j=ia[i]; j<ia[i+1]; j++) if (i==ja[j]) break;]. *)
Definition Diaginv_scan (Amat : dCSRmat.t R) (i : Z) : Z :=
  let ia := dCSRmat.IA Amat in
  let ja := dCSRmat.JA Amat in
  scan_break (fun j => i =? rd 0 ja j) (rd 0 ia i)
    (Z.to_nat (rd 0 ia (i + 1) - rd 0 ia i)).

Definition Diaginv (Amat : dCSRmat.t R) (Dinv : list R) : list R :=
  let n := dCSRmat.row Amat in
  let a := dCSRmat.val Amat in
  fold_left (fun Dinv i => wr Dinv i (one / rd zero a (Diaginv_scan Amat i))%r)
    (range 0 n) Dinv.

End SmootherPoly.

(** The matrix [[4 1 0] [1 0 1] [0 1 4]] with the zero diagonal entry of row 1
    not stored: [Dinv[1]] becomes [1/a[4]], the reciprocal of the first entry
    of row 2. *)
Definition Diaginv_example : dCSRmat.t float :=
  dCSRmat.mk 3 3 6 [0; 2; 4; 6] [0; 1; 0; 2; 1; 2] [4; 1; 1; 1; 8; 4]%float.

(** ** smoother_str.c *)

Module dSTRmat.
Record t (R : Type) : Type := mk {
  nx : Z;
  ny : Z;
  nz : Z;
  nxy : Z;
  nc : Z;
  ngrid : Z;
  diag : list R;
  nband : Z;
  offsets : list Z;
  offdiag : list (list R)
}.
Arguments mk {R} nx ny nz nxy nc ngrid diag nband offsets offdiag.
Arguments nx {R} _.
Arguments ny {R} _.
Arguments nz {R} _.
Arguments nxy {R} _.
Arguments nc {R} _.
Arguments ngrid {R} _.
Arguments diag {R} _.
Arguments nband {R} _.
Arguments offsets {R} _.
Arguments offdiag {R} _.
End dSTRmat.

Section SmootherStr.
Context {R : Type} `{Real R}.

(** [fasp_blas_smat_mxv_nc2(a, b, c)] of blas_smat.c, with the pointers [a]
    and [c] given as an array and an offset into it. *)
Definition fasp_blas_smat_mxv_nc2 (a : list R) (oa : Z) (b c : list R) (oc : Z) : list R :=
  let a_ k := rd zero a (oa + k) in
  let b0 := rd zero b 0 in
  let b1 := rd zero b 1 in
  let c := wr c (oc + 0) (a_ 0 * b0 + a_ 1 * b1)%r in
  wr c (oc + 1) (a_ 2 * b0 + a_ 3 * b1)%r.

Definition fasp_blas_smat_mxv_nc3 (a : list R) (oa : Z) (b c : list R) (oc : Z) : list R :=
  let a_ k := rd zero a (oa + k) in
  let b0 := rd zero b 0 in
  let b1 := rd zero b 1 in
  let b2 := rd zero b 2 in
  let c := wr c (oc + 0) (a_ 0 * b0 + a_ 1 * b1 + a_ 2 * b2)%r in
  let c := wr c (oc + 1) (a_ 3 * b0 + a_ 4 * b1 + a_ 5 * b2)%r in
  wr c (oc + 2) (a_ 6 * b0 + a_ 7 * b1 + a_ 8 * b2)%r.

Definition fasp_blas_smat_mxv_nc5 (a : list R) (oa : Z) (b c : list R) (oc : Z) : list R :=
  let a_ k := rd zero a (oa + k) in
  let b0 := rd zero b 0 in
  let b1 := rd zero b 1 in
  let b2 := rd zero b 2 in
  let b3 := rd zero b 3 in
  let b4 := rd zero b 4 in
  let c := wr c (oc + 0) (a_ 0 * b0 + a_ 1 * b1 + a_ 2 * b2 + a_ 3 * b3 + a_ 4 * b4)%r in
  let c := wr c (oc + 1) (a_ 5 * b0 + a_ 6 * b1 + a_ 7 * b2 + a_ 8 * b3 + a_ 9 * b4)%r in
  let c := wr c (oc + 2) (a_ 10 * b0 + a_ 11 * b1 + a_ 12 * b2 + a_ 13 * b3 + a_ 14 * b4)%r in
  let c := wr c (oc + 3) (a_ 15 * b0 + a_ 16 * b1 + a_ 17 * b2 + a_ 18 * b3 + a_ 19 * b4)%r in
  wr c (oc + 4) (a_ 20 * b0 + a_ 21 * b1 + a_ 22 * b2 + a_ 23 * b3 + a_ 24 * b4)%r.

Definition fasp_blas_smat_mxv_nc7 (a : list R) (oa : Z) (b c : list R) (oc : Z) : list R :=
  let a_ k := rd zero a (oa + k) in
  let b0 := rd zero b 0 in
  let b1 := rd zero b 1 in
  let b2 := rd zero b 2 in
  let b3 := rd zero b 3 in
  let b4 := rd zero b 4 in
  let b5 := rd zero b 5 in
  let b6 := rd zero b 6 in
  let c := wr c (oc + 0)
    (a_ 0 * b0 + a_ 1 * b1 + a_ 2 * b2 + a_ 3 * b3 + a_ 4 * b4 + a_ 5 * b5 + a_ 6 * b6)%r in
  let c := wr c (oc + 1)
    (a_ 7 * b0 + a_ 8 * b1 + a_ 9 * b2 + a_ 10 * b3 + a_ 11 * b4 + a_ 12 * b5 + a_ 13 * b6)%r in
  let c := wr c (oc + 2)
    (a_ 14 * b0 + a_ 15 * b1 + a_ 16 * b2 + a_ 17 * b3 + a_ 18 * b4 + a_ 19 * b5 + a_ 20 * b6)%r in
  let c := wr c (oc + 3)
    (a_ 21 * b0 + a_ 22 * b1 + a_ 23 * b2 + a_ 24 * b3 + a_ 25 * b4 + a_ 26 * b5 + a_ 27 * b6)%r in
  let c := wr c (oc + 4)
    (a_ 28 * b0 + a_ 29 * b1 + a_ 30 * b2 + a_ 31 * b3 + a_ 32 * b4 + a_ 33 * b5 + a_ 34 * b6)%r in
  let c := wr c (oc + 5)
    (a_ 35 * b0 + a_ 36 * b1 + a_ 37 * b2 + a_ 38 * b3 + a_ 39 * b4 + a_ 40 * b5 + a_ 41 * b6)%r in
  wr c (oc + 6)
    (a_ 42 * b0 + a_ 43 * b1 + a_ 44 * b2 + a_ 45 * b3 + a_ 46 * b4 + a_ 47 * b5 + a_ 48 * b6)%r.

(** [fasp_blas_smat_mxv(a, b, c, n)]: [c = a*b] for an [n*n] full matrix. *)
Definition fasp_blas_smat_mxv (a : list R) (oa : Z) (b c : list R) (oc : Z) (n : Z) : list R :=
  if n =? 2 then fasp_blas_smat_mxv_nc2 a oa b c oc
  else if n =? 3 then fasp_blas_smat_mxv_nc3 a oa b c oc
  else if n =? 5 then fasp_blas_smat_mxv_nc5 a oa b c oc
  else if n =? 7 then fasp_blas_smat_mxv_nc7 a oa b c oc
  else
    fold_left (fun c i =>
      let in_ := i * n in
      let temp := fold_left (fun temp j => (temp + rd zero a (oa + in_ + j) * rd zero b j)%r)
                    (range 0 n) zero in
      wr c (oc + i) temp) (range 0 n) c.

(** [blkcontr2_str]: [y -= P*z], with [P] the [nc*nc] block of [data] at
    [start_data] and [z] the part of [x] at [start_vecx]. *)
Definition blkcontr2_str (start_data start_vecx start_vecy nc : Z)
    (data x y : list R) : list R :=
  if start_vecy =? 0 then
    fold_left (fun y i =>
      let k := start_data + i * nc in
      fold_left (fun y j =>
        wr y i (rd zero y i - rd zero data (k + j) * rd zero x (start_vecx + j))%r)
        (range 0 nc) y) (range 0 nc) y
  else
    fold_left (fun y i =>
      let k := start_data + i * nc in
      let m := start_vecy + i in
      fold_left (fun y j =>
        wr y m (rd zero y m - rd zero data (k + j) * rd zero x (start_vecx + j))%r)
        (range 0 nc) y) (range 0 nc) y.

(** [saAxpby]: [y := alpha*A*x + beta*y]; the pointers [A] and [y] are given
    as an array and an offset. *)
Definition saAxpby (alpha beta : R) (size : Z) (A : list R) (oA : Z)
    (x y : list R) (oy : Z) : list R :=
  if (alpha =? zero)%r then
    fold_left (fun y i => wr y (oy + i) (rd zero y (oy + i) * beta)%r) (range 0 size) y
  else
    let tmp := (beta / alpha)%r in
    let y := fold_left (fun y i => wr y (oy + i) (rd zero y (oy + i) * tmp)%r)
               (range 0 size) y in
    let y := fold_left (fun y i =>
               fold_left (fun y j =>
                 wr y (oy + i)
                   (rd zero y (oy + i) + rd zero A (oA + (i * size + j)) * rd zero x j)%r)
                 (range 0 size) y) (range 0 size) y in
    fold_left (fun y i => wr y (oy + i) (rd zero y (oy + i) * alpha)%r) (range 0 size) y.

(** The band loop for [nc == 1]: the value of [rhs] after all bands. *)
Definition band_rhs (A : dSTRmat.t R) (b_point : R) (u_val : list R) (point : Z) : R :=
  let ngrid := dSTRmat.ngrid A in
  fold_left (fun rhs band =>
    let width := rd 0 (dSTRmat.offsets A) band in
    let column := point + width in
    if width <? 0 then
      if column >=? 0
      then (rhs - rd zero (rd [] (dSTRmat.offdiag A) band) column * rd zero u_val column)%r
      else rhs
    else
      if column <? ngrid
      then (rhs - rd zero (rd [] (dSTRmat.offdiag A) band) point * rd zero u_val column)%r
      else rhs)
    (range 0 (dSTRmat.nband A)) b_point.

(** The band loop for [nc > 1]: [vec_tmp] after all bands. *)
Definition band_vec (A : dSTRmat.t R) (u_val vec_tmp : list R) (block : Z) : list R :=
  let ngrid := dSTRmat.ngrid A in
  let nc := dSTRmat.nc A in
  let nc2 := nc * nc in
  let start_DATA := nc2 * block in
  fold_left (fun vec_tmp band =>
    let width := rd 0 (dSTRmat.offsets A) band in
    let column := block + width in
    if width <? 0 then
      if column >=? 0 then
        let start_data := nc2 * column in
        let start_vecu := nc * column in
        blkcontr2_str start_data start_vecu 0 nc (rd [] (dSTRmat.offdiag A) band) u_val vec_tmp
      else vec_tmp
    else
      if column <? ngrid then
        let start_vecu := nc * column in
        blkcontr2_str start_DATA start_vecu 0 nc (rd [] (dSTRmat.offdiag A) band) u_val vec_tmp
      else vec_tmp)
    (range 0 (dSTRmat.nband A)) vec_tmp.

(** [for (point = 0; point < nc; point ++) vec_tmp[point] = b_val[ncb+point];] *)
Definition load_block (nc ncb : Z) (b_val vec_tmp : list R) : list R :=
  fold_left (fun vec_tmp point => wr vec_tmp point (rd zero b_val (ncb + point)))
    (range 0 nc) vec_tmp.

Definition fasp_smoother_dstr_gs_ascend (A : dSTRmat.t R) (b u : dvector.t R)
    (diaginv : list R) : dvector.t R :=
  let ngrid := dSTRmat.ngrid A in
  let nc := dSTRmat.nc A in
  let diag := dSTRmat.diag A in
  let b_val := dvector.val b in
  let u_val := dvector.val u in
  let nc2 := nc * nc in
  let vec_tmp := calloc zero nc in
  if nc =? 1 then
    dvector.mk (dvector.row u)
      (fold_left (fun u_val point =>
         let rhs := band_rhs A (rd zero b_val point) u_val point in
         wr u_val point (rhs / rd zero diag point)%r)
         (range 0 ngrid) u_val)
  else if nc >? 1 then
    dvector.mk (dvector.row u)
      (snd (fold_left (fun '(vec_tmp, u_val) block =>
         let ncb := nc * block in
         let vec_tmp := load_block nc ncb b_val vec_tmp in
         let start_DATA := nc2 * block in
         let vec_tmp := band_vec A u_val vec_tmp block in
         (vec_tmp, fasp_blas_smat_mxv diaginv start_DATA vec_tmp u_val (nc * block) nc))
         (range 0 ngrid) (vec_tmp, u_val)))
  else u.

Definition fasp_smoother_dstr_sor_ascend (A : dSTRmat.t R) (b u : dvector.t R)
    (diaginv : list R) (weight : R) : dvector.t R :=
  let ngrid := dSTRmat.ngrid A in
  let nc := dSTRmat.nc A in
  let diag := dSTRmat.diag A in
  let b_val := dvector.val b in
  let u_val := dvector.val u in
  let nc2 := nc * nc in
  let one_minus_weight := (one - weight)%r in
  let vec_tmp := calloc zero nc in
  if nc =? 1 then
    dvector.mk (dvector.row u)
      (fold_left (fun u_val point =>
         let rhs := band_rhs A (rd zero b_val point) u_val point in
         wr u_val point
           (one_minus_weight * rd zero u_val point + weight * (rhs / rd zero diag point))%r)
         (range 0 ngrid) u_val)
  else if nc >? 1 then
    dvector.mk (dvector.row u)
      (snd (fold_left (fun '(vec_tmp, u_val) block =>
         let ncb := nc * block in
         let vec_tmp := load_block nc ncb b_val vec_tmp in
         let start_DATA := nc2 * block in
         let vec_tmp := band_vec A u_val vec_tmp block in
         (vec_tmp, saAxpby weight one_minus_weight nc diaginv start_DATA vec_tmp
                     u_val (nc * block)))
         (range 0 ngrid) (vec_tmp, u_val)))
  else u.

End SmootherStr.

(** The laws of exact arithmetic that relate the SOR update to the
    Gauss-Seidel update.  In IEEE arithmetic [zero * x = zero] fails for
    infinite and NaN [x]. *)
Class ExactLaws (R : Type) `{Real R} : Prop := {
  sub_one_one : (one - one)%r = zero;
  div_zero_one : (zero / one)%r = zero;
  mul_zero_l : forall x : R, (zero * x)%r = zero;
  mul_zero_r : forall x : R, (x * zero)%r = zero;
  mul_one_l : forall x : R, (one * x)%r = x;
  mul_one_r : forall x : R, (x * one)%r = x;
  add_zero_l : forall x : R, (zero + x)%r = x;
  one_neq_zero : (one =? zero)%r = false
}.

Section SmootherStrSpec.
Context {R : Type} `{Real R}.

(** The sum [a[i][0]*x[0] + ... + a[i][n-1]*x[n-1]], added from the left,
    starting from zero. *)
Definition row_sum (a : list R) (oa : Z) (x : list R) (n i : Z) : R :=
  fold_left (fun temp j => (temp + rd zero a (oa + i * n + j) * rd zero x j)%r)
    (range 0 n) zero.

Definition region_set (y : list R) (oy n : Z) (v : Z -> R) : list R :=
  fold_left (fun y i => wr y (oy + i) (v i)) (range 0 n) y.

End SmootherStrSpec.

(** A one-dimensional three-point stencil with 2x2 blocks, over the
    rationals. *)
Definition sor_gs_example_A : dSTRmat.t Qc :=
  let q (n : Z) := Q2Qc (inject_Z n) in
  dSTRmat.mk 2 1 1 2 2 2
    (map q [4; 1; 1; 4; 4; 1; 1; 4])
    2 [-1; 1]
    [map q [-1; 0; 0; -1]; map q [-1; 0; 0; -1]].

Definition sor_gs_example_diaginv : list Qc :=
  map (fun n => Q2Qc (n # 15)) [4; -1; -1; 4; 4; -1; -1; 4].

Definition sor_gs_example_b : dvector.t Qc :=
  dvector.mk 4 (map (fun n => Q2Qc (inject_Z n)) [1; 2; 3; 4]).

Definition sor_gs_example_u : dvector.t Qc :=
  dvector.mk 4 (map (fun n => Q2Qc (inject_Z n)) [1; 1; 1; 1]).

(** The three-point stencil [-1 2 -1] in IEEE double arithmetic, with an
    initial iterate whose first entry is infinite. *)
Definition sor_gs_binary64_A : dSTRmat.t float :=
  dSTRmat.mk 3 1 1 3 1 3 [2; 2; 2]%float 2 [-1; 1] [[-1; -1]%float; [-1; -1]%float].

Definition sor_gs_binary64_b : dvector.t float := dvector.mk 3 [1; 1; 1]%float.

Definition sor_gs_binary64_u : dvector.t float := dvector.mk 3 [infinity; 0; 0]%float.


(** ** smoother_str.c: SOR with weight one and Gauss-Seidel *)

Section Agree.
Context {R : Type} `{Real R}.

(** [nul x]: [x] is a zero.  Two scalars agree when they are the same or
    are both zeros; two arrays agree when they have one length and agree
    cell by cell. *)
Variable nul : R -> Prop.

Definition agree (x y : R) : Prop := x = y \/ (nul x /\ nul y).

Definition agree_list (l1 l2 : list R) : Prop :=
  length l1 = length l2 /\ forall k : Z, agree (rd zero l1 k) (rd zero l2 k).

End Agree.

Section MxvRow.
Context {R : Type} `{Real R}.

(** Entry [i] of the product of [fasp_blas_smat_mxv]: the kernels for
    [n = 2, 3, 5, 7] add the products of row [i] from the first product on,
    the general loop adds them to [0.0]. *)
Definition mxv_row (a : list R) (oa : Z) (b : list R) (n i : Z) : R :=
  if (n =? 2) || (n =? 3) || (n =? 5) || (n =? 7) then
    fold_left (fun temp j => (temp + rd zero a (oa + i * n + j) * rd zero b j)%r)
      (range 1 n) (rd zero a (oa + i * n + 0) * rd zero b 0)%r
  else row_sum a oa b n i.

End MxvRow.

(** *** IEEE double arithmetic *)

Definition SF_zero (x : spec_float) : bool :=
  match x with
  | S754_zero _ => true
  | _ => false
  end.

Definition SF_finite (x : spec_float) : bool :=
  match x with
  | S754_zero _ | S754_finite _ _ _ => true
  | _ => false
  end.

(** A double that is [+0.0] or [-0.0]. *)
Definition zero_float (x : float) : Prop := SF_zero (Prim2SF x) = true.

(** A double that is neither an infinity nor NaN. *)
Definition finite_float (x : float) : Prop := SF_finite (Prim2SF x) = true.

(** Two doubles that are the same number: they compare equal ([==] of C,
    which holds for zeros of either sign), or both are NaN. *)
Definition same_number (x y : float) : bool :=
  PrimFloat.eqb x y || (PrimFloat.is_nan x && PrimFloat.is_nan y).

(** A 2x2-block stencil in IEEE double arithmetic with a finite iterate. *)
Definition sor_gs_finite_A : dSTRmat.t float :=
  dSTRmat.mk 2 1 1 2 2 2 [4; 1; 1; 4; 4; 1; 1; 4]%float 2 [-1; 1]
    [[-1; 0; 0; -1]%float; [-1; 0; 0; -1]%float].

Definition sor_gs_finite_diaginv : list float :=
  [0.25; 0; 0; 0.25; 0.25; 0; 0; 0.25]%float.

Definition sor_gs_finite_b : dvector.t float := dvector.mk 4 [0; 2; 3; 4]%float.

Definition sor_gs_finite_u : dvector.t float := dvector.mk 4 [1; 0; -1; 0.5]%float.
(** ** coarsening_rs.c *)

Module iCSRmat.
Record t : Type := mk {
  row : Z;
  col : Z;
  nnz : Z;
  IA : list Z;
  JA : list Z;
  val : list Z
}.
End iCSRmat.

(** The markers of the C/F splitting: [0] fine, [1] coarse, [2] isolated (as
    documented at [fasp_amg_coarsening_rs]).
    Modelled from the spec: [UNPT], the marker of an undecided vertex, is a
    macro of the header [fasp_const.h], which is not among the sources; it is
    a negative sentinel, distinct from the three documented markers. *)
Definition FGPT : Z := 0.
Definition CGPT : Z := 1.
Definition ISPT : Z := 2.
Definition UNPT : Z := -1.

(** The strong-coupling parameters of [AMG_param] read by [generate_S]. *)
Module AMG_param.
Record t (R : Type) : Type := mk {
  strong_threshold : R;
  max_row_sum : R
}.
Arguments mk {R} strong_threshold max_row_sum.
Arguments strong_threshold {R} _.
Arguments max_row_sum {R} _.
End AMG_param.

(** The entries [l[lo], ..., l[hi-1]] of an index array. *)
Definition slice (l : list Z) (lo hi : Z) : list Z := map (rd 0 l) (range lo hi).

(** Row [i] of a CSR pattern: the stored column indices. *)
Definition csr_row (IA JA : list Z) (i : Z) : list Z :=
  slice JA (rd 0 IA i) (rd 0 IA (i + 1)).

Section GenerateS.
Context {R : Type} `{Real R}.

(** Modelled from the spec: [fasp_dcsr_getdiag(0, A, &diag)] is not among the
    sources.  It "returns a dense vector of diagonal entries; if the matrix
    has missing diagonals, the corresponding entries are set to zero". *)
Definition fasp_dcsr_getdiag (A : dCSRmat.t R) : list R :=
  map (fun i =>
         match List.filter (fun j => rd 0 (dCSRmat.JA A) j =? i)
                 (range (rd 0 (dCSRmat.IA A) i) (rd 0 (dCSRmat.IA A) (i + 1))) with
         | j :: _ => rd zero (dCSRmat.val A) j
         | [] => zero
         end)
      (range 0 (Z.min (dCSRmat.row A) (dCSRmat.col A))).

(** [row_scale] and the raw [row_sum] after the first loop over row [i]. *)
Definition row_scale_sum (A : dCSRmat.t R) (i : Z) : R * R :=
  fold_left (fun '(row_scale, row_sum) j =>
               (MIN row_scale (rd zero (dCSRmat.val A) j),
                (row_sum + rd zero (dCSRmat.val A) j)%r))
    (range (rd 0 (dCSRmat.IA A) i) (rd 0 (dCSRmat.IA A) (i + 1))) (zero, zero).

(** [for (j=begin_row;j<=end_row;j++) if (ja[j]==i) {S->JA[j]=-1; break;}] *)
Fixpoint mark_diag (ja : list Z) (i : Z) (js : list Z) (SJA : list Z) : list Z :=
  match js with
  | [] => SJA
  | j :: js' => if rd 0 ja j =? i then wr SJA j (-1) else mark_diag ja i js' SJA
  end.

(** The body of the first loop of [generate_S] for row [i]. *)
Definition mark_row (A : dCSRmat.t R) (param : AMG_param.t R) (diag : list R)
    (SJA : list Z) (i : Z) : list Z :=
  let max_row_sum := AMG_param.max_row_sum param in
  let epsilon_str := AMG_param.strong_threshold param in
  let js := range (rd 0 (dCSRmat.IA A) i) (rd 0 (dCSRmat.IA A) (i + 1)) in
  let '(row_scale, row_sum) := row_scale_sum A i in
  let row_sum := (ABS row_sum / MAX SMALLREAL (ABS (rd zero diag i)))%r in
  let SJA := mark_diag (dCSRmat.JA A) i js SJA in
  if (row_sum >? max_row_sum)%r && (max_row_sum <? one)%r then
    fold_left (fun SJA j => wr SJA j (-1)) js SJA
  else
    fold_left (fun SJA j =>
                 if (rd zero (dCSRmat.val A) j >=? epsilon_str * row_scale)%r
                 then wr SJA j (-1) else SJA) js SJA.

(** The compression loop: state [(S->IA, S->JA, index)]. *)
Definition compress_row (ia : list Z) (st : list Z * list Z * Z) (i : Z)
    : list Z * list Z * Z :=
  let '(SIA, SJA, index) := st in
  let SIA := wr SIA i index in
  let '(SJA, index) :=
    fold_left (fun '(SJA, index) j =>
                 if rd 0 SJA j >? -1 then (wr SJA index (rd 0 SJA j), index + 1)
                 else (SJA, index))
      (range (rd 0 ia i) (rd 0 ia (i + 1))) (SJA, index) in
  (SIA, SJA, index).

Definition generate_S (A : dCSRmat.t R) (param : AMG_param.t R) : iCSRmat.t :=
  let row := dCSRmat.row A in
  let col := dCSRmat.col A in
  let ia := dCSRmat.IA A in
  let ja := dCSRmat.JA A in
  let nnz := rd 0 ia row - rd 0 ia 0 in
  let diag := fasp_dcsr_getdiag A in
  let SIA := fold_left (fun d i => wr d i (rd 0 ia i)) (range 0 (row + 1)) (calloc 0 (row + 1)) in
  let SJA := fold_left (fun d i => wr d i (rd 0 ja i)) (range 0 nnz) (calloc 0 nnz) in
  let SJA := fold_left (mark_row A param diag) (range 0 row) SJA in
  let '(SIA, SJA, index) := fold_left (compress_row ia) (range 0 row) (SIA, SJA, 0) in
  if index >? 0 then
    iCSRmat.mk row col index (wr SIA row index) (take (Z.to_nat index) SJA) []
  else
    iCSRmat.mk row col 0 SIA [] [].

End GenerateS.

(** [generate_sparsity_P]: the pattern of the prolongation. *)
Section SparsityP.
Context {R : Type} `{Real R}.

Definition count_row (S : iCSRmat.t) (vec : list Z) (PIA : list Z) (i : Z) : list Z :=
  if rd 0 vec i =? FGPT then
    fold_left (fun PIA j =>
                 let k := rd 0 (iCSRmat.JA S) j in
                 if rd 0 vec k =? CGPT then wr PIA (i + 1) (rd 0 PIA (i + 1) + 1) else PIA)
      (range (rd 0 (iCSRmat.IA S) i) (rd 0 (iCSRmat.IA S) (i + 1))) PIA
  else if rd 0 vec i =? ISPT then wr PIA (i + 1) 0
  else wr PIA (i + 1) 1.

Definition fill_row (S : iCSRmat.t) (vec : list Z) (st : list Z * Z) (i : Z) : list Z * Z :=
  let '(PJA, index) := st in
  if rd 0 vec i =? FGPT then
    fold_left (fun '(PJA, index) j =>
                 let k := rd 0 (iCSRmat.JA S) j in
                 if rd 0 vec k =? CGPT then (wr PJA index k, index + 1) else (PJA, index))
      (range (rd 0 (iCSRmat.IA S) i) (rd 0 (iCSRmat.IA S) (i + 1))) (PJA, index)
  else if rd 0 vec i =? ISPT then (PJA, index)
  else (wr PJA index i, index + 1).

Definition generate_sparsity_P (S : iCSRmat.t) (vec : list Z) (row col : Z) : dCSRmat.t R :=
  let PIA := calloc 0 (row + 1) in
  let PIA := fold_left (count_row S vec) (range 0 row) PIA in
  let PIA := fold_left (fun PIA i => wr PIA (i + 1) (rd 0 PIA (i + 1) + rd 0 PIA i))
               (range 0 row) PIA in
  let nnz := rd 0 PIA row - rd 0 PIA 0 in
  let PJA := calloc 0 nnz in
  let Pval := calloc zero nnz in
  let '(PJA, _) := fold_left (fill_row S vec) (range 0 row) (PJA, 0) in
  dCSRmat.mk row col nnz PIA PJA Pval.

End SparsityP.

(** What [generate_sparsity_P] stores in row [i]: the coarse strong neighbours
    of a fine vertex, nothing for an isolated vertex, the vertex itself
    otherwise. *)
Definition P_row (S : iCSRmat.t) (vec : list Z) (i : Z) : list Z :=
  if rd 0 vec i =? FGPT then
    List.filter (fun k => rd 0 vec k =? CGPT) (csr_row (iCSRmat.IA S) (iCSRmat.JA S) i)
  else if rd 0 vec i =? ISPT then []
  else [i].

(** The number of entries in the rows before row [n]. *)
Definition P_offset (S : iCSRmat.t) (vec : list Z) (n : Z) : Z :=
  fold_left (fun acc i => acc + Z.of_nat (length (P_row S vec i))) (range 0 n) 0.

(** The coarse-grid index of a coarse vertex [i]: its rank among the coarse
    vertices (the spec's "corresponding coarse-grid index"). *)
Definition coarse_index (vec : list Z) (i : Z) : Z :=
  Z.of_nat (length (List.filter (fun k => rd 0 vec k =? CGPT) (range 0 i))).

(** The rows [0, ..., n-1] of the pattern, one after the other. *)
Definition P_rows_upto (S : iCSRmat.t) (vec : list Z) (n : Z) : list Z :=
  concat (map (P_row S vec) (range 0 n)).

(** Three vertices: vertex 0 is fine and depends strongly on vertex 1, which
    is coarse; vertex 2 is isolated. *)
Definition sparsity_example_S : iCSRmat.t := iCSRmat.mk 3 3 2 [0; 1; 2; 2] [1; 0] [].

Definition sparsity_example_vec : list Z := [FGPT; CGPT; ISPT].

Section GenerateSSpec.
Context {R : Type} `{Real R}.

(** The positions of row [i] of [A] in [JA] and [val]. *)
Definition row_positions (A : dCSRmat.t R) (i : Z) : list Z :=
  range (rd 0 (dCSRmat.IA A) i) (rd 0 (dCSRmat.IA A) (i + 1)).

(** Position [j] is the first position of row [i] that stores column [i]. *)
Definition is_first_diag (A : dCSRmat.t R) (i j : Z) : bool :=
  match find (fun j => rd 0 (dCSRmat.JA A) j =? i) (row_positions A i) with
  | Some j' => j' =? j
  | None => false
  end.

(** The row-sum test of [generate_S]: all couplings of row [i] are weak. *)
Definition all_weak (A : dCSRmat.t R) (param : AMG_param.t R) (i : Z) : bool :=
  let max_row_sum := AMG_param.max_row_sum param in
  let row_sum := snd (row_scale_sum A i) in
  let row_sum := (ABS row_sum / MAX SMALLREAL (ABS (rd zero (fasp_dcsr_getdiag A) i)))%r in
  (row_sum >? max_row_sum)%r && (max_row_sum <? one)%r.

(** The entry at position [j] of row [i] is declared weak by [generate_S]. *)
Definition weak_entry (A : dCSRmat.t R) (param : AMG_param.t R) (i j : Z) : bool :=
  is_first_diag A i j
  || (if all_weak A param i then true
      else (rd zero (dCSRmat.val A) j
            >=? AMG_param.strong_threshold param * fst (row_scale_sum A i))%r).

(** The claim's criterion, in the spec's words: [row_scale] is the minimum
    over the off-diagonal entries of row [i], and the entry at position [j]
    is strong when [A[i,j] >= theta_str * row_scale]. *)
Definition claimed_row_scale (A : dCSRmat.t R) (i : Z) : R :=
  match List.filter (fun j => negb (rd 0 (dCSRmat.JA A) j =? i)) (row_positions A i) with
  | [] => zero
  | j :: js => fold_left (fun m j => MIN m (rd zero (dCSRmat.val A) j)) js
                 (rd zero (dCSRmat.val A) j)
  end.

Definition claimed_strong (A : dCSRmat.t R) (param : AMG_param.t R) (i j : Z) : bool :=
  (rd zero (dCSRmat.val A) j >=? AMG_param.strong_threshold param * claimed_row_scale A i)%r.

End GenerateSSpec.

(** The matrix [[2 -1] [-1 2]] with [strong_threshold = 0.25] and
    [max_row_sum = 0.75]. *)
Definition generate_S_example_A : dCSRmat.t float :=
  dCSRmat.mk 2 2 4 [0; 2; 4] [0; 1; 0; 1] [2; -1; -1; 2]%float.

Definition generate_S_example_param : AMG_param.t float :=
  AMG_param.mk 0.25%float 0.75%float.

(** The values above [-1] among [M[0], ..., M[p-1]], in order. *)
Definition kept_upto (M : list Z) (p : Z) : list Z :=
  List.filter (fun v => v >? -1) (map (rd 0 M) (range 0 p)).

(** ** coarsening_rs.c: the C/F splitting *)

(** A node of the doubly linked list of lists: the measure [data] and the
    first and last point of the list of points with that measure.  The links
    [next_elt] and [prev_elt] are the order of the nodes in a Coq list, from
    [LoL_head] to [LoL_tail]; the empty list is the null pointer. *)
Module ListElement.
Record t : Type := mk { data : Z; head : Z; tail : Z }.
End ListElement.

(** Conversion of an [unsigned int] back to [int] (two's complement). *)
Definition to_int (n : Z) : Z := (n + 2 ^ 31) mod 2 ^ 32 - 2 ^ 31.

Definition LIST_HEAD : Z := -1.
Definition LIST_TAIL : Z := -2.

(** Sequencing of steps that may fail ([None]: a null pointer is
    dereferenced, or the rounds allotted to a loop are used up). *)
Notation "'let?' x := m 'in' k" := (match m with Some x => k | None => None end)
  (at level 10, x pattern, m at level 100, k at level 200, only parsing).

Fixpoint foldM {S B : Type} (f : S -> B -> option S) (l : list B) (s : S) : option S :=
  match l with
  | [] => Some s
  | x :: l' => let? s' := f s x in foldM f l' s'
  end.

(** [remove_point] from the node [list_ptr] on; the end of the list is the
    message "No such list!". *)
Fixpoint remove_point_from (LoL : list ListElement.t) (measure index : Z)
    (lists where_ : list Z) : list ListElement.t * list Z * list Z :=
  match LoL with
  | [] => ([], lists, where_)
  | list_ptr :: rest =>
      if measure =? ListElement.data list_ptr then
        if (ListElement.head list_ptr =? index) && (ListElement.tail list_ptr =? index) then
          (* the point is the only point on the list, which is destroyed *)
          (rest, lists, where_)
        else if ListElement.head list_ptr =? index then
          (* index is head of list *)
          (ListElement.mk (ListElement.data list_ptr) (rd 0 lists index)
             (ListElement.tail list_ptr) :: rest,
           lists,
           wr where_ (rd 0 lists index) LIST_HEAD)
        else if ListElement.tail list_ptr =? index then
          (* index is tail of list *)
          (ListElement.mk (ListElement.data list_ptr) (ListElement.head list_ptr)
             (rd 0 where_ index) :: rest,
           wr lists (rd 0 where_ index) LIST_TAIL,
           where_)
        else
          (* index is in middle of list *)
          let lists := wr lists (rd 0 where_ index) (rd 0 lists index) in
          let where_ := wr where_ (rd 0 lists index) (rd 0 where_ index) in
          (list_ptr :: rest, lists, where_)
      else
        let '(rest, lists, where_) := remove_point_from rest measure index lists where_ in
        (list_ptr :: rest, lists, where_)
  end.

(** [remove_point]: removes a point from the lists.  The first node is read
    before any test, so an empty list of lists is a null-pointer access. *)
Definition remove_point (LoL : list ListElement.t) (measure index : Z)
    (lists where_ : list Z) : option (list ListElement.t * list Z * list Z) :=
  match LoL with
  | [] => None
  | _ => Some (remove_point_from LoL measure index lists where_)
  end.

(** [enter_list]: places a point in the list of its measure, creating the
    list if there is none; the lists are kept by decreasing measure. *)
Fixpoint enter_list (LoL : list ListElement.t) (measure index : Z)
    (lists where_ : list Z) : list ListElement.t * list Z * list Z :=
  match LoL with
  | [] =>
      ([ListElement.mk measure index index],
       wr lists index LIST_TAIL, wr where_ index LIST_HEAD)
  | list_ptr :: rest =>
      if measure >? ListElement.data list_ptr then
        (ListElement.mk measure index index :: list_ptr :: rest,
         wr lists index LIST_TAIL, wr where_ index LIST_HEAD)
      else if measure =? ListElement.data list_ptr then
        let old_tail := ListElement.tail list_ptr in
        let lists := wr lists old_tail index in
        let where_ := wr where_ index old_tail in
        let lists := wr lists index LIST_TAIL in
        (ListElement.mk (ListElement.data list_ptr) (ListElement.head list_ptr) index :: rest,
         lists, where_)
      else
        let '(rest, lists, where_) := enter_list rest measure index lists where_ in
        (list_ptr :: rest, lists, where_)
  end.

(** Running sums [0, l0, l0+l1, ...]. *)
Fixpoint running_sums (acc : Z) (l : list Z) : list Z :=
  match l with
  | [] => [acc]
  | x :: l' => acc :: running_sums (acc + x) l'
  end.

(** Modelled from the spec: [fasp_icsr_trans] is not among the sources ("CSR
    transpose produces a new CSR with sorted column indices within each
    row"): row [j] of the transpose lists, in increasing order, the rows [i]
    of [S] that store column [j]. *)
Definition fasp_icsr_trans (S : iCSRmat.t) : iCSRmat.t :=
  let rows :=
    map (fun j =>
           flat_map (fun i =>
                       map (fun _ => i)
                         (List.filter (Z.eqb j) (csr_row (iCSRmat.IA S) (iCSRmat.JA S) i)))
             (range 0 (iCSRmat.row S)))
      (range 0 (iCSRmat.col S)) in
  iCSRmat.mk (iCSRmat.col S) (iCSRmat.row S) (iCSRmat.nnz S)
    (running_sums 0 (map (fun r => Z.of_nat (length r)) rows)) (concat rows) [].

(** The variables of the first phase of [form_coarse_level]. *)
Module cf.
Record state : Type := mk {
  vec : list Z;
  lambda : list Z;
  lists : list Z;
  where_ : list Z;
  LoL : list ListElement.t;
  num_left : Z;
  col : Z
}.
End cf.

Section FormCoarseLevel.
Variable ia : list Z.
Variable S : iCSRmat.t.
Variable ST : iCSRmat.t.
Variable row : Z.

Definition S_positions (i : Z) : list Z :=
  range (rd 0 (iCSRmat.IA S) i) (rd 0 (iCSRmat.IA S) (i + 1)).

Definition ST_positions (i : Z) : list Z :=
  range (rd 0 (iCSRmat.IA ST) i) (rd 0 (iCSRmat.IA ST) (i + 1)).

Definition with_lists (st : cf.state) (r : list ListElement.t * list Z * list Z) : cf.state :=
  let '(LoL, lists, where_) := r in
  cf.mk (cf.vec st) (cf.lambda st) lists where_ LoL (cf.num_left st) (cf.col st).

Definition do_remove_point (st : cf.state) (measure index : Z) : option cf.state :=
  let? r := remove_point (cf.LoL st) measure index (cf.lists st) (cf.where_ st) in
  Some (with_lists st r).

Definition do_enter_list (st : cf.state) (measure index : Z) : cf.state :=
  with_lists st (enter_list (cf.LoL st) measure index (cf.lists st) (cf.where_ st)).

Definition set_vec (st : cf.state) (i v : Z) : cf.state :=
  cf.mk (wr (cf.vec st) i v) (cf.lambda st) (cf.lists st) (cf.where_ st) (cf.LoL st)
        (cf.num_left st) (cf.col st).

Definition set_lambda (st : cf.state) (i v : Z) : cf.state :=
  cf.mk (cf.vec st) (wr (cf.lambda st) i v) (cf.lists st) (cf.where_ st) (cf.LoL st)
        (cf.num_left st) (cf.col st).

(** [num_left] is an [unsigned int]. *)
Definition set_num_left (st : cf.state) (n : Z) : cf.state :=
  cf.mk (cf.vec st) (cf.lambda st) (cf.lists st) (cf.where_ st) (cf.LoL st)
        (to_unsigned n) (cf.col st).

Definition set_col (st : cf.state) (c : Z) : cf.state :=
  cf.mk (cf.vec st) (cf.lambda st) (cf.lists st) (cf.where_ st) (cf.LoL st)
        (cf.num_left st) c.

(** 1. Initialize lambda. *)
Definition init_lambda (lambda : list Z) : list Z :=
  fold_left (fun lambda i =>
               wr lambda i (rd 0 (iCSRmat.IA ST) (i + 1) - rd 0 (iCSRmat.IA ST) i))
    (range 0 row) lambda.

(** 2. Filter out the variables which have no connections at all and assign
    special F-variables. *)
Definition filter_isolated (st : cf.state) : cf.state :=
  fold_left (fun st i =>
               if rd 0 ia (i + 1) - rd 0 ia i <=? 1 then set_lambda (set_vec st i ISPT) i 0
               else set_num_left (set_vec st i UNPT) (cf.num_left st + 1))
    (range 0 row) st.

(** 3. Set the variables with nonpositive measure as F-variables. *)
Definition nonpositive_measure_step (st : cf.state) (i : Z) : option cf.state :=
  let measure := rd 0 (cf.lambda st) i in
  if negb (rd 0 (cf.vec st) i =? ISPT) then
    if measure >? 0 then Some (do_enter_list st (rd 0 (cf.lambda st) i) i)
    else
      let st := set_vec st i FGPT in
      let? st := foldM (fun st k =>
                 let j := rd 0 (iCSRmat.JA S) k in
                 if negb (rd 0 (cf.vec st) j =? ISPT) then
                   if j <? i then
                     let new_meas := rd 0 (cf.lambda st) j in
                     let? st := (if new_meas >? 0 then do_remove_point st new_meas j
                               else Some st) in
                     let new_meas := rd 0 (cf.lambda st) j + 1 in
                     let st := set_lambda st j new_meas in
                     Some (do_enter_list st new_meas j)
                   else Some (set_lambda st j (rd 0 (cf.lambda st) j + 1))
                 else Some st)
              (S_positions i) st in
      Some (set_num_left st (cf.num_left st - 1))
  else Some st.

(** The inner loop shared by both halves of the main loop: every undecided
    strong neighbour [k] of the new F-point [j] gains one in measure. *)
Definition raise_neighbours (st : cf.state) (j : Z) : option cf.state :=
  foldM (fun st l =>
           let k := rd 0 (iCSRmat.JA S) l in
           if rd 0 (cf.vec st) k =? UNPT then
             let? st := do_remove_point st (rd 0 (cf.lambda st) k) k in
             let new_meas := rd 0 (cf.lambda st) k + 1 in
             let st := set_lambda st k new_meas in
             Some (do_enter_list st new_meas k)
           else Some st)
    (S_positions j) st.

(** 4. One round of the main loop: pick the point of maximal measure. *)
Definition main_round (st : cf.state) : option cf.state :=
  match cf.LoL st with
  | [] => None
  | LoL_head :: _ =>
      let maxnode := to_unsigned (ListElement.head LoL_head) in
      let maxlambda := to_unsigned (rd 0 (cf.lambda st) maxnode) in
      let st := set_vec st maxnode CGPT in
      let st := set_lambda st maxnode 0 in
      let st := set_num_left st (cf.num_left st - 1) in
      let? st := do_remove_point st (to_int maxlambda) (to_int maxnode) in
      let st := set_col st (cf.col st + 1) in
      (* for all j in S_i^T cap U: F := F cup {j}, U := U minus {j} *)
      let? st := foldM (fun st i =>
                 let j := rd 0 (iCSRmat.JA ST) i in
                 if rd 0 (cf.vec st) j =? UNPT then
                   let st := set_vec st j FGPT in
                   let? st := do_remove_point st (rd 0 (cf.lambda st) j) j in
                   let st := set_num_left st (cf.num_left st - 1) in
                   raise_neighbours st j
                 else Some st)
              (ST_positions maxnode) st in
      foldM (fun st i =>
               let j := rd 0 (iCSRmat.JA S) i in
               if rd 0 (cf.vec st) j =? UNPT then
                 let measure := rd 0 (cf.lambda st) j in
                 let? st := do_remove_point st measure j in
                 let measure := measure - 1 in
                 let st := set_lambda st j measure in
                 if measure >? 0 then Some (do_enter_list st measure j)
                 else
                   let st := set_vec st j FGPT in
                   let st := set_num_left st (cf.num_left st - 1) in
                   raise_neighbours st j
               else Some st)
        (S_positions maxnode) st
  end.

(** [while (num_left>0) ...], for at most [fuel] rounds. *)
Fixpoint main_rounds (fuel : nat) (st : cf.state) : option cf.state :=
  if cf.num_left st >? 0 then
    match fuel with
    | O => None
    | Datatypes.S fuel' => let? st := main_round st in main_rounds fuel' st
    end
  else Some st.

(** Coarsening Phase ONE: find coarse level points.  The four work arrays
    are [row] zeroed cells each.  Every round of the main loop lowers
    [num_left], which starts at no more than [row]; a run in which the
    unsigned counter wraps around and the loop goes on has no result here. *)
Definition phase_one (vec : list Z) : option cf.state :=
  let work := calloc 0 row in
  let st := cf.mk vec (init_lambda work) work work [] 0 0 in
  let st := filter_isolated st in
  let? st := foldM nonpositive_measure_step (range 0 row) st in
  main_rounds (Z.to_nat row + 1) st.

(** The variables of the second phase. *)
Record phase_two_state : Type := {
  p2_i : Z;
  p2_vec : list Z;
  p2_col : Z;
  p2_ci_tilde : Z;
  p2_ci_tilde_mark : Z;
  p2_C_i_nonempty : bool;
  p2_graph_array : list Z
}.

(** [for (ji ...) { j = S->JA[ji]; if (vec[j] == CGPT) graph_array[j] = i; }] *)
Definition mark_coarse_neighbours (vec graph_array : list Z) (i : Z) : list Z :=
  fold_left (fun graph_array ji =>
               let j := rd 0 (iCSRmat.JA S) ji in
               if rd 0 vec j =? CGPT then wr graph_array j i else graph_array)
    (S_positions i) graph_array.

(** [set_empty] after the loop over the strong neighbours of [j]: no strong
    neighbour of [j] is marked by [i]. *)
Definition set_empty (graph_array : list Z) (i j : Z) : bool :=
  negb (existsb (fun jj => rd 0 graph_array (rd 0 (iCSRmat.JA S) jj) =? i) (S_positions j)).

(** The second loop over the strong neighbours of [i] up to its [break]: the
    first fine neighbour [j] of [i] without a common coarse neighbour. *)
Definition first_unsupported (vec graph_array : list Z) (i : Z) : option Z :=
  find (fun j => (rd 0 vec j =? FGPT) && set_empty graph_array i j)
    (map (rd 0 (iCSRmat.JA S)) (S_positions i)).

(** One round of the loop of the second phase, with its [++i]. *)
Definition phase_two_round (st : phase_two_state) : phase_two_state :=
  let i := p2_i st in
  let ci_tilde_mark := Z.lor (p2_ci_tilde_mark st) i in
  let ci_tilde := if negb (ci_tilde_mark =? 0) then -1 else p2_ci_tilde st in
  let vec := p2_vec st in
  if rd 0 vec i =? FGPT then
    let graph_array := mark_coarse_neighbours vec (p2_graph_array st) i in
    match first_unsupported vec graph_array i with
    | Some j =>
        if p2_C_i_nonempty st then
          let vec := wr vec i CGPT in
          let col := p2_col st + 1 in
          if ci_tilde >? -1 then
            Build_phase_two_state (i + 1) (wr vec ci_tilde FGPT) (col - 1) (-1)
              ci_tilde_mark false graph_array
          else
            Build_phase_two_state (i + 1) vec col ci_tilde ci_tilde_mark false graph_array
        else
          (* ci_tilde = j; ci_tilde_mark = i; vec[j] = CGPT; col++; i--; *)
          Build_phase_two_state (i - 1 + 1) (wr vec j CGPT) (p2_col st + 1) j i true graph_array
    | None =>
        Build_phase_two_state (i + 1) vec (p2_col st) ci_tilde ci_tilde_mark
          (p2_C_i_nonempty st) graph_array
    end
  else
    Build_phase_two_state (i + 1) vec (p2_col st) ci_tilde ci_tilde_mark
      (p2_C_i_nonempty st) (p2_graph_array st).

(** [for (i=0; i < row; ++i) ...], for at most [fuel] rounds. *)
Fixpoint phase_two_loop (fuel : nat) (st : phase_two_state) : option phase_two_state :=
  if p2_i st <? row then
    match fuel with
    | O => None
    | Datatypes.S fuel' => phase_two_loop fuel' (phase_two_round st)
    end
  else Some st.

(** Coarsening Phase TWO: check fine points for coarse neighbors.  Every
    vertex is visited at most twice. *)
Definition phase_two (vec : list Z) (col : Z) : option phase_two_state :=
  let graph_array := fold_left (fun g i => wr g i (-1)) (range 0 row) (calloc 0 row) in
  phase_two_loop (2 * Z.to_nat row + 1)
    (Build_phase_two_state 0 vec col (-1) (-1) false graph_array).

(** [form_coarse_level], with the transpose [ST] of [S] given: the markers
    [vertices->val] on return and the returned number of coarse points. *)
Definition form_coarse_level_with (vec : list Z) : option (list Z * Z) :=
  let? st := phase_one vec in
  let? st := phase_two (cf.vec st) (cf.col st) in
  Some (p2_vec st, p2_col st).

End FormCoarseLevel.

(** [form_coarse_level(A, S, vertices, row)]; only [A->IA] is read. *)
Definition form_coarse_level {R : Type} (A : dCSRmat.t R) (S : iCSRmat.t) (vertices : list Z)
    (row : Z) : option (list Z * Z) :=
  form_coarse_level_with (dCSRmat.IA A) S (fasp_icsr_trans S) row vertices.

(** *** The splitting on return *)

Section CFSplitSpec.
Variable S : iCSRmat.t.

(** The strong neighbours of [i]: the columns in its row of [S]. *)
Definition strong_neighbours (i : Z) : list Z :=
  csr_row (iCSRmat.IA S) (iCSRmat.JA S) i.

(** Every column of the first [row] rows of [S] is a vertex. *)
Definition columns_in_range (row : Z) : bool :=
  forallb (fun i => forallb (fun j => (0 <=? j) && (j <? row)) (strong_neighbours i))
    (range 0 row).

Definition has_coarse_neighbour (vec : list Z) (i : Z) : bool :=
  existsb (fun k => rd 0 vec k =? CGPT) (strong_neighbours i).

Definition has_fine_neighbour (vec : list Z) (i : Z) : bool :=
  existsb (fun j => rd 0 vec j =? FGPT) (strong_neighbours i).

(** [i] and [j] have a common strong neighbour that is COARSE. *)
Definition share_coarse_neighbour (vec : list Z) (i j : Z) : bool :=
  existsb (fun k => (rd 0 vec k =? CGPT) && existsb (Z.eqb k) (strong_neighbours j))
    (strong_neighbours i).

(** Every FINE strong neighbour of [i] shares a COARSE strong neighbour with
    [i]: the aim of the second phase. *)
Definition supported (vec : list Z) (i : Z) : bool :=
  forallb (fun j => negb (rd 0 vec j =? FGPT) || share_coarse_neighbour vec i j)
    (strong_neighbours i).

(** The invariant of the loop of the second phase, for markers of length
    [n]: the fine vertices before [i] are supported, and [graph_array] holds
    [i] only at coarse strong neighbours of [i]. *)
Definition phase_two_inv (row : Z) (n : nat) (st : phase_two_state) : Prop :=
  0 <= p2_i st /\
  length (p2_vec st) = n /\
  row <= Z.of_nat (length (p2_graph_array st)) /\
  (forall i', 0 <= i' < p2_i st -> rd 0 (p2_vec st) i' = FGPT ->
              supported (p2_vec st) i' = true) /\
  (forall x, 0 <= x < row ->
             rd 0 (p2_graph_array st) x <= p2_i st /\
             (rd 0 (p2_graph_array st) x = p2_i st ->
              In x (strong_neighbours (p2_i st)) /\ rd 0 (p2_vec st) x = CGPT)) /\
  (p2_ci_tilde st > -1 -> rd 0 (p2_vec st) (p2_ci_tilde st) = CGPT).

(** What is left of the loop of the second phase: two visits per vertex. *)
Definition phase_two_measure (row : Z) (st : phase_two_state) : Z :=
  2 * (row - p2_i st) + (if p2_C_i_nonempty st then 0 else 1).

End CFSplitSpec.

(** A 3 x 3 matrix whose first row is diagonally dominant: with the
    thresholds [0.75] and [0.75] all its couplings are weak. *)
Definition cf_example_A : dCSRmat.t float :=
  dCSRmat.mk 3 3 9 [0; 3; 6; 9] [0; 1; 2; 0; 1; 2; 0; 1; 2]
    [4; -0.25; -0.25; -1; 4; -2; -1; -2; 4]%float.

Definition cf_example_param : AMG_param.t float :=
  AMG_param.mk 0.75%float 0.75%float.

Definition cf_example_S : iCSRmat.t := iCSRmat.mk 3 3 2 [0; 0; 1; 2] [2; 1] [].

(** The strength graph of the complete graph on four vertices. *)
Definition cf_complete_A : dCSRmat.t float :=
  dCSRmat.mk 4 4 16 [0; 4; 8; 12; 16] [0; 1; 2; 3; 0; 1; 2; 3; 0; 1; 2; 3; 0; 1; 2; 3]
    [3; -1; -1; -1; -1; 3; -1; -1; -1; -1; 3; -1; -1; -1; -1; 3]%float.

Definition cf_complete_S : iCSRmat.t :=
  iCSRmat.mk 4 4 12 [0; 3; 6; 9; 12] [1; 2; 3; 0; 2; 3; 0; 1; 3; 0; 1; 2] [].

(** *** The list of lists and the markers: what the splitting keeps *)

(** The measures of the list of lists decrease strictly from [LoL_head] to
    [LoL_tail]. *)
Fixpoint LoL_decreasing (LoL : list ListElement.t) : bool :=
  match LoL with
  | [] => true
  | e :: rest =>
      match rest with
      | [] => true
      | e' :: _ => (ListElement.data e >? ListElement.data e') && LoL_decreasing rest
      end
  end.

(** The number of vertices below [row] whose marker is COARSE. *)
Definition count_coarse (vec : list Z) (row : Z) : Z :=
  Z.of_nat (length (List.filter (fun i => rd 0 vec i =? CGPT) (range 0 row))).

(** A list of lists with the measures 3 and 1, over five points: points 0
    and 2 have measure 3, point 4 has measure 1. *)
Definition LoL_example : list ListElement.t :=
  [ListElement.mk 3 0 2; ListElement.mk 1 4 4].

Definition LoL_example_lists : list Z := [2; 0; LIST_TAIL; 0; LIST_TAIL].

Definition LoL_example_where : list Z := [LIST_HEAD; 0; 0; 0; LIST_HEAD].

(** *** coarsening_rs.c: the classical Ruge-Stuben strength graph *)

Section GenerateSRS.
Context {R : Type} `{Real R}.

(** The positions [A->IA[i], ..., A->IA[i+1]-1] of row [i]. *)
Definition A_positions (A : dCSRmat.t R) (i : Z) : list Z :=
  range (rd 0 (dCSRmat.IA A) i) (rd 0 (dCSRmat.IA A) (i + 1)).

(** The size that decides the strength of an entry: [-A->val[j]] for
    [coarsening_type == 2], [ABS(A->val[j])] for [coarsening_type == 3]. *)
Definition rs_size (A : dCSRmat.t R) (coarsening_type : Z) (j : Z) : R :=
  if coarsening_type =? 2 then (- rd zero (dCSRmat.val A) j)%r
  else ABS (rd zero (dCSRmat.val A) j).

(** [amax[i]]: the largest size among the off-diagonal entries of row [i],
    not below zero. *)
Definition rs_amax_row (A : dCSRmat.t R) (coarsening_type : Z) (i : Z) : R :=
  fold_left (fun amax j =>
               if (rs_size A coarsening_type j >? amax)%r
                  && negb (rd 0 (dCSRmat.JA A) j =? i)
               then rs_size A coarsening_type j else amax)
    (A_positions A i) zero.

(** The array [amax]: [calloc]ed, and filled only for the coarsening types 2
    and 3. *)
Definition rs_amax (A : dCSRmat.t R) (coarsening_type : Z) : list R :=
  let amax := calloc zero (dCSRmat.row A) in
  let fill amax :=
    fold_left (fun amax i => wr amax i (rs_amax_row A coarsening_type i))
      (range 0 (dCSRmat.row A)) amax in
  let amax := if coarsening_type =? 2 then fill amax else amax in
  if coarsening_type =? 3 then fill amax else amax.

(** The test of both later loops:
    [size >= epsilon_str*amax[i] && A->JA[j] != i]. *)
Definition rs_strong (A : dCSRmat.t R) (epsilon_str : R) (coarsening_type : Z)
    (amax : list R) (i j : Z) : bool :=
  (rs_size A coarsening_type j >=? epsilon_str * rd zero amax i)%r
  && negb (rd 0 (dCSRmat.JA A) j =? i).

(** [generate_S_rs(A, S, epsilon_str, coarsening_type)].  The field
    [S->nnz] is not assigned: it is what it was in [S] before the call. *)
Definition generate_S_rs (A : dCSRmat.t R) (S : iCSRmat.t) (epsilon_str : R)
    (coarsening_type : Z) : iCSRmat.t :=
  let amax := rs_amax A coarsening_type in
  let row := dCSRmat.row A in
  (* step 1: Find first the structure IA of S *)
  let SIA := calloc 0 (row + 1) in
  let count SIA :=
    fold_left (fun SIA i =>
      fold_left (fun SIA j =>
                   if rs_strong A epsilon_str coarsening_type amax i j
                   then wr SIA (i + 1) (rd 0 SIA (i + 1) + 1) else SIA)
        (A_positions A i) SIA) (range 0 row) SIA in
  let SIA := if coarsening_type =? 2 then count SIA else SIA in
  let SIA := if coarsening_type =? 3 then count SIA else SIA in
  let SIA := fold_left (fun SIA i => wr SIA (i + 1) (rd 0 SIA (i + 1) + rd 0 SIA i))
               (range 0 row) SIA in
  (* step 2: Find the structure JA of S *)
  let SJA := calloc 0 (rd 0 SIA row) in
  let fill (st : list Z * Z) :=
    fold_left (fun st i =>
      fold_left (fun '(SJA, index) j =>
                   if rs_strong A epsilon_str coarsening_type amax i j
                   then (wr SJA index (rd 0 (dCSRmat.JA A) j), index + 1)
                   else (SJA, index))
        (A_positions A i) st) (range 0 row) st in
  let st := (SJA, 0) in
  let st := if coarsening_type =? 2 then fill st else st in
  let st := if coarsening_type =? 3 then fill st else st in
  iCSRmat.mk row (dCSRmat.col A) (iCSRmat.nnz S) SIA (fst st) [].

(** The strong couplings of row [i], in the order of [A]. *)
Definition rs_row (A : dCSRmat.t R) (epsilon_str : R) (coarsening_type : Z) (i : Z)
    : list Z :=
  map (rd 0 (dCSRmat.JA A))
    (List.filter (rs_strong A epsilon_str coarsening_type (rs_amax A coarsening_type) i)
       (A_positions A i)).

End GenerateSRS.

(** Rows laid out one after the other in a CSR pattern: where row [n]
    starts, and the rows before it. *)
Definition csr_offset (rowf : Z -> list Z) (n : Z) : Z :=
  fold_left (fun acc i => acc + Z.of_nat (length (rowf i))) (range 0 n) 0.

Definition csr_rows_upto (rowf : Z -> list Z) (n : Z) : list Z :=
  concat (map rowf (range 0 n)).

(** [[4 -1 -2] [-1 4 1] [-2 1 4]]. *)
Definition rs_example_A : dCSRmat.t float :=
  dCSRmat.mk 3 3 9 [0; 3; 6; 9] [0; 1; 2; 0; 1; 2; 0; 1; 2]
    [4; -1; -2; -1; 4; 1; -2; 1; 4]%float.

Definition rs_example_S0 : iCSRmat.t := iCSRmat.mk 0 0 0 [] [] [].

(** *** coarsening_rs.c: the coarsening as a whole *)

Section AmgCoarseningRS.
Context {R : Type} `{Real R}.

(** The status codes [SUCCESS] and [RUN_FAIL] of the header, and the
    compatible-relaxation coarsening [fasp_amg_coarsening_cr] of
    coarsening_cr.c, which [coarsening_type == 3] calls: the markers and the
    number of coarse points it leaves. *)
Variables SUCCESS RUN_FAIL : Z.
Variable fasp_amg_coarsening_cr :
  Z -> Z -> dCSRmat.t R -> list Z -> AMG_param.t R -> option (list Z * Z).

(** [fasp_amg_coarsening_rs(A, vertices, P, param)]: the returned status,
    the markers [vertices->val] and the matrix [P] on return.
    [coarsening_type] is [param->coarsening_type]; [S] stands for the local
    variable [S] as it is before [generate_S_rs] fills it. *)
Definition fasp_amg_coarsening_rs (A : dCSRmat.t R) (vertices : list Z) (P : dCSRmat.t R)
    (param : AMG_param.t R) (coarsening_type : Z) (S : iCSRmat.t)
    : option (Z * list Z * dCSRmat.t R) :=
  let row := dCSRmat.row A in
  let epsilon_str := AMG_param.strong_threshold param in
  (* Step 1: generate S and S transpose *)
  let S :=
    if coarsening_type =? 1 then generate_S A param
    else if coarsening_type =? 3 then generate_S A param
    else generate_S_rs A S epsilon_str coarsening_type in
  if iCSRmat.nnz S =? 0 then Some (RUN_FAIL, vertices, P)
  else
    (* Step 2: standard coarsening algorithm *)
    let? split :=
      (if coarsening_type =? 3 then fasp_amg_coarsening_cr 0 (row - 1) A vertices param
       else form_coarse_level A S vertices row) in
    let '(vec, col) := split in
    (* Step 3: generate sparsity pattern of P *)
    Some (SUCCESS, vec, generate_sparsity_P S vec row col).

End AmgCoarseningRS.

(** A diagonal matrix. *)
Definition diagonal_example_A : dCSRmat.t float :=
  dCSRmat.mk 2 2 2 [0; 1; 2] [0; 1] [2; 3]%float.

(** ** io.c *)

Module dCOOmat.
Record t (V : Type) : Type := mk {
  row : Z;
  col : Z;
  nnz : Z;
  I : list Z;
  J : list Z;
  val : list V
}.
Arguments mk {V} row col nnz I J val.
Arguments row {V} _.
Arguments col {V} _.
Arguments nnz {V} _.
Arguments I {V} _.
Arguments J {V} _.
Arguments val {V} _.
End dCOOmat.

(** *** Formatted input

    What one conversion of [fscanf] does with the unread rest of a file,
    after it has skipped white space: it reads and converts a number
    ([Match]), or the text at hand is not such a number and nothing is
    assigned ([Mismatch], a matching failure), or the file is at its end
    ([InputEnd], an input failure). *)
Inductive scanned (A FILE : Type) : Type :=
  | Match (a : A) (rest : FILE)
  | Mismatch (rest : FILE)
  | InputEnd.
Arguments Match {A FILE} a rest.
Arguments Mismatch {A FILE} rest.
Arguments InputEnd {A FILE}.

(** The value [fscanf] returns: [EOF] when the input ends before the first
    conversion, otherwise the number of items assigned. *)
Inductive fscanf_ret : Type :=
  | EOF
  | Items (n : Z).

(** [ret != EOF] *)
Definition not_EOF (ret : fscanf_ret) : bool :=
  match ret with
  | EOF => false
  | Items _ => true
  end.

(** The locals [m], [n], [nnz], [i], [j] and [value] of the readers are not
    initialised: their first contents are whatever the stack holds. *)
Record locals (V : Type) : Type := {
  m0 : Z;
  n0 : Z;
  nnz0 : Z;
  i0 : Z;
  j0 : Z;
  value0 : V
}.
Arguments Build_locals {V} m0 n0 nnz0 i0 j0 value0.
Arguments m0 {V} _.
Arguments n0 {V} _.
Arguments nnz0 {V} _.
Arguments i0 {V} _.
Arguments j0 {V} _.
Arguments value0 {V} _.

Section IO.
Context {V FILE : Type} (v0 : V).

(** The conversions [%d] and [%le] of the C library. *)
Variable scan_d : FILE -> scanned Z FILE.
Variable scan_le : FILE -> scanned V FILE.

(** [fscanf(fp, "%d %d %d", &m, &n, &nnz)]: the value returned, the three
    variables and the rest of the file.  The conversions are made in turn
    up to the first that fails; a variable that is not assigned keeps its
    contents. *)
Definition fscanf_d_d_d (fp : FILE) (m n nnz : Z) : fscanf_ret * (Z * Z * Z) * FILE :=
  match scan_d fp with
  | InputEnd => (EOF, (m, n, nnz), fp)
  | Mismatch fp => (Items 0, (m, n, nnz), fp)
  | Match m fp =>
      match scan_d fp with
      | InputEnd => (Items 1, (m, n, nnz), fp)
      | Mismatch fp => (Items 1, (m, n, nnz), fp)
      | Match n fp =>
          match scan_d fp with
          | InputEnd => (Items 2, (m, n, nnz), fp)
          | Mismatch fp => (Items 2, (m, n, nnz), fp)
          | Match nnz fp => (Items 3, (m, n, nnz), fp)
          end
      end
  end.

(** [fscanf(fp, "%d %d %le", &i, &j, &value)] *)
Definition fscanf_d_d_le (fp : FILE) (i j : Z) (value : V)
    : fscanf_ret * (Z * Z * V) * FILE :=
  match scan_d fp with
  | InputEnd => (EOF, (i, j, value), fp)
  | Mismatch fp => (Items 0, (i, j, value), fp)
  | Match i fp =>
      match scan_d fp with
      | InputEnd => (Items 1, (i, j, value), fp)
      | Mismatch fp => (Items 1, (i, j, value), fp)
      | Match j fp =>
          match scan_le fp with
          | InputEnd => (Items 2, (i, j, value), fp)
          | Mismatch fp => (Items 2, (i, j, value), fp)
          | Match value fp => (Items 3, (i, j, value), fp)
          end
      end
  end.

(** Modelled from the spec: [fasp_dcoo_create(m,n,nnz)] is not among the
    sources; a COO matrix owns the arrays [I[0..nnz-1]], [J[0..nnz-1]] and
    [val[0..nnz-1]]. *)
Definition fasp_dcoo_create (m n nnz : Z) : dCOOmat.t V :=
  dCOOmat.mk m n nnz (calloc 0 nnz) (calloc 0 nnz) (calloc v0 nnz).

(** The reading loop of [fasp_dmtxsym_read], [while (innz < nnz) ...], for
    at most [fuel] rounds; [None] when the rounds are used up before the
    loop is left.  [nnz] is the adjusted count, the size of the arrays of
    [Atmp].  The value of [fscanf] is compared with [EOF] and with nothing
    else: after a conversion that failed the round goes on with the former
    contents of [i], [j] and [value]. *)
Fixpoint dmtxsym_read_loop (fuel : nat) (fp : FILE) (Atmp : dCOOmat.t V)
    (i j : Z) (value : V) (innz nnz : Z) : option (result (dCOOmat.t V)) :=
  if innz <? nnz then
    match fuel with
    | O => None
    | S fuel =>
        let '(ret, (i, j, value), fp) := fscanf_d_d_le fp i j value in
        if not_EOF ret then
          if i =? j then
            let Atmp := dCOOmat.mk (dCOOmat.row Atmp) (dCOOmat.col Atmp) (dCOOmat.nnz Atmp)
                          (wr (dCOOmat.I Atmp) innz (i - 1))
                          (wr (dCOOmat.J Atmp) innz (j - 1))
                          (wr (dCOOmat.val Atmp) innz value) in
            dmtxsym_read_loop fuel fp Atmp i j value (innz + 1) nnz
          else if innz + 1 <? nnz then
            let Atmp := dCOOmat.mk (dCOOmat.row Atmp) (dCOOmat.col Atmp) (dCOOmat.nnz Atmp)
                          (wr (wr (dCOOmat.I Atmp) innz (i - 1)) (innz + 1) (j - 1))
                          (wr (wr (dCOOmat.J Atmp) innz (j - 1)) (innz + 1) (i - 1))
                          (wr (wr (dCOOmat.val Atmp) innz value) (innz + 1) value) in
            dmtxsym_read_loop fuel fp Atmp i j value (innz + 2) nnz
          else Some Overrun
        else Some (Exit ERROR_WRONG_FILE)
    end
  else Some (Ok Atmp).

(** [fasp_dmtxsym_read] up to the call of [fasp_format_dcoo_dcsr]: the COO
    matrix [Atmp] that is handed to the conversion.  The file [None] is one
    that cannot be opened; [g] holds the first contents of the locals.  The
    value returned by the [fscanf] of the sizes is not looked at. *)
Definition fasp_dmtxsym_read_coo (g : locals V) (file : option FILE)
    : option (result (dCOOmat.t V)) :=
  match file with
  | None => Some (Exit ERROR_OPEN_FILE)
  | Some fp =>
      let '(_, (m, n, nnz), fp) := fscanf_d_d_d fp (m0 g) (n0 g) (nnz0 g) in
      let nnz := 2 * (nnz - m) + m in
      let Atmp := fasp_dcoo_create m n nnz in
      dmtxsym_read_loop (Z.to_nat nnz) fp Atmp (i0 g) (j0 g) (value0 g) 0 nnz
  end.

(** [fasp_dmtxsym_read]: the conversion [fasp_format_dcoo_dcsr] of the COO
    matrix to CSR is not among the sources and is taken as a parameter. *)
Definition fasp_dmtxsym_read {M : Type} (fasp_format_dcoo_dcsr : dCOOmat.t V -> M)
    (g : locals V) (file : option FILE) : option (result M) :=
  match fasp_dmtxsym_read_coo g file with
  | Some (Ok Atmp) => Some (Ok (fasp_format_dcoo_dcsr Atmp))
  | Some (Exit code) => Some (Exit code)
  | Some Overrun => Some Overrun
  | None => None
  end.

(** The entries [(I[k], J[k], val[k])] of a COO matrix, [k < nnz]. *)
Definition coo_entries (A : dCOOmat.t V) : list (Z * Z * V) :=
  map (fun k => (rd 0 (dCOOmat.I A) k, rd 0 (dCOOmat.J A) k, rd v0 (dCOOmat.val A) k))
    (range 0 (dCOOmat.nnz A)).

(** What one triple of a symmetric file stands for, with indices from zero:
    a diagonal entry once, an off-diagonal entry and its mirror image. *)
Definition sym_expand (t : Z * Z * V) : list (Z * Z * V) :=
  let '(i, j, value) := t in
  if i =? j then [(i - 1, j - 1, value)]
  else [(i - 1, j - 1, value); (j - 1, i - 1, value)].


(** *** Files of numbers

    A file that starts with three integers, the sizes: the sizes and the
    rest of the file. *)
Definition scan_sizes (fp : FILE) : option (Z * Z * Z * FILE) :=
  match scan_d fp with
  | Match m fp =>
      match scan_d fp with
      | Match n fp =>
          match scan_d fp with
          | Match nnz fp => Some (m, n, nnz, fp)
          | _ => None
          end
      | _ => None
      end
  | _ => None
  end.

(** A file that goes on with a complete triple [i j value]. *)
Definition scan_triple (fp : FILE) : option (Z * Z * V * FILE) :=
  match scan_d fp with
  | Match i fp =>
      match scan_d fp with
      | Match j fp =>
          match scan_le fp with
          | Match value fp => Some (i, j, value, fp)
          | _ => None
          end
      | _ => None
      end
  | _ => None
  end.

(** A file that goes on with [count] complete triples: the triples and the
    rest of the file. *)
Fixpoint scan_triples (count : nat) (fp : FILE) : option (list (Z * Z * V) * FILE) :=
  match count with
  | O => Some ([], fp)
  | S count =>
      match scan_triple fp with
      | Some (i, j, value, fp) =>
          match scan_triples count fp with
          | Some (body, fp) => Some ((i, j, value) :: body, fp)
          | None => None
          end
      | None => None
      end
  end.

End IO.

(** *** Files written with integers and words

    A file as a sequence of pieces of text, white space apart: [Num z v] is a
    number written without fraction or exponent, such as [-1], which [%d]
    reads as [z] and [%le] as [v]; [Word] is text that begins no number,
    such as the banner [%%MatrixMarket] of a MatrixMarket file, which no
    conversion reads and every conversion leaves in the file. *)
Inductive token (V : Type) : Type :=
  | Num (z : Z) (v : V)
  | Word.
Arguments Num {V} z v.
Arguments Word {V}.

Definition token_d {V : Type} (fp : list (token V)) : scanned Z (list (token V)) :=
  match fp with
  | [] => InputEnd
  | Num z _ :: rest => Match z rest
  | Word :: _ => Mismatch fp
  end.

Definition token_le {V : Type} (fp : list (token V)) : scanned V (list (token V)) :=
  match fp with
  | [] => InputEnd
  | Num _ v :: rest => Match v rest
  | Word :: _ => Mismatch fp
  end.

(** The double that the text of a (small) integer stands for. *)
Fixpoint float_of_pos (p : positive) : float :=
  match p with
  | xH => 1%float
  | xO p => (2 * float_of_pos p)%float
  | xI p => (2 * float_of_pos p + 1)%float
  end.

Definition float_of_Z (z : Z) : float :=
  match z with
  | Z0 => 0%float
  | Zpos p => float_of_pos p
  | Zneg p => (- float_of_pos p)%float
  end.

Definition num (z : Z) : token float := Num z (float_of_Z z).

(** Stack contents for the examples. *)
Definition locals_example : locals float := Build_locals 7 7 2 5 3 9%float.

(** The symmetric matrix [[4 -1 -1] [-1 0 -1] [-1 -1 0]]: the first line
    declares 3 rows and 4 stored entries, the lower triangle without the
    two zero diagonal entries.  No banner line. *)
Definition dmtxsym_example_file : list (token float) :=
  map num [3; 3; 4;  1; 1; 4;  2; 1; -1;  3; 1; -1;  3; 2; -1].

(** The matrix [[2 -1] [-1 2]], lower triangle, all diagonal entries stored;
    no banner line. *)
Definition dmtxsym_full_diagonal_file : list (token float) :=
  map num [2; 2; 3;  1; 1; 2;  2; 1; -1;  2; 2; 2].

(** The same file as MatrixMarket writes it, with the banner line
    [%%MatrixMarket matrix coordinate real symmetric] at its head. *)
Definition dmtxsym_banner_file : list (token float) :=
  [Word; Word; Word; Word; Word] ++ dmtxsym_full_diagonal_file.

(** ** io.c: the coordinate readers and the integer vector files *)

Module ivector.
Record t : Type := mk { row : Z; val : list Z }.
End ivector.

Section IOMore.
Context {V FILE : Type} (v0 : V).
Variable scan_d : FILE -> scanned Z FILE.
Variable scan_le : FILE -> scanned V FILE.

(** The reading loop of [fasp_dcoo_read], [for (k=0;k<nnz;k++)], for at
    most [fuel] rounds: one [fscanf] per round, whose value is compared
    with [EOF] only; the indices are stored as the variables hold them. *)
Fixpoint dcoo_read_loop (fuel : nat) (fp : FILE) (Atmp : dCOOmat.t V)
    (i j : Z) (value : V) (k nnz : Z) : option (result (dCOOmat.t V)) :=
  if k <? nnz then
    match fuel with
    | O => None
    | S fuel =>
        let '(ret, (i, j, value), fp) := fscanf_d_d_le scan_d scan_le fp i j value in
        if not_EOF ret then
          let Atmp := dCOOmat.mk (dCOOmat.row Atmp) (dCOOmat.col Atmp) (dCOOmat.nnz Atmp)
                        (wr (dCOOmat.I Atmp) k i)
                        (wr (dCOOmat.J Atmp) k j)
                        (wr (dCOOmat.val Atmp) k value) in
          dcoo_read_loop fuel fp Atmp i j value (k + 1) nnz
        else Some (Exit ERROR_WRONG_FILE)
    end
  else Some (Ok Atmp).

(** [fasp_dcoo_read] up to the call of [fasp_format_dcoo_dcsr]. *)
Definition fasp_dcoo_read_coo (g : locals V) (file : option FILE)
    : option (result (dCOOmat.t V)) :=
  match file with
  | None => Some (Exit ERROR_OPEN_FILE)
  | Some fp =>
      let '(_, (m, n, nnz), fp) := fscanf_d_d_d scan_d fp (m0 g) (n0 g) (nnz0 g) in
      let Atmp := fasp_dcoo_create v0 m n nnz in
      dcoo_read_loop (Z.to_nat nnz) fp Atmp (i0 g) (j0 g) (value0 g) 0 nnz
  end.

Definition fasp_dcoo_read {M : Type} (fasp_format_dcoo_dcsr : dCOOmat.t V -> M)
    (g : locals V) (file : option FILE) : option (result M) :=
  match fasp_dcoo_read_coo g file with
  | Some (Ok Atmp) => Some (Ok (fasp_format_dcoo_dcsr Atmp))
  | Some (Exit code) => Some (Exit code)
  | Some Overrun => Some Overrun
  | None => None
  end.

(** The reading loop of [fasp_dmtx_read], [while (innz < nnz)]: the indices
    are moved from 1-based to 0-based. *)
Fixpoint dmtx_read_loop (fuel : nat) (fp : FILE) (Atmp : dCOOmat.t V)
    (i j : Z) (value : V) (innz nnz : Z) : option (result (dCOOmat.t V)) :=
  if innz <? nnz then
    match fuel with
    | O => None
    | S fuel =>
        let '(ret, (i, j, value), fp) := fscanf_d_d_le scan_d scan_le fp i j value in
        if not_EOF ret then
          let Atmp := dCOOmat.mk (dCOOmat.row Atmp) (dCOOmat.col Atmp) (dCOOmat.nnz Atmp)
                        (wr (dCOOmat.I Atmp) innz (i - 1))
                        (wr (dCOOmat.J Atmp) innz (j - 1))
                        (wr (dCOOmat.val Atmp) innz value) in
          dmtx_read_loop fuel fp Atmp i j value (innz + 1) nnz
        else Some (Exit ERROR_WRONG_FILE)
    end
  else Some (Ok Atmp).

(** [fasp_dmtx_read] up to the call of [fasp_format_dcoo_dcsr]. *)
Definition fasp_dmtx_read_coo (g : locals V) (file : option FILE)
    : option (result (dCOOmat.t V)) :=
  match file with
  | None => Some (Exit ERROR_OPEN_FILE)
  | Some fp =>
      let '(_, (m, n, nnz), fp) := fscanf_d_d_d scan_d fp (m0 g) (n0 g) (nnz0 g) in
      let Atmp := fasp_dcoo_create v0 m n nnz in
      dmtx_read_loop (Z.to_nat nnz) fp Atmp (i0 g) (j0 g) (value0 g) 0 nnz
  end.

Definition fasp_dmtx_read {M : Type} (fasp_format_dcoo_dcsr : dCOOmat.t V -> M)
    (g : locals V) (file : option FILE) : option (result M) :=
  match fasp_dmtx_read_coo g file with
  | Some (Ok Atmp) => Some (Ok (fasp_format_dcoo_dcsr Atmp))
  | Some (Exit code) => Some (Exit code)
  | Some Overrun => Some Overrun
  | None => None
  end.

(** A triple of a MatrixMarket file with its indices counted from zero. *)
Definition zero_based (t : Z * Z * V) : Z * Z * V :=
  let '(i, j, value) := t in (i - 1, j - 1, value).

End IOMore.

(** A file of integers as [fprintf("%d")] writes and [fscanf("%d")] reads
    it: the sequence of the numbers, the white space between them left out. *)
Definition int_file : Type := list Z.

(** [fscanf(fp, "%d", &x)]: the next number of the file, if there is one;
    at the end of the file [x] keeps its value. *)
Definition scan_int (tokens : int_file) (x : Z) : Z * int_file :=
  match tokens with
  | [] => (x, [])
  | t :: rest => (t, rest)
  end.

(** Modelled from the spec: [fasp_ivec_alloc(n, b)] is not among the
    sources; it sets [b->row = n] and allocates [n] zero cells for
    [b->val]. *)
Definition fasp_ivec_alloc (n : Z) : ivector.t := ivector.mk n (calloc 0 n).

(** [fasp_ivec_write]: the length, then one line [i val[i]] per entry.
    [opened] tells whether [fopen] succeeded. *)
Definition fasp_ivec_write (opened : bool) (vec : ivector.t) : result int_file :=
  if opened then
    let m := ivector.row vec in
    Ok (m :: flat_map (fun i => [i; rd 0 (ivector.val vec) i]) (range 0 m))
  else Exit ERROR_OPEN_FILE.

Section IvecRead.
(** The locals [n], [index] and [value] are not initialised: their first
    contents are whatever the stack holds. *)
Variables (n0 index0 value0 : Z).

(** One round of the loop of [fasp_ivecind_read]: the state is the rest of
    the file, [index], [value] and [b->val]. *)
Definition ivecind_read_step (st : result (int_file * Z * Z * list Z)) (i : Z)
    : result (int_file * Z * Z * list Z) :=
  match st with
  | Ok (tokens, index, value, val) =>
      let '(index, tokens) := scan_int tokens index in
      let '(value, tokens) := scan_int tokens value in
      if (0 <=? index) && (index <? Z.of_nat (length val))
      then Ok (tokens, index, value, wr val index value)
      else Overrun
  | Exit code => Exit code
  | Overrun => Overrun
  end.

Definition fasp_ivecind_read (file : option int_file) : result ivector.t :=
  match file with
  | None => Exit ERROR_OPEN_FILE
  | Some tokens =>
      let '(n, tokens) := scan_int tokens n0 in
      let b := fasp_ivec_alloc n in
      match fold_left ivecind_read_step (range 0 n)
              (Ok (tokens, index0, value0, ivector.val b)) with
      | Ok (_, _, _, val) => Ok (ivector.mk n val)
      | Exit code => Exit code
      | Overrun => Overrun
      end
  end.

(** [fasp_ivec_read]: the array format, [val[i]] is the [i]-th number after
    the length. *)
Definition fasp_ivec_read (file : option int_file) : result ivector.t :=
  match file with
  | None => Exit ERROR_OPEN_FILE
  | Some tokens =>
      let '(n, tokens) := scan_int tokens n0 in
      let b := fasp_ivec_alloc n in
      let '(_, _, val) :=
        fold_left (fun '(tokens, value, val) i =>
                     let '(value, tokens) := scan_int tokens value in
                     (tokens, value, wr val i value))
          (range 0 n) (tokens, value0, ivector.val b) in
      Ok (ivector.mk n val)
  end.

End IvecRead.

(** The general MatrixMarket file of [[2 -1] [-1 2]], without banner
    line. *)
Definition dmtx_example_file : list (token float) :=
  map num [2; 2; 4;  1; 1; 2;  1; 2; -1;  2; 1; -1;  2; 2; 2].

(** The same matrix as a coordinate file with indices from zero. *)
Definition dcoo_example_file : list (token float) :=
  map num [2; 2; 4;  0; 0; 2;  0; 1; -1;  1; 0; -1;  1; 1; 2].

Definition ivec_example : ivector.t := ivector.mk 3 [7; -2; 5].
(** ** spbcgs.c: BiCGstab with safe net *)

(** The operations of [math.h] and the constants of the Krylov solvers.
    Modelled from the spec: [STAG_RATIO = 1e-2], [MAX_STAG = 20] and
    [MAX_RESTART = 20] are macros of the header [fasp_const.h], which is not
    among the sources ("Constants MaxStag and MaxRestart are fixed (typically
    20 and 20); STAG_RATIO = 1e-2"). *)
Class KrylovReal (R : Type) `{Real R} : Type := {
  sqrt : R -> R;
  isnan : R -> bool;
  STAG_RATIO : R;
  lit_1em2 : R
}.

#[export] Instance binary64_krylov : KrylovReal float := {
  sqrt := PrimFloat.sqrt;
  isnan := PrimFloat.is_nan;
  STAG_RATIO := 0x1.47ae147ae147bp-7%float;
  lit_1em2 := 0x1.47ae147ae147bp-7%float
}.

Definition MAX_STAG : Z := 20.
Definition MAX_RESTART : Z := 20.

(** Modelled from the spec: the error codes of the solvers are macros of
    [fasp_const.h]; "non-negative values are iteration counts on success", so
    every code is negative.  The numbers are those of the package header. *)
Definition ERROR_SOLVER_STAG : Z := -42.
Definition ERROR_SOLVER_SOLSTAG : Z := -43.
Definition ERROR_SOLVER_TOLSMALL : Z := -44.
Definition ERROR_SOLVER_MISC : Z := -46.
Definition ERROR_SOLVER_MAXIT : Z := -48.

(** The stopping criteria; [STOP_unrecognized] stands for every other value
    of the [SHORT] argument. *)
Inductive stop_type : Type :=
  | STOP_REL_RES
  | STOP_REL_PRECRES
  | STOP_MOD_REL_RES
  | STOP_unrecognized.

(** A matrix format with its matrix-vector products: [blas_mxv A x y] is
    [y] after [y = A*x], and [blas_aAxpy alpha A x y] is [y] after
    [y = alpha*A*x + y]. *)
Class SpMV (R M : Type) : Type := {
  blas_mxv : M -> list R -> list R -> list R;
  blas_aAxpy : R -> M -> list R -> list R -> list R
}.

Section BlasArray.
Context {R : Type} `{KrylovReal R}.

(** Modelled from the spec: the serial array routines [fasp_array_cp] and
    [fasp_blas_array_*] are not among the sources ("Operations over
    contiguous real arrays: axpy, axpby, dot, norms, copy"); the loops are
    those of the siblings [fasp_blas_array_*_omp] of blas_array_omp.c. *)
Definition fasp_array_cp (n : Z) (x y : list R) : list R :=
  fold_left (fun y i => wr y i (rd zero x i)) (range 0 n) y.

Definition fasp_blas_array_axpy (n : Z) (a : R) (x y : list R) : list R :=
  if (a =? one)%r then
    fold_left (fun y i => wr y i (rd zero y i + rd zero x i)%r) (range 0 n) y
  else if (a =? - one)%r then
    fold_left (fun y i => wr y i (rd zero y i - rd zero x i)%r) (range 0 n) y
  else
    fold_left (fun y i => wr y i (rd zero y i + a * rd zero x i)%r) (range 0 n) y.

Definition fasp_blas_array_axpby (n : Z) (a : R) (x : list R) (b : R) (y : list R) : list R :=
  fold_left (fun y i => wr y i (a * rd zero x i + b * rd zero y i)%r) (range 0 n) y.

Definition fasp_blas_array_dotprod (n : Z) (x y : list R) : R :=
  fold_left (fun value i => (value + rd zero x i * rd zero y i)%r) (range 0 n) zero.

Definition fasp_blas_array_norm2 (n : Z) (x : list R) : R :=
  sqrt (fold_left (fun twonorm i => (twonorm + rd zero x i * rd zero x i)%r) (range 0 n) zero).

Definition fasp_blas_array_norminf (n : Z) (x : list R) : R :=
  fold_left (fun infnorm i => MAX infnorm (ABS (rd zero x i))) (range 0 n) zero.

(** Modelled from the spec: [fasp_dvec_isnan] is not among the sources; it
    tells whether the vector "contains NaN". *)
Definition fasp_dvec_isnan (u : list R) : bool := existsb isnan u.

(** Modelled from the spec: the CSR products [fasp_blas_dcsr_mxv] and
    [fasp_blas_dcsr_aAxpy] are not among the sources ("SpMV contracts:
    y <- alpha A x + y for each of CSR, BSR, STR"); each row is summed from
    the left over its stored entries. *)
Definition dcsr_row_dot (A : dCSRmat.t R) (x : list R) (i : Z) : R :=
  fold_left (fun temp k =>
               (temp + rd zero (dCSRmat.val A) k * rd zero x (rd 0 (dCSRmat.JA A) k))%r)
    (range (rd 0 (dCSRmat.IA A) i) (rd 0 (dCSRmat.IA A) (i + 1))) zero.

Definition fasp_blas_dcsr_mxv (A : dCSRmat.t R) (x y : list R) : list R :=
  fold_left (fun y i => wr y i (dcsr_row_dot A x i)) (range 0 (dCSRmat.row A)) y.

Definition fasp_blas_dcsr_aAxpy (alpha : R) (A : dCSRmat.t R) (x y : list R) : list R :=
  fold_left (fun y i => wr y i (rd zero y i + alpha * dcsr_row_dot A x i)%r)
    (range 0 (dCSRmat.row A)) y.

#[export] Instance dcsr_SpMV : SpMV R (dCSRmat.t R) := {
  blas_mxv := fasp_blas_dcsr_mxv;
  blas_aAxpy := fasp_blas_dcsr_aAxpy
}.

End BlasArray.

(** The local variables of the solver. *)
Module bcgs.
Record state (R : Type) : Type := mk {
  u : list R;
  p : list R;
  z : list R;
  r : list R;
  t : list R;
  rho : list R;
  pp : list R;
  s : list R;
  sp : list R;
  u_best : list R;
  iter : Z;
  stag : Z;
  more_step : Z;
  restart_step : Z;
  alpha : R;
  beta : R;
  omega : R;
  temp1 : R;
  temp2 : R;
  absres0 : R;
  absres : R;
  relres : R;
  normu : R;
  normr0 : R;
  reldiff : R;
  factor : R;
  normd : R;
  tempr : R;
  infnormu : R;
  iter_best : Z;
  absres_best : R
}.
Arguments mk {R}.
Arguments u {R} _.
Arguments p {R} _.
Arguments z {R} _.
Arguments r {R} _.
Arguments t {R} _.
Arguments rho {R} _.
Arguments pp {R} _.
Arguments s {R} _.
Arguments sp {R} _.
Arguments u_best {R} _.
Arguments iter {R} _.
Arguments stag {R} _.
Arguments more_step {R} _.
Arguments restart_step {R} _.
Arguments alpha {R} _.
Arguments beta {R} _.
Arguments omega {R} _.
Arguments temp1 {R} _.
Arguments temp2 {R} _.
Arguments absres0 {R} _.
Arguments absres {R} _.
Arguments relres {R} _.
Arguments normu {R} _.
Arguments normr0 {R} _.
Arguments reldiff {R} _.
Arguments factor {R} _.
Arguments normd {R} _.
Arguments tempr {R} _.
Arguments infnormu {R} _.
Arguments iter_best {R} _.
Arguments absres_best {R} _.
End bcgs.

(** How a round of the main loop, or the loop itself, is left. *)
Inductive exit_kind : Type :=
  | Continue
  | Break
  | Loop_end
  | Goto_RESTORE_BESTSOL
  | Goto_FINISHED.

Section Spbcgs.
Context {R : Type} `{KrylovReal R} {M : Type} `{SpMV R M}.

(** The arguments of the solver.  [pc = None] is the null pointer; otherwise
    [fct r z] is the array [z] after the call [pc->fct(r,z,pc->data)].
    Printing is left out, and with it the argument [prtlvl], which only
    selects what is printed. *)
Variable A : M.
Variable b : dvector.t R.
Variable pc : option (list R -> list R -> list R).
Variable tol : R.
Variable MaxIt : Z.
Variable stop : stop_type.

Import bcgs.

Definition m : Z := dvector.row b.
Definition bval : list R := dvector.val b.
Definition maxdiff : R := (tol * STAG_RATIO)%r.
Definition sol_inf_tol : R := SMALLREAL.
Definition TOL_s : R := (tol * lit_1em2)%r.
Definition MaxStag : Z := MAX_STAG.
Definition MaxRestartStep : Z := MAX_RESTART.

(** [if (pc != NULL) pc->fct(x,y,pc->data); else fasp_array_cp(m,x,y);] *)
Definition precond (x y : list R) : list R :=
  match pc with
  | Some fct => fct x y
  | None => fasp_array_cp m x y
  end.

(** Record update helpers. *)
Definition set_vectors (st : state R) (u p z r t rho pp s sp u_best : list R) : state R :=
  mk u p z r t rho pp s sp u_best
     (iter st) (stag st) (more_step st) (restart_step st)
     (alpha st) (beta st) (omega st) (temp1 st) (temp2 st)
     (absres0 st) (absres st) (relres st) (normu st) (normr0 st)
     (reldiff st) (factor st) (normd st) (tempr st) (infnormu st)
     (iter_best st) (absres_best st).

(** The [compute residuals] switch inside the loop: the new [z], [absres]
    and [relres]; [stale] tells the third copy of the switch (in Check III),
    which divides [tempr] by [normr0] under [STOP_REL_PRECRES]. *)
Definition compute_residuals (stale : bool) (r z : list R) (normu normr0 tempr absres relres : R)
    : list R * R * R :=
  match stop with
  | STOP_REL_RES =>
      let absres := fasp_blas_array_norm2 m r in
      (z, absres, (absres / normr0)%r)
  | STOP_REL_PRECRES =>
      let z := precond r z in
      let absres := sqrt (ABS (fasp_blas_array_dotprod m r z)) in
      (z, absres, if stale then (tempr / normr0)%r else (absres / normr0)%r)
  | STOP_MOD_REL_RES =>
      let absres := fasp_blas_array_norm2 m r in
      (z, absres, (absres / normu)%r)
  | STOP_unrecognized => (z, absres, relres)
  end.

(** [re-init iteration param]: the fresh residual [r = b - A*u] and the
    restarted [p], [pp], [rho], [temp1]. *)
Definition reinit (st : state R) : state R :=
  let r := fasp_array_cp m bval (r st) in
  let r := blas_aAxpy (- one)%r A (u st) r in
  let p := fasp_array_cp m r (p st) in
  let pp := precond p (pp st) in
  let rho := fasp_array_cp m r (rho st) in
  let temp1 := fasp_blas_array_dotprod m r rho in
  mk (u st) p (z st) r (t st) rho pp (s st) (sp st) (u_best st)
     (iter st) (stag st) (more_step st) (restart_step st)
     (alpha st) (beta st) (omega st) temp1 (temp2 st)
     (absres0 st) (absres st) (relres st) (normu st) (normr0 st)
     (reldiff st) (factor st) (normd st) (tempr st) (infnormu st)
     (iter_best st) (absres_best st).

Definition set_residuals (st : state R) (z : list R) (absres relres : R) : state R :=
  mk (u st) (p st) z (r st) (t st) (rho st) (pp st) (s st) (sp st) (u_best st)
     (iter st) (stag st) (more_step st) (restart_step st)
     (alpha st) (beta st) (omega st) (temp1 st) (temp2 st)
     (absres0 st) absres relres (normu st) (normr0 st)
     (reldiff st) (factor st) (normd st) (tempr st) (infnormu st)
     (iter_best st) (absres_best st).

Definition set_iter (st : state R) (iter : Z) : state R :=
  mk (u st) (p st) (z st) (r st) (t st) (rho st) (pp st) (s st) (sp st) (u_best st)
     iter (stag st) (more_step st) (restart_step st)
     (alpha st) (beta st) (omega st) (temp1 st) (temp2 st)
     (absres0 st) (absres st) (relres st) (normu st) (normr0 st)
     (reldiff st) (factor st) (normd st) (tempr st) (infnormu st)
     (iter_best st) (absres_best st).

Definition set_counters (st : state R) (stag more_step restart_step : Z) : state R :=
  mk (u st) (p st) (z st) (r st) (t st) (rho st) (pp st) (s st) (sp st) (u_best st)
     (iter st) stag more_step restart_step
     (alpha st) (beta st) (omega st) (temp1 st) (temp2 st)
     (absres0 st) (absres st) (relres st) (normu st) (normr0 st)
     (reldiff st) (factor st) (normd st) (tempr st) (infnormu st)
     (iter_best st) (absres_best st).

(** One BiCGstab step, the residuals, the safe net and Check I: the loop body
    from its first line to the end of Check I. *)
Definition krylov_step (st : state R) : exit_kind * state R :=
  (* pp = precond(p); z = A*pp *)
  let pp := precond (p st) (pp st) in
  let z := blas_mxv A pp (z st) in
  (* alpha = (r,rho)/(A*p,rho) *)
  let temp2 := fasp_blas_array_dotprod m z (rho st) in
  if negb (ABS temp2 >? SMALLREAL)%r then
    (Goto_FINISHED,
     mk (u st) (p st) z (r st) (t st) (rho st) pp (s st) (sp st) (u_best st)
        (iter st) (stag st) (more_step st) (restart_step st)
        (alpha st) (beta st) (omega st) (temp1 st) temp2
        (absres0 st) (absres st) (relres st) (normu st) (normr0 st)
        (reldiff st) (factor st) (normd st) (tempr st) (infnormu st)
        (iter_best st) (absres_best st))
  else
  let alpha := (temp1 st / temp2)%r in
  (* s = r - alpha z; sp = precond(s); t = A*sp *)
  let s := fasp_array_cp m (r st) (s st) in
  let s := fasp_blas_array_axpy m (- alpha)%r z s in
  let sp := precond s (sp st) in
  let t := blas_mxv A sp (t st) in
  (* omega = (t,s)/(t,t) *)
  let tempr := fasp_blas_array_dotprod m t t in
  let omega := if (ABS tempr >? SMALLREAL)%r
               then (fasp_blas_array_dotprod m s t / tempr)%r else zero in
  (* delu = alpha pp + omega sp; u = u + delu *)
  let sp := fasp_blas_array_axpby m alpha pp omega sp in
  let u := fasp_blas_array_axpy m one sp (u st) in
  (* r = s - omega t *)
  let s := fasp_blas_array_axpy m (- omega)%r t s in
  let r := fasp_array_cp m s (r st) in
  (* beta = (r,rho)/(rp,rho) *)
  let temp2 := temp1 st in
  let temp1 := fasp_blas_array_dotprod m r (rho st) in
  if negb (ABS temp2 >? SMALLREAL)%r then
    (Goto_RESTORE_BESTSOL,
     mk u (p st) z r t (rho st) pp s sp (u_best st)
        (iter st) (stag st) (more_step st) (restart_step st)
        alpha (beta st) omega temp1 temp2
        (absres0 st) (absres st) (relres st) (normu st) (normr0 st)
        (reldiff st) (factor st) (normd st) tempr (infnormu st)
        (iter_best st) (absres_best st))
  else
  let beta := (temp1 * alpha / (temp2 * omega))%r in
  (* p = p - omega z; p = r + beta p *)
  let p := fasp_blas_array_axpy m (- omega)%r z (p st) in
  let p := fasp_blas_array_axpby m one r beta p in
  (* compute difference *)
  let normd := fasp_blas_array_norm2 m sp in
  let normu := fasp_blas_array_norm2 m u in
  let reldiff := (normd / normu)%r in
  if (normd <? TOL_s)%r then
    (Goto_FINISHED,
     mk u p z r t (rho st) pp s sp (u_best st)
        (iter st) (stag st) (more_step st) (restart_step st)
        alpha beta omega temp1 temp2
        (absres0 st) (absres st) (relres st) normu (normr0 st)
        reldiff (factor st) normd tempr (infnormu st)
        (iter_best st) (absres_best st))
  else
  (* compute residuals *)
  let '(z, absres, relres) :=
    compute_residuals false r z normu (normr0 st) tempr (absres st) (relres st) in
  (* safe net check: save the best-so-far solution *)
  if fasp_dvec_isnan u then
    (Goto_RESTORE_BESTSOL,
     mk u p z r t (rho st) pp s sp (u_best st)
        (iter st) (stag st) (more_step st) (restart_step st)
        alpha beta omega temp1 temp2
        (absres0 st) BIGREAL relres normu (normr0 st)
        reldiff (factor st) normd tempr (infnormu st)
        (iter_best st) (absres_best st))
  else
  let save := (absres <? absres_best st - maxdiff)%r in
  let absres_best := if save then absres else absres_best st in
  let iter_best := if save then iter st else iter_best st in
  let u_best := if save then fasp_array_cp m u (u_best st) else u_best st in
  (* reduction factor of the residual *)
  let factor := (absres / absres0 st)%r in
  (* Check I: if the solution is close to zero, return ERROR_SOLVER_SOLSTAG *)
  let infnormu := fasp_blas_array_norminf m u in
  let st' :=
    mk u p z r t (rho st) pp s sp u_best
       (iter st) (stag st) (more_step st) (restart_step st)
       alpha beta omega temp1 temp2
       (absres0 st) absres relres normu (normr0 st)
       reldiff factor normd tempr infnormu
       iter_best absres_best in
  if (infnormu <=? sol_inf_tol)%r then (Goto_FINISHED, set_iter st' ERROR_SOLVER_SOLSTAG)
  else (Continue, st').

(** Check II: if stagnated, try to restart. *)
Definition check_stagnation (st : state R) : exit_kind * state R :=
  if (stag st <=? MaxStag) && (reldiff st <? maxdiff)%r then
    let st := reinit st in
    let '(z, absres, relres) :=
      compute_residuals false (r st) (z st) (normu st) (normr0 st) (tempr st)
        (absres st) (relres st) in
    let st := set_residuals st z absres relres in
    if (relres <? tol)%r then (Break, st)
    else if stag st >=? MaxStag then (Goto_FINISHED, set_iter st ERROR_SOLVER_STAG)
    else (Continue, set_counters st (stag st + 1) (more_step st) (restart_step st + 1))
  else (Continue, st).

(** Check III: prevent false convergence. *)
Definition check_false_convergence (st : state R) : exit_kind * state R :=
  if (relres st <? tol)%r then
    let st := reinit st in
    let '(z, absres, relres) :=
      compute_residuals true (r st) (z st) (normu st) (normr0 st) (tempr st)
        (absres st) (relres st) in
    let st := set_residuals st z absres relres in
    if (relres <? tol)%r then (Break, st)
    else if more_step st >=? MaxRestartStep
    then (Goto_FINISHED, set_iter st ERROR_SOLVER_TOLSMALL)
    else (Continue, set_counters st (stag st) (more_step st + 1) (restart_step st + 1))
  else (Continue, st).

(** [absres0 = absres;] at the end of the loop body. *)
Definition end_of_round (st : state R) : state R :=
  mk (u st) (p st) (z st) (r st) (t st) (rho st) (pp st) (s st) (sp st) (u_best st)
     (iter st) (stag st) (more_step st) (restart_step st)
     (alpha st) (beta st) (omega st) (temp1 st) (temp2 st)
     (absres st) (absres st) (relres st) (normu st) (normr0 st)
     (reldiff st) (factor st) (normd st) (tempr st) (infnormu st)
     (iter_best st) (absres_best st).

(** The body of the main loop. *)
Definition loop_body (st : state R) : exit_kind * state R :=
  match krylov_step st with
  | (Continue, st) =>
      match check_stagnation st with
      | (Continue, st) =>
          match check_false_convergence st with
          | (Continue, st) => (Continue, end_of_round st)
          | other => other
          end
      | other => other
      end
  | other => other
  end.

(** [while ( iter++ < MaxIt ) { ... }], for at most [fuel] rounds; [None]
    when the rounds are used up before the loop is left. *)
Fixpoint main_loop (fuel : nat) (st : state R) : option (exit_kind * state R) :=
  if iter st <? MaxIt then
    match fuel with
    | O => None
    | S fuel' =>
        match loop_body (set_iter st (iter st + 1)) with
        | (Continue, st') => main_loop fuel' st'
        | other => Some other
        end
    end
  else Some (Loop_end, set_iter st (iter st + 1)).

(** The residual measure of the stopping criterion for the saved iterate, as
    recomputed at [RESTORE_BESTSOL]: the new [r], [z] and [absres_best]. *)
Definition best_residual (st : state R) : list R * list R * R :=
  let r := fasp_array_cp m bval (r st) in
  let r := blas_aAxpy (- one)%r A (u_best st) r in
  match stop with
  | STOP_REL_RES => (r, z st, fasp_blas_array_norm2 m r)
  | STOP_REL_PRECRES =>
      let z := precond r (z st) in
      (r, z, sqrt (ABS (fasp_blas_array_dotprod m z r)))
  | STOP_MOD_REL_RES => (r, z st, fasp_blas_array_norm2 m r)
  | STOP_unrecognized => (r, z st, absres_best st)
  end.

(** The residual measure of the stopping criterion, from a residual [r]:
    its 2-norm, or [sqrt(|(r, B r)|)] under [STOP_REL_PRECRES]. *)
Definition residual_measure (r z_old : list R) (absres_old : R) : R :=
  match stop with
  | STOP_REL_RES | STOP_MOD_REL_RES => fasp_blas_array_norm2 m r
  | STOP_REL_PRECRES => sqrt (ABS (fasp_blas_array_dotprod m r (precond r z_old)))
  | STOP_unrecognized => absres_old
  end.

(** [RESTORE_BESTSOL:] restore the best-so-far solution if necessary. *)
Definition RESTORE_BESTSOL (st : state R) : state R :=
  if negb (iter st =? iter_best st) then
    let '(r, z, absres_best) := best_residual st in
    let u := if (absres st >? absres_best + maxdiff)%r
             then fasp_array_cp m (u_best st) (u st) else u st in
    mk u (p st) z r (t st) (rho st) (pp st) (s st) (sp st) (u_best st)
       (iter st) (stag st) (more_step st) (restart_step st)
       (alpha st) (beta st) (omega st) (temp1 st) (temp2 st)
       (absres0 st) (absres st) (relres st) (normu st) (normr0 st)
       (reldiff st) (factor st) (normd st) (tempr st) (infnormu st)
       (iter_best st) absres_best
  else st.

(** [FINISHED:] the returned value and the array [u->val]. *)
Definition FINISHED (st : state R) : Z * list R :=
  (if iter st >? MaxIt then ERROR_SOLVER_MAXIT else iter st, u st).

(** The statements before the main loop: [Some] is the state at the loop
    head, [None] the state with which the solver jumps to [FINISHED]. *)
Definition initial_state (uval : list R) : state R :=
  let work := calloc zero m in
  mk uval work work work work work work work work work
     0 1 1 1
     zero zero zero zero zero
     BIGREAL BIGREAL BIGREAL BIGREAL BIGREAL
     zero zero zero zero zero
     0 BIGREAL.

Definition before_loop (uval : list R) : exit_kind * state R :=
  let st := initial_state uval in
  (* r = b-A*u *)
  let r := fasp_array_cp m bval (r st) in
  let r := blas_aAxpy (- one)%r A uval r in
  let absres0 := fasp_blas_array_norm2 m r in
  let st1 normu normr0 relres :=
    mk uval (p st) (z st) r (t st) (rho st) (pp st) (s st) (sp st) (u_best st)
       (iter st) (stag st) (more_step st) (restart_step st)
       (alpha st) (beta st) (omega st) (temp1 st) (temp2 st)
       absres0 (absres st) relres normu normr0
       (reldiff st) (factor st) (normd st) (tempr st) (infnormu st)
       (iter_best st) (absres_best st) in
  let start (st : state R) :=
    if (relres st <? tol)%r then (Goto_FINISHED, st)
    else
      (* rho = r* := r; p = r *)
      let rho := fasp_array_cp m (bcgs.r st) (rho st) in
      let temp1 := fasp_blas_array_dotprod m (bcgs.r st) rho in
      let p := fasp_array_cp m (bcgs.r st) (p st) in
      (Continue,
       mk (u st) p (z st) (bcgs.r st) (t st) rho (pp st) (s st) (sp st) (u_best st)
          (iter st) (stag st) (more_step st) (restart_step st)
          (alpha st) (beta st) (omega st) temp1 (temp2 st)
          (bcgs.absres0 st) (absres st) (relres st) (normu st) (normr0 st)
          (reldiff st) (factor st) (normd st) (tempr st) (infnormu st)
          (iter_best st) (absres_best st)) in
  match stop with
  | STOP_REL_RES | STOP_REL_PRECRES =>
      let normr0 := MAX SMALLREAL absres0 in
      start (st1 (normu st) normr0 (absres0 / normr0)%r)
  | STOP_MOD_REL_RES =>
      let normu := MAX SMALLREAL (fasp_blas_array_norm2 m uval) in
      start (st1 normu (normr0 st) (absres0 / normu)%r)
  | STOP_unrecognized => (Goto_FINISHED, st1 (normu st) (normr0 st) (relres st))
  end.

(** The run up to the labels: how the main loop is left, and the state. *)
Definition spbcgs_run (uval : list R) : option (exit_kind * state R) :=
  match before_loop uval with
  | (Continue, st) => main_loop (Z.to_nat MaxIt) st
  | other => Some other
  end.

(** The solver: the returned [INT] and the array [u->val] on return. *)
Definition fasp_solver_spbcgs (u : dvector.t R) : option (Z * list R) :=
  match spbcgs_run (dvector.val u) with
  | Some (Goto_FINISHED, st) => Some (FINISHED st)
  | Some (_, st) => Some (FINISHED (RESTORE_BESTSOL st))
  | None => None
  end.

(** The state in which a check leaves the loop through [break]: the residual
    has just been recomputed from the iterate. *)
Definition fresh_residual (st : state R) : Prop :=
  exists (r_old z_old : list R) (a_old : R),
    r st = blas_aAxpy (- one)%r A (u st) (fasp_array_cp m bval r_old) /\
    absres st = residual_measure (r st) z_old a_old.

End Spbcgs.

(** The four solvers of spbcgs.c are one text, with the products of the
    matrix format in place of [fasp_blas_dcsr_mxv] and [fasp_blas_dcsr_aAxpy].
    The products of the BSR, block-CSR and STR formats are not among the
    sources and are taken as the parameter [ops]. *)
Definition fasp_solver_dcsr_spbcgs {R : Type} `{KrylovReal R} (A : dCSRmat.t R) :=
  fasp_solver_spbcgs (M := dCSRmat.t R) A.

Definition fasp_solver_dbsr_spbcgs {R : Type} `{KrylovReal R} {dBSRmat : Type}
    (ops : SpMV R dBSRmat) (A : dBSRmat) :=
  fasp_solver_spbcgs (M := dBSRmat) A.

Definition fasp_solver_bdcsr_spbcgs {R : Type} `{KrylovReal R} {block_dCSRmat : Type}
    (ops : SpMV R block_dCSRmat) (A : block_dCSRmat) :=
  fasp_solver_spbcgs (M := block_dCSRmat) A.

Definition fasp_solver_dstr_spbcgs {R : Type} `{KrylovReal R}
    (ops : SpMV R (dSTRmat.t R)) (A : dSTRmat.t R) :=
  fasp_solver_spbcgs (M := dSTRmat.t R) A.

(** *** Example runs in IEEE double arithmetic *)

(** The system [[4 1] [1 3]] u = [1 2] with the preconditioner [B r = r/4],
    the stopping criterion [STOP_REL_PRECRES] and [tol = 0.5]. *)
Definition spbcgs_example_A : dCSRmat.t float :=
  dCSRmat.mk 2 2 4 [0; 2; 4] [0; 1; 0; 1] [4; 1; 1; 3]%float.

Definition spbcgs_example_b : dvector.t float := dvector.mk 2 [1; 2]%float.

Definition spbcgs_example_u0 : dvector.t float := dvector.mk 2 [0; 0]%float.

Definition spbcgs_example_pc (r z : list float) : list float :=
  fold_left (fun z i => wr z i (0.25 * rd 0 r i)%float) (range 0 2) z.

(** The state at the head of the main loop, in the first round ([iter] has
    been incremented), after the BiCGstab step, and after Check II. *)
Definition spbcgs_example_st0 : bcgs.state float :=
  Eval vm_compute in
    set_iter
      (snd (before_loop spbcgs_example_A spbcgs_example_b 0.5%float STOP_REL_PRECRES
              (dvector.val spbcgs_example_u0))) 1.

Definition spbcgs_example_st1 : bcgs.state float :=
  Eval vm_compute in
    snd (krylov_step spbcgs_example_A spbcgs_example_b (Some spbcgs_example_pc) 0.5%float
           STOP_REL_PRECRES spbcgs_example_st0).

Definition spbcgs_example_st2 : bcgs.state float :=
  Eval vm_compute in
    snd (check_stagnation spbcgs_example_A spbcgs_example_b (Some spbcgs_example_pc) 0.5%float
           STOP_REL_PRECRES spbcgs_example_st1).

(** The state with which the main loop is left. *)
Definition spbcgs_example_final : bcgs.state float :=
  Eval vm_compute in
    snd (check_false_convergence spbcgs_example_A spbcgs_example_b (Some spbcgs_example_pc)
           0.5%float STOP_REL_PRECRES spbcgs_example_st2).

(** The nonsingular system [[0 1] [1 0]] u = [1 0], without preconditioner:
    the first search direction [p = r = b] gives [(A p, rho) = 0]. *)
Definition spbcgs_breakdown_A : dCSRmat.t float :=
  dCSRmat.mk 2 2 2 [0; 1; 2] [1; 0] [1; 1]%float.

Definition spbcgs_breakdown_b : dvector.t float := dvector.mk 2 [1; 0]%float.

Definition spbcgs_breakdown_u0 : dvector.t float := dvector.mk 2 [0; 0]%float.

(** ** smoother_str.c: the other Gauss-Seidel sweeps and Jacobi *)

Definition ASCEND : Z := 12.
Definition DESCEND : Z := 21.
Definition USERDEFINED : Z := 0.
Definition CPFIRST : Z := 1.
Definition FPFIRST : Z := -1.

Section SmootherStrMore.
Context {R : Type} `{Real R}.

(** The body of the point loop for [nc == 1], the same text in
    [fasp_smoother_dstr_gs_ascend], [_gs_descend], [_gs_order] and [_gs_cf]:
    [rhs] after the band loop, then [u_val[point] = rhs / diag[point]]. *)
Definition gs_point (A : dSTRmat.t R) (b : dvector.t R) (u_val : list R) (point : Z)
    : list R :=
  let rhs := band_rhs A (rd zero (dvector.val b) point) u_val point in
  wr u_val point (rhs / rd zero (dSTRmat.diag A) point)%r.

(** The body of the block loop for [nc > 1], on [(vec_tmp, u_val)]. *)
Definition gs_block (A : dSTRmat.t R) (b : dvector.t R) (diaginv : list R)
    (st : list R * list R) (block : Z) : list R * list R :=
  let '(vec_tmp, u_val) := st in
  let nc := dSTRmat.nc A in
  let ncb := nc * block in
  let vec_tmp := load_block nc ncb (dvector.val b) vec_tmp in
  let start_DATA := nc * nc * block in
  let vec_tmp := band_vec A u_val vec_tmp block in
  (vec_tmp, fasp_blas_smat_mxv diaginv start_DATA vec_tmp u_val (nc * block) nc).

(** [for (point = ngrid-1; point >= 0; point --)] *)
Definition fasp_smoother_dstr_gs_descend (A : dSTRmat.t R) (b u : dvector.t R)
    (diaginv : list R) : dvector.t R :=
  let ngrid := dSTRmat.ngrid A in
  let nc := dSTRmat.nc A in
  let vec_tmp := calloc zero nc in
  if nc =? 1 then
    dvector.mk (dvector.row u)
      (fold_left (gs_point A b) (rev (range 0 ngrid)) (dvector.val u))
  else if nc >? 1 then
    dvector.mk (dvector.row u)
      (snd (fold_left (gs_block A b diaginv) (rev (range 0 ngrid)) (vec_tmp, dvector.val u)))
  else u.

(** [for (index = 0; index < ngrid; index ++) { point = mark[index]; ... }] *)
Definition fasp_smoother_dstr_gs_order (A : dSTRmat.t R) (b u : dvector.t R)
    (diaginv : list R) (mark : list Z) : dvector.t R :=
  let ngrid := dSTRmat.ngrid A in
  let nc := dSTRmat.nc A in
  let vec_tmp := calloc zero nc in
  if nc =? 1 then
    dvector.mk (dvector.row u)
      (fold_left (fun u_val index => gs_point A b u_val (rd 0 mark index))
         (range 0 ngrid) (dvector.val u))
  else if nc >? 1 then
    dvector.mk (dvector.row u)
      (snd (fold_left (fun st index => gs_block A b diaginv st (rd 0 mark index))
              (range 0 ngrid) (vec_tmp, dvector.val u)))
  else u.

(** The points marked [FIRST = order] in ascending order, then the points
    marked [SECOND = -order]. *)
Definition fasp_smoother_dstr_gs_cf (A : dSTRmat.t R) (b u : dvector.t R)
    (diaginv : list R) (mark : list Z) (order : Z) : dvector.t R :=
  let ngrid := dSTRmat.ngrid A in
  let nc := dSTRmat.nc A in
  let FIRST := order in
  let SECOND := - order in
  let vec_tmp := calloc zero nc in
  if nc =? 1 then
    let u_val :=
      fold_left (fun u_val point =>
                   if rd 0 mark point =? FIRST then gs_point A b u_val point else u_val)
        (range 0 ngrid) (dvector.val u) in
    dvector.mk (dvector.row u)
      (fold_left (fun u_val point =>
                    if rd 0 mark point =? SECOND then gs_point A b u_val point else u_val)
         (range 0 ngrid) u_val)
  else if nc >? 1 then
    let st :=
      fold_left (fun st block =>
                   if rd 0 mark block =? FIRST then gs_block A b diaginv st block else st)
        (range 0 ngrid) (vec_tmp, dvector.val u) in
    dvector.mk (dvector.row u)
      (snd (fold_left (fun st block =>
                         if rd 0 mark block =? SECOND then gs_block A b diaginv st block
                         else st)
              (range 0 ngrid) st))
  else u.

(** [fasp_smoother_dstr_gs1]: [mark = None] is the null pointer. *)
Definition fasp_smoother_dstr_gs1 (A : dSTRmat.t R) (b u : dvector.t R) (order : Z)
    (mark : option (list Z)) (diaginv : list R) : dvector.t R :=
  match mark with
  | None =>
      if order =? ASCEND then fasp_smoother_dstr_gs_ascend A b u diaginv
      else if order =? DESCEND then fasp_smoother_dstr_gs_descend A b u diaginv
      else u
  | Some mark =>
      if order =? USERDEFINED then fasp_smoother_dstr_gs_order A b u diaginv mark
      else fasp_smoother_dstr_gs_cf A b u diaginv mark order
  end.

(** The band loop of [fasp_smoother_dstr_jacobi1] for [nc == 1], on the
    array [b_tmp]. *)
Definition jacobi_bands (A : dSTRmat.t R) (u_val b_tmp : list R) (point : Z) : list R :=
  let ngrid := dSTRmat.ngrid A in
  fold_left (fun b_tmp band =>
    let width := rd 0 (dSTRmat.offsets A) band in
    let column := point + width in
    if width <? 0 then
      if column >=? 0
      then wr b_tmp point
             (rd zero b_tmp point
              - rd zero (rd [] (dSTRmat.offdiag A) band) column * rd zero u_val column)%r
      else b_tmp
    else
      if column <? ngrid
      then wr b_tmp point
             (rd zero b_tmp point
              - rd zero (rd [] (dSTRmat.offdiag A) band) point * rd zero u_val column)%r
      else b_tmp)
    (range 0 (dSTRmat.nband A)) b_tmp.

(** The band loop of [fasp_smoother_dstr_jacobi1] for [nc > 1]. *)
Definition jacobi_block_bands (A : dSTRmat.t R) (u_val b_tmp : list R) (block : Z) : list R :=
  let ngrid := dSTRmat.ngrid A in
  let nc := dSTRmat.nc A in
  let nc2 := nc * nc in
  let start_DATA := nc2 * block in
  let start_vecb := nc * block in
  fold_left (fun b_tmp band =>
    let width := rd 0 (dSTRmat.offsets A) band in
    let column := block + width in
    if width <? 0 then
      if column >=? 0 then
        blkcontr2_str (nc2 * column) (nc * column) start_vecb nc
          (rd [] (dSTRmat.offdiag A) band) u_val b_tmp
      else b_tmp
    else
      if column <? ngrid then
        blkcontr2_str start_DATA (nc * column) start_vecb nc
          (rd [] (dSTRmat.offdiag A) band) u_val b_tmp
      else b_tmp)
    (range 0 (dSTRmat.nband A)) b_tmp.

(** [fasp_smoother_dstr_jacobi1].  [b_tmp = b_val] is the loop of
    [fasp_array_cp(size, b_val, b_tmp)]; in the last loop for [nc > 1] the
    pointer [b_tmp+start] is the array from cell [start] on. *)
Definition fasp_smoother_dstr_jacobi1 (A : dSTRmat.t R) (b u : dvector.t R)
    (diaginv : list R) : dvector.t R :=
  let ngrid := dSTRmat.ngrid A in
  let nc := dSTRmat.nc A in
  let size := nc * ngrid in
  let nc2 := nc * nc in
  let b_tmp := calloc zero size in
  let b_tmp := fold_left (fun y i => wr y i (rd zero (dvector.val b) i)) (range 0 size) b_tmp in
  if nc =? 1 then
    let b_tmp := fold_left (jacobi_bands A (dvector.val u)) (range 0 ngrid) b_tmp in
    dvector.mk (dvector.row u)
      (fold_left (fun u_val point =>
                    wr u_val point (rd zero b_tmp point / rd zero (dSTRmat.diag A) point)%r)
         (range 0 ngrid) (dvector.val u))
  else if nc >? 1 then
    let b_tmp := fold_left (jacobi_block_bands A (dvector.val u)) (range 0 ngrid) b_tmp in
    dvector.mk (dvector.row u)
      (fold_left (fun u_val block =>
                    let start := nc * block in
                    fasp_blas_smat_mxv diaginv (nc2 * block)
                      (drop (Z.to_nat start) b_tmp) u_val start nc)
         (range 0 ngrid) (dvector.val u))
  else u.

End SmootherStrMore.

(** The three-point stencil [-1 2 -1] on four points. *)
Definition stencil_example_A : dSTRmat.t float :=
  dSTRmat.mk 4 1 1 4 1 4 [2; 2; 2; 2]%float 2 [-1; 1]
    [[-1; -1; -1]%float; [-1; -1; -1]%float].

Definition stencil_example_b : dvector.t float := dvector.mk 4 [1; 2; 3; 4]%float.

Definition stencil_example_u : dvector.t float := dvector.mk 4 [0; 0; 0; 0]%float.


(** ** blas_smat.c: small inverses and products *)

Section BlasSmat.
Context {R : Type} `{Real R}.

(** [fasp_blas_smat_inv_nc2(a)]: the inverse of a 2*2 matrix, in place.
    The test [ABS(det) < 1e-22] only prints a warning. *)
Definition fasp_blas_smat_inv_nc2 (a : list R) (oa : Z) : list R :=
  let a0 := rd zero a (oa + 0) in
  let a1 := rd zero a (oa + 1) in
  let a2 := rd zero a (oa + 2) in
  let a3 := rd zero a (oa + 3) in
  let det := (a0 * a3 - a1 * a2)%r in
  let det_inv := (one / det)%r in
  let a := wr a (oa + 0) (a3 * det_inv)%r in
  let a := wr a (oa + 1) (- a1 * det_inv)%r in
  let a := wr a (oa + 2) (- a2 * det_inv)%r in
  wr a (oa + 3) (a0 * det_inv)%r.

(** [fasp_blas_smat_inv_nc3(a)]: the inverse of a 3*3 matrix by its
    cofactors, in place. *)
Definition fasp_blas_smat_inv_nc3 (a : list R) (oa : Z) : list R :=
  let a0 := rd zero a (oa + 0) in
  let a1 := rd zero a (oa + 1) in
  let a2 := rd zero a (oa + 2) in
  let a3 := rd zero a (oa + 3) in
  let a4 := rd zero a (oa + 4) in
  let a5 := rd zero a (oa + 5) in
  let a6 := rd zero a (oa + 6) in
  let a7 := rd zero a (oa + 7) in
  let a8 := rd zero a (oa + 8) in
  let M0 := (a4 * a8 - a5 * a7)%r in
  let M3 := (a2 * a7 - a1 * a8)%r in
  let M6 := (a1 * a5 - a2 * a4)%r in
  let M1 := (a5 * a6 - a3 * a8)%r in
  let M4 := (a0 * a8 - a2 * a6)%r in
  let M7 := (a2 * a3 - a0 * a5)%r in
  let M2 := (a3 * a7 - a4 * a6)%r in
  let M5 := (a1 * a6 - a0 * a7)%r in
  let M8 := (a0 * a4 - a1 * a3)%r in
  let det := (a0 * M0 + a3 * M3 + a6 * M6)%r in
  let det_inv := (one / det)%r in
  let a := wr a (oa + 0) (M0 * det_inv)%r in
  let a := wr a (oa + 1) (M3 * det_inv)%r in
  let a := wr a (oa + 2) (M6 * det_inv)%r in
  let a := wr a (oa + 3) (M1 * det_inv)%r in
  let a := wr a (oa + 4) (M4 * det_inv)%r in
  let a := wr a (oa + 5) (M7 * det_inv)%r in
  let a := wr a (oa + 6) (M2 * det_inv)%r in
  let a := wr a (oa + 7) (M5 * det_inv)%r in
  wr a (oa + 8) (M8 * det_inv)%r.

(** [fasp_blas_smat_mul_nc2(a, b, c)]: [c = a*b] for 2*2 matrices. *)
Definition fasp_blas_smat_mul_nc2 (a : list R) (oa : Z) (b : list R) (ob : Z)
    (c : list R) (oc : Z) : list R :=
  let a0 := rd zero a (oa + 0) in
  let a1 := rd zero a (oa + 1) in
  let a2 := rd zero a (oa + 2) in
  let a3 := rd zero a (oa + 3) in
  let b0 := rd zero b (ob + 0) in
  let b1 := rd zero b (ob + 1) in
  let b2 := rd zero b (ob + 2) in
  let b3 := rd zero b (ob + 3) in
  let c := wr c (oc + 0) (a0 * b0 + a1 * b2)%r in
  let c := wr c (oc + 1) (a0 * b1 + a1 * b3)%r in
  let c := wr c (oc + 2) (a2 * b0 + a3 * b2)%r in
  wr c (oc + 3) (a2 * b1 + a3 * b3)%r.

(** [fasp_blas_smat_mul_nc3(a, b, c)]: [c = a*b] for 3*3 matrices. *)
Definition fasp_blas_smat_mul_nc3 (a : list R) (oa : Z) (b : list R) (ob : Z)
    (c : list R) (oc : Z) : list R :=
  let a0 := rd zero a (oa + 0) in
  let a1 := rd zero a (oa + 1) in
  let a2 := rd zero a (oa + 2) in
  let a3 := rd zero a (oa + 3) in
  let a4 := rd zero a (oa + 4) in
  let a5 := rd zero a (oa + 5) in
  let a6 := rd zero a (oa + 6) in
  let a7 := rd zero a (oa + 7) in
  let a8 := rd zero a (oa + 8) in
  let b0 := rd zero b (ob + 0) in
  let b1 := rd zero b (ob + 1) in
  let b2 := rd zero b (ob + 2) in
  let b3 := rd zero b (ob + 3) in
  let b4 := rd zero b (ob + 4) in
  let b5 := rd zero b (ob + 5) in
  let b6 := rd zero b (ob + 6) in
  let b7 := rd zero b (ob + 7) in
  let b8 := rd zero b (ob + 8) in
  let c := wr c (oc + 0) (a0 * b0 + a1 * b3 + a2 * b6)%r in
  let c := wr c (oc + 1) (a0 * b1 + a1 * b4 + a2 * b7)%r in
  let c := wr c (oc + 2) (a0 * b2 + a1 * b5 + a2 * b8)%r in
  let c := wr c (oc + 3) (a3 * b0 + a4 * b3 + a5 * b6)%r in
  let c := wr c (oc + 4) (a3 * b1 + a4 * b4 + a5 * b7)%r in
  let c := wr c (oc + 5) (a3 * b2 + a4 * b5 + a5 * b8)%r in
  let c := wr c (oc + 6) (a6 * b0 + a7 * b3 + a8 * b6)%r in
  let c := wr c (oc + 7) (a6 * b1 + a7 * b4 + a8 * b7)%r in
  wr c (oc + 8) (a6 * b2 + a7 * b5 + a8 * b8)%r.

(** The [n] cells of an array from [o] on. *)
Definition cells (l : list R) (o n : Z) : list R :=
  map (fun k => rd zero l (o + k)) (range 0 n).

End BlasSmat.

(** The determinants that [fasp_blas_smat_inv_nc2] and
    [fasp_blas_smat_inv_nc3] divide by. *)
Definition det_nc2 (a : list Qc) (oa : Z) : Qc :=
  (rd zero a (oa + 0) * rd zero a (oa + 3) - rd zero a (oa + 1) * rd zero a (oa + 2))%r.

Definition det_nc3 (a : list Qc) (oa : Z) : Qc :=
  let a_ k := rd zero a (oa + k) in
  (a_ 0 * (a_ 4 * a_ 8 - a_ 5 * a_ 7) + a_ 3 * (a_ 2 * a_ 7 - a_ 1 * a_ 8)
   + a_ 6 * (a_ 1 * a_ 5 - a_ 2 * a_ 4))%r.

Definition smat_example_nc2 : list Qc := map (fun n => Q2Qc (inject_Z n)) [2; 1; 5; 3].

Definition smat_example_nc3 : list Qc :=
  map (fun n => Q2Qc (inject_Z n)) [2; 0; 1; 1; 3; 0; 0; 1; 1].

(** ** smoother_poly.c: the polynomial smoother *)

Section SmootherPolyMore.
Context {R : Type} `{KrylovReal R}.

(** The routines [fasp_blas_dcsr_mxv(A, x, y)],
    [fasp_blas_array_axpyz(n, a, x, y, z)] and
    [fasp_blas_array_axpy(n, a, x, y)] are not among the sources: each is
    taken as the function from its arguments to the array it writes
    ([y], [z] and [y]).  So are the literals [2.0] and [4.0]. *)
Variable blas_dcsr_mxv : dCSRmat.t R -> list R -> list R -> list R.
Variable blas_array_axpyz : Z -> R -> list R -> list R -> list R -> list R.
Variable blas_array_axpy : Z -> R -> list R -> list R -> list R.
Variables lit_2 lit_4 : R.

(** [DinvAnorminf]: the largest row sum of [|a|] scaled by [Dinv]; the
    counters [i] and [j] are [unsigned]. *)
Definition DinvAnorminf (Amat : dCSRmat.t R) (Dinv : list R) : R :=
  let n := dCSRmat.row Amat in
  let ia := dCSRmat.IA Amat in
  let a := dCSRmat.val Amat in
  fold_left (fun norm i =>
               let temp := fold_left (fun temp j => (temp + ABS (rd zero a j))%r)
                             (range (to_unsigned (rd 0 ia i)) (to_unsigned (rd 0 ia (i + 1))))
                             zero in
               let temp := (temp * rd zero Dinv i)%r in
               MAX norm temp)
    (range 0 (to_unsigned n)) zero.

(** [Diagx(Dinv, n, x, b)]: [b = Dinv * x], entry by entry. *)
Definition Diagx (Dinv : list R) (n : Z) (x b : list R) : list R :=
  fold_left (fun b i => wr b i (rd zero Dinv i * rd zero x i)%r) (range 0 (to_unsigned n)) b.

(** [Diagx(Dinv, n, v1, v1)]: source and destination are one array. *)
Definition Diagx_in_place (Dinv : list R) (n : Z) (b : list R) : list R :=
  fold_left (fun b i => wr b i (rd zero Dinv i * rd zero b i)%r) (range 0 (to_unsigned n)) b.

(** [Rr]: the arrays [rbar], [v0], [v1] and [vnew] after the call. *)
Definition Rr (Amat : dCSRmat.t R) (Dinv r rbar v0 v1 vnew k : list R) (m : Z)
    : list R * list R * list R * list R :=
  let n := dCSRmat.row Amat in
  (* 1 set up rbar *)
  let rbar := Diagx Dinv n r rbar in
  (* 2 set up v0, v1 *)
  let v1 := blas_dcsr_mxv Amat rbar v1 in
  let v1 := Diagx_in_place Dinv n v1 in
  let '(v0, v1) :=
    fold_left (fun '(v0, v1) i =>
                 let v0 := wr v0 i (rd zero k 1 * rd zero rbar i)%r in
                 let v1 := wr v1 i (rd zero k 2 * rd zero rbar i
                                    - rd zero k 3 * rd zero v1 i)%r in
                 (v0, v1))
      (range 0 n) (v0, v1) in
  (* 3 iterate to get v_(j+1) *)
  fold_left (fun '(rbar, v0, v1, vnew) j =>
               let rbar := blas_dcsr_mxv Amat v1 rbar in
               fold_left (fun '(rbar, v0, v1, vnew) i =>
                            let rbar := wr rbar i ((rd zero r i - rd zero rbar i)
                                                   * rd zero Dinv i)%r in
                            let vnew := wr vnew i
                                          (rd zero v1 i
                                           + rd zero k 5 * (rd zero v1 i - rd zero v0 i)
                                           + rd zero k 4 * rd zero rbar i)%r in
                            let v0 := wr v0 i (rd zero v1 i) in
                            let v1 := wr v1 i (rd zero vnew i) in
                            (rbar, v0, v1, vnew))
                 (range 0 n) (rbar, v0, v1, vnew))
    (range 1 m) (rbar, v0, v1, vnew).

(** The coefficients [k[1..5]] of [fasp_smoother_dcsr_poly]. *)
Definition poly_coefficients (mu0 : R) (k : list R) : list R :=
  let mu0 := (one / mu0)%r in
  let mu1 := (lit_4 * mu0)%r in
  let smu0 := sqrt mu0 in
  let smu1 := sqrt mu1 in
  let k := wr k 1 ((mu0 + mu1) / lit_2)%r in
  let k := wr k 2 ((smu0 + smu1) * (smu0 + smu1) / lit_2)%r in
  let k := wr k 3 (mu0 * mu1)%r in
  let k := wr k 4 (lit_2 * rd zero k 3 / rd zero k 2)%r in
  wr k 5 ((mu1 - lit_2 * smu0 * smu1 + mu0) / (mu1 + lit_2 * smu0 * smu1 + mu0))%r.

(** One round of the update loop: the arrays [u], [r], [rbar], [v0], [v1]
    and [error]. *)
Definition poly_round (Amat : dCSRmat.t R) (b Dinv k : list R) (n ndeg : Z)
    (st : list R * list R * list R * list R * list R * list R)
    : list R * list R * list R * list R * list R * list R :=
  let '(u, r, rbar, v0, v1, error) := st in
  (* get residual *)
  let r := blas_dcsr_mxv Amat u r in
  let r := blas_array_axpyz n (- one)%r r b r in
  (* get correction error = R*r *)
  let '(rbar, v0, v1, error) := Rr Amat Dinv r rbar v0 v1 error k ndeg in
  (* update solution *)
  let u := blas_array_axpy n one error u in
  (u, r, rbar, v0, v1, error).

(** [fasp_smoother_dcsr_poly]: the vector [usol] after the call.  The
    work arrays come from [fasp_mem_calloc], zero-initialised. *)
Definition fasp_smoother_dcsr_poly (Amat : dCSRmat.t R) (brhs usol : dvector.t R)
    (n ndeg L : Z) : dvector.t R :=
  let b := dvector.val brhs in
  let u := dvector.val usol in
  let Dinv := calloc zero n in
  let r := calloc zero n in
  let rbar := calloc zero n in
  let v0 := calloc zero n in
  let v1 := calloc zero n in
  let error := calloc zero n in
  let k := calloc zero 6 in
  let Dinv := Diaginv Amat Dinv in
  let mu0 := DinvAnorminf Amat Dinv in
  let k := poly_coefficients mu0 k in
  let '(u, _, _, _, _, _) :=
    fold_left (fun st _ => poly_round Amat b Dinv k n ndeg st)
      (range 0 L) (u, r, rbar, v0, v1, error) in
  dvector.mk (dvector.row usol) u.

End SmootherPolyMore.

(** Modelled from the spec: the serial [fasp_blas_array_axpyz] is not among
    the sources; the loop is that of the sibling
    [fasp_blas_array_axpyz_omp] of blas_array_omp.c,
    [z[i] = a*x[i] + y[i]]. *)
Definition fasp_blas_array_axpyz {R : Type} `{Real R} (n : Z) (a : R) (x y z : list R)
    : list R :=
  fold_left (fun z i => wr z i (a * rd zero x i + rd zero y i)%r) (range 0 n) z.

(** The matrix [[4 1] [1 3]] in CSR format. *)
Definition poly_example_A : dCSRmat.t float :=
  dCSRmat.mk 2 2 4 [0; 2; 4] [0; 1; 0; 1] [4; 1; 1; 3]%float.

(** ** spbcgs.c: the values the solver returns *)

(** The error codes that the checks of the main loop store in [iter]
    before they jump to [FINISHED]. *)
Definition stagnation_code (n : Z) : Prop :=
  n = ERROR_SOLVER_SOLSTAG \/ n = ERROR_SOLVER_STAG \/ n = ERROR_SOLVER_TOLSMALL.
(** * Properties *)

(** Closed goals over concrete data: evaluate, then read off the result. *)
Ltac by_compute :=
  vm_compute; repeat split; try reflexivity; try discriminate; try (intro; discriminate).

(** ** Arrays *)

Lemma range_nil lo hi : hi <= lo -> range lo hi = [].
Proof.
  intros Hle. unfold range. replace (Z.to_nat (hi - lo)) with O by lia. reflexivity.
Qed.

Lemma range_cons lo hi : lo < hi -> range lo hi = lo :: range (lo + 1) hi.
Proof.
  intros Hlt. unfold range.
  replace (Z.to_nat (hi - lo)) with (S (Z.to_nat (hi - (lo + 1)))) by lia.
  cbn [seq map]. f_equal; [lia|].
  rewrite <- seq_shift, map_map. apply map_ext. intros k. lia.
Qed.

Lemma range_snoc lo hi : lo <= hi -> range lo (hi + 1) = range lo hi ++ [hi].
Proof.
  intros Hle. unfold range.
  replace (Z.to_nat (hi + 1 - lo)) with (Z.to_nat (hi - lo) + 1)%nat by lia.
  rewrite seq_app, map_app. cbn. do 2 f_equal. lia.
Qed.

Lemma in_range lo hi j : In j (range lo hi) <-> lo <= j < hi.
Proof.
  unfold range. rewrite in_map_iff. split.
  - intros (k & <- & Hk). apply in_seq in Hk. lia.
  - intros Hj. exists (Z.to_nat (j - lo)). split; [lia|]. apply in_seq. lia.
Qed.

Lemma length_range lo hi : length (range lo hi) = Z.to_nat (hi - lo).
Proof. unfold range. now rewrite length_map, length_seq. Qed.

Lemma length_wr {A} (l : list A) i x : length (wr l i x) = length l.
Proof. unfold wr. destruct (i <? 0); [reflexivity|]. apply length_insert. Qed.

Lemma rd_wr_eq {A} (d : A) l i x :
  0 <= i < Z.of_nat (length l) -> rd d (wr l i x) i = x.
Proof.
  intros Hi. unfold rd, wr. destruct (Z.ltb_spec i 0); [lia|].
  rewrite nth_lookup, list_lookup_insert_eq by lia. reflexivity.
Qed.

Lemma rd_wr_ne {A} (d : A) l i j x : i <> j -> rd d (wr l i x) j = rd d l j.
Proof.
  intros Hne. unfold rd, wr.
  destruct (Z.ltb_spec j 0); [reflexivity|].
  destruct (Z.ltb_spec i 0); [reflexivity|].
  rewrite !nth_lookup, list_lookup_insert_ne by lia. reflexivity.
Qed.

(** ** blas_vec.c *)

Lemma to_unsigned_small n : 0 <= n < 2 ^ 32 -> to_unsigned n = n.
Proof. intros Hn. unfold to_unsigned. now apply Z.mod_small. Qed.

(** [fasp_blas_dvec_axpy] leaves through [exit(ERROR_DATA_STRUCTURE)] when the
    two row fields differ. *)
Lemma fasp_blas_dvec_axpy_mismatch {R} `{Real R} (a : R) (x y : dvector.t R) :
  0 <= dvector.row x < 2 ^ 31 ->
  0 <= dvector.row y < 2 ^ 31 ->
  dvector.row x <> dvector.row y ->
  fasp_blas_dvec_axpy a x y = Exit ERROR_DATA_STRUCTURE.
Proof.
  intros Hx Hy Hne. unfold fasp_blas_dvec_axpy.
  rewrite (to_unsigned_small (dvector.row x)) by lia.
  assert (Hd : to_unsigned (dvector.row y - dvector.row x) <> 0).
  { unfold to_unsigned. intros Hz.
    apply Z.mod_divide in Hz; [|lia]. destruct Hz as [k Hk].
    assert (k = 0) by nia. lia. }
  apply Z.eqb_neq in Hd. now rewrite Hd.
Qed.

(** So does [fasp_blas_dvec_axpyz]. *)
Lemma fasp_blas_dvec_axpyz_mismatch {R} `{Real R} (a : R) (x y z : dvector.t R) :
  dvector.row x <> dvector.row y ->
  fasp_blas_dvec_axpyz a x y z = Exit ERROR_DATA_STRUCTURE.
Proof.
  intros Hne. unfold fasp_blas_dvec_axpyz.
  assert (Hd : dvector.row y - dvector.row x <> 0) by lia.
  apply Z.eqb_neq in Hd. now rewrite Hd.
Qed.

(** C8: the inner product has no length test.  On [x] with [row = 2] and [y]
    with [row = 3] the routine [fasp_blas_dvec_dotprod] does not fail: it
    returns the number [1*3 + 2*4 = 11], computed over the first [x->row]
    cells of both arrays, whereas [fasp_blas_dvec_axpy] and
    [fasp_blas_dvec_axpyz] exit with an error on the same pair. *)
Theorem fasp_blas_dvec_dotprod_no_length_test :
  let x := dvector.mk 2 [1; 2]%float in
  let y := dvector.mk 3 [3; 4; 5]%float in
  fasp_blas_dvec_dotprod x y = 11%float /\
  fasp_blas_dvec_axpy 1%float x y = Exit ERROR_DATA_STRUCTURE /\
  fasp_blas_dvec_axpyz 1%float x y y = Exit ERROR_DATA_STRUCTURE.
Proof. vm_compute. repeat split; reflexivity. Qed.

(** ** smoother_poly.c *)

Lemma scan_break_none (P : Z -> bool) (n : nat) : forall j,
  (forall k, j <= k < j + Z.of_nat n -> P k = false) ->
  scan_break P j n = j + Z.of_nat n.
Proof.
  induction n as [|n IH]; intros j HP; cbn [scan_break].
  - lia.
  - rewrite HP by lia. rewrite IH; [lia|]. intros k Hk. apply HP. lia.
Qed.

Lemma scan_break_first (P : Z -> bool) (n : nat) : forall j p,
  j <= p < j + Z.of_nat n ->
  P p = true ->
  (forall k, j <= k < p -> P k = false) ->
  scan_break P j n = p.
Proof.
  induction n as [|n IH]; intros j p Hp Hpp Hbefore; cbn [scan_break].
  - lia.
  - destruct (Z.eq_dec j p) as [->|Hne].
    + now rewrite Hpp.
    + rewrite Hbefore by lia. apply IH; [lia|assumption|].
      intros k Hk. apply Hbefore. lia.
Qed.

(** A loop that stores [f k] in cell [k] for [k = lo, ..., hi-1]. *)
Lemma rd_fold_wr {A} (d : A) (f : Z -> A) (lo : Z) (n : nat) : forall (l : list A) i,
  0 <= lo ->
  lo + Z.of_nat n <= Z.of_nat (length l) ->
  rd d (fold_left (fun l k => wr l k (f k)) (range lo (lo + Z.of_nat n)) l) i =
  if (lo <=? i) && (i <? lo + Z.of_nat n) then f i else rd d l i.
Proof.
  induction n as [|n IH]; intros l i Hlo Hlen.
  - rewrite range_nil by lia. cbn [fold_left].
    destruct (Z.leb_spec lo i), (Z.ltb_spec i (lo + Z.of_nat 0)); cbn; try reflexivity; lia.
  - replace (lo + Z.of_nat (S n)) with (lo + Z.of_nat n + 1) by lia.
    rewrite range_snoc by lia. rewrite fold_left_app. cbn [fold_left].
    destruct (Z.eq_dec i (lo + Z.of_nat n)) as [->|Hne].
    + rewrite rd_wr_eq.
      * destruct (Z.leb_spec lo (lo + Z.of_nat n)), (Z.ltb_spec (lo + Z.of_nat n) (lo + Z.of_nat n + 1));
          cbn; try reflexivity; lia.
      * assert (Hl : forall (ks : list Z) (l0 : list A),
                   length (fold_left (fun l k => wr l k (f k)) ks l0) = length l0).
        { induction ks as [|k ks IHks]; intros l0; cbn; [reflexivity|].
          rewrite IHks. apply length_wr. }
        rewrite Hl. lia.
    + rewrite rd_wr_ne by lia. rewrite IH by lia.
      destruct (Z.leb_spec lo i), (Z.ltb_spec i (lo + Z.of_nat n)), (Z.ltb_spec i (lo + Z.of_nat n + 1));
        cbn; try reflexivity; lia.
Qed.

Lemma Diaginv_rd {R} `{Real R} (Amat : dCSRmat.t R) (Dinv : list R) (i : Z) :
  0 <= i < dCSRmat.row Amat ->
  dCSRmat.row Amat <= Z.of_nat (length Dinv) ->
  rd zero (Diaginv Amat Dinv) i =
  (one / rd zero (dCSRmat.val Amat) (Diaginv_scan Amat i))%r.
Proof.
  intros Hi Hlen. unfold Diaginv.
  pose proof (rd_fold_wr zero
    (fun k => (one / rd zero (dCSRmat.val Amat) (Diaginv_scan Amat k))%r)
    0 (Z.to_nat (dCSRmat.row Amat)) Dinv i) as Hrd.
  replace (0 + Z.of_nat (Z.to_nat (dCSRmat.row Amat))) with (dCSRmat.row Amat) in Hrd by lia.
  rewrite Hrd by lia.
  destruct (Z.leb_spec 0 i), (Z.ltb_spec i (dCSRmat.row Amat)); cbn; try reflexivity; lia.
Qed.

(** When the diagonal is stored at position [p] of row [i] (its first
    occurrence), [Dinv[i] = 1.0/a[p]], whatever the value of [a[p]]: no test
    for zero is made. *)
Lemma Diaginv_diagonal_present {R} `{Real R} (Amat : dCSRmat.t R) (Dinv : list R) (i p : Z) :
  0 <= i < dCSRmat.row Amat ->
  dCSRmat.row Amat <= Z.of_nat (length Dinv) ->
  rd 0 (dCSRmat.IA Amat) i <= p < rd 0 (dCSRmat.IA Amat) (i + 1) ->
  rd 0 (dCSRmat.JA Amat) p = i ->
  (forall j, rd 0 (dCSRmat.IA Amat) i <= j < p -> rd 0 (dCSRmat.JA Amat) j <> i) ->
  rd zero (Diaginv Amat Dinv) i = (one / rd zero (dCSRmat.val Amat) p)%r.
Proof.
  intros Hi Hlen Hp Hdiag Hfirst. rewrite Diaginv_rd by assumption.
  unfold Diaginv_scan. erewrite scan_break_first with (p := p); [reflexivity|lia| |].
  - apply Z.eqb_eq. now rewrite Hdiag.
  - intros k Hk. apply Z.eqb_neq. intros Heq. now apply (Hfirst k Hk).
Qed.

(** When row [i] stores no diagonal, the scan leaves [j = IA[i+1]], the
    first position after the row. *)
Lemma Diaginv_diagonal_absent {R} `{Real R} (Amat : dCSRmat.t R) (Dinv : list R) (i : Z) :
  0 <= i < dCSRmat.row Amat ->
  dCSRmat.row Amat <= Z.of_nat (length Dinv) ->
  rd 0 (dCSRmat.IA Amat) i <= rd 0 (dCSRmat.IA Amat) (i + 1) ->
  (forall j, rd 0 (dCSRmat.IA Amat) i <= j < rd 0 (dCSRmat.IA Amat) (i + 1) ->
             rd 0 (dCSRmat.JA Amat) j <> i) ->
  Diaginv_scan Amat i = rd 0 (dCSRmat.IA Amat) (i + 1) /\
  rd zero (Diaginv Amat Dinv) i =
  (one / rd zero (dCSRmat.val Amat) (rd 0 (dCSRmat.IA Amat) (i + 1)))%r.
Proof.
  intros Hi Hlen Hia Hnodiag.
  assert (Hscan : Diaginv_scan Amat i = rd 0 (dCSRmat.IA Amat) (i + 1)).
  { unfold Diaginv_scan. rewrite scan_break_none; [lia|].
    intros k Hk. apply Z.eqb_neq. intros Heq. apply (Hnodiag k); [lia|congruence]. }
  split; [exact Hscan|]. rewrite Diaginv_rd by assumption. now rewrite Hscan.
Qed.

(** C10: [Diaginv] takes for granted that every row stores a diagonal entry
    and that it is not zero.  For every row [i] of a CSR matrix
    ([IA[i] <= IA[i+1]]) the routine scans the positions of the row for the
    column [i] and stores [Dinv[i] = 1.0/a[j]] with [j] where the scan
    stopped:
    - when the row stores column [i], first at position [p], then [j = p]
      and [Dinv[i] = 1.0/a[p]], whatever the value [a[p]] is (zero
      included);
    - when no stored column of the row equals [i], then [j = IA[i+1]], the
      first position after the row, and [Dinv[i] = 1.0/a[IA[i+1]]]: the
      routine divides by an array element outside row [i], without failing
      and without producing zero. *)
Theorem Diaginv_unchecked_diagonal {R} `{Real R} (Amat : dCSRmat.t R) (Dinv : list R)
    (i : Z) :
  0 <= i < dCSRmat.row Amat ->
  dCSRmat.row Amat <= Z.of_nat (length Dinv) ->
  rd 0 (dCSRmat.IA Amat) i <= rd 0 (dCSRmat.IA Amat) (i + 1) ->
  (forall p,
     rd 0 (dCSRmat.IA Amat) i <= p < rd 0 (dCSRmat.IA Amat) (i + 1) ->
     rd 0 (dCSRmat.JA Amat) p = i ->
     (forall j, rd 0 (dCSRmat.IA Amat) i <= j < p -> rd 0 (dCSRmat.JA Amat) j <> i) ->
     Diaginv_scan Amat i = p /\
     rd zero (Diaginv Amat Dinv) i = (one / rd zero (dCSRmat.val Amat) p)%r) /\
  ((forall j, rd 0 (dCSRmat.IA Amat) i <= j < rd 0 (dCSRmat.IA Amat) (i + 1) ->
              rd 0 (dCSRmat.JA Amat) j <> i) ->
   Diaginv_scan Amat i = rd 0 (dCSRmat.IA Amat) (i + 1) /\
   rd zero (Diaginv Amat Dinv) i =
   (one / rd zero (dCSRmat.val Amat) (rd 0 (dCSRmat.IA Amat) (i + 1)))%r).
Proof.
  intros Hi Hlen Hia. split.
  - intros p Hp Hdiag Hfirst.
    assert (Hscan : Diaginv_scan Amat i = p).
    { unfold Diaginv_scan. apply scan_break_first; [lia| |].
      - apply Z.eqb_eq. now rewrite Hdiag.
      - intros k Hk. apply Z.eqb_neq. intros Heq. now apply (Hfirst k Hk). }
    split; [exact Hscan|]. rewrite Diaginv_rd by assumption. now rewrite Hscan.
  - intros Hnodiag. now apply Diaginv_diagonal_absent.
Qed.

Lemma Diaginv_unchecked_diagonal_witness :
  (forall p,
     rd 0 (dCSRmat.IA Diaginv_example) 1 <= p < rd 0 (dCSRmat.IA Diaginv_example) (1 + 1) ->
     rd 0 (dCSRmat.JA Diaginv_example) p = 1 ->
     (forall j, rd 0 (dCSRmat.IA Diaginv_example) 1 <= j < p ->
                rd 0 (dCSRmat.JA Diaginv_example) j <> 1) ->
     Diaginv_scan Diaginv_example 1 = p /\
     rd zero (Diaginv Diaginv_example (calloc zero 3)) 1 =
     (one / rd zero (dCSRmat.val Diaginv_example) p)%r) /\
  ((forall j, rd 0 (dCSRmat.IA Diaginv_example) 1 <= j
              < rd 0 (dCSRmat.IA Diaginv_example) (1 + 1) ->
              rd 0 (dCSRmat.JA Diaginv_example) j <> 1) ->
   Diaginv_scan Diaginv_example 1 = rd 0 (dCSRmat.IA Diaginv_example) (1 + 1) /\
   rd zero (Diaginv Diaginv_example (calloc zero 3)) 1 =
   (one / rd zero (dCSRmat.val Diaginv_example)
            (rd 0 (dCSRmat.IA Diaginv_example) (1 + 1)))%r).
Proof.
  apply (Diaginv_unchecked_diagonal Diaginv_example (calloc zero 3) 1).
  - by_compute.
  - by_compute.
  - by_compute.
Defined.

(** The two cases on the matrix [Diaginv_example]: row 0 stores its diagonal
    first, row 2 stores it second, row 1 does not store it. *)
Example Diaginv_example_scans :
  Diaginv_scan Diaginv_example 0 = 0 /\ Diaginv_scan Diaginv_example 2 = 5 /\
  Diaginv_scan Diaginv_example 1 = 4 /\ rd 0 (dCSRmat.IA Diaginv_example) 2 = 4.
Proof. vm_compute. repeat split; reflexivity. Qed.

(** A stored diagonal that is zero is inverted as it is: [1.0/0.0] is
    [+infinity]. *)
Example Diaginv_zero_diagonal :
  Diaginv (dCSRmat.mk 2 2 3 [0; 2; 3] [0; 1; 1] [0; 1; 2]%float) (calloc zero 2)
  = [infinity; 0.5]%float.
Proof. vm_compute. reflexivity. Qed.

Example Diaginv_example_values :
  Diaginv Diaginv_example (calloc zero 3) = [0.25; 0.125; 0.25]%float.
Proof. vm_compute. reflexivity. Qed.

(** In the last row the position [IA[i+1] = nnz] lies past the end of the
    array [a] itself. *)
Example Diaginv_last_row_leaves_array :
  let Amat := dCSRmat.mk 2 2 3 [0; 2; 3] [0; 1; 0] [4; 1; 1]%float in
  Diaginv_scan Amat 1 = 3 /\ Z.of_nat (length (dCSRmat.val Amat)) = 3.
Proof. vm_compute. split; reflexivity. Qed.

(** ** smoother_str.c *)

Lemma fold_left_ext_in {A B} (f g : A -> B -> A) (l : list B) : forall a,
  (forall a x, In x l -> f a x = g a x) ->
  fold_left f l a = fold_left g l a.
Proof.
  induction l as [|x l IH]; intros a Hfg; cbn [fold_left]; [reflexivity|].
  rewrite Hfg by (now left). apply IH. intros a' y Hy. apply Hfg. now right.
Qed.

Lemma length_fold_left {A B} (f : list A -> B -> list A) (l : list B) :
  (forall y x, length (f y x) = length y) ->
  forall y, length (fold_left f l y) = length y.
Proof.
  intros Hf. induction l as [|x l IH]; intros y; cbn [fold_left]; [reflexivity|].
  now rewrite IH, Hf.
Qed.

Lemma rd_ext {A} (d : A) (l1 l2 : list A) :
  length l1 = length l2 ->
  (forall k, 0 <= k < Z.of_nat (length l1) -> rd d l1 k = rd d l2 k) ->
  l1 = l2.
Proof.
  intros Hlen Hrd. apply (nth_ext _ _ d d Hlen). intros n Hn.
  specialize (Hrd (Z.of_nat n) ltac:(lia)). unfold rd in Hrd.
  destruct (Z.ltb_spec (Z.of_nat n) 0); [lia|]. now rewrite Nat2Z.id in Hrd.
Qed.

Lemma wr_rd_id {A} (d : A) (l : list A) i : wr l i (rd d l i) = l.
Proof.
  unfold wr, rd. destruct (Z.ltb_spec i 0); [reflexivity|].
  destruct (nth_lookup_or_length l (Z.to_nat i) d) as [Hs|Hl].
  - now apply list_insert_id.
  - apply list_insert_ge. lia.
Qed.

Lemma wr_oob {A} (l : list A) i x : Z.of_nat (length l) <= i -> wr l i x = l.
Proof.
  intros Hi. unfold wr. destruct (Z.ltb_spec i 0); [reflexivity|].
  apply list_insert_ge. lia.
Qed.

Lemma wr_neg {A} (l : list A) i x : i < 0 -> wr l i x = l.
Proof. intros Hi. unfold wr. destruct (Z.ltb_spec i 0); [reflexivity|lia]. Qed.

Lemma wr_wr {A} (l : list A) i x y : wr (wr l i x) i y = wr l i y.
Proof.
  unfold wr. destruct (Z.ltb_spec i 0); [reflexivity|]. apply list_insert_insert_eq.
Qed.

(** Repeated updates of one cell: [for (j...) y[i] = g(j, y[i]);]. *)
Lemma fold_cell {A B} (d : A) (g : B -> A -> A) (i : Z) (js : list B) : forall y : list A,
  fold_left (fun y j => wr y i (g j (rd d y i))) js y =
  wr y i (fold_left (fun a j => g j a) js (rd d y i)).
Proof.
  induction js as [|j js IH]; intros y; cbn [fold_left].
  - symmetry. apply wr_rd_id.
  - rewrite IH. destruct (Z.ltb_spec i 0) as [Hneg|Hpos].
    + now rewrite !wr_neg.
    + destruct (Z.ltb_spec i (Z.of_nat (length y))) as [Hin|Hout].
      * rewrite rd_wr_eq by lia. apply wr_wr.
      * now rewrite !wr_oob by (rewrite ?length_wr; lia).
Qed.

(** A loop that updates the cells [oy, ..., oy+n-1] one after the other, each
    from its own old value. *)
Lemma rd_fold_upd {A} (d : A) (g : Z -> A -> A) (oy : Z) (n : nat) : forall (y : list A) k,
  0 <= oy ->
  0 <= k < Z.of_nat (length y) ->
  rd d (fold_left (fun y i => wr y (oy + i) (g i (rd d y (oy + i))))
          (range 0 (Z.of_nat n)) y) k =
  if (oy <=? k) && (k <? oy + Z.of_nat n) then g (k - oy) (rd d y k) else rd d y k.
Proof.
  induction n as [|n IH]; intros y k Hoy Hk.
  - rewrite range_nil by lia. cbn [fold_left].
    destruct (Z.leb_spec oy k), (Z.ltb_spec k (oy + Z.of_nat 0)); cbn; try reflexivity; lia.
  - replace (Z.of_nat (S n)) with (Z.of_nat n + 1) by lia.
    rewrite range_snoc by lia. rewrite fold_left_app. cbn [fold_left].
    set (Y := fold_left _ (range 0 (Z.of_nat n)) y).
    assert (HlenY : length Y = length y).
    { apply length_fold_left. intros y0 x0. apply length_wr. }
    destruct (Z.eq_dec k (oy + Z.of_nat n)) as [->|Hne].
    + rewrite rd_wr_eq by lia. unfold Y. rewrite IH by lia.
      destruct (Z.leb_spec oy (oy + Z.of_nat n)),
               (Z.ltb_spec (oy + Z.of_nat n) (oy + Z.of_nat n)),
               (Z.ltb_spec (oy + Z.of_nat n) (oy + (Z.of_nat n + 1)));
        cbn; try lia. f_equal. lia.
    + rewrite rd_wr_ne by lia. unfold Y. rewrite IH by lia.
      destruct (Z.leb_spec oy k), (Z.ltb_spec k (oy + Z.of_nat n)),
               (Z.ltb_spec k (oy + (Z.of_nat n + 1)));
        cbn; try reflexivity; lia.
Qed.

Section SorIsGs.
Context {R : Type} `{ExactLaws R}.

Lemma saAxpby_one_zero (n : Z) (A : list R) (oA : Z) (x y : list R) (oy : Z) :
  0 <= oy -> 0 <= n ->
  saAxpby one (one - one)%r n A oA x y oy = region_set y oy n (row_sum A oA x n).
Proof.
  intros Hoy Hn. unfold saAxpby. rewrite one_neq_zero, sub_one_one, div_zero_one.
  set (L1 := fold_left _ (range 0 n) y).
  set (L2 := fold_left _ (range 0 n) L1).
  assert (HlenL1 : length L1 = length y).
  { apply length_fold_left. intros. apply length_wr. }
  assert (HlenL2 : length L2 = length L1).
  { apply length_fold_left. intros. apply length_fold_left. intros. apply length_wr. }
  (* the last loop multiplies by one *)
  assert (HL3 : forall z : list R,
    fold_left (fun y i => wr y (oy + i) (rd zero y (oy + i) * one)%r) (range 0 n) z = z).
  { generalize (range 0 n). intros l. induction l as [|i l IH]; intros z; cbn [fold_left];
      [reflexivity|]. now rewrite mul_one_r, wr_rd_id. }
  rewrite HL3.
  apply (rd_ext zero).
  - unfold region_set. rewrite HlenL2, HlenL1. symmetry.
    apply length_fold_left. intros. apply length_wr.
  - intros k Hk. rewrite HlenL2, HlenL1 in Hk.
    unfold region_set.
    pose proof (rd_fold_upd zero (fun i _ => row_sum A oA x n i) oy (Z.to_nat n) y k Hoy Hk) as Hr.
    rewrite Z2Nat.id in Hr by lia. cbv beta in Hr. rewrite Hr. clear Hr.
    unfold L2.
    rewrite (fold_left_ext_in _
      (fun y i => wr y (oy + i)
         ((fun i a => fold_left (fun a j => (a + rd zero A (oA + (i * n + j)) * rd zero x j)%r)
                        (range 0 n) a) i (rd zero y (oy + i))))).
    2:{ intros a i _.
        exact (fold_cell zero
                 (fun j a0 => (a0 + rd zero A (oA + (i * n + j)) * rd zero x j)%r)
                 (oy + i) (range 0 n) a). }
    pose proof (rd_fold_upd zero
      (fun i a => fold_left (fun a j => (a + rd zero A (oA + (i * n + j)) * rd zero x j)%r)
                    (range 0 n) a) oy (Z.to_nat n) L1 k Hoy ltac:(lia)) as Hr.
    rewrite Z2Nat.id in Hr by lia. rewrite Hr. clear Hr.
    unfold L1.
    pose proof (rd_fold_upd zero (fun _ a => (a * zero)%r) oy (Z.to_nat n) y k Hoy Hk) as Hr.
    rewrite Z2Nat.id in Hr by lia. cbv beta in Hr. rewrite Hr. clear Hr.
    destruct ((oy <=? k) && (k <? oy + n)); [|reflexivity].
    rewrite mul_zero_r. unfold row_sum.
    apply fold_left_ext_in. intros a j _. do 3 f_equal. lia.
Qed.


Ltac unroll_mxv k l :=
  unfold region_set, row_sum;
  change (range 0 k) with l;
  cbn [fold_left]; rewrite !add_zero_l;
  repeat (f_equal; try lia).

Lemma fasp_blas_smat_mxv_region (n : Z) (a : list R) (oa : Z) (b c : list R) (oc : Z) :
  fasp_blas_smat_mxv a oa b c oc n = region_set c oc n (row_sum a oa b n).
Proof.
  unfold fasp_blas_smat_mxv.
  destruct (Z.eqb_spec n 2) as [->|_].
  { unfold fasp_blas_smat_mxv_nc2. unroll_mxv 2 [0; 1]. }
  destruct (Z.eqb_spec n 3) as [->|_].
  { unfold fasp_blas_smat_mxv_nc3. unroll_mxv 3 [0; 1; 2]. }
  destruct (Z.eqb_spec n 5) as [->|_].
  { unfold fasp_blas_smat_mxv_nc5. unroll_mxv 5 [0; 1; 2; 3; 4]. }
  destruct (Z.eqb_spec n 7) as [->|_].
  { unfold fasp_blas_smat_mxv_nc7. unroll_mxv 7 [0; 1; 2; 3; 4; 5; 6]. }
  reflexivity.
Qed.

Lemma sor_block_is_gs_block (n : Z) (A : list R) (oA : Z) (x y : list R) (oy : Z) :
  0 <= oy -> 0 <= n ->
  saAxpby one (one - one)%r n A oA x y oy = fasp_blas_smat_mxv A oA x y oy n.
Proof.
  intros Hoy Hn. rewrite fasp_blas_smat_mxv_region. now apply saAxpby_one_zero.
Qed.

Lemma sor_point_is_gs_point (u rhs_over_diag : R) :
  ((one - one) * u + one * rhs_over_diag)%r = rhs_over_diag.
Proof. now rewrite sub_one_one, mul_zero_l, add_zero_l, mul_one_l. Qed.

End SorIsGs.

(** In exact arithmetic, that is, for every scalar type in which
    [1 - 1 = 0], [0/1 = 0], [0*x = x*0 = 0], [1*x = x*1 = x], [0 + x = x]
    and [1 != 0], one ascending SOR sweep with weight 1 returns exactly the
    iterate of one ascending Gauss-Seidel sweep.  IEEE doubles do not
    satisfy [0*x = 0]; the sweeps of the code are compared below, after the
    laws of double arithmetic. *)
Lemma sor_is_gs_in_exact_arithmetic {R : Type} `{ExactLaws R}
    (A : dSTRmat.t R) (b u : dvector.t R) (diaginv : list R) :
  fasp_smoother_dstr_sor_ascend A b u diaginv one =
  fasp_smoother_dstr_gs_ascend A b u diaginv.
Proof.
  unfold fasp_smoother_dstr_sor_ascend, fasp_smoother_dstr_gs_ascend.
  destruct (Z.eqb_spec (dSTRmat.nc A) 1) as [Hnc1|Hnc1].
  - f_equal. apply fold_left_ext_in. intros u_val point _.
    now rewrite sor_point_is_gs_point.
  - destruct (Z.gtb_spec (dSTRmat.nc A) 1) as [Hgt|Hle]; [|reflexivity].
    do 2 f_equal. apply fold_left_ext_in. intros [vec_tmp u_val] block Hblock.
    apply in_range in Hblock. f_equal.
    apply sor_block_is_gs_block; nia.
Qed.

(** The rationals satisfy the laws. *)
#[export] Instance exact_laws : ExactLaws Qc.
Proof.
  split; cbn.
  - ring.
  - now apply Qc_is_canon.
  - intros x. ring.
  - intros x. ring.
  - intros x. ring.
  - intros x. ring.
  - intros x. ring.
  - reflexivity.
Qed.

Example sor_is_gs_on_rationals :
  fasp_smoother_dstr_sor_ascend sor_gs_example_A sor_gs_example_b sor_gs_example_u
    sor_gs_example_diaginv one =
  fasp_smoother_dstr_gs_ascend sor_gs_example_A sor_gs_example_b sor_gs_example_u
    sor_gs_example_diaginv.
Proof.
  exact (sor_is_gs_in_exact_arithmetic (H0 := exact_laws)
           sor_gs_example_A sor_gs_example_b sor_gs_example_u sor_gs_example_diaginv).
Qed.

Example gs_ascend_binary64_value :
  dvector.val (fasp_smoother_dstr_gs_ascend sor_gs_binary64_A sor_gs_binary64_b
                 sor_gs_binary64_u []) = [0.5; 0.75; 0.875]%float.
Proof. vm_compute. reflexivity. Qed.

Example sor_ascend_binary64_value :
  dvector.val (fasp_smoother_dstr_sor_ascend sor_gs_binary64_A sor_gs_binary64_b
                 sor_gs_binary64_u [] 1%float) = [nan; nan; nan]%float.
Proof. vm_compute. reflexivity. Qed.

(** C9, as stated, fails in the arithmetic of the code: with weight 1 the SOR
    sweep computes [0.0*u[point] + 1.0*(rhs/diag[point])], which is NaN when
    [u[point]] is infinite, while the Gauss-Seidel sweep overwrites
    [u[point]] with [rhs/diag[point]]. *)
Lemma sor_ascend_weight_one_differs_from_gs_ascend :
  fasp_smoother_dstr_sor_ascend sor_gs_binary64_A sor_gs_binary64_b sor_gs_binary64_u
    [] 1%float <>
  fasp_smoother_dstr_gs_ascend sor_gs_binary64_A sor_gs_binary64_b sor_gs_binary64_u [].
Proof.
  intros Heq.
  apply (f_equal (fun v => PrimFloat.is_nan (rd zero (dvector.val v) 0))) in Heq.
  vm_compute in Heq. discriminate.
Qed.

(** With finite data the two sweeps can still differ in the sign of a zero:
    here Gauss-Seidel returns [-0.0] and SOR returns [+0.0]. *)
Example sor_gs_signed_zero :
  let A := dSTRmat.mk 1 1 1 1 1 1 [-1]%float 0 [] [] in
  let b := dvector.mk 1 [0]%float in
  let u := dvector.mk 1 [1]%float in
  dvector.val (fasp_smoother_dstr_gs_ascend A b u []) = [(-0)%float] /\
  dvector.val (fasp_smoother_dstr_sor_ascend A b u [] 1%float) = [0%float].
Proof. vm_compute. split; reflexivity. Qed.

(** ** coarsening_rs.c: the sparsity pattern of the prolongation *)

Lemma length_filter_map {A B} (f : A -> B) (p : B -> bool) (l : list A) :
  length (List.filter p (map f l)) = length (List.filter (fun x => p (f x)) l).
Proof.
  induction l as [|x l IH]; cbn; [reflexivity|].
  destruct (p (f x)); cbn; now rewrite IH.
Qed.

Lemma filter_map_comm {A B} (f : A -> B) (p : B -> bool) (l : list A) :
  List.filter p (map f l) = map f (List.filter (fun x => p (f x)) l).
Proof.
  induction l as [|x l IH]; cbn; [reflexivity|].
  destruct (p (f x)); cbn; now rewrite IH.
Qed.

Lemma P_offset_succ S vec n :
  0 <= n -> P_offset S vec (n + 1) = P_offset S vec n + Z.of_nat (length (P_row S vec n)).
Proof.
  intros Hn. unfold P_offset. rewrite range_snoc by lia.
  now rewrite fold_left_app.
Qed.

Lemma P_offset_0 S vec : P_offset S vec 0 = 0.
Proof. reflexivity. Qed.

Lemma P_offset_nonneg S vec n : 0 <= P_offset S vec n.
Proof.
  unfold P_offset. generalize (range 0 n). intros l.
  assert (Hgen : forall a, 0 <= a ->
    0 <= fold_left (fun acc i => acc + Z.of_nat (length (P_row S vec i))) l a).
  { induction l as [|x l IH]; intros a Ha; cbn [fold_left]; [assumption|].
    apply IH. lia. }
  now apply Hgen.
Qed.

Lemma P_offset_mono S vec m n : 0 <= m <= n -> P_offset S vec m <= P_offset S vec n.
Proof.
  intros [Hm Hmn]. replace n with (m + Z.of_nat (Z.to_nat (n - m))) by lia.
  generalize (Z.to_nat (n - m)). intros k. induction k as [|k IH].
  - replace (m + Z.of_nat 0) with m by lia. lia.
  - replace (m + Z.of_nat (Datatypes.S k)) with (m + Z.of_nat k + 1) by lia.
    rewrite P_offset_succ by lia. lia.
Qed.

(** Counting the coarse neighbours into one cell. *)
Lemma count_loop (c : Z -> bool) (cell : Z) (js : list Z) (PIA : list Z) :
  fold_left (fun PIA j => if c j then wr PIA cell (rd 0 PIA cell + 1) else PIA) js PIA =
  wr PIA cell (rd 0 PIA cell + Z.of_nat (length (List.filter c js))).
Proof.
  rewrite (fold_left_ext_in _
    (fun PIA j => wr PIA cell ((fun j a => if c j then a + 1 else a) j (rd 0 PIA cell)))).
  2:{ intros a j _. cbv beta. destruct (c j); [reflexivity|]. symmetry. apply wr_rd_id. }
  rewrite (fold_cell 0 (fun j a => if c j then a + 1 else a) cell js PIA).
  f_equal. generalize (rd 0 PIA cell). induction js as [|j js IH]; intros a; cbn.
  - lia.
  - destruct (c j); cbn [length]; rewrite IH; lia.
Qed.

Lemma count_row_spec S vec PIA i :
  count_row S vec PIA i =
  wr PIA (1 + i)
    ((fun i a => if rd 0 vec i =? FGPT then a + Z.of_nat (length (P_row S vec i))
                 else Z.of_nat (length (P_row S vec i))) i (rd 0 PIA (1 + i))).
Proof.
  unfold count_row, P_row. cbv beta. rewrite (Z.add_comm 1 i).
  destruct (rd 0 vec i =? FGPT).
  - rewrite (count_loop (fun j => rd 0 vec (rd 0 (iCSRmat.JA S) j) =? CGPT)).
    unfold csr_row, slice. now rewrite length_filter_map.
  - destruct (rd 0 vec i =? ISPT); reflexivity.
Qed.

(** The row counts after the first loop of [generate_sparsity_P]. *)
Lemma rd_count_rows S vec row k :
  0 <= row -> 0 <= k <= row ->
  rd 0 (fold_left (count_row S vec) (range 0 row) (calloc 0 (row + 1))) k =
  if k =? 0 then 0 else Z.of_nat (length (P_row S vec (k - 1))).
Proof.
  intros Hrow Hk.
  rewrite (fold_left_ext_in _ _ _ _ (fun a x _ => count_row_spec S vec a x)).
  pose proof (rd_fold_upd 0
    (fun i a => if rd 0 vec i =? FGPT then a + Z.of_nat (length (P_row S vec i))
                else Z.of_nat (length (P_row S vec i)))
    1 (Z.to_nat row) (calloc 0 (row + 1)) k ltac:(lia)) as Hr.
  rewrite Z2Nat.id in Hr by lia. rewrite Hr.
  2:{ unfold calloc. rewrite length_replicate. lia. }
  assert (Hz : rd 0 (calloc 0 (row + 1)) k = 0).
  { unfold rd, calloc. destruct (k <? 0); [reflexivity|].
    rewrite nth_lookup. destruct (replicate _ _ !! _) eqn:E; [|reflexivity].
    apply lookup_replicate in E. now destruct E. }
  rewrite Hz.
  destruct (Z.eqb_spec k 0) as [->|Hne]; [reflexivity|].
  destruct (Z.leb_spec 1 k), (Z.ltb_spec k (1 + row)); cbn; try lia.
  destruct (rd 0 vec (k - 1) =? FGPT); reflexivity.
Qed.

(** The running sums [P->IA[i+1] += P->IA[i]]. *)
Lemma rd_prefix_sum S vec row (PIA1 : list Z) :
  0 <= row ->
  Z.of_nat (length PIA1) = row + 1 ->
  rd 0 PIA1 0 = 0 ->
  (forall k, 1 <= k <= row -> rd 0 PIA1 k = Z.of_nat (length (P_row S vec (k - 1)))) ->
  forall n : nat, Z.of_nat n <= row ->
  let Y := fold_left (fun PIA i => wr PIA (i + 1) (rd 0 PIA (i + 1) + rd 0 PIA i))
             (range 0 (Z.of_nat n)) PIA1 in
  length Y = length PIA1 /\
  (forall k, 0 <= k <= Z.of_nat n -> rd 0 Y k = P_offset S vec k) /\
  (forall k, Z.of_nat n < k <= row -> rd 0 Y k = rd 0 PIA1 k).
Proof.
  intros Hrow Hlen H0 Hcnt n. induction n as [|n IH]; intros Hn Y.
  - subst Y. cbn. split; [reflexivity|]. split; [|reflexivity].
    intros k Hk. replace k with 0 by lia. now rewrite P_offset_0.
  - subst Y. replace (Z.of_nat (Datatypes.S n)) with (Z.of_nat n + 1) in * by lia.
    rewrite range_snoc by lia. rewrite fold_left_app. cbn [fold_left].
    destruct (IH ltac:(lia)) as (HlenY & Hlow & Hhigh).
    set (Y := fold_left _ (range 0 (Z.of_nat n)) PIA1) in *.
    split; [now rewrite length_wr|]. split.
    + intros k Hk. destruct (Z.eq_dec k (Z.of_nat n + 1)) as [->|Hne].
      * rewrite rd_wr_eq by lia. rewrite Hhigh by lia. rewrite Hlow by lia.
        rewrite Hcnt by lia. rewrite P_offset_succ by lia.
        replace (Z.of_nat n + 1 - 1) with (Z.of_nat n) by lia. lia.
      * rewrite rd_wr_ne by lia. apply Hlow. lia.
    + intros k Hk. rewrite rd_wr_ne by lia. apply Hhigh. lia.
Qed.

Lemma write_list_app {A} (a : list A) index xs ys :
  write_list a index (xs ++ ys) =
  write_list (write_list a index xs) (index + Z.of_nat (length xs)) ys.
Proof.
  revert a index. induction xs as [|x xs IH]; intros a index; cbn [write_list app length].
  - now replace (index + Z.of_nat 0) with index by lia.
  - rewrite IH. f_equal. lia.
Qed.

Lemma write_list_fill {A} (xs : list A) : forall pre rest : list A,
  (length xs <= length rest)%nat ->
  write_list (pre ++ rest) (Z.of_nat (length pre)) xs = pre ++ xs ++ drop (length xs) rest.
Proof.
  induction xs as [|x xs IH]; intros pre rest Hlen; cbn [write_list length app].
  - now rewrite drop_0.
  - destruct rest as [|r rest]; [cbn in Hlen; lia|].
    unfold wr. destruct (Z.ltb_spec (Z.of_nat (length pre)) 0); [lia|].
    rewrite Nat2Z.id.
    replace (<[length pre:=x]> (pre ++ r :: rest)) with ((pre ++ [x]) ++ rest).
    2:{ rewrite insert_app_r_alt by lia. rewrite Nat.sub_diag. cbn.
        now rewrite <- app_assoc. }
    replace (Z.of_nat (length pre) + 1) with (Z.of_nat (length (pre ++ [x]))).
    2:{ rewrite length_app. cbn. lia. }
    rewrite IH by (cbn in Hlen; lia). rewrite <- app_assoc. reflexivity.
Qed.

Lemma fill_loop (c : Z -> bool) (f : Z -> Z) (js : list Z) : forall (PJA : list Z) (index : Z),
  fold_left (fun '(PJA, index) j =>
               if c j then (wr PJA index (f j), index + 1) else (PJA, index))
    js (PJA, index) =
  (write_list PJA index (map f (List.filter c js)),
   index + Z.of_nat (length (List.filter c js))).
Proof.
  induction js as [|j js IH]; intros PJA index; cbn [fold_left List.filter].
  - cbn. f_equal. lia.
  - destruct (c j); rewrite IH; cbn [map write_list length]; f_equal; lia.
Qed.

Lemma fill_row_spec S vec PJA index i :
  fill_row S vec (PJA, index) i =
  (write_list PJA index (P_row S vec i), index + Z.of_nat (length (P_row S vec i))).
Proof.
  unfold fill_row, P_row. destruct (rd 0 vec i =? FGPT).
  - rewrite (fill_loop (fun j => rd 0 vec (rd 0 (iCSRmat.JA S) j) =? CGPT)
               (fun j => rd 0 (iCSRmat.JA S) j)).
    unfold csr_row, slice. rewrite filter_map_comm. now rewrite length_map.
  - destruct (rd 0 vec i =? ISPT); cbn; f_equal; lia.
Qed.

Lemma P_rows_upto_succ S vec n :
  0 <= n -> P_rows_upto S vec (n + 1) = P_rows_upto S vec n ++ P_row S vec n.
Proof.
  intros Hn. unfold P_rows_upto. rewrite range_snoc by lia.
  rewrite map_app, concat_app. cbn. now rewrite app_nil_r.
Qed.

Lemma length_P_rows_upto S vec (n : nat) :
  Z.of_nat (length (P_rows_upto S vec (Z.of_nat n))) = P_offset S vec (Z.of_nat n).
Proof.
  induction n as [|n IH]; [reflexivity|].
  replace (Z.of_nat (Datatypes.S n)) with (Z.of_nat n + 1) by lia.
  rewrite P_rows_upto_succ, P_offset_succ by lia. rewrite length_app. lia.
Qed.

Lemma fill_rows S vec PJA0 (n : nat) :
  fold_left (fill_row S vec) (range 0 (Z.of_nat n)) (PJA0, 0) =
  (write_list PJA0 0 (P_rows_upto S vec (Z.of_nat n)), P_offset S vec (Z.of_nat n)).
Proof.
  induction n as [|n IH]; [reflexivity|].
  replace (Z.of_nat (Datatypes.S n)) with (Z.of_nat n + 1) by lia.
  rewrite range_snoc by lia. rewrite fold_left_app, IH. cbn [fold_left].
  rewrite fill_row_spec, P_rows_upto_succ, P_offset_succ by lia.
  rewrite write_list_app. rewrite Z.add_0_l, length_P_rows_upto. reflexivity.
Qed.

Lemma map_rd_app_mid {A} (d : A) (b : list A) : forall a c : list A,
  map (rd d (a ++ b ++ c))
    (range (Z.of_nat (length a)) (Z.of_nat (length a) + Z.of_nat (length b))) = b.
Proof.
  induction b as [|x b IH]; intros a c.
  - rewrite range_nil by (cbn; lia). reflexivity.
  - rewrite range_cons by (cbn [length]; lia). cbn [map]. f_equal.
    + change ((x :: b) ++ c) with (x :: b ++ c).
      unfold rd. destruct (Z.ltb_spec (Z.of_nat (length a)) 0); [lia|].
      rewrite Nat2Z.id. rewrite nth_middle. reflexivity.
    + specialize (IH (a ++ [x]) c). rewrite <- app_assoc in IH. cbn [app] in IH.
      rewrite length_app in IH. cbn [length] in IH.
      replace (Z.of_nat (length a) + 1) with (Z.of_nat (length a + 1)) by lia.
      replace (Z.of_nat (length a) + Z.of_nat (length (x :: b)))
        with (Z.of_nat (length a + 1) + Z.of_nat (length b)) by (cbn [length]; lia).
      exact IH.
Qed.

Lemma slice_app_mid (b : list Z) : forall a c : list Z,
  slice (a ++ b ++ c) (Z.of_nat (length a)) (Z.of_nat (length a) + Z.of_nat (length b)) = b.
Proof. intros a c. apply map_rd_app_mid. Qed.

Lemma map_rd_range {A} (d : A) (l : list A) :
  map (rd d l) (range 0 (Z.of_nat (length l))) = l.
Proof.
  pose proof (map_rd_app_mid d l [] []) as Hm. cbn [app length] in Hm.
  rewrite app_nil_r in Hm. exact Hm.
Qed.

Lemma rd_map {A B} (f : A -> B) (d : A) (l : list A) (k : Z) :
  rd (f d) (map f l) k = f (rd d l k).
Proof. unfold rd. destruct (k <? 0); [reflexivity|]. apply map_nth. Qed.

Lemma range_app lo mid hi : lo <= mid <= hi -> range lo hi = range lo mid ++ range mid hi.
Proof.
  intros [Hlm Hmh]. replace hi with (mid + Z.of_nat (Z.to_nat (hi - mid))) by lia.
  generalize (Z.to_nat (hi - mid)). intros n. induction n as [|n IH].
  - replace (mid + Z.of_nat 0) with mid by lia.
    rewrite (range_nil mid mid) by lia. now rewrite app_nil_r.
  - replace (mid + Z.of_nat (Datatypes.S n)) with (mid + Z.of_nat n + 1) by lia.
    rewrite !range_snoc by lia. rewrite IH. now rewrite app_assoc.
Qed.

Lemma length_count_row S vec PIA i : length (count_row S vec PIA i) = length PIA.
Proof. rewrite count_row_spec. apply length_wr. Qed.

Lemma generate_sparsity_P_IA {R} `{Real R} (S : iCSRmat.t) (vec : list Z) (row col k : Z) :
  0 <= row -> 0 <= k <= row ->
  rd 0 (dCSRmat.IA (generate_sparsity_P (R := R) S vec row col)) k = P_offset S vec k.
Proof.
  intros Hrow Hk. unfold generate_sparsity_P.
  set (PIA1 := fold_left (count_row S vec) (range 0 row) (calloc 0 (row + 1))).
  set (PIA2 := fold_left _ (range 0 row) PIA1).
  destruct (fold_left (fill_row S vec) _ _) as [PJA idx]. cbn [dCSRmat.IA].
  assert (Hlen1 : Z.of_nat (length PIA1) = row + 1).
  { unfold PIA1. rewrite length_fold_left by apply length_count_row.
    unfold calloc. rewrite length_replicate. lia. }
  pose proof (rd_prefix_sum S vec row PIA1 Hrow Hlen1) as Hps.
  specialize (Hps (rd_count_rows S vec row 0 Hrow ltac:(lia))).
  assert (Hcnt : forall k, 1 <= k <= row ->
            rd 0 PIA1 k = Z.of_nat (length (P_row S vec (k - 1)))).
  { intros k' Hk'. unfold PIA1. rewrite rd_count_rows by lia.
    destruct (Z.eqb_spec k' 0); [lia|reflexivity]. }
  specialize (Hps Hcnt (Z.to_nat row) ltac:(lia)). cbv zeta in Hps.
  rewrite Z2Nat.id in Hps by lia. destruct Hps as (_ & Hlow & _).
  now apply Hlow.
Qed.

Lemma generate_sparsity_P_JA {R} `{Real R} (S : iCSRmat.t) (vec : list Z) (row col : Z) :
  0 <= row ->
  dCSRmat.JA (generate_sparsity_P (R := R) S vec row col) = P_rows_upto S vec row.
Proof.
  intros Hrow.
  pose proof (generate_sparsity_P_IA S vec row col row Hrow ltac:(lia)) as Hnnz.
  pose proof (generate_sparsity_P_IA S vec row col 0 Hrow ltac:(lia)) as H0.
  unfold generate_sparsity_P in *.
  set (PIA2 := fold_left _ (range 0 row) (fold_left (count_row S vec) _ _)) in *.
  destruct (fold_left (fill_row S vec) _ _) as [PJA idx] eqn:Hfill.
  cbn [dCSRmat.IA dCSRmat.JA] in *.
  rewrite Hnnz, H0, P_offset_0, Z.sub_0_r in Hfill.
  replace row with (Z.of_nat (Z.to_nat row)) in Hfill by lia.
  rewrite fill_rows in Hfill. rewrite Z2Nat.id in Hfill by lia.
  injection Hfill as <- _.
  pose proof (write_list_fill (P_rows_upto S vec row) [] (calloc 0 (P_offset S vec row))) as Hw.
  cbn [app length] in Hw. change (Z.of_nat 0) with 0 in Hw.
  pose proof (length_P_rows_upto S vec (Z.to_nat row)) as Hl.
  rewrite Z2Nat.id in Hl by lia.
  rewrite Hw.
  - rewrite drop_ge; [apply app_nil_r|].
    unfold calloc. rewrite length_replicate. lia.
  - unfold calloc. rewrite length_replicate. lia.
Qed.

(** C6 (as amended): in the pattern built by [generate_sparsity_P], a FINE
    row [i] holds exactly the COARSE strong neighbours of [i], one entry for
    each, in the order of row [i] of [S]; an ISOLATED row is empty; every
    other row (a COARSE one) holds exactly one entry, whose column is the
    vertex [i] itself, its index on the fine grid.  All stored values are
    zero: only the pattern is built. *)
Theorem generate_sparsity_P_pattern {R} `{Real R} (S : iCSRmat.t) (vec : list Z)
    (row col i : Z) :
  0 <= i < row ->
  let P := generate_sparsity_P (R := R) S vec row col in
  let P_i := csr_row (dCSRmat.IA P) (dCSRmat.JA P) i in
  (rd 0 vec i = FGPT ->
   P_i = List.filter (fun k => rd 0 vec k =? CGPT)
           (csr_row (iCSRmat.IA S) (iCSRmat.JA S) i)) /\
  (rd 0 vec i = ISPT -> P_i = []) /\
  (rd 0 vec i <> FGPT -> rd 0 vec i <> ISPT -> P_i = [i]) /\
  Forall (fun v => v = zero) (dCSRmat.val P).
Proof.
  intros Hi P P_i.
  assert (Hrow : P_i = P_row S vec i).
  { subst P_i P. unfold csr_row.
    rewrite !generate_sparsity_P_IA by lia. rewrite generate_sparsity_P_JA by lia.
    unfold P_rows_upto. rewrite (range_app 0 (i + 1) row) by lia.
    rewrite map_app, concat_app. fold (P_rows_upto S vec (i + 1)).
    rewrite P_rows_upto_succ by lia. rewrite <- app_assoc.
    pose proof (length_P_rows_upto S vec (Z.to_nat i)) as Hl.
    rewrite Z2Nat.id in Hl by lia. rewrite <- Hl.
    rewrite P_offset_succ by lia. rewrite <- Hl. apply slice_app_mid. }
  rewrite Hrow. unfold P_row. repeat split.
  - intros Hf. rewrite Hf. reflexivity.
  - intros Hs. rewrite Hs. reflexivity.
  - intros Hnf Hns. apply Z.eqb_neq in Hnf, Hns. now rewrite Hnf, Hns.
  - subst P. unfold generate_sparsity_P.
    destruct (fold_left (fill_row S vec) _ _) as [PJA idx]. cbn [dCSRmat.val].
    unfold calloc. now apply Forall_replicate.
Qed.

Lemma generate_sparsity_P_pattern_witness :
  let P := generate_sparsity_P (R := float) sparsity_example_S sparsity_example_vec 3 1 in
  let P_i := csr_row (dCSRmat.IA P) (dCSRmat.JA P) 0 in
  (rd 0 sparsity_example_vec 0 = FGPT ->
   P_i = List.filter (fun k => rd 0 sparsity_example_vec k =? CGPT)
           (csr_row (iCSRmat.IA sparsity_example_S) (iCSRmat.JA sparsity_example_S) 0)) /\
  (rd 0 sparsity_example_vec 0 = ISPT -> P_i = []) /\
  (rd 0 sparsity_example_vec 0 <> FGPT -> rd 0 sparsity_example_vec 0 <> ISPT -> P_i = [0]) /\
  Forall (fun v => v = zero) (dCSRmat.val P).
Proof.
  apply (generate_sparsity_P_pattern (R := float) sparsity_example_S sparsity_example_vec 3 1 0).
  lia.
Defined.

Example generate_sparsity_P_example :
  generate_sparsity_P (R := float) sparsity_example_S sparsity_example_vec 3 1 =
  dCSRmat.mk 3 1 2 [0; 1; 2; 2] [1; 1] [0; 0]%float.
Proof. vm_compute. reflexivity. Qed.

(** C6, as stated, fails for the COARSE rows: in the example the coarse
    vertex 1 is the first coarse vertex (coarse-grid index 0), but its row
    holds column 1, the vertex itself, with the value [0.0], not a unit entry
    at the coarse-grid index. *)
Lemma generate_sparsity_P_coarse_row_counterexample :
  let P := generate_sparsity_P (R := float) sparsity_example_S sparsity_example_vec 3 1 in
  rd 0 sparsity_example_vec 1 = CGPT /\
  coarse_index sparsity_example_vec 1 = 0 /\
  ~ (csr_row (dCSRmat.IA P) (dCSRmat.JA P) 1 = [coarse_index sparsity_example_vec 1] /\
     map (rd zero (dCSRmat.val P)) (range (rd 0 (dCSRmat.IA P) 1) (rd 0 (dCSRmat.IA P) 2))
     = [one]).
Proof.
  vm_compute. split; [reflexivity|]. split; [reflexivity|].
  intros [Hcol _]. discriminate Hcol.
Qed.

(** ** coarsening_rs.c: the strength graph *)

Example generate_S_example :
  generate_S generate_S_example_A generate_S_example_param =
  iCSRmat.mk 2 2 2 [0; 1; 2] [1; 0] [].
Proof. vm_compute. reflexivity. Qed.

(** C2, as stated, fails: the test [A[i,j] >= theta_str * row_scale] of
    [generate_S] marks an entry as WEAK.  In row 0 of [[2 -1] [-1 2]] the
    off-diagonal entry [-1] (position 1, column 1) is kept in [S] although
    [-1 >= 0.25 * (-1)] is false. *)
Lemma generate_S_keeps_entries_below_threshold :
  let S := generate_S generate_S_example_A generate_S_example_param in
  ~ (In 1 (csr_row (iCSRmat.IA S) (iCSRmat.JA S) 0) <->
     claimed_strong generate_S_example_A generate_S_example_param 0 1 = true).
Proof.
  intros S [Hkept _].
  assert (Hin : In 1 (csr_row (iCSRmat.IA S) (iCSRmat.JA S) 0)).
  { vm_compute. left. reflexivity. }
  specialize (Hkept Hin). vm_compute in Hkept. discriminate Hkept.
Qed.

Lemma rd_fold_cond_wr {A} (d : A) (c : Z -> bool) (v : A) (js : list Z) :
  forall (l : list A) k,
  0 <= k < Z.of_nat (length l) ->
  rd d (fold_left (fun l j => if c j then wr l j v else l) js l) k =
  if existsb (fun j => (j =? k) && c j) js then v else rd d l k.
Proof.
  induction js as [|j js IH]; intros l k Hk; cbn [fold_left existsb]; [reflexivity|].
  rewrite IH by (destruct (c j); rewrite ?length_wr; exact Hk).
  destruct (existsb _ js); [now rewrite orb_true_r|]. rewrite orb_false_r.
  destruct (c j); [|now rewrite andb_false_r]. rewrite andb_true_r.
  destruct (Z.eqb_spec j k) as [->|Hne].
  - now rewrite rd_wr_eq.
  - now rewrite rd_wr_ne.
Qed.

Lemma existsb_range (c : Z -> bool) (lo hi k : Z) :
  existsb (fun j => (j =? k) && c j) (range lo hi) = (lo <=? k) && (k <? hi) && c k.
Proof.
  destruct (existsb _ _) eqn:E.
  - apply existsb_exists in E. destruct E as (j & Hj & Hc).
    apply in_range in Hj. apply andb_prop in Hc. destruct Hc as [Hjk Hc].
    apply Z.eqb_eq in Hjk. subst j. rewrite Hc.
    destruct (Z.leb_spec lo k), (Z.ltb_spec k hi); cbn; try reflexivity; lia.
  - destruct (Z.leb_spec lo k), (Z.ltb_spec k hi); cbn; try reflexivity.
    destruct (c k) eqn:Hc; [|reflexivity].
    cbn. rewrite <- E. apply existsb_exists. exists k. split.
    + apply in_range. lia.
    + now rewrite Z.eqb_refl, Hc.
Qed.

Lemma mark_diag_find (ja : list Z) (i : Z) (js : list Z) (SJA : list Z) :
  mark_diag ja i js SJA =
  match find (fun j => rd 0 ja j =? i) js with
  | Some j => wr SJA j (-1)
  | None => SJA
  end.
Proof.
  induction js as [|j js IH]; cbn [mark_diag find]; [reflexivity|].
  destruct (rd 0 ja j =? i); [reflexivity|apply IH].
Qed.

Lemma length_mark_row {R} `{Real R} (A : dCSRmat.t R) param diag SJA i :
  length (mark_row A param diag SJA i) = length SJA.
Proof.
  unfold mark_row. destruct (row_scale_sum A i) as [row_scale row_sum].
  assert (Hd : forall js, length (mark_diag (dCSRmat.JA A) i js SJA) = length SJA).
  { intros js. rewrite mark_diag_find. destruct (find _ js); [apply length_wr|reflexivity]. }
  destruct (_ && _).
  - rewrite length_fold_left; [apply Hd|]. intros. apply length_wr.
  - rewrite length_fold_left; [apply Hd|]. intros y x. destruct (_ <=? _)%r; [apply length_wr|reflexivity].
Qed.

(** The effect of the marking loop of row [i] on one cell of [S->JA]. *)
Lemma rd_mark_row {R} `{Real R} (A : dCSRmat.t R) (param : AMG_param.t R)
    (SJA : list Z) (i k : Z) :
  0 <= k < Z.of_nat (length SJA) ->
  rd 0 (mark_row A param (fasp_dcsr_getdiag A) SJA i) k =
  if (rd 0 (dCSRmat.IA A) i <=? k) && (k <? rd 0 (dCSRmat.IA A) (i + 1))
     && weak_entry A param i k
  then -1 else rd 0 SJA k.
Proof.
  intros Hk. unfold mark_row, weak_entry, all_weak, is_first_diag, row_positions.
  destruct (row_scale_sum A i) as [row_scale row_sum]. cbn [fst snd].
  set (lo := rd 0 (dCSRmat.IA A) i). set (hi := rd 0 (dCSRmat.IA A) (i + 1)).
  set (aw := (_ && _)%bool).
  rewrite mark_diag_find.
  assert (Hfind : forall j, find (fun j => rd 0 (dCSRmat.JA A) j =? i) (range lo hi) = Some j ->
                            lo <= j < hi).
  { intros j Hj. apply find_some in Hj. destruct Hj as [Hj _]. now apply in_range in Hj. }
  assert (Hmd : rd 0 (match find (fun j => rd 0 (dCSRmat.JA A) j =? i) (range lo hi) with
                      | Some j => wr SJA j (-1)
                      | None => SJA
                      end) k =
                if match find (fun j => rd 0 (dCSRmat.JA A) j =? i) (range lo hi) with
                   | Some j' => j' =? k
                   | None => false
                   end then -1 else rd 0 SJA k).
  { destruct (find _ _) as [j|]; [|reflexivity].
    destruct (Z.eqb_spec j k) as [->|Hne]; [now rewrite rd_wr_eq|now rewrite rd_wr_ne]. }
  assert (Hlen : length (match find (fun j => rd 0 (dCSRmat.JA A) j =? i) (range lo hi) with
                      | Some j => wr SJA j (-1)
                      | None => SJA
                      end) = length SJA).
  { destruct (find _ _); [apply length_wr|reflexivity]. }
  destruct aw.
  - rewrite (rd_fold_cond_wr 0 (fun _ => true) (-1)) by (rewrite Hlen; exact Hk).
    rewrite existsb_range, Hmd. rewrite orb_true_r, !andb_true_r.
    destruct (find _ _) as [j|] eqn:Hf.
    + specialize (Hfind j eq_refl).
      destruct (Z.eqb_spec j k) as [->|Hne]; [|reflexivity].
      destruct (Z.leb_spec lo k), (Z.ltb_spec k hi); cbn; try reflexivity; lia.
    + reflexivity.
  - rewrite (rd_fold_cond_wr 0
      (fun j => (AMG_param.strong_threshold param * row_scale <=? rd zero (dCSRmat.val A) j)%r)
      (-1)) by (rewrite Hlen; exact Hk).
    rewrite existsb_range, Hmd.
    destruct (find _ _) as [j|] eqn:Hf.
    + specialize (Hfind j eq_refl).
      destruct (Z.eqb_spec j k) as [->|Hne].
      * cbn [orb]. rewrite andb_true_r.
        destruct (Z.leb_spec lo k), (Z.ltb_spec k hi); cbn; try lia.
        now destruct (_ <=? _)%r.
      * reflexivity.
    + reflexivity.
Qed.

Lemma kept_upto_succ M p :
  0 <= p ->
  kept_upto M (p + 1) = kept_upto M p ++ (if rd 0 M p >? -1 then [rd 0 M p] else []).
Proof.
  intros Hp. unfold kept_upto. rewrite range_snoc by lia.
  rewrite map_app, List.filter_app. reflexivity.
Qed.

Lemma length_kept_upto_le M p : 0 <= p -> Z.of_nat (length (kept_upto M p)) <= p.
Proof.
  intros Hp. unfold kept_upto.
  pose proof (List.filter_length_le (fun v => v >? -1) (map (rd 0 M) (range 0 p))) as Hle.
  rewrite length_map, length_range in Hle. lia.
Qed.

(** The in-place compaction of the positions [lo, ..., lo+n-1]. *)
Lemma compress_positions (M : list Z) (n : nat) : forall (lo : Z) (SJA : list Z) (index : Z),
  0 <= lo ->
  lo + Z.of_nat n <= Z.of_nat (length M) ->
  length SJA = length M ->
  index = Z.of_nat (length (kept_upto M lo)) ->
  take (Z.to_nat index) SJA = kept_upto M lo ->
  (forall p, lo <= p < Z.of_nat (length M) -> rd 0 SJA p = rd 0 M p) ->
  let '(SJA', index') :=
    fold_left (fun '(SJA, index) j =>
                 if rd 0 SJA j >? -1 then (wr SJA index (rd 0 SJA j), index + 1)
                 else (SJA, index))
      (range lo (lo + Z.of_nat n)) (SJA, index) in
  length SJA' = length M /\
  index' = Z.of_nat (length (kept_upto M (lo + Z.of_nat n))) /\
  take (Z.to_nat index') SJA' = kept_upto M (lo + Z.of_nat n) /\
  (forall p, lo + Z.of_nat n <= p < Z.of_nat (length M) -> rd 0 SJA' p = rd 0 M p).
Proof.
  induction n as [|n IH]; intros lo SJA index Hlo Hhi Hlen Hidx Htake Hrest.
  - rewrite range_nil by lia. cbn [fold_left].
    replace (lo + Z.of_nat 0) with lo by lia. auto.
  - rewrite range_cons by lia. cbn [fold_left].
    pose proof (length_kept_upto_le M lo Hlo) as Hle.
    rewrite (Hrest lo) by lia.
    pose proof (kept_upto_succ M lo Hlo) as Hsucc.
    replace (lo + Z.of_nat (Datatypes.S n)) with (lo + 1 + Z.of_nat n) by lia.
    destruct (rd 0 M lo >? -1) eqn:Hv.
    + apply IH; try lia.
      * now rewrite length_wr.
      * rewrite Hsucc, length_app. cbn [length]. lia.
      * rewrite Hsucc. unfold wr. destruct (Z.ltb_spec index 0); [lia|].
        replace (Z.to_nat (index + 1)) with (Datatypes.S (Z.to_nat index)) by lia.
        rewrite (take_S_r _ _ (rd 0 M lo)).
        -- rewrite take_insert_ge by lia. now rewrite Htake.
        -- apply list_lookup_insert_eq. lia.
      * intros p Hp. rewrite rd_wr_ne by lia. apply Hrest. lia.
    + apply IH; try lia; try assumption.
      * rewrite Hsucc, app_nil_r. exact Hidx.
      * rewrite Hsucc, app_nil_r. exact Htake.
      * intros p Hp. apply Hrest. lia.
Qed.

Section GenerateSCorrect.
Context {R : Type} `{Real R}.
Variable A : dCSRmat.t R.
Variable param : AMG_param.t R.

Local Abbreviation row := (dCSRmat.row A).
Local Abbreviation ia := (dCSRmat.IA A).
Local Abbreviation ja := (dCSRmat.JA A).
Local Abbreviation nnz := (rd 0 ia row - rd 0 ia 0).

(** The CSR invariants of the input. *)
Hypothesis Hrow : 0 <= row.
Hypothesis HIA0 : rd 0 ia 0 = 0.
Hypothesis Hmono : forall k, 0 <= k < row -> rd 0 ia k <= rd 0 ia (k + 1).
Hypothesis HJA : forall j, 0 <= j < rd 0 ia row -> 0 <= rd 0 ja j.

Lemma IA_mono a b : 0 <= a <= b -> b <= row -> rd 0 ia a <= rd 0 ia b.
Proof.
  intros [Ha Hab] Hb. replace b with (a + Z.of_nat (Z.to_nat (b - a))) in * by lia.
  induction (Z.to_nat (b - a)) as [|n IH].
  - replace (a + Z.of_nat 0) with a by lia. lia.
  - replace (a + Z.of_nat (Datatypes.S n)) with (a + Z.of_nat n + 1) in * by lia.
    specialize (Hmono (a + Z.of_nat n) ltac:(lia)). lia.
Qed.

(** [S->JA] after the two [memcpy]s. *)
Local Abbreviation SJA0 := (fold_left (fun d i => wr d i (rd 0 ja i)) (range 0 nnz) (calloc 0 nnz)).

(** [S->JA] after the marking loop. *)
Local Abbreviation marked := (fold_left (mark_row A param (fasp_dcsr_getdiag A)) (range 0 row) SJA0).

Lemma length_SJA0 : Z.of_nat (length SJA0) = rd 0 ia row.
Proof.
  rewrite length_fold_left by (intros; apply length_wr).
  unfold calloc. rewrite length_replicate, HIA0.
  pose proof (IA_mono 0 row ltac:(lia) ltac:(lia)). lia.
Qed.

Lemma rd_SJA0 k : 0 <= k < rd 0 ia row -> rd 0 SJA0 k = rd 0 ja k.
Proof.
  intros Hk. rewrite HIA0, Z.sub_0_r.
  pose proof (rd_fold_wr 0 (fun i => rd 0 ja i) 0 (Z.to_nat (rd 0 ia row))
                (calloc 0 (rd 0 ia row)) k ltac:(lia)) as Hr.
  rewrite Z.add_0_l, Z2Nat.id in Hr by lia. rewrite Hr.
  - destruct (Z.leb_spec 0 k), (Z.ltb_spec k (rd 0 ia row)); cbn; try reflexivity; lia.
  - unfold calloc. rewrite length_replicate. lia.
Qed.

Lemma rd_marked_upto (n : nat) (i k : Z) :
  Z.of_nat n <= row ->
  0 <= i < row ->
  rd 0 ia i <= k < rd 0 ia (i + 1) ->
  rd 0 (fold_left (mark_row A param (fasp_dcsr_getdiag A)) (range 0 (Z.of_nat n)) SJA0) k =
  if (i <? Z.of_nat n) && weak_entry A param i k then -1 else rd 0 ja k.
Proof.
  intros Hn Hi Hk.
  assert (Hkb : 0 <= k < rd 0 ia row).
  { pose proof (IA_mono 0 i ltac:(lia) ltac:(lia)).
    pose proof (IA_mono (i + 1) row ltac:(lia) ltac:(lia)). lia. }
  induction n as [|n IH].
  - cbn [fold_left range]. rewrite range_nil by lia. cbn [fold_left].
    destruct (Z.ltb_spec i (Z.of_nat 0)); [lia|]. cbn. now apply rd_SJA0.
  - replace (Z.of_nat (Datatypes.S n)) with (Z.of_nat n + 1) in * by lia.
    rewrite range_snoc by lia. rewrite fold_left_app. cbn [fold_left].
    rewrite rd_mark_row.
    2:{ rewrite length_fold_left by (intros; apply length_mark_row).
        rewrite length_SJA0. exact Hkb. }
    rewrite IH by lia.
    destruct (Z.eq_dec i (Z.of_nat n)) as [Hin|Hin].
    + rewrite <- Hin.
      destruct (Z.leb_spec (rd 0 ia i) k), (Z.ltb_spec k (rd 0 ia (i + 1))); try lia.
      destruct (Z.ltb_spec i i), (Z.ltb_spec i (i + 1)); try lia. cbn.
      reflexivity.
    + assert (Hout : (rd 0 ia (Z.of_nat n) <=? k) && (k <? rd 0 ia (Z.of_nat n + 1)) = false).
      { destruct (Z.leb_spec (rd 0 ia (Z.of_nat n)) k),
                 (Z.ltb_spec k (rd 0 ia (Z.of_nat n + 1))); cbn; try reflexivity.
        exfalso. destruct (Z.lt_ge_cases i (Z.of_nat n)).
        - pose proof (IA_mono (i + 1) (Z.of_nat n) ltac:(lia) ltac:(lia)). lia.
        - pose proof (IA_mono (Z.of_nat n + 1) i ltac:(lia) ltac:(lia)). lia. }
      rewrite Hout. cbn [andb].
      destruct (Z.ltb_spec i (Z.of_nat n)), (Z.ltb_spec i (Z.of_nat n + 1)); try lia; reflexivity.
Qed.

Lemma rd_marked (i k : Z) :
  0 <= i < row ->
  rd 0 ia i <= k < rd 0 ia (i + 1) ->
  rd 0 marked k = if weak_entry A param i k then -1 else rd 0 ja k.
Proof.
  intros Hi Hk. pose proof (rd_marked_upto (Z.to_nat row) i k ltac:(lia) Hi Hk) as Hr.
  rewrite Z2Nat.id in Hr by lia. rewrite Hr.
  destruct (Z.ltb_spec i row); [reflexivity|lia].
Qed.

Lemma length_marked : Z.of_nat (length marked) = rd 0 ia row.
Proof.
  rewrite length_fold_left by (intros; apply length_mark_row). apply length_SJA0.
Qed.

(** The kept entries of row [i], read from the marked array. *)
Lemma kept_of_row (i : Z) :
  0 <= i < row ->
  List.filter (fun v => v >? -1) (map (rd 0 marked) (row_positions A i)) =
  map (rd 0 ja) (List.filter (fun j => negb (weak_entry A param i j)) (row_positions A i)).
Proof.
  intros Hi. unfold row_positions.
  assert (Hin : forall j, In j (range (rd 0 ia i) (rd 0 ia (i + 1))) ->
                          rd 0 ia i <= j < rd 0 ia (i + 1)).
  { intros j Hj. now apply in_range in Hj. }
  revert Hin. generalize (range (rd 0 ia i) (rd 0 ia (i + 1))). intros js Hin.
  induction js as [|j js IH]; [reflexivity|].
  cbn [map List.filter]. rewrite (rd_marked i j Hi) by (apply Hin; now left).
  rewrite IH by (intros j' Hj'; apply Hin; now right).
  destruct (weak_entry A param i j); cbn [negb]; [reflexivity|].
  assert (Hnn : 0 <= rd 0 ja j).
  { apply HJA. specialize (Hin j ltac:(now left)).
    pose proof (IA_mono 0 i ltac:(lia) ltac:(lia)).
    pose proof (IA_mono (i + 1) row ltac:(lia) ltac:(lia)). lia. }
  destruct (Z.gtb_spec (rd 0 ja j) (-1)); [reflexivity|lia].
Qed.

Lemma compress_rows (SIA0 : list Z) (n : nat) :
  Z.of_nat n <= row ->
  let '(SIA, SJA, index) :=
    fold_left (compress_row ia) (range 0 (Z.of_nat n)) (SIA0, marked, 0) in
  length SIA = length SIA0 /\
  length SJA = length marked /\
  index = Z.of_nat (length (kept_upto marked (rd 0 ia (Z.of_nat n)))) /\
  take (Z.to_nat index) SJA = kept_upto marked (rd 0 ia (Z.of_nat n)) /\
  (forall p, rd 0 ia (Z.of_nat n) <= p < Z.of_nat (length marked) ->
             rd 0 SJA p = rd 0 marked p) /\
  (forall i, 0 <= i < Z.of_nat n -> Z.of_nat (length SIA0) = row + 1 ->
             rd 0 SIA i = Z.of_nat (length (kept_upto marked (rd 0 ia i)))).
Proof.
  induction n as [|n IH]; intros Hn.
  - change (Z.of_nat 0) with 0. rewrite range_nil by lia. cbn [fold_left]. rewrite !HIA0.
    split; [reflexivity|]. split; [reflexivity|]. split; [reflexivity|].
    split; [reflexivity|]. split; [reflexivity|]. intros i Hi. lia.
  - replace (Z.of_nat (Datatypes.S n)) with (Z.of_nat n + 1) in * by lia.
    rewrite range_snoc by lia. rewrite fold_left_app. cbn [fold_left].
    specialize (IH ltac:(lia)).
    destruct (fold_left (compress_row ia) (range 0 (Z.of_nat n)) (SIA0, marked, 0))
      as [[SIA SJA] index].
    destruct IH as (HlenSIA & HlenSJA & Hidx & Htake & Hrest & HSIA).
    unfold compress_row.
    pose proof (IA_mono 0 (Z.of_nat n) ltac:(lia) ltac:(lia)) as Hlo.
    pose proof (Hmono (Z.of_nat n) ltac:(lia)) as Hstep.
    pose proof (IA_mono (Z.of_nat n + 1) row ltac:(lia) ltac:(lia)) as Hhi.
    pose proof length_marked as Hlm.
    pose proof (compress_positions marked
                  (Z.to_nat (rd 0 ia (Z.of_nat n + 1) - rd 0 ia (Z.of_nat n)))
                  (rd 0 ia (Z.of_nat n)) SJA index ltac:(lia) ltac:(lia)
                  HlenSJA Hidx Htake Hrest) as Hc.
    replace (rd 0 ia (Z.of_nat n) +
             Z.of_nat (Z.to_nat (rd 0 ia (Z.of_nat n + 1) - rd 0 ia (Z.of_nat n))))
      with (rd 0 ia (Z.of_nat n + 1)) in Hc by lia.
    destruct (fold_left _ (range (rd 0 ia (Z.of_nat n)) (rd 0 ia (Z.of_nat n + 1))) (SJA, index))
      as [SJA' index'].
    destruct Hc as (Hl' & Hi' & Ht' & Hr').
    repeat split; try assumption.
    + now rewrite length_wr.
    + intros i Hi Hlen0. destruct (Z.eq_dec i (Z.of_nat n)) as [->|Hne].
      * rewrite rd_wr_eq by lia. exact Hidx.
      * rewrite rd_wr_ne by lia. apply HSIA; [lia|assumption].
Qed.

(** C2 (as amended): for a CSR matrix [A] and a result with at least one
    strong coupling, row [i] of the strength graph built by [generate_S]
    holds, in order, the columns of exactly those entries of row [i] of [A]
    that are not declared weak, where an entry [(i,j)] is declared weak when
    it is the diagonal entry, or when the row fails the row-sum test
    ([|row_sum|/max(SMALLREAL,|a_ii|) > max_row_sum] and [max_row_sum < 1]),
    or when [A[i,j] >= strong_threshold * row_scale], [row_scale] being the
    minimum of zero and of all entries of row [i].  So an off-diagonal entry
    of a row that passes the row-sum test is kept if and only if
    [A[i,j] >= strong_threshold * row_scale] is false. *)
Theorem generate_S_rows (i : Z) :
  0 <= i < row ->
  iCSRmat.nnz (generate_S A param) <> 0 ->
  csr_row (iCSRmat.IA (generate_S A param)) (iCSRmat.JA (generate_S A param)) i =
  map (rd 0 ja)
    (List.filter (fun j => negb (weak_entry A param i j)) (row_positions A i)).
Proof.
  intros Hi Hnnz. rewrite <- kept_of_row by assumption.
  unfold generate_S in *.
  set (SIA0 := fold_left (fun d i => wr d i (rd 0 ia i)) (range 0 (row + 1))
                 (calloc 0 (row + 1))) in *.
  assert (HlenSIA0 : Z.of_nat (length SIA0) = row + 1).
  { unfold SIA0. rewrite length_fold_left by (intros; apply length_wr).
    unfold calloc. rewrite length_replicate. lia. }
  pose proof (compress_rows SIA0 (Z.to_nat row) ltac:(lia)) as Hc.
  rewrite Z2Nat.id in Hc by lia.
  destruct (fold_left (compress_row ia) (range 0 row) (SIA0, marked, 0))
    as [[SIA SJA] index].
  destruct Hc as (HlenSIA & HlenSJA & Hidx & Htake & _ & HSIA).
  destruct (Z.gtb_spec index 0) as [Hpos|Hnpos]; [|cbn in Hnnz; lia].
  cbn [iCSRmat.IA iCSRmat.JA]. rewrite Htake.
  assert (HIA : forall k, 0 <= k <= row ->
            rd 0 (wr SIA row index) k = Z.of_nat (length (kept_upto marked (rd 0 ia k)))).
  { intros k Hk. destruct (Z.eq_dec k row) as [->|Hne].
    - rewrite rd_wr_eq by lia. exact Hidx.
    - rewrite rd_wr_ne by lia. apply HSIA; [lia|assumption]. }
  unfold csr_row. rewrite !HIA by lia.
  pose proof (IA_mono 0 i ltac:(lia) ltac:(lia)) as Hlo.
  pose proof (Hmono i ltac:(lia)) as Hstep.
  pose proof (IA_mono (i + 1) row ltac:(lia) ltac:(lia)) as Hhi.
  assert (Hsplit : forall q, rd 0 ia i <= q ->
            kept_upto marked q =
            kept_upto marked (rd 0 ia i) ++
            List.filter (fun v => v >? -1) (map (rd 0 marked) (range (rd 0 ia i) q))).
  { intros q Hq. unfold kept_upto. rewrite (range_app 0 (rd 0 ia i) q) by lia.
    now rewrite map_app, List.filter_app. }
  rewrite (Hsplit (rd 0 ia row)) by lia.
  rewrite (Hsplit (rd 0 ia (i + 1))) by lia.
  rewrite (range_app (rd 0 ia i) (rd 0 ia (i + 1)) (rd 0 ia row)) by lia.
  rewrite map_app, List.filter_app. rewrite length_app, Nat2Z.inj_add.
  unfold row_positions. apply slice_app_mid.
Qed.

End GenerateSCorrect.

Lemma generate_S_rows_witness :
  csr_row (iCSRmat.IA (generate_S generate_S_example_A generate_S_example_param))
          (iCSRmat.JA (generate_S generate_S_example_A generate_S_example_param)) 0 =
  map (rd 0 (dCSRmat.JA generate_S_example_A))
    (List.filter (fun j => negb (weak_entry generate_S_example_A generate_S_example_param 0 j))
       (row_positions generate_S_example_A 0)).
Proof.
  apply (generate_S_rows generate_S_example_A generate_S_example_param).
  - by_compute.
  - by_compute.
  - intros k Hk. assert (Hk' : 0 <= k < 2) by exact Hk.
    assert (Hcases : k = 0 \/ k = 1) by lia.
    destruct Hcases as [-> | ->]; by_compute.
  - intros j Hj. assert (Hj' : 0 <= j < 4) by exact Hj.
    assert (Hcases : j = 0 \/ j = 1 \/ j = 2 \/ j = 3) by lia.
    destruct Hcases as [-> | [-> | [-> | ->]]]; by_compute.
  - by_compute.
  - by_compute.
Defined.

(** ** coarsening_rs.c: the C/F splitting *)

Example cf_example_strength :
  generate_S cf_example_A cf_example_param = cf_example_S.
Proof. vm_compute. reflexivity. Qed.

Example cf_complete_strength :
  generate_S cf_complete_A cf_example_param = cf_complete_S.
Proof. vm_compute. reflexivity. Qed.

Example fasp_icsr_trans_example :
  fasp_icsr_trans (iCSRmat.mk 3 3 3 [0; 2; 2; 3] [1; 2; 1] []) =
  iCSRmat.mk 3 3 3 [0; 0; 2; 3] [0; 2; 0] [].
Proof. vm_compute. reflexivity. Qed.

Example form_coarse_level_example :
  form_coarse_level cf_example_A cf_example_S [0; 0; 0] 3 = Some ([FGPT; CGPT; FGPT], 1).
Proof. vm_compute. reflexivity. Qed.

(** *** The first phase keeps the length of the markers *)

Lemma foldM_inv {St B} (P : St -> Prop) (f : St -> B -> option St) (l : list B) :
  (forall s x s', P s -> f s x = Some s' -> P s') ->
  forall s s', P s -> foldM f l s = Some s' -> P s'.
Proof.
  intros Hf. induction l as [|x l IH]; intros s s' Hs Hrun; cbn [foldM] in Hrun.
  - now inversion Hrun; subst.
  - destruct (f s x) as [s1|] eqn:E; [|discriminate]. eauto.
Qed.

Section PhaseOneLength.
Variables (ia : list Z) (S ST : iCSRmat.t) (row : Z) (n : nat).

Lemma do_remove_point_vec st measure index st' :
  do_remove_point st measure index = Some st' -> cf.vec st' = cf.vec st.
Proof.
  unfold do_remove_point. destruct (remove_point _ _ _ _ _) as [[[? ?] ?]|]; [|discriminate].
  intros E. inversion E. reflexivity.
Qed.

Lemma do_enter_list_vec st measure index :
  cf.vec (do_enter_list st measure index) = cf.vec st.
Proof.
  unfold do_enter_list. destruct (enter_list _ _ _ _ _) as [[? ?] ?]. reflexivity.
Qed.

Lemma raise_neighbours_length st j st' :
  length (cf.vec st) = n -> raise_neighbours S st j = Some st' -> length (cf.vec st') = n.
Proof.
  unfold raise_neighbours. apply (foldM_inv (fun s => length (cf.vec s) = n)). clear. intros s l s' Hs.
  destruct (_ =? UNPT); [|now intros E; inversion E; subst].
  destruct (do_remove_point _ _ _) as [s1|] eqn:E1; [|discriminate].
  intros E. inversion E. rewrite do_enter_list_vec. cbn.
  now rewrite (do_remove_point_vec _ _ _ _ E1).
Qed.

Lemma nonpositive_measure_step_length st i st' :
  length (cf.vec st) = n -> nonpositive_measure_step S st i = Some st' -> length (cf.vec st') = n.
Proof.
  unfold nonpositive_measure_step. intros Hs.
  destruct (negb _); [|now intros E; inversion E; subst].
  destruct (_ >? 0).
  { intros E. inversion E. now rewrite do_enter_list_vec. }
  destruct (foldM _ _ _) as [s1|] eqn:E1; [|discriminate].
  intros E. inversion E. cbn.
  revert E1. apply (foldM_inv (fun s => length (cf.vec s) = n)); [|cbn; now rewrite length_wr].
  clear. intros s k s' Hs.
  destruct (negb _); [|now intros E; inversion E; subst].
  destruct (_ <? i); [|now intros E; inversion E; subst].
  destruct (_ >? 0).
  - destruct (do_remove_point _ _ _) as [s1|] eqn:E1; [|discriminate].
    intros E. inversion E. rewrite do_enter_list_vec. cbn.
    now rewrite (do_remove_point_vec _ _ _ _ E1).
  - intros E. inversion E. now rewrite do_enter_list_vec.
Qed.

Lemma main_round_length st st' :
  length (cf.vec st) = n -> main_round S ST st = Some st' -> length (cf.vec st') = n.
Proof.
  unfold main_round. intros Hs. destruct (cf.LoL st) as [|LoL_head rest]; [discriminate|].
  destruct (do_remove_point _ _ _) as [s1|] eqn:E1; [|discriminate].
  apply do_remove_point_vec in E1. cbn in E1.
  destruct (foldM _ _ _) as [s2|] eqn:E2; [|discriminate].
  assert (H2 : length (cf.vec s2) = n).
  { revert E2. apply (foldM_inv (fun s => length (cf.vec s) = n)); [|cbn; rewrite E1, !length_wr; exact Hs].
    clear. intros s i s' Hs.
    destruct (_ =? UNPT); [|now intros E; inversion E; subst].
    destruct (do_remove_point _ _ _) as [s1|] eqn:E1; [|discriminate].
    apply do_remove_point_vec in E1. cbn in E1.
    apply raise_neighbours_length. cbn. now rewrite E1, length_wr. }
  apply (foldM_inv (fun s => length (cf.vec s) = n)); [|exact H2].
  clear. intros s i s' Hs.
  destruct (_ =? UNPT); [|now intros E; inversion E; subst].
  destruct (do_remove_point _ _ _) as [s1|] eqn:E1; [|discriminate].
  apply do_remove_point_vec in E1.
  destruct (_ >? 0).
  - intros E. inversion E. rewrite do_enter_list_vec. cbn. now rewrite E1.
  - apply raise_neighbours_length. cbn. now rewrite length_wr, E1.
Qed.

Lemma main_rounds_length fuel : forall st st',
  length (cf.vec st) = n -> main_rounds S ST fuel st = Some st' -> length (cf.vec st') = n.
Proof.
  induction fuel as [|fuel IH]; intros st st' Hs; cbn [main_rounds];
    destruct (_ >? 0); try discriminate; try (now intros E; inversion E; subst).
  destruct (main_round S ST st) as [s1|] eqn:E1; [|discriminate].
  apply IH. eapply main_round_length; eauto.
Qed.

Lemma filter_isolated_length : forall (l : list Z) st,
  length (cf.vec st) = n ->
  length (cf.vec (fold_left (fun st i =>
               if rd 0 ia (i + 1) - rd 0 ia i <=? 1 then set_lambda (set_vec st i ISPT) i 0
               else set_num_left (set_vec st i UNPT) (cf.num_left st + 1)) l st)) = n.
Proof.
  induction l as [|i l IH]; intros st Hs; cbn [fold_left]; [exact Hs|].
  apply IH. destruct (_ <=? 1); cbn; now rewrite length_wr.
Qed.

Lemma phase_one_length vec st :
  length vec = n -> phase_one ia S ST row vec = Some st -> length (cf.vec st) = n.
Proof.
  unfold phase_one. intros Hvec.
  destruct (foldM _ _ _) as [s1|] eqn:E1; [|discriminate].
  apply main_rounds_length. revert E1.
  apply (foldM_inv (fun s => length (cf.vec s) = n)); [intros s x s'; apply nonpositive_measure_step_length|].
  apply filter_isolated_length. exact Hvec.
Qed.

End PhaseOneLength.

(** *** The second phase *)

Lemma rd_wr_cases {A} (d : A) (l : list A) (y x : Z) (v : A) :
  rd d (wr l y v) x = rd d l x \/ (x = y /\ rd d (wr l y v) x = v).
Proof.
  destruct (Z.eq_dec y x) as [->|Hne]; [|left; now apply rd_wr_ne].
  destruct (Z.ltb_spec x 0); [left; now rewrite wr_neg|].
  destruct (Z.ltb_spec x (Z.of_nat (length l))).
  - right. split; [reflexivity|]. apply rd_wr_eq. lia.
  - left. now rewrite wr_oob.
Qed.

Section PhaseTwo.
Variables (S : iCSRmat.t) (row : Z) (n : nat).
Hypothesis Hcols : columns_in_range S row = true.
Hypothesis Hn : row <= Z.of_nat n.

Lemma strong_neighbour_in_range i j :
  0 <= i < row -> In j (strong_neighbours S i) -> 0 <= j < row.
Proof.
  intros Hi Hj. unfold columns_in_range in Hcols.
  rewrite forallb_forall in Hcols. specialize (Hcols i).
  rewrite in_range, forallb_forall in Hcols. specialize (Hcols Hi j Hj). lia.
Qed.

Lemma supported_spec vec i :
  supported S vec i = true <->
  forall j, In j (strong_neighbours S i) -> rd 0 vec j = FGPT ->
    exists k, In k (strong_neighbours S i) /\ In k (strong_neighbours S j) /\
              rd 0 vec k = CGPT.
Proof.
  unfold supported, share_coarse_neighbour. rewrite forallb_forall. split.
  - intros H j Hj HF. specialize (H j Hj). rewrite HF in H. cbn in H.
    apply existsb_exists in H. destruct H as (k & Hk & Hc).
    apply andb_prop in Hc. destruct Hc as [Hc Hkj].
    apply existsb_exists in Hkj. destruct Hkj as (k' & Hk' & Heq).
    apply Z.eqb_eq in Heq. subst k'. apply Z.eqb_eq in Hc. eauto.
  - intros H j Hj. destruct (Z.eqb_spec (rd 0 vec j) FGPT) as [HF|]; [|reflexivity].
    cbn. destruct (H j Hj HF) as (k & Hki & Hkj & Hc).
    apply existsb_exists. exists k. split; [exact Hki|].
    rewrite Hc. cbn. apply existsb_exists. exists k. split; [exact Hkj|apply Z.eqb_refl].
Qed.

(** Promoting a vertex to COARSE keeps the fine vertices supported. *)
Lemma supported_promote vec y i :
  (rd 0 vec i = FGPT -> supported S vec i = true) ->
  rd 0 (wr vec y CGPT) i = FGPT -> supported S (wr vec y CGPT) i = true.
Proof.
  intros H HF.
  destruct (rd_wr_cases 0 vec y i CGPT) as [E|[_ E]]; [|rewrite E in HF; discriminate].
  rewrite E in HF. specialize (H HF). rewrite supported_spec in *.
  intros j Hj HFj.
  destruct (rd_wr_cases 0 vec y j CGPT) as [Ej|[_ Ej]]; [|rewrite Ej in HFj; discriminate].
  rewrite Ej in HFj. destruct (H j Hj HFj) as (k & Hki & Hkj & Hc).
  exists k. repeat split; try assumption.
  destruct (rd_wr_cases 0 vec y k CGPT) as [Ek|[_ Ek]]; congruence.
Qed.

Lemma length_mark_coarse_neighbours vec g i :
  length (mark_coarse_neighbours S vec g i) = length g.
Proof.
  unfold mark_coarse_neighbours. apply length_fold_left.
  intros y x. cbv zeta. destruct (_ =? CGPT); [apply length_wr|reflexivity].
Qed.

(** A cell of [graph_array] is either left alone by the marking for [i], or
    it is a coarse strong neighbour of [i] and holds [i]. *)
Lemma rd_mark_coarse_neighbours vec i x : forall g,
  rd 0 (mark_coarse_neighbours S vec g i) x = rd 0 g x \/
  (rd 0 (mark_coarse_neighbours S vec g i) x = i /\
   In x (strong_neighbours S i) /\ rd 0 vec x = CGPT).
Proof.
  unfold mark_coarse_neighbours, strong_neighbours, csr_row, slice, S_positions.
  induction (range _ _) as [|p ps IH]; intros g; cbn [fold_left map]; [now left|].
  cbv zeta. set (j := rd 0 (iCSRmat.JA S) p).
  destruct (Z.eqb_spec (rd 0 vec j) CGPT) as [HC|HC].
  - destruct (IH (wr g j i)) as [E|(E & Hin & HC')].
    + destruct (rd_wr_cases 0 g j x i) as [E'|[Hx E']].
      * left. now rewrite E.
      * right. cbn [In]. subst x. repeat split; [now rewrite E|now left|exact HC].
    + right. cbn [In]. repeat split; try assumption. now right.
  - destruct (IH g) as [E|(E & Hin & HC')]; [now left|].
    right. cbn [In]. repeat split; try assumption. now right.
Qed.

Lemma first_unsupported_none vec g i :
  first_unsupported S vec g i = None ->
  forall j, In j (strong_neighbours S i) -> rd 0 vec j = FGPT ->
    set_empty S g i j = false.
Proof.
  unfold first_unsupported. intros H j Hj HF.
  pose proof (find_none _ _ H j Hj) as E. cbn beta in E. rewrite HF in E. exact E.
Qed.

Lemma first_unsupported_some vec g i j :
  first_unsupported S vec g i = Some j ->
  In j (strong_neighbours S i) /\ rd 0 vec j = FGPT /\ set_empty S g i j = true.
Proof.
  unfold first_unsupported. intros H. apply find_some in H. destruct H as [Hj E].
  apply andb_prop in E. destruct E as [HF E]. apply Z.eqb_eq in HF. auto.
Qed.

Lemma set_empty_false g i j :
  set_empty S g i j = false ->
  exists k, In k (strong_neighbours S j) /\ rd 0 g k = i.
Proof.
  unfold set_empty. intros H. apply negb_false_iff, existsb_exists in H.
  destruct H as (jj & Hjj & E). apply Z.eqb_eq in E.
  exists (rd 0 (iCSRmat.JA S) jj). split; [|exact E].
  unfold strong_neighbours, csr_row, slice. apply in_map. exact Hjj.
Qed.

Ltac split_inv :=
  unfold phase_two_inv;
  cbn [p2_i p2_vec p2_col p2_ci_tilde p2_ci_tilde_mark p2_C_i_nonempty p2_graph_array];
  repeat apply conj.

(** One round of the second phase keeps the invariant. *)
Lemma phase_two_round_inv st :
  phase_two_inv S row n st -> p2_i st < row ->
  phase_two_inv S row n (phase_two_round S st).
Proof.
  intros (Hi & Hlen & Hg & Hdone & Hmark & Hct) Hlt.
  unfold phase_two_round.
  set (i := p2_i st) in *. set (vec := p2_vec st) in *.
  set (mark' := Z.lor (p2_ci_tilde_mark st) i).
  set (ct' := if negb (mark' =? 0) then -1 else p2_ci_tilde st).
  assert (Hct' : ct' > -1 -> i = 0 /\ rd 0 vec ct' = CGPT).
  { subst ct'. destruct (Z.eqb_spec mark' 0) as [E|]; cbn [negb]; [|lia].
    intros H. split; [|auto]. apply Z.lor_eq_0_iff in E. tauto. }
  destruct (Z.eqb_spec (rd 0 vec i) FGPT) as [HF|HF].
  2:{ split_inv; try assumption; try lia.
      - intros i' Hi' HF'. destruct (Z.eq_dec i' i) as [->|]; [contradiction|].
        apply Hdone; [lia|exact HF'].
      - intros x Hx. split; [|intros E]; destruct (Hmark x Hx); lia. }
  set (g' := mark_coarse_neighbours S vec (p2_graph_array st) i).
  assert (Hg' : row <= Z.of_nat (length g'))
    by (subst g'; now rewrite length_mark_coarse_neighbours).
  assert (Hmark' : forall x, 0 <= x < row ->
            rd 0 g' x <= i /\
            (rd 0 g' x = i -> In x (strong_neighbours S i) /\ rd 0 vec x = CGPT)).
  { intros x Hx. subst g'.
    destruct (rd_mark_coarse_neighbours vec i x (p2_graph_array st)) as [E|(E & Hin & HC)].
    - rewrite E. now apply Hmark.
    - split; [lia|auto]. }
  assert (Hirange : 0 <= i < row) by lia.
  destruct (first_unsupported S vec g' i) as [j|] eqn:Efirst.
  - apply first_unsupported_some in Efirst. destruct Efirst as (Hj & HFj & _).
    pose proof (strong_neighbour_in_range i j Hirange Hj) as Hjrange.
    destruct (p2_C_i_nonempty st).
    + (* the vertex itself becomes coarse *)
      destruct (Z.gtb_spec ct' (-1)) as [Hgt|Hle].
      * destruct (Hct' ltac:(lia)) as [Hi0 HC].
        assert (Hne : ct' <> i) by (intros E; rewrite E, HF in HC; discriminate HC).
        split_inv; try lia.
        -- now rewrite !length_wr.
        -- intros i' Hi' HF'. assert (i' = i) by lia. subst i'.
           rewrite rd_wr_ne, rd_wr_eq in HF' by (fold vec in Hlen; lia || congruence).
           discriminate.
        -- intros x Hx. split; [|intros E]; destruct (Hmark' x Hx); lia.
      * split_inv; try lia.
        -- now rewrite length_wr.
        -- intros i' Hi' HF'. destruct (Z.eq_dec i' i) as [->|].
           ++ rewrite rd_wr_eq in HF' by (fold vec in Hlen; lia). discriminate.
           ++ apply supported_promote; [|exact HF']. apply Hdone. lia.
        -- intros x Hx. split; [|intros E]; destruct (Hmark' x Hx); lia.
    + (* the fine neighbour becomes coarse and the vertex is visited again *)
      replace (i - 1 + 1) with i by lia.
      split_inv; try lia.
      * now rewrite length_wr.
      * intros i' Hi' HF'. apply supported_promote; [|exact HF']. now apply Hdone.
      * intros x Hx. destruct (Hmark' x Hx) as [Hle Heq]. split; [exact Hle|].
        intros E. destruct (Heq E) as [Hin HC]. split; [exact Hin|].
        destruct (rd_wr_cases 0 vec j x CGPT) as [E'|[_ E']]; congruence.
      * intros _. apply rd_wr_eq. fold vec in Hlen. lia.
  - (* every fine neighbour is supported *)
    split_inv; try assumption; try lia.
    + intros i' Hi' HF'. destruct (Z.eq_dec i' i) as [->|]; [|apply Hdone; [lia|exact HF']].
      apply supported_spec. intros j Hj HFj.
      destruct (set_empty_false g' i j (first_unsupported_none vec g' i Efirst j Hj HFj))
        as (k & Hkj & Hk).
      pose proof (strong_neighbour_in_range i j Hirange Hj) as Hjrange.
      pose proof (strong_neighbour_in_range j k Hjrange Hkj) as Hkrange.
      destruct (Hmark' k Hkrange) as [_ Heq]. destruct (Heq Hk) as [Hki HC].
      exists k. auto.
    + intros x Hx. split; [|intros E]; destruct (Hmark' x Hx); lia.
Qed.

(** A round brings the loop closer to its end. *)
Lemma phase_two_round_measure st :
  p2_i st < row ->
  phase_two_measure row (phase_two_round S st) < phase_two_measure row st.
Proof.
  intros Hlt. unfold phase_two_round, phase_two_measure.
  destruct (rd 0 (p2_vec st) (p2_i st) =? FGPT); [|cbn; destruct (p2_C_i_nonempty st); lia].
  destruct (first_unsupported _ _ _ _); [|cbn; destruct (p2_C_i_nonempty st); lia].
  destruct (p2_C_i_nonempty st); [|cbn; lia].
  destruct (_ >? -1); cbn; lia.
Qed.

Lemma phase_two_loop_inv fuel : forall st st',
  phase_two_inv S row n st -> phase_two_loop S row fuel st = Some st' ->
  phase_two_inv S row n st' /\ row <= p2_i st'.
Proof.
  induction fuel as [|fuel IH]; intros st st' Hinv; cbn [phase_two_loop];
    destruct (Z.ltb_spec (p2_i st) row) as [Hlt|Hge]; try discriminate;
    try (intros E; inversion E; subst; now split).
  apply IH. now apply phase_two_round_inv.
Qed.

Lemma phase_two_loop_total fuel : forall st,
  phase_two_measure row st <= Z.of_nat fuel ->
  exists st', phase_two_loop S row fuel st = Some st'.
Proof.
  induction fuel as [|fuel IH]; intros st Hm; cbn [phase_two_loop];
    destruct (Z.ltb_spec (p2_i st) row) as [Hlt|Hge]; eauto.
  - exfalso. unfold phase_two_measure in Hm. destruct (p2_C_i_nonempty st); lia.
  - apply IH. pose proof (phase_two_round_measure st Hlt). lia.
Qed.

Lemma rd_graph_array_init x :
  0 <= x < row ->
  rd 0 (fold_left (fun g i => wr g i (-1)) (range 0 row) (calloc 0 row)) x = -1.
Proof.
  intros Hx.
  change (fold_left (fun g i => wr g i (-1)) (range 0 row) (calloc 0 row))
    with (fold_left (fun g i => if (fun _ : Z => true) i then wr g i (-1) else g)
            (range 0 row) (calloc 0 row)).
  rewrite rd_fold_cond_wr by (unfold calloc; rewrite length_replicate; lia).
  rewrite existsb_range.
  destruct (Z.leb_spec 0 x), (Z.ltb_spec x row); try lia. reflexivity.
Qed.

Lemma phase_two_fine_supported vec col st :
  length vec = n -> phase_two S row vec col = Some st ->
  length (p2_vec st) = n /\
  forall i, 0 <= i < row -> rd 0 (p2_vec st) i = FGPT -> supported S (p2_vec st) i = true.
Proof.
  unfold phase_two. intros Hvec Hrun.
  apply phase_two_loop_inv in Hrun.
  - destruct Hrun as [(_ & Hlen & _ & Hdone & _) Hend]. split; [exact Hlen|].
    intros i Hi. apply Hdone. lia.
  - split_inv; try lia; try exact Hvec.
    + rewrite length_fold_left by (intros; apply length_wr).
      unfold calloc. rewrite length_replicate. lia.
    + intros x Hx. rewrite rd_graph_array_init by exact Hx. lia.
Qed.

(** The second phase always comes to its end. *)
Lemma phase_two_total vec col : exists st, phase_two S row vec col = Some st.
Proof.
  unfold phase_two. apply phase_two_loop_total. unfold phase_two_measure. cbn. lia.
Qed.

End PhaseTwo.

Lemma supported_fine_vertex S vec i :
  supported S vec i = true ->
  has_coarse_neighbour S vec i = true \/ has_fine_neighbour S vec i = false.
Proof.
  intros Hsup. destruct (has_fine_neighbour S vec i) eqn:Hfine; [left|now right].
  apply existsb_exists in Hfine. destruct Hfine as (j & Hj & HF). apply Z.eqb_eq in HF.
  destruct (proj1 (supported_spec S vec i) Hsup j Hj HF) as (k & Hk & _ & HC).
  apply existsb_exists. exists k. split; [exact Hk|]. now apply Z.eqb_eq.
Qed.

(** On return from [form_coarse_level], every FINE strong neighbour of a FINE
    vertex shares a COARSE strong neighbour with it. *)
Lemma form_coarse_level_fine_pairs {R} (A : dCSRmat.t R) (S : iCSRmat.t)
    (vertices : list Z) (row : Z) (vec : list Z) (col : Z) :
  columns_in_range S row = true ->
  row <= Z.of_nat (length vertices) ->
  form_coarse_level A S vertices row = Some (vec, col) ->
  forall i, 0 <= i < row -> rd 0 vec i = FGPT -> supported S vec i = true.
Proof.
  intros Hcols Hlen. unfold form_coarse_level, form_coarse_level_with.
  destruct (phase_one _ _ _ _ _) as [st1|] eqn:E1; [|discriminate].
  destruct (phase_two _ _ _ _) as [st2|] eqn:E2; [|discriminate].
  intros E. inversion E. subst vec col.
  apply (phase_one_length _ _ _ _ (length vertices)) in E1; [|reflexivity].
  apply (phase_two_fine_supported S row (length vertices) Hcols Hlen _ _ _ E1 E2).
Qed.

(** C5, amended: on return from [form_coarse_level], a vertex whose marker is
    FINE has a strong neighbour whose marker is COARSE, or none of its strong
    neighbours is FINE (its row of [S] is empty or names isolated vertices
    only).  The columns of [S] are vertices and [vertices] has a marker for
    each of them. *)
Theorem form_coarse_level_fine_vertices {R} (A : dCSRmat.t R) (S : iCSRmat.t)
    (vertices : list Z) (row : Z) (vec : list Z) (col : Z) :
  columns_in_range S row = true ->
  row <= Z.of_nat (length vertices) ->
  form_coarse_level A S vertices row = Some (vec, col) ->
  forall i, 0 <= i < row -> rd 0 vec i = FGPT ->
    has_coarse_neighbour S vec i = true \/ has_fine_neighbour S vec i = false.
Proof.
  intros Hcols Hlen Hrun i Hi HF. apply supported_fine_vertex.
  exact (form_coarse_level_fine_pairs A S vertices row vec col Hcols Hlen Hrun i Hi HF).
Qed.

Example form_coarse_level_complete :
  form_coarse_level cf_complete_A cf_complete_S [0; 0; 0; 0] 4 =
  Some ([CGPT; FGPT; FGPT; FGPT], 1).
Proof. vm_compute. reflexivity. Qed.

Lemma form_coarse_level_fine_vertices_witness :
  has_coarse_neighbour cf_complete_S [CGPT; FGPT; FGPT; FGPT] 1 = true \/
  has_fine_neighbour cf_complete_S [CGPT; FGPT; FGPT; FGPT] 1 = false.
Proof.
  apply (form_coarse_level_fine_vertices cf_complete_A cf_complete_S [0; 0; 0; 0] 4
           [CGPT; FGPT; FGPT; FGPT] 1).
  - vm_compute. reflexivity.
  - cbn. lia.
  - vm_compute. reflexivity.
  - lia.
  - reflexivity.
Defined.

(** C5, as stated, fails.  Row 0 of the example matrix is diagonally
    dominant, so vertex 0 has no strong coupling and nothing depends on it;
    the first phase makes it FINE ("set the variables with nonpositive
    measure as F-variables"), it is not isolated (its row of [A] has three
    entries), and it has no strong neighbour at all. *)
Lemma form_coarse_level_fine_vertex_without_coarse_neighbour :
  let S := generate_S cf_example_A cf_example_param in
  let vec := [FGPT; CGPT; FGPT] in
  form_coarse_level cf_example_A S [0; 0; 0] 3 = Some (vec, 1) /\
  ~ (rd 0 vec 0 = FGPT -> has_coarse_neighbour S vec 0 = true \/ rd 0 vec 0 = ISPT).
Proof.
  split; [vm_compute; reflexivity|].
  intros H. destruct (H eq_refl) as [E|E]; vm_compute in E; discriminate E.
Qed.

(** At vertex 0 the second phase takes back the promotion of the first
    candidate when it promotes the vertex itself: vertex 1 is FINE again. *)
Example phase_two_takes_back_promotion :
  option_map p2_vec
    (phase_two (iCSRmat.mk 3 3 2 [0; 2; 2; 2] [1; 2] []) 3 [FGPT; FGPT; FGPT] 0) =
  Some [CGPT; FGPT; FGPT].
Proof. vm_compute. reflexivity. Qed.

(** Later vertices keep the promoted candidate, since [ci_tilde_mark |= i]
    is not zero. *)
Example phase_two_keeps_promotion :
  option_map p2_vec
    (phase_two (iCSRmat.mk 4 4 2 [0; 0; 2; 2; 2] [2; 3] []) 4 [FGPT; FGPT; FGPT; FGPT] 0) =
  Some [FGPT; CGPT; CGPT; FGPT].
Proof. vm_compute. reflexivity. Qed.

(** ** coarsening_rs.c: the list of lists *)

Lemma enter_list_first (LoL : list ListElement.t) (measure index : Z) (lists where_ : list Z) :
  match fst (fst (enter_list LoL measure index lists where_)) with
  | [] => False
  | e :: _ =>
      ListElement.data e = measure \/
      match LoL with
      | [] => False
      | e0 :: _ => ListElement.data e = ListElement.data e0 /\ measure < ListElement.data e0
      end
  end.
Proof.
  destruct LoL as [|e0 rest]; cbn [enter_list fst]; [now left|].
  destruct (Z.gtb_spec measure (ListElement.data e0)); cbn [fst]; [now left|].
  destruct (Z.eqb_spec measure (ListElement.data e0)); cbn [fst]; [left; now cbn|].
  destruct (enter_list rest measure index lists where_) as [[rest' l'] w']. cbn [fst].
  right. split; [reflexivity|lia].
Qed.

(** X1: [enter_list] keeps the measures of the list of lists strictly
    decreasing, so that [LoL_head] stays the list of the points of largest
    measure. *)
Theorem enter_list_decreasing (LoL : list ListElement.t) (measure index : Z)
    (lists where_ : list Z) :
  LoL_decreasing LoL = true ->
  LoL_decreasing (fst (fst (enter_list LoL measure index lists where_))) = true.
Proof.
  induction LoL as [|e rest IH]; intros Hdec; [reflexivity|].
  cbn [enter_list].
  destruct (Z.gtb_spec measure (ListElement.data e)) as [Hgt|Hle].
  { cbn [fst LoL_decreasing ListElement.data] in *.
    apply andb_true_intro. split; [apply Z.gtb_lt; lia|exact Hdec]. }
  destruct (Z.eqb_spec measure (ListElement.data e)) as [Heq|Hne].
  { cbn [fst]. destruct rest; exact Hdec. }
  pose proof (enter_list_first rest measure index lists where_) as Hfirst.
  assert (Hrest : LoL_decreasing rest = true).
  { cbn [LoL_decreasing] in Hdec. destruct rest; [reflexivity|].
    now apply andb_prop in Hdec. }
  specialize (IH Hrest).
  destruct (enter_list rest measure index lists where_) as [[rest' l'] w']. cbn [fst] in *.
  destruct rest' as [|e' rest']; [contradiction|].
  cbn [LoL_decreasing]. cbn [LoL_decreasing] in IH.
  apply andb_true_intro. split; [|exact IH].
  apply Z.gtb_lt. destruct Hfirst as [->|Hfirst]; [lia|].
  destruct rest as [|e0 rest]; [contradiction|]. destruct Hfirst as [-> _].
  cbn [LoL_decreasing] in Hdec. apply andb_prop in Hdec. destruct Hdec as [Hd _].
  apply Z.gtb_lt in Hd. lia.
Qed.

Lemma enter_list_decreasing_witness :
  LoL_decreasing
    (fst (fst (enter_list LoL_example 2 1 LoL_example_lists LoL_example_where))) = true.
Proof.
  apply (enter_list_decreasing LoL_example 2 1 LoL_example_lists LoL_example_where).
  reflexivity.
Defined.

Example enter_list_example :
  enter_list LoL_example 2 1 LoL_example_lists LoL_example_where =
  ([ListElement.mk 3 0 2; ListElement.mk 2 1 1; ListElement.mk 1 4 4],
   [2; LIST_TAIL; LIST_TAIL; 0; LIST_TAIL], [LIST_HEAD; LIST_HEAD; 0; 0; LIST_HEAD]).
Proof. reflexivity. Qed.

(** X2: a point that has just been entered is taken out again by
    [remove_point] with the same measure, and the list of lists is as it was
    before; the point must not already be the head of the list of that
    measure. *)
Theorem remove_point_enter_list (LoL : list ListElement.t) (measure index : Z)
    (lists where_ : list Z) :
  0 <= index < Z.of_nat (length where_) ->
  (forall e, In e LoL -> ListElement.data e = measure -> ListElement.head e <> index) ->
  exists lists' where',
    (let '(LoL1, lists1, where1) := enter_list LoL measure index lists where_ in
     remove_point LoL1 measure index lists1 where1) = Some (LoL, lists', where').
Proof.
  intros Hindex.
  assert (Hgen : forall LoL,
    (forall e, In e LoL -> ListElement.data e = measure -> ListElement.head e <> index) ->
    exists lists' where',
      (let '(LoL1, lists1, where1) := enter_list LoL measure index lists where_ in
       remove_point_from LoL1 measure index lists1 where1) = (LoL, lists', where')).
  { clear LoL. induction LoL as [|e rest IH]; intros Hhead; cbn [enter_list].
    - cbn [remove_point_from ListElement.data ListElement.head ListElement.tail].
      rewrite !Z.eqb_refl. cbn [andb]. eauto.
    - destruct (Z.gtb_spec measure (ListElement.data e)) as [Hgt|Hle].
      { cbn [remove_point_from ListElement.data ListElement.head ListElement.tail].
        rewrite !Z.eqb_refl. cbn [andb]. eauto. }
      destruct (Z.eqb_spec measure (ListElement.data e)) as [Heq|Hne].
      { cbn [remove_point_from ListElement.data ListElement.head ListElement.tail].
        rewrite Heq, Z.eqb_refl.
        assert (Hh : ListElement.head e <> index) by (apply Hhead; [now left|congruence]).
        destruct (Z.eqb_spec (ListElement.head e) index) as [|_]; [contradiction|].
        cbn [andb]. rewrite Z.eqb_refl.
        rewrite rd_wr_eq by lia. destruct e as [d h t]. cbn. eauto. }
      destruct (IH ltac:(intros e' He'; apply Hhead; now right)) as (l' & w' & E).
      destruct (enter_list rest measure index lists where_) as [[rest1 l1] w1].
      cbn [remove_point_from].
      destruct (Z.eqb_spec measure (ListElement.data e)) as [|_]; [contradiction|].
      rewrite E. eauto. }
  intros Hhead. destruct (Hgen LoL Hhead) as (l' & w' & E).
  exists l', w'.
  pose proof (enter_list_first LoL measure index lists where_) as Hne.
  destruct (enter_list LoL measure index lists where_) as [[LoL1 l1] w1].
  cbn [fst] in Hne. unfold remove_point. destruct LoL1; [contradiction|]. now rewrite E.
Qed.

Lemma remove_point_enter_list_witness :
  exists lists' where',
    (let '(LoL1, lists1, where1) :=
       enter_list LoL_example 3 1 LoL_example_lists LoL_example_where in
     remove_point LoL1 3 1 lists1 where1) = Some (LoL_example, lists', where').
Proof.
  apply (remove_point_enter_list LoL_example 3 1 LoL_example_lists LoL_example_where).
  - cbn. lia.
  - intros e [<- | [<- | []]]; cbn; intros H; lia.
Defined.

(** ** coarsening_rs.c: what the second phase does to the markers *)

Lemma phase_two_round_markers (S : iCSRmat.t) (vec0 : list Z) (st : phase_two_state) :
  (forall x, rd 0 vec0 x = CGPT -> rd 0 (p2_vec st) x = CGPT) ->
  (forall x, rd 0 vec0 x <> FGPT -> rd 0 vec0 x <> CGPT -> rd 0 (p2_vec st) x = rd 0 vec0 x) ->
  (p2_ci_tilde st > -1 -> rd 0 vec0 (p2_ci_tilde st) = FGPT) ->
  let st' := phase_two_round S st in
  (forall x, rd 0 vec0 x = CGPT -> rd 0 (p2_vec st') x = CGPT) /\
  (forall x, rd 0 vec0 x <> FGPT -> rd 0 vec0 x <> CGPT -> rd 0 (p2_vec st') x = rd 0 vec0 x) /\
  (p2_ci_tilde st' > -1 -> rd 0 vec0 (p2_ci_tilde st') = FGPT).
Proof.
  intros HC Hother Hct.
  assert (Hfine : forall y, rd 0 (p2_vec st) y = FGPT -> rd 0 vec0 y = FGPT).
  { intros y Hy. destruct (Z.eq_dec (rd 0 vec0 y) FGPT) as [|Hn]; [assumption|].
    destruct (Z.eq_dec (rd 0 vec0 y) CGPT) as [Hc|Hn'].
    - rewrite (HC y Hc) in Hy. discriminate Hy.
    - rewrite (Hother y Hn Hn') in Hy. contradiction. }
  assert (Hpromote : forall y, rd 0 (p2_vec st) y = FGPT ->
    (forall x, rd 0 vec0 x = CGPT -> rd 0 (wr (p2_vec st) y CGPT) x = CGPT) /\
    (forall x, rd 0 vec0 x <> FGPT -> rd 0 vec0 x <> CGPT ->
               rd 0 (wr (p2_vec st) y CGPT) x = rd 0 vec0 x)).
  { intros y Hy. split.
    - intros x Hx. destruct (rd_wr_cases 0 (p2_vec st) y x CGPT) as [E|[_ E]];
        rewrite E; auto.
    - intros x Hx Hx'. rewrite rd_wr_ne; [now apply Hother|].
      intros ->. apply Hfine in Hy. contradiction. }
  unfold phase_two_round.
  set (ct' := if negb (Z.lor (p2_ci_tilde_mark st) (p2_i st) =? 0)
              then -1 else p2_ci_tilde st).
  assert (Hct' : ct' > -1 -> rd 0 vec0 ct' = FGPT).
  { subst ct'. destruct (negb _); [lia|exact Hct]. }
  destruct (Z.eqb_spec (rd 0 (p2_vec st) (p2_i st)) FGPT) as [HF|HF];
    [|cbn; auto].
  destruct (first_unsupported S (p2_vec st) _ (p2_i st)) as [j|] eqn:Efirst; [|cbn; auto].
  apply first_unsupported_some in Efirst. destruct Efirst as (_ & HFj & _).
  destruct (p2_C_i_nonempty st).
  - destruct (Hpromote _ HF) as [HC' Hother'].
    destruct (Z.gtb_spec ct' (-1)) as [Hgt|Hle]; cbn.
    + specialize (Hct' ltac:(lia)). repeat split.
      * intros x Hx. rewrite rd_wr_ne; [now apply HC'|].
        intros ->. rewrite Hct' in Hx. discriminate Hx.
      * intros x Hx Hx'. rewrite rd_wr_ne; [now apply Hother'|].
        intros ->. contradiction.
    + repeat split; [exact HC'|exact Hother'|lia].
  - destruct (Hpromote _ HFj) as [HC' Hother']. cbn.
    repeat split; [exact HC'|exact Hother'|]. intros _. now apply Hfine.
Qed.

Lemma phase_two_loop_markers (S : iCSRmat.t) (row : Z) (vec0 : list Z) (fuel : nat) :
  forall st st',
  (forall x, rd 0 vec0 x = CGPT -> rd 0 (p2_vec st) x = CGPT) ->
  (forall x, rd 0 vec0 x <> FGPT -> rd 0 vec0 x <> CGPT -> rd 0 (p2_vec st) x = rd 0 vec0 x) ->
  (p2_ci_tilde st > -1 -> rd 0 vec0 (p2_ci_tilde st) = FGPT) ->
  phase_two_loop S row fuel st = Some st' ->
  (forall x, rd 0 vec0 x = CGPT -> rd 0 (p2_vec st') x = CGPT) /\
  (forall x, rd 0 vec0 x <> FGPT -> rd 0 vec0 x <> CGPT -> rd 0 (p2_vec st') x = rd 0 vec0 x).
Proof.
  induction fuel as [|fuel IH]; intros st st' HC Hother Hct; cbn [phase_two_loop];
    destruct (p2_i st <? row); try discriminate;
    try (intros E; inversion E; subst; now split).
  destruct (phase_two_round_markers S vec0 st HC Hother Hct) as (HC' & Hother' & Hct').
  now apply IH.
Qed.

(** X3: the second phase of [form_coarse_level] comes to its end and only
    ever turns FINE vertices into COARSE ones: a vertex that the first phase
    made COARSE is COARSE on return, and a marker that is neither FINE nor
    COARSE (ISOLATED, undecided) is never touched. *)
Theorem phase_two_keeps_markers (S : iCSRmat.t) (row : Z) (vec : list Z) (col : Z) :
  exists st, phase_two S row vec col = Some st /\
    (forall x, rd 0 vec x = CGPT -> rd 0 (p2_vec st) x = CGPT) /\
    (forall x, rd 0 vec x <> FGPT -> rd 0 vec x <> CGPT -> rd 0 (p2_vec st) x = rd 0 vec x).
Proof.
  destruct (phase_two_total S row 0%nat vec col) as [st Hrun]. exists st. split; [exact Hrun|].
  unfold phase_two in Hrun. revert Hrun. apply phase_two_loop_markers; cbn; auto; lia.
Qed.

Lemma count_coarse_wr (vec : list Z) (row x v : Z) :
  0 <= x < row -> x < Z.of_nat (length vec) ->
  count_coarse (wr vec x v) row =
  count_coarse vec row - (if rd 0 vec x =? CGPT then 1 else 0) + (if v =? CGPT then 1 else 0).
Proof.
  intros Hx Hlen. unfold count_coarse.
  rewrite (range_app 0 x row) by lia. rewrite (range_cons x row) by lia.
  rewrite !List.filter_app, !length_app. cbn [List.filter].
  rewrite rd_wr_eq by lia.
  rewrite (List.filter_ext_in (fun i => rd 0 (wr vec x v) i =? CGPT)
             (fun i => rd 0 vec i =? CGPT) (range 0 x))
    by (intros i Hi; apply in_range in Hi; rewrite rd_wr_ne by lia; reflexivity).
  rewrite (List.filter_ext_in (fun i => rd 0 (wr vec x v) i =? CGPT)
             (fun i => rd 0 vec i =? CGPT) (range (x + 1) row))
    by (intros i Hi; apply in_range in Hi; rewrite rd_wr_ne by lia; reflexivity).
  destruct (rd 0 vec x =? CGPT), (v =? CGPT); cbn [length]; lia.
Qed.

Section PhaseTwoCount.
Variables (S : iCSRmat.t) (row : Z) (n : nat).
Hypothesis Hcols : columns_in_range S row = true.
Hypothesis Hn : row <= Z.of_nat n.

Lemma phase_two_round_col (st : phase_two_state) :
  phase_two_inv S row n st ->
  (p2_ci_tilde st > -1 -> 0 <= p2_ci_tilde st < row) ->
  p2_i st < row ->
  let st' := phase_two_round S st in
  p2_col st' - count_coarse (p2_vec st') row = p2_col st - count_coarse (p2_vec st) row /\
  (p2_ci_tilde st' > -1 -> 0 <= p2_ci_tilde st' < row).
Proof.
  intros (Hi & Hlen & _ & _ & _ & Hct) Hrange Hlt.
  unfold phase_two_round.
  set (i := p2_i st) in *. set (vec := p2_vec st) in *.
  set (mark' := Z.lor (p2_ci_tilde_mark st) i).
  set (ct' := if negb (mark' =? 0) then -1 else p2_ci_tilde st).
  assert (Hct' : ct' > -1 -> i = 0 /\ rd 0 vec ct' = CGPT /\ 0 <= ct' < row).
  { subst ct'. destruct (Z.eqb_spec mark' 0) as [E|]; cbn [negb]; [|lia].
    intros H. apply Z.lor_eq_0_iff in E. split; [tauto|]. split; auto. }
  destruct (Z.eqb_spec (rd 0 vec i) FGPT) as [HF|HF]; [|cbn; split; [lia|intros H; now apply Hct']].
  destruct (first_unsupported S vec _ i) as [j|] eqn:Efirst;
    [|cbn; split; [lia|intros H; now apply Hct']].
  apply first_unsupported_some in Efirst. destruct Efirst as (Hj & HFj & _).
  pose proof (strong_neighbour_in_range S row n Hcols i j ltac:(lia) Hj) as Hjrange.
  destruct (p2_C_i_nonempty st).
  - destruct (Z.gtb_spec ct' (-1)) as [Hgt|Hle]; cbn.
    + destruct (Hct' ltac:(lia)) as (Hi0 & HC & Hctr).
      assert (Hne : ct' <> i) by (intros E; rewrite E, HF in HC; discriminate HC).
      split; [|lia].
      rewrite !count_coarse_wr by (rewrite ?length_wr; lia).
      rewrite rd_wr_ne, HC, HF by congruence. cbn. lia.
    + split; [|lia]. rewrite count_coarse_wr by lia. rewrite HF. cbn. lia.
  - cbn. split; [|lia]. rewrite count_coarse_wr by lia. rewrite HFj. cbn. lia.
Qed.

Lemma phase_two_loop_col (fuel : nat) : forall st st',
  phase_two_inv S row n st ->
  (p2_ci_tilde st > -1 -> 0 <= p2_ci_tilde st < row) ->
  phase_two_loop S row fuel st = Some st' ->
  p2_col st' - count_coarse (p2_vec st') row = p2_col st - count_coarse (p2_vec st) row.
Proof.
  induction fuel as [|fuel IH]; intros st st' Hinv Hct; cbn [phase_two_loop];
    destruct (Z.ltb_spec (p2_i st) row) as [Hlt|Hge]; try discriminate;
    try (intros E; inversion E; subst; reflexivity).
  intros Hrun. destruct (phase_two_round_col st Hinv Hct Hlt) as [Hcol Hct'].
  rewrite <- Hcol. apply IH; [|exact Hct'|exact Hrun].
  now apply (phase_two_round_inv S row n Hcols Hn).
Qed.

End PhaseTwoCount.

(** X4: the second phase keeps [col] in step with the markers: the count of
    coarse points changes by exactly the change in the number of vertices
    marked COARSE, also when a promotion is taken back.  The columns of [S]
    are vertices and every vertex has a marker. *)
Theorem phase_two_col_tracks_coarse (S : iCSRmat.t) (row : Z) (vec : list Z) (col : Z) :
  columns_in_range S row = true ->
  row <= Z.of_nat (length vec) ->
  exists st, phase_two S row vec col = Some st /\
    p2_col st - count_coarse (p2_vec st) row = col - count_coarse vec row.
Proof.
  intros Hcols Hlen.
  destruct (phase_two_total S row 0%nat vec col) as [st Hrun]. exists st.
  split; [exact Hrun|].
  unfold phase_two in Hrun.
  apply (phase_two_loop_col S row (length vec) Hcols Hlen) in Hrun; [exact Hrun| |cbn; lia].
  unfold phase_two_inv. cbn. repeat apply conj; try lia.
  - rewrite length_fold_left by (intros; apply length_wr).
    unfold calloc. rewrite length_replicate. lia.
  - intros x Hx. rewrite (rd_graph_array_init row 0%nat x Hx). lia.
Qed.

Lemma phase_two_col_tracks_coarse_witness :
  exists st, phase_two cf_complete_S 4 [FGPT; FGPT; FGPT; FGPT] 0 = Some st /\
    p2_col st - count_coarse (p2_vec st) 4 = 0 - count_coarse [FGPT; FGPT; FGPT; FGPT] 4.
Proof.
  apply (phase_two_col_tracks_coarse cf_complete_S 4 [FGPT; FGPT; FGPT; FGPT] 0).
  - vm_compute. reflexivity.
  - cbn. lia.
Defined.

Example phase_two_count_example :
  option_map (fun st => (p2_vec st, p2_col st))
    (phase_two cf_complete_S 4 [FGPT; FGPT; FGPT; FGPT] 0) =
  Some ([FGPT; CGPT; FGPT; FGPT], 1).
Proof. vm_compute. reflexivity. Qed.

(** ** Building a CSR pattern by counting, summing and filling *)

Section CSRBuild.
Variable rowf : Z -> list Z.

Lemma csr_offset_succ n :
  0 <= n -> csr_offset rowf (n + 1) = csr_offset rowf n + Z.of_nat (length (rowf n)).
Proof.
  intros Hn. unfold csr_offset. rewrite range_snoc by lia. now rewrite fold_left_app.
Qed.

Lemma csr_rows_upto_succ n :
  0 <= n -> csr_rows_upto rowf (n + 1) = csr_rows_upto rowf n ++ rowf n.
Proof.
  intros Hn. unfold csr_rows_upto. rewrite range_snoc by lia.
  rewrite map_app, concat_app. cbn. now rewrite app_nil_r.
Qed.

Lemma length_csr_rows_upto (n : nat) :
  Z.of_nat (length (csr_rows_upto rowf (Z.of_nat n))) = csr_offset rowf (Z.of_nat n).
Proof.
  induction n as [|n IH]; [reflexivity|].
  replace (Z.of_nat (Datatypes.S n)) with (Z.of_nat n + 1) by lia.
  rewrite csr_rows_upto_succ, csr_offset_succ by lia. rewrite length_app. lia.
Qed.

(** The counting loop leaves the length of row [k-1] in cell [k]. *)
Lemma csr_count_cells (row k : Z) :
  0 <= row -> 0 <= k <= row ->
  rd 0 (fold_left (fun IA i => wr IA (1 + i) (rd 0 IA (1 + i) + Z.of_nat (length (rowf i))))
          (range 0 row) (calloc 0 (row + 1))) k =
  if k =? 0 then 0 else Z.of_nat (length (rowf (k - 1))).
Proof.
  intros Hrow Hk.
  pose proof (rd_fold_upd 0 (fun i a => a + Z.of_nat (length (rowf i)))
                1 (Z.to_nat row) (calloc 0 (row + 1)) k ltac:(lia)) as Hr.
  rewrite Z2Nat.id in Hr by lia. rewrite Hr.
  2:{ unfold calloc. rewrite length_replicate. lia. }
  assert (Hz : rd 0 (calloc 0 (row + 1)) k = 0).
  { unfold rd, calloc. destruct (k <? 0); [reflexivity|].
    rewrite nth_lookup. destruct (replicate _ _ !! _) eqn:E; [|reflexivity].
    apply lookup_replicate in E. now destruct E. }
  rewrite Hz.
  destruct (Z.eqb_spec k 0) as [->|Hne]; [reflexivity|].
  destruct (Z.leb_spec 1 k), (Z.ltb_spec k (1 + row)); cbn; lia.
Qed.

(** The running sums turn the lengths into the offsets of the rows. *)
Lemma csr_running_sums (row : Z) (IA1 : list Z) :
  0 <= row ->
  Z.of_nat (length IA1) = row + 1 ->
  rd 0 IA1 0 = 0 ->
  (forall k, 1 <= k <= row -> rd 0 IA1 k = Z.of_nat (length (rowf (k - 1)))) ->
  forall n : nat, Z.of_nat n <= row ->
  let Y := fold_left (fun IA i => wr IA (i + 1) (rd 0 IA (i + 1) + rd 0 IA i))
             (range 0 (Z.of_nat n)) IA1 in
  length Y = length IA1 /\
  (forall k, 0 <= k <= Z.of_nat n -> rd 0 Y k = csr_offset rowf k) /\
  (forall k, Z.of_nat n < k <= row -> rd 0 Y k = rd 0 IA1 k).
Proof.
  intros Hrow Hlen H0 Hcnt n. induction n as [|n IH]; intros Hn Y.
  - subst Y. cbn. split; [reflexivity|]. split; [|reflexivity].
    intros k Hk. replace k with 0 by lia. exact H0.
  - subst Y. replace (Z.of_nat (Datatypes.S n)) with (Z.of_nat n + 1) in * by lia.
    rewrite range_snoc by lia. rewrite fold_left_app. cbn [fold_left].
    destruct (IH ltac:(lia)) as (HlenY & Hlow & Hhigh).
    set (Y := fold_left _ (range 0 (Z.of_nat n)) IA1) in *.
    split; [now rewrite length_wr|]. split.
    + intros k Hk. destruct (Z.eq_dec k (Z.of_nat n + 1)) as [->|Hne].
      * rewrite rd_wr_eq by lia. rewrite Hhigh by lia. rewrite Hlow by lia.
        rewrite Hcnt by lia. rewrite csr_offset_succ by lia.
        replace (Z.of_nat n + 1 - 1) with (Z.of_nat n) by lia. lia.
      * rewrite rd_wr_ne by lia. apply Hlow. lia.
    + intros k Hk. rewrite rd_wr_ne by lia. apply Hhigh. lia.
Qed.

(** The filling loop writes the rows one after the other. *)
Lemma csr_fill_rows (JA0 : list Z) (n : nat) :
  fold_left (fun '(JA, index) i =>
               (write_list JA index (rowf i), index + Z.of_nat (length (rowf i))))
    (range 0 (Z.of_nat n)) (JA0, 0) =
  (write_list JA0 0 (csr_rows_upto rowf (Z.of_nat n)), csr_offset rowf (Z.of_nat n)).
Proof.
  induction n as [|n IH]; [reflexivity|].
  replace (Z.of_nat (Datatypes.S n)) with (Z.of_nat n + 1) by lia.
  rewrite range_snoc by lia. rewrite fold_left_app, IH. cbn [fold_left].
  rewrite csr_rows_upto_succ, csr_offset_succ by lia.
  rewrite write_list_app. rewrite length_csr_rows_upto. reflexivity.
Qed.

(** Row [i] of the pattern that was built. *)
Lemma csr_row_of_build (row i : Z) (IA : list Z) :
  0 <= i < row ->
  (forall k, 0 <= k <= row -> rd 0 IA k = csr_offset rowf k) ->
  csr_row IA (csr_rows_upto rowf row) i = rowf i.
Proof.
  intros Hi HIA. unfold csr_row. rewrite !HIA by lia.
  unfold csr_rows_upto. rewrite (range_app 0 (i + 1) row) by lia.
  rewrite map_app, concat_app. fold (csr_rows_upto rowf (i + 1)).
  rewrite csr_rows_upto_succ by lia. rewrite <- app_assoc.
  pose proof (length_csr_rows_upto (Z.to_nat i)) as Hl.
  rewrite Z2Nat.id in Hl by lia. rewrite <- Hl.
  rewrite csr_offset_succ by lia. rewrite <- Hl. apply slice_app_mid.
Qed.

End CSRBuild.

(** ** coarsening_rs.c: the classical Ruge-Stuben strength graph *)

Section GenerateSRSCorrect.
Context {R : Type} `{Real R}.
Variables (A : dCSRmat.t R) (S0 : iCSRmat.t) (epsilon_str : R) (coarsening_type : Z).
Hypothesis Htype : coarsening_type = 2 \/ coarsening_type = 3.
Hypothesis Hrow : 0 <= dCSRmat.row A.

Local Abbreviation rowf := (rs_row A epsilon_str coarsening_type).
Local Abbreviation strong := (rs_strong A epsilon_str coarsening_type (rs_amax A coarsening_type)).

Lemma rs_count_fold (SIA : list Z) (l : list Z) :
  fold_left (fun SIA i =>
      fold_left (fun SIA j => if strong i j then wr SIA (i + 1) (rd 0 SIA (i + 1) + 1) else SIA)
        (A_positions A i) SIA) l SIA =
  fold_left (fun IA i => wr IA (1 + i) (rd 0 IA (1 + i) + Z.of_nat (length (rowf i)))) l SIA.
Proof.
  apply fold_left_ext_in. intros a i _. rewrite count_loop.
  unfold rs_row. rewrite length_map. now rewrite (Z.add_comm i 1).
Qed.

Lemma rs_fill_fold (st : list Z * Z) (l : list Z) :
  fold_left (fun st i =>
      fold_left (fun '(SJA, index) j =>
                   if strong i j then (wr SJA index (rd 0 (dCSRmat.JA A) j), index + 1)
                   else (SJA, index))
        (A_positions A i) st) l st =
  fold_left (fun '(JA, index) i =>
               (write_list JA index (rowf i), index + Z.of_nat (length (rowf i)))) l st.
Proof.
  apply fold_left_ext_in. intros [JA index] i _.
  rewrite (fill_loop (strong i) (rd 0 (dCSRmat.JA A))).
  unfold rs_row. now rewrite length_map.
Qed.

Lemma generate_S_rs_IA (k : Z) :
  0 <= k <= dCSRmat.row A ->
  rd 0 (iCSRmat.IA (generate_S_rs A S0 epsilon_str coarsening_type)) k = csr_offset rowf k.
Proof.
  intros Hk. unfold generate_S_rs. cbn [iCSRmat.IA].
  set (row := dCSRmat.row A) in *.
  assert (Hcount :
    (let SIA := calloc 0 (row + 1) in
     let count SIA :=
       fold_left (fun SIA i =>
         fold_left (fun SIA j => if strong i j then wr SIA (i + 1) (rd 0 SIA (i + 1) + 1)
                                 else SIA) (A_positions A i) SIA) (range 0 row) SIA in
     let SIA := if coarsening_type =? 2 then count SIA else SIA in
     if coarsening_type =? 3 then count SIA else SIA) =
    fold_left (fun IA i => wr IA (1 + i) (rd 0 IA (1 + i) + Z.of_nat (length (rowf i))))
      (range 0 row) (calloc 0 (row + 1))).
  { cbv zeta. destruct (Z.eqb_spec coarsening_type 2), (Z.eqb_spec coarsening_type 3);
      try lia; apply rs_count_fold. }
  cbv zeta in Hcount. rewrite Hcount.
  set (IA1 := fold_left _ (range 0 row) (calloc 0 (row + 1))).
  assert (Hlen1 : Z.of_nat (length IA1) = row + 1).
  { unfold IA1. rewrite length_fold_left by (intros; apply length_wr).
    unfold calloc. rewrite length_replicate. lia. }
  pose proof (csr_running_sums rowf row IA1 Hrow Hlen1) as Hps.
  specialize (Hps (csr_count_cells rowf row 0 Hrow ltac:(lia))).
  assert (Hcnt : forall k, 1 <= k <= row -> rd 0 IA1 k = Z.of_nat (length (rowf (k - 1)))).
  { intros k' Hk'. unfold IA1. rewrite csr_count_cells by lia.
    destruct (Z.eqb_spec k' 0); [lia|reflexivity]. }
  specialize (Hps Hcnt (Z.to_nat row) ltac:(lia)). cbv zeta in Hps.
  rewrite Z2Nat.id in Hps by lia. destruct Hps as (_ & Hlow & _).
  now apply Hlow.
Qed.

Lemma generate_S_rs_JA :
  iCSRmat.JA (generate_S_rs A S0 epsilon_str coarsening_type) =
  csr_rows_upto rowf (dCSRmat.row A).
Proof.
  pose proof (generate_S_rs_IA (dCSRmat.row A) ltac:(lia)) as Hnnz.
  unfold generate_S_rs in *. cbn [iCSRmat.IA iCSRmat.JA] in *.
  set (row := dCSRmat.row A) in *.
  set (SIA := fold_left _ (range 0 row) _) in *.
  rewrite Hnnz.
  assert (Hfill : forall st,
    (let fill (st : list Z * Z) :=
       fold_left (fun st i =>
         fold_left (fun '(SJA, index) j =>
                      if strong i j then (wr SJA index (rd 0 (dCSRmat.JA A) j), index + 1)
                      else (SJA, index)) (A_positions A i) st) (range 0 row) st in
     let st := if coarsening_type =? 2 then fill st else st in
     if coarsening_type =? 3 then fill st else st) =
    fold_left (fun '(JA, index) i =>
                 (write_list JA index (rowf i), index + Z.of_nat (length (rowf i))))
      (range 0 row) st).
  { intros st. cbv zeta.
    destruct (Z.eqb_spec coarsening_type 2), (Z.eqb_spec coarsening_type 3);
      try lia; apply rs_fill_fold. }
  cbv zeta in Hfill. rewrite Hfill.
  pose proof (csr_fill_rows rowf (calloc 0 (csr_offset rowf row)) (Z.to_nat row)) as Hf.
  rewrite Z2Nat.id in Hf by lia. rewrite Hf. cbn [fst].
  pose proof (write_list_fill (csr_rows_upto rowf row) [] (calloc 0 (csr_offset rowf row)))
    as Hw.
  cbn [app length] in Hw. change (Z.of_nat 0) with 0 in Hw.
  pose proof (length_csr_rows_upto rowf (Z.to_nat row)) as Hl.
  rewrite Z2Nat.id in Hl by lia.
  rewrite Hw.
  - rewrite drop_ge; [apply app_nil_r|].
    unfold calloc. rewrite length_replicate. lia.
  - unfold calloc. rewrite length_replicate. lia.
Qed.

Lemma generate_S_rs_row (i : Z) :
  0 <= i < dCSRmat.row A ->
  csr_row (iCSRmat.IA (generate_S_rs A S0 epsilon_str coarsening_type))
          (iCSRmat.JA (generate_S_rs A S0 epsilon_str coarsening_type)) i = rowf i.
Proof.
  intros Hi. rewrite generate_S_rs_JA.
  apply csr_row_of_build; [exact Hi|]. intros k Hk. now apply generate_S_rs_IA.
Qed.

End GenerateSRSCorrect.

(** X5: for the coarsening types 2 and 3, row [i] of the strength graph
    built by [generate_S_rs] holds, in the order of [A], the columns of the
    entries of row [i] of [A] that are off the diagonal and whose size
    ([-a] for type 2, [|a|] for type 3) is at least [epsilon_str] times the
    largest such size in the row. *)
Theorem generate_S_rs_rows {R} `{Real R} (A : dCSRmat.t R) (S0 : iCSRmat.t)
    (epsilon_str : R) (coarsening_type i : Z) :
  coarsening_type = 2 \/ coarsening_type = 3 ->
  0 <= i < dCSRmat.row A ->
  let S := generate_S_rs A S0 epsilon_str coarsening_type in
  csr_row (iCSRmat.IA S) (iCSRmat.JA S) i =
  map (rd 0 (dCSRmat.JA A))
    (List.filter (fun j =>
       (rs_size A coarsening_type j >=? epsilon_str * rd zero (rs_amax A coarsening_type) i)%r
       && negb (rd 0 (dCSRmat.JA A) j =? i))
       (A_positions A i)).
Proof.
  intros Htype Hi. apply (generate_S_rs_row A S0 epsilon_str coarsening_type Htype); lia.
Qed.

Lemma generate_S_rs_rows_witness :
  let S := generate_S_rs rs_example_A rs_example_S0 0.75%float 3 in
  csr_row (iCSRmat.IA S) (iCSRmat.JA S) 1 =
  map (rd 0 (dCSRmat.JA rs_example_A))
    (List.filter (fun j =>
       (rs_size rs_example_A 3 j >=? 0.75%float * rd zero (rs_amax rs_example_A 3) 1)%r
       && negb (rd 0 (dCSRmat.JA rs_example_A) j =? 1))
       (A_positions rs_example_A 1)).
Proof.
  apply (generate_S_rs_rows rs_example_A rs_example_S0 0.75%float 3 1).
  - now right.
  - cbn. lia.
Defined.

Example generate_S_rs_example :
  generate_S_rs rs_example_A rs_example_S0 0.75%float 3 =
  iCSRmat.mk 3 3 0 [0; 1; 3; 4] [2; 0; 2; 0] [].
Proof. vm_compute. reflexivity. Qed.

(** X6: the strength graph of [generate_S_rs] never holds a diagonal entry:
    vertex [i] is not among its own strong couplings, however often and
    wherever row [i] of [A] stores column [i]. *)
Theorem generate_S_rs_no_diagonal {R} `{Real R} (A : dCSRmat.t R) (S0 : iCSRmat.t)
    (epsilon_str : R) (coarsening_type i : Z) :
  coarsening_type = 2 \/ coarsening_type = 3 ->
  0 <= i < dCSRmat.row A ->
  let S := generate_S_rs A S0 epsilon_str coarsening_type in
  ~ In i (csr_row (iCSRmat.IA S) (iCSRmat.JA S) i).
Proof.
  intros Htype Hi S Hin. subst S.
  rewrite (generate_S_rs_row A S0 epsilon_str coarsening_type Htype) in Hin by lia.
  unfold rs_row in Hin. apply in_map_iff in Hin. destruct Hin as (j & Hj & Hin).
  apply List.filter_In in Hin. destruct Hin as [_ Hs].
  unfold rs_strong in Hs. apply andb_prop in Hs. destruct Hs as [_ Hs].
  rewrite Hj, Z.eqb_refl in Hs. discriminate Hs.
Qed.

Lemma generate_S_rs_no_diagonal_witness :
  let S := generate_S_rs rs_example_A rs_example_S0 0.75%float 2 in
  ~ In 0 (csr_row (iCSRmat.IA S) (iCSRmat.JA S) 0).
Proof.
  apply (generate_S_rs_no_diagonal rs_example_A rs_example_S0 0.75%float 2 0).
  - now left.
  - cbn. lia.
Defined.

(** ** coarsening_rs.c: the interpolation pattern as a CSR matrix *)

(** X7: the pattern built by [generate_sparsity_P] is a well-formed CSR
    matrix: [IA] starts at zero and never decreases, [nnz] is [IA[row]], and
    [JA] and [val] hold exactly [nnz] cells. *)
Theorem generate_sparsity_P_well_formed {R} `{Real R} (S : iCSRmat.t) (vec : list Z)
    (row col : Z) :
  0 <= row ->
  let P := generate_sparsity_P (R := R) S vec row col in
  rd 0 (dCSRmat.IA P) 0 = 0 /\
  (forall k, 0 <= k < row -> rd 0 (dCSRmat.IA P) k <= rd 0 (dCSRmat.IA P) (k + 1)) /\
  dCSRmat.nnz P = rd 0 (dCSRmat.IA P) row /\
  Z.of_nat (length (dCSRmat.JA P)) = dCSRmat.nnz P /\
  Z.of_nat (length (dCSRmat.val P)) = dCSRmat.nnz P.
Proof.
  intros Hrow P.
  assert (HIA : forall k, 0 <= k <= row -> rd 0 (dCSRmat.IA P) k = P_offset S vec k)
    by (intros k Hk; now apply generate_sparsity_P_IA).
  assert (HJA : dCSRmat.JA P = P_rows_upto S vec row)
    by (now apply generate_sparsity_P_JA).
  assert (Hnnz : dCSRmat.nnz P = rd 0 (dCSRmat.IA P) row - rd 0 (dCSRmat.IA P) 0).
  { subst P. unfold generate_sparsity_P.
    destruct (fold_left (fill_row S vec) _ _) as [PJA idx]. reflexivity. }
  assert (Hval : Z.of_nat (length (dCSRmat.val P)) = Z.max 0 (dCSRmat.nnz P)).
  { subst P. unfold generate_sparsity_P.
    destruct (fold_left (fill_row S vec) _ _) as [PJA idx].
    cbn [dCSRmat.val dCSRmat.nnz]. unfold calloc. rewrite length_replicate. lia. }
  pose proof (length_P_rows_upto S vec (Z.to_nat row)) as Hl.
  rewrite Z2Nat.id in Hl by lia.
  pose proof (P_offset_nonneg S vec row) as Hnn.
  rewrite Hnnz in *. rewrite !HIA in * by lia. rewrite P_offset_0 in *.
  rewrite HJA, Hl.
  repeat split; try lia.
  intros k Hk. rewrite !HIA by lia. apply P_offset_mono. lia.
Qed.

Lemma generate_sparsity_P_well_formed_witness :
  let P := generate_sparsity_P (R := float) sparsity_example_S sparsity_example_vec 3 1 in
  rd 0 (dCSRmat.IA P) 0 = 0 /\
  (forall k, 0 <= k < 3 -> rd 0 (dCSRmat.IA P) k <= rd 0 (dCSRmat.IA P) (k + 1)) /\
  dCSRmat.nnz P = rd 0 (dCSRmat.IA P) 3 /\
  Z.of_nat (length (dCSRmat.JA P)) = dCSRmat.nnz P /\
  Z.of_nat (length (dCSRmat.val P)) = dCSRmat.nnz P.
Proof.
  apply (generate_sparsity_P_well_formed (R := float) sparsity_example_S
           sparsity_example_vec 3 1).
  lia.
Defined.

(** X8: when every vertex is marked FINE, COARSE or ISOLATED, every column
    index stored in the pattern of [generate_sparsity_P] is a vertex marked
    COARSE. *)
Theorem generate_sparsity_P_columns_coarse {R} `{Real R} (S : iCSRmat.t) (vec : list Z)
    (row col : Z) :
  0 <= row ->
  (forall i, 0 <= i < row ->
     rd 0 vec i = FGPT \/ rd 0 vec i = CGPT \/ rd 0 vec i = ISPT) ->
  Forall (fun k => rd 0 vec k = CGPT)
    (dCSRmat.JA (generate_sparsity_P (R := R) S vec row col)).
Proof.
  intros Hrow Hmarks. rewrite generate_sparsity_P_JA by exact Hrow.
  unfold P_rows_upto. apply List.Forall_forall. intros k Hk.
  apply in_concat in Hk. destruct Hk as (r & Hr & Hk).
  apply in_map_iff in Hr. destruct Hr as (i & <- & Hi). apply in_range in Hi.
  unfold P_row in Hk.
  destruct (Z.eqb_spec (rd 0 vec i) FGPT) as [HF|HF].
  - apply List.filter_In in Hk. destruct Hk as [_ Hk]. now apply Z.eqb_eq.
  - destruct (Z.eqb_spec (rd 0 vec i) ISPT) as [HI|HI]; [contradiction|].
    destruct Hk as [<-|[]]. destruct (Hmarks i Hi) as [?|[?|?]]; congruence.
Qed.

Lemma generate_sparsity_P_columns_coarse_witness :
  Forall (fun k => rd 0 sparsity_example_vec k = CGPT)
    (dCSRmat.JA (generate_sparsity_P (R := float) sparsity_example_S sparsity_example_vec 3 1)).
Proof.
  apply (generate_sparsity_P_columns_coarse (R := float) sparsity_example_S
           sparsity_example_vec 3 1).
  - lia.
  - intros i Hi. assert (Hc : i = 0 \/ i = 1 \/ i = 2) by lia.
    destruct Hc as [-> | [-> | ->]]; vm_compute; auto.
Defined.

(** ** coarsening_rs.c: a strength graph without couplings *)

Lemma compress_keeps_cell (ia : list Z) (k : Z) (l : list Z) :
  forall st : list Z * list Z * Z,
  (forall i, In i l -> i <> k) ->
  rd 0 (fst (fst (fold_left (compress_row ia) l st))) k = rd 0 (fst (fst st)) k.
Proof.
  induction l as [|i l IH]; intros [[SIA SJA] index] Hne; [reflexivity|].
  cbn [fold_left]. rewrite IH by (intros i' Hi'; apply Hne; now right).
  unfold compress_row.
  destruct (fold_left _ (range (rd 0 ia i) (rd 0 ia (i + 1))) (SJA, index)) as [SJA' index'].
  cbn [fst]. apply rd_wr_ne. apply Hne. now left.
Qed.

Lemma filter_none {X} (f : X -> bool) (l : list X) :
  (forall v, In v l -> f v = false) -> List.filter f l = [].
Proof.
  induction l as [|v l IH]; intros Hall; [reflexivity|].
  cbn [List.filter]. rewrite (Hall v) by now left. apply IH. intros v' Hv'. apply Hall. now right.
Qed.

Section GenerateSEmpty.
Context {R : Type} `{Real R}.
Variable A : dCSRmat.t R.
Variable param : AMG_param.t R.
Hypothesis Hrow : 0 <= dCSRmat.row A.
Hypothesis HIA0 : rd 0 (dCSRmat.IA A) 0 = 0.
Hypothesis Hmono : forall k, 0 <= k < dCSRmat.row A ->
  rd 0 (dCSRmat.IA A) k <= rd 0 (dCSRmat.IA A) (k + 1).
Hypothesis Hweak : forall i j, 0 <= i < dCSRmat.row A -> In j (row_positions A i) ->
  weak_entry A param i j = true.

Lemma row_of_position (n : nat) (k : Z) :
  Z.of_nat n <= dCSRmat.row A ->
  0 <= k < rd 0 (dCSRmat.IA A) (Z.of_nat n) ->
  exists i, 0 <= i < Z.of_nat n /\ rd 0 (dCSRmat.IA A) i <= k < rd 0 (dCSRmat.IA A) (i + 1).
Proof.
  induction n as [|n IH]; intros Hn Hk.
  - change (Z.of_nat 0) with 0 in Hk. lia.
  - replace (Z.of_nat (Datatypes.S n)) with (Z.of_nat n + 1) in * by lia.
    destruct (Z.lt_ge_cases k (rd 0 (dCSRmat.IA A) (Z.of_nat n))) as [Hlt|Hge].
    + destruct (IH ltac:(lia) ltac:(lia)) as (i & Hi & Hki). exists i. split; [lia|exact Hki].
    + exists (Z.of_nat n). split; lia.
Qed.

Lemma kept_upto_all_weak :
  kept_upto (fold_left (mark_row A param (fasp_dcsr_getdiag A)) (range 0 (dCSRmat.row A))
               (fold_left (fun d i => wr d i (rd 0 (dCSRmat.JA A) i))
                  (range 0 (rd 0 (dCSRmat.IA A) (dCSRmat.row A) - rd 0 (dCSRmat.IA A) 0))
                  (calloc 0 (rd 0 (dCSRmat.IA A) (dCSRmat.row A) - rd 0 (dCSRmat.IA A) 0))))
    (rd 0 (dCSRmat.IA A) (dCSRmat.row A)) = [].
Proof.
  unfold kept_upto. apply filter_none.
  intros v Hv. apply in_map_iff in Hv. destruct Hv as (k & <- & Hk). apply in_range in Hk.
  destruct (row_of_position (Z.to_nat (dCSRmat.row A)) k ltac:(lia)
              ltac:(rewrite Z2Nat.id by lia; exact Hk)) as (i & Hi & Hki).
  rewrite (rd_marked A param Hrow HIA0 Hmono i k) by lia.
  rewrite Hweak by (try lia; unfold row_positions; apply in_range; exact Hki).
  reflexivity.
Qed.

Lemma generate_S_all_weak :
  let S := generate_S A param in
  iCSRmat.nnz S = 0 /\ iCSRmat.JA S = [] /\
  (forall k, 0 <= k < dCSRmat.row A -> rd 0 (iCSRmat.IA S) k = 0) /\
  rd 0 (iCSRmat.IA S) (dCSRmat.row A) = rd 0 (dCSRmat.IA A) (dCSRmat.row A).
Proof.
  unfold generate_S.
  set (SIA0 := fold_left (fun d i => wr d i (rd 0 (dCSRmat.IA A) i))
                 (range 0 (dCSRmat.row A + 1)) (calloc 0 (dCSRmat.row A + 1))).
  assert (HlenSIA0 : Z.of_nat (length SIA0) = dCSRmat.row A + 1).
  { unfold SIA0. rewrite length_fold_left by (intros; apply length_wr).
    unfold calloc. rewrite length_replicate. lia. }
  pose proof (compress_rows A param Hrow HIA0 Hmono SIA0 (Z.to_nat (dCSRmat.row A))
                ltac:(lia)) as Hc.
  rewrite Z2Nat.id in Hc by lia.
  pose proof (compress_keeps_cell (dCSRmat.IA A) (dCSRmat.row A) (range 0 (dCSRmat.row A))
                (SIA0, fold_left (mark_row A param (fasp_dcsr_getdiag A))
                         (range 0 (dCSRmat.row A))
                         (fold_left (fun d i => wr d i (rd 0 (dCSRmat.JA A) i))
                            (range 0 (rd 0 (dCSRmat.IA A) (dCSRmat.row A)
                                      - rd 0 (dCSRmat.IA A) 0))
                            (calloc 0 (rd 0 (dCSRmat.IA A) (dCSRmat.row A)
                                       - rd 0 (dCSRmat.IA A) 0))), 0)
                ltac:(intros i Hi; apply in_range in Hi; lia)) as Hlast.
  destruct (fold_left (compress_row (dCSRmat.IA A)) _ _) as [[SIA SJA] index].
  destruct Hc as (_ & _ & Hidx & _ & _ & HSIA). cbn [fst] in Hlast.
  rewrite kept_upto_all_weak in Hidx.
  change (Z.of_nat (length (@nil Z))) with 0 in Hidx. subst index.
  change (0 >? 0) with false. cbv iota.
  cbn [iCSRmat.nnz iCSRmat.JA iCSRmat.IA].
  split; [reflexivity|]. split; [reflexivity|]. split.
  - intros k Hk. rewrite (HSIA k Hk HlenSIA0).
    pose proof kept_upto_all_weak as Hall. unfold kept_upto in *.
    pose proof (IA_mono A Hmono k (dCSRmat.row A) ltac:(lia) ltac:(lia)) as Hle.
    pose proof (IA_mono A Hmono 0 k ltac:(lia) ltac:(lia)) as Hge.
    rewrite (range_app 0 (rd 0 (dCSRmat.IA A) k) (rd 0 (dCSRmat.IA A) (dCSRmat.row A)))
      in Hall by lia.
    rewrite map_app, List.filter_app in Hall. apply app_eq_nil in Hall.
    destruct Hall as [-> _]. reflexivity.
  - rewrite Hlast. unfold SIA0.
    pose proof (rd_fold_wr 0 (fun i => rd 0 (dCSRmat.IA A) i) 0
                  (Z.to_nat (dCSRmat.row A + 1)) (calloc 0 (dCSRmat.row A + 1))
                  (dCSRmat.row A) ltac:(lia)) as Hr.
    rewrite Z.add_0_l, Z2Nat.id in Hr by lia. rewrite Hr.
    + destruct (Z.leb_spec 0 (dCSRmat.row A)), (Z.ltb_spec (dCSRmat.row A) (dCSRmat.row A + 1));
        cbn; lia || reflexivity.
    + unfold calloc. rewrite length_replicate. lia.
Qed.

End GenerateSEmpty.

(** X9: when [generate_S] declares every entry of a CSR matrix weak, the
    strength graph it returns has [nnz = 0] and no [JA]; its row pointers are
    zero for every row, but [S->IA[row]] is left at [A->IA[row]]: only [nnz]
    tells that the graph is empty. *)
Theorem generate_S_without_strong_coupling {R} `{Real R} (A : dCSRmat.t R)
    (param : AMG_param.t R) :
  0 <= dCSRmat.row A ->
  rd 0 (dCSRmat.IA A) 0 = 0 ->
  (forall k, 0 <= k < dCSRmat.row A ->
     rd 0 (dCSRmat.IA A) k <= rd 0 (dCSRmat.IA A) (k + 1)) ->
  (forall i j, 0 <= i < dCSRmat.row A -> In j (row_positions A i) ->
     weak_entry A param i j = true) ->
  let S := generate_S A param in
  iCSRmat.nnz S = 0 /\ iCSRmat.JA S = [] /\
  (forall k, 0 <= k < dCSRmat.row A -> rd 0 (iCSRmat.IA S) k = 0) /\
  rd 0 (iCSRmat.IA S) (dCSRmat.row A) = rd 0 (dCSRmat.IA A) (dCSRmat.row A).
Proof. intros Hrow HIA0 Hmono Hweak. now apply generate_S_all_weak. Qed.

Lemma diagonal_example_weak (i j : Z) :
  0 <= i < dCSRmat.row diagonal_example_A -> In j (row_positions diagonal_example_A i) ->
  weak_entry diagonal_example_A generate_S_example_param i j = true.
Proof.
  intros Hi Hj. assert (Hi' : 0 <= i < 2) by exact Hi.
  assert (Hc : i = 0 \/ i = 1) by lia.
  destruct Hc as [-> | ->]; vm_compute in Hj; destruct Hj as [<-|[]]; vm_compute; reflexivity.
Qed.

Lemma diagonal_example_mono (k : Z) :
  0 <= k < dCSRmat.row diagonal_example_A ->
  rd 0 (dCSRmat.IA diagonal_example_A) k <= rd 0 (dCSRmat.IA diagonal_example_A) (k + 1).
Proof.
  intros Hk. assert (Hk' : 0 <= k < 2) by exact Hk.
  assert (Hc : k = 0 \/ k = 1) by lia. destruct Hc as [-> | ->]; by_compute.
Qed.

Lemma generate_S_without_strong_coupling_witness :
  let S := generate_S diagonal_example_A generate_S_example_param in
  iCSRmat.nnz S = 0 /\ iCSRmat.JA S = [] /\
  (forall k, 0 <= k < dCSRmat.row diagonal_example_A -> rd 0 (iCSRmat.IA S) k = 0) /\
  rd 0 (iCSRmat.IA S) (dCSRmat.row diagonal_example_A) =
  rd 0 (dCSRmat.IA diagonal_example_A) (dCSRmat.row diagonal_example_A).
Proof.
  apply (generate_S_without_strong_coupling diagonal_example_A generate_S_example_param).
  - by_compute.
  - reflexivity.
  - exact diagonal_example_mono.
  - exact diagonal_example_weak.
Defined.

Example generate_S_diagonal_example :
  generate_S diagonal_example_A generate_S_example_param = iCSRmat.mk 2 2 0 [0; 0; 2] [] [].
Proof. vm_compute. reflexivity. Qed.

(** X10: with the modified Ruge-Stuben strength (coarsening types 1 and 3),
    [fasp_amg_coarsening_rs] gives up with [RUN_FAIL] on a CSR matrix all of
    whose entries are declared weak, a diagonal matrix for one, and leaves the
    markers and [P] as they were. *)
Theorem fasp_amg_coarsening_rs_no_strong_coupling {R} `{Real R} (SUCCESS RUN_FAIL : Z)
    (cr : Z -> Z -> dCSRmat.t R -> list Z -> AMG_param.t R -> option (list Z * Z))
    (A : dCSRmat.t R) (vertices : list Z) (P : dCSRmat.t R) (param : AMG_param.t R)
    (coarsening_type : Z) (S : iCSRmat.t) :
  coarsening_type = 1 \/ coarsening_type = 3 ->
  0 <= dCSRmat.row A ->
  rd 0 (dCSRmat.IA A) 0 = 0 ->
  (forall k, 0 <= k < dCSRmat.row A ->
     rd 0 (dCSRmat.IA A) k <= rd 0 (dCSRmat.IA A) (k + 1)) ->
  (forall i j, 0 <= i < dCSRmat.row A -> In j (row_positions A i) ->
     weak_entry A param i j = true) ->
  fasp_amg_coarsening_rs SUCCESS RUN_FAIL cr A vertices P param coarsening_type S =
  Some (RUN_FAIL, vertices, P).
Proof.
  intros Htype Hrow HIA0 Hmono Hweak. unfold fasp_amg_coarsening_rs.
  destruct (generate_S_all_weak A param Hrow HIA0 Hmono Hweak) as (Hnnz & _).
  destruct Htype as [-> | ->]; cbn [Z.eqb Pos.eqb]; rewrite Hnnz; reflexivity.
Qed.

Lemma fasp_amg_coarsening_rs_no_strong_coupling_witness :
  fasp_amg_coarsening_rs 0 (-1) (fun _ _ _ _ _ => None) diagonal_example_A [7; 7]
    (dCSRmat.mk 0 0 0 [] [] []) generate_S_example_param 1 rs_example_S0 =
  Some (-1, [7; 7], dCSRmat.mk 0 0 0 [] [] []).
Proof.
  apply (fasp_amg_coarsening_rs_no_strong_coupling 0 (-1) (fun _ _ _ _ _ => None)
           diagonal_example_A [7; 7] (dCSRmat.mk 0 0 0 [] [] []) generate_S_example_param 1
           rs_example_S0).
  - now left.
  - by_compute.
  - reflexivity.
  - exact diagonal_example_mono.
  - exact diagonal_example_weak.
Defined.

(** ** io.c: the symmetric MatrixMarket reader *)

Section IOCorrect.
Context {V FILE : Type} (v0 : V).
Variable scan_d : FILE -> scanned Z FILE.
Variable scan_le : FILE -> scanned V FILE.

Lemma scan_sizes_fscanf (fp fp1 : FILE) (m n nnz m' n' nnz' : Z) :
  scan_sizes scan_d fp = Some (m, n, nnz, fp1) ->
  fscanf_d_d_d scan_d fp m' n' nnz' = (Items 3, (m, n, nnz), fp1).
Proof.
  unfold scan_sizes, fscanf_d_d_d. intros Hs.
  destruct (scan_d fp) as [a r| |]; try discriminate Hs.
  destruct (scan_d r) as [a1 r1| |]; try discriminate Hs.
  destruct (scan_d r1) as [a2 r2| |]; try discriminate Hs.
  now injection Hs as -> -> -> ->.
Qed.

Lemma scan_triple_fscanf (fp fp1 : FILE) (i j i' j' : Z) (value value' : V) :
  scan_triple scan_d scan_le fp = Some (i, j, value, fp1) ->
  fscanf_d_d_le scan_d scan_le fp i' j' value' = (Items 3, (i, j, value), fp1).
Proof.
  unfold scan_triple, fscanf_d_d_le. intros Hs.
  destruct (scan_d fp) as [a r| |]; try discriminate Hs.
  destruct (scan_d r) as [a1 r1| |]; try discriminate Hs.
  destruct (scan_le r1) as [a2 r2| |]; try discriminate Hs.
  now injection Hs as -> -> -> ->.
Qed.

Lemma fscanf_at_end (fp : FILE) (i j : Z) (value : V) :
  scan_d fp = InputEnd ->
  fscanf_d_d_le scan_d scan_le fp i j value = (EOF, (i, j, value), fp).
Proof. unfold fscanf_d_d_le. now intros ->. Qed.

(** A file that goes on with the triples [t :: body]. *)
Lemma scan_triples_cons (count : nat) (fp fp' : FILE) (t : Z * Z * V)
    (body : list (Z * Z * V)) :
  scan_triples scan_d scan_le (S count) fp = Some (t :: body, fp') ->
  exists fp1, scan_triple scan_d scan_le fp = Some (t, fp1) /\
              scan_triples scan_d scan_le count fp1 = Some (body, fp').
Proof.
  cbn [scan_triples]. intros Hs.
  destruct (scan_triple scan_d scan_le fp) as [[[[i j] value] fp1]|]; [|discriminate Hs].
  destruct (scan_triples scan_d scan_le count fp1) as [[body' fp2]|] eqn:Hr;
    [|discriminate Hs].
  injection Hs as <- <- <-. exists fp1. split; [reflexivity|exact Hr].
Qed.

Lemma scan_triples_length (count : nat) : forall (fp fp' : FILE) (body : list (Z * Z * V)),
  scan_triples scan_d scan_le count fp = Some (body, fp') -> length body = count.
Proof.
  induction count as [|count IH]; intros fp fp' body Hs; cbn [scan_triples] in Hs.
  - now injection Hs as <- <-.
  - destruct (scan_triple scan_d scan_le fp) as [[[[i j] value] fp1]|]; [|discriminate Hs].
    destruct (scan_triples scan_d scan_le count fp1) as [[body' fp2]|] eqn:Hr;
      [|discriminate Hs].
    injection Hs as <- <-. cbn [length]. f_equal. now apply (IH fp1 fp2).
Qed.




Lemma entries_of_columns (L : list (Z * Z * V)) :
  map (fun k => (rd 0 (map (fun t => fst (fst t)) L) k,
                 rd 0 (map (fun t => snd (fst t)) L) k,
                 rd v0 (map snd L) k))
    (range 0 (Z.of_nat (length L))) = L.
Proof.
  transitivity (map (rd (0, 0, v0) L) (range 0 (Z.of_nat (length L))));
    [|apply map_rd_range].
  apply map_ext. intros k.
  rewrite (rd_map (fun t => fst (fst t)) (0, 0, v0)).
  rewrite (rd_map (fun t => snd (fst t)) (0, 0, v0)).
  rewrite (rd_map snd (0, 0, v0)).
  now destruct (rd (0, 0, v0) L k) as [[a b] c].
Qed.

Lemma write_list_calloc {A} (d : A) (n : Z) (xs : list A) :
  Z.of_nat (length xs) = n -> write_list (calloc d n) 0 xs = xs.
Proof.
  intros Hxs.
  pose proof (write_list_fill xs [] (calloc d n)) as Hf.
  cbn [app length] in Hf. change (Z.of_nat 0) with 0 in Hf.
  assert (Hl : length (calloc d n) = length xs).
  { unfold calloc. rewrite length_replicate. lia. }
  rewrite Hf by lia. rewrite drop_ge by lia. apply app_nil_r.
Qed.


End IOCorrect.


Example fasp_dmtxsym_read_full_diagonal_example :
  fasp_dmtxsym_read_coo 0%float token_d token_le locals_example
    (Some dmtxsym_full_diagonal_file) =
  Some (Ok (dCOOmat.mk 2 2 4 [0; 1; 0; 1] [0; 0; 1; 1] [2; -1; -1; 2]%float)).
Proof. vm_compute. reflexivity. Qed.


(** With a missing diagonal entry the reader can also store past the end of
    the arrays of [Atmp]: two rows, two stored entries, one of them
    off-diagonal. *)
Example fasp_dmtxsym_read_overrun :
  fasp_dmtxsym_read_coo 0%float token_d token_le locals_example
    (Some (map num [2; 2; 2;  1; 1; 2;  2; 1; -1])) = Some Overrun.
Proof. vm_compute. reflexivity. Qed.

(** The claim also fails on a file with the banner line of the format.  No
    conversion reads the banner: the sizes keep what the stack held (here
    [m = 7], [nnz = 2], so [2*(2-7)+7 < 0] cells), every [fscanf] of the loop
    would return 0, and no error is raised.  With other stack contents the
    loop stores the former contents of [i], [j] and [value]. *)
Example fasp_dmtxsym_read_banner :
  fasp_dmtxsym_read_coo 0%float token_d token_le locals_example
    (Some dmtxsym_banner_file) = Some (Ok (dCOOmat.mk 7 7 (-3) [] [] [])) /\
  fasp_dmtxsym_read_coo 0%float token_d token_le (Build_locals 2 2 3 2 1 9%float)
    (Some dmtxsym_banner_file) =
  Some (Ok (dCOOmat.mk 2 2 4 [1; 0; 1; 0] [0; 1; 0; 1] [9; 9; 9; 9]%float)).
Proof. split; vm_compute; reflexivity. Qed.

(** ** io.c: the coordinate readers *)

Section IOMoreCorrect.
Context {V FILE : Type} (v0 : V).
Variable scan_d : FILE -> scanned Z FILE.
Variable scan_le : FILE -> scanned V FILE.

(** A file that goes on with the triples [body] goes on with each initial
    part of them. *)
Lemma scan_triples_take (body : list (Z * Z * V)) :
  forall (count : nat) (fp fp' : FILE),
  scan_triples scan_d scan_le (length body) fp = Some (body, fp') ->
  exists fp1, scan_triples scan_d scan_le (length (take count body)) fp
              = Some (take count body, fp1).
Proof.
  induction body as [|t body IH]; intros count fp fp' Hs.
  - rewrite take_nil. exists fp. reflexivity.
  - destruct count as [|count]; [exists fp; reflexivity|].
    cbn [length] in Hs. apply scan_triples_cons in Hs. destruct Hs as (fp1 & Ht & Hs).
    destruct (IH count fp1 fp' Hs) as (fp2 & Hr).
    exists fp2. cbn [take length scan_triples]. rewrite Ht.
    destruct t as [[i j] value]. now rewrite Hr.
Qed.

(** The loop of [fasp_dcoo_read] on a file that goes on with the triples it
    asks for. *)
Lemma dcoo_read_loop_ok (body : list (Z * Z * V)) :
  forall (fuel : nat) (fp fp' : FILE) (Atmp : dCOOmat.t V) (i j : Z) (value : V)
         (k nnz : Z),
  scan_triples scan_d scan_le (length body) fp = Some (body, fp') ->
  length body = Z.to_nat (nnz - k) ->
  (length body <= fuel)%nat ->
  dcoo_read_loop scan_d scan_le fuel fp Atmp i j value k nnz =
  Some (Ok (dCOOmat.mk (dCOOmat.row Atmp) (dCOOmat.col Atmp) (dCOOmat.nnz Atmp)
          (write_list (dCOOmat.I Atmp) k (map (fun t => fst (fst t)) body))
          (write_list (dCOOmat.J Atmp) k (map (fun t => snd (fst t)) body))
          (write_list (dCOOmat.val Atmp) k (map snd body)))).
Proof.
  induction body as [|[[a b] c] body IH];
    intros fuel fp fp' Atmp i j value k nnz Hs Hlen Hfuel.
  - cbn [length] in Hlen. destruct fuel; cbn [dcoo_read_loop map write_list];
      destruct (Z.ltb_spec k nnz); try lia; now destruct Atmp.
  - cbn [length] in Hs, Hlen, Hfuel. destruct fuel as [|fuel]; [lia|].
    apply scan_triples_cons in Hs. destruct Hs as (fp1 & Ht & Hs).
    cbn [dcoo_read_loop]. destruct (Z.ltb_spec k nnz); [|lia].
    rewrite (scan_triple_fscanf _ _ _ _ _ _ _ _ _ _ Ht). cbn [not_EOF].
    rewrite (IH fuel fp1 fp') by (assumption || lia).
    cbn [dCOOmat.row dCOOmat.col dCOOmat.nnz dCOOmat.I dCOOmat.J dCOOmat.val
         map fst snd write_list].
    reflexivity.
Qed.

(** The loop on a file that ends, after complete triples, before the loop
    has all it asks for. *)
Lemma dcoo_read_loop_short (body : list (Z * Z * V)) :
  forall (fuel : nat) (fp fp' : FILE) (Atmp : dCOOmat.t V) (i j : Z) (value : V)
         (k nnz : Z),
  scan_triples scan_d scan_le (length body) fp = Some (body, fp') ->
  scan_d fp' = InputEnd ->
  k + Z.of_nat (length body) < nnz ->
  (length body < fuel)%nat ->
  dcoo_read_loop scan_d scan_le fuel fp Atmp i j value k nnz = Some (Exit ERROR_WRONG_FILE).
Proof.
  induction body as [|[[a b] c] body IH];
    intros fuel fp fp' Atmp i j value k nnz Hs Hend Hlen Hfuel;
    (destruct fuel as [|fuel]; [lia|]); cbn [length] in *;
    cbn [dcoo_read_loop]; (destruct (Z.ltb_spec k nnz); [|lia]).
  - cbn [scan_triples] in Hs. injection Hs as <-.
    now rewrite (fscanf_at_end _ _ _ _ _ _ Hend).
  - apply scan_triples_cons in Hs. destruct Hs as (fp1 & Ht & Hs).
    rewrite (scan_triple_fscanf _ _ _ _ _ _ _ _ _ _ Ht). cbn [not_EOF].
    apply (IH fuel fp1 fp'); (assumption || lia).
Qed.

Lemma dmtx_read_loop_ok (body : list (Z * Z * V)) :
  forall (fuel : nat) (fp fp' : FILE) (Atmp : dCOOmat.t V) (i j : Z) (value : V)
         (innz nnz : Z),
  scan_triples scan_d scan_le (length body) fp = Some (body, fp') ->
  length body = Z.to_nat (nnz - innz) ->
  (length body <= fuel)%nat ->
  dmtx_read_loop scan_d scan_le fuel fp Atmp i j value innz nnz =
  Some (Ok (dCOOmat.mk (dCOOmat.row Atmp) (dCOOmat.col Atmp) (dCOOmat.nnz Atmp)
          (write_list (dCOOmat.I Atmp) innz
             (map (fun t => fst (fst t)) (map zero_based body)))
          (write_list (dCOOmat.J Atmp) innz
             (map (fun t => snd (fst t)) (map zero_based body)))
          (write_list (dCOOmat.val Atmp) innz (map snd (map zero_based body))))).
Proof.
  induction body as [|[[a b] c] body IH];
    intros fuel fp fp' Atmp i j value innz nnz Hs Hlen Hfuel.
  - cbn [length] in Hlen. destruct fuel; cbn [dmtx_read_loop map write_list];
      destruct (Z.ltb_spec innz nnz); try lia; now destruct Atmp.
  - cbn [length] in Hs, Hlen, Hfuel. destruct fuel as [|fuel]; [lia|].
    apply scan_triples_cons in Hs. destruct Hs as (fp1 & Ht & Hs).
    cbn [dmtx_read_loop]. destruct (Z.ltb_spec innz nnz); [|lia].
    rewrite (scan_triple_fscanf _ _ _ _ _ _ _ _ _ _ Ht). cbn [not_EOF].
    rewrite (IH fuel fp1 fp') by (assumption || lia).
    cbn [dCOOmat.row dCOOmat.col dCOOmat.nnz dCOOmat.I dCOOmat.J dCOOmat.val
         map fst snd write_list zero_based].
    reflexivity.
Qed.

Lemma dmtx_read_loop_short (body : list (Z * Z * V)) :
  forall (fuel : nat) (fp fp' : FILE) (Atmp : dCOOmat.t V) (i j : Z) (value : V)
         (innz nnz : Z),
  scan_triples scan_d scan_le (length body) fp = Some (body, fp') ->
  scan_d fp' = InputEnd ->
  innz + Z.of_nat (length body) < nnz ->
  (length body < fuel)%nat ->
  dmtx_read_loop scan_d scan_le fuel fp Atmp i j value innz nnz = Some (Exit ERROR_WRONG_FILE).
Proof.
  induction body as [|[[a b] c] body IH];
    intros fuel fp fp' Atmp i j value innz nnz Hs Hend Hlen Hfuel;
    (destruct fuel as [|fuel]; [lia|]); cbn [length] in *;
    cbn [dmtx_read_loop]; (destruct (Z.ltb_spec innz nnz); [|lia]).
  - cbn [scan_triples] in Hs. injection Hs as <-.
    now rewrite (fscanf_at_end _ _ _ _ _ _ Hend).
  - apply scan_triples_cons in Hs. destruct Hs as (fp1 & Ht & Hs).
    rewrite (scan_triple_fscanf _ _ _ _ _ _ _ _ _ _ Ht). cbn [not_EOF].
    apply (IH fuel fp1 fp'); (assumption || lia).
Qed.

End IOMoreCorrect.

(** X16: let the file hold no banner or comment line and start with the
    three sizes [m n nnz], [nnz >= 0], followed by [nnz] complete triples.
    Then [fasp_dmtx_read] reads it without error: the matrix has the sizes
    of the first line and its entries are these [nnz] triples, in the order
    of the file, the indices moved from 1-based to 0-based. *)
Theorem fasp_dmtx_read_entries {V FILE} (v0 : V)
    (scan_d : FILE -> scanned Z FILE) (scan_le : FILE -> scanned V FILE)
    (g : locals V) (fp fp1 fp2 : FILE) (m n nnz : Z) (body : list (Z * Z * V)) :
  scan_sizes scan_d fp = Some (m, n, nnz, fp1) ->
  scan_triples scan_d scan_le (Z.to_nat nnz) fp1 = Some (body, fp2) ->
  0 <= nnz ->
  exists Atmp : dCOOmat.t V,
    fasp_dmtx_read_coo v0 scan_d scan_le g (Some fp) = Some (Ok Atmp) /\
    dCOOmat.row Atmp = m /\ dCOOmat.col Atmp = n /\ dCOOmat.nnz Atmp = nnz /\
    coo_entries v0 Atmp = map zero_based body.
Proof.
  intros Hsizes Hbody Hnnz. unfold fasp_dmtx_read_coo.
  rewrite (scan_sizes_fscanf _ _ _ _ _ _ _ _ _ Hsizes).
  pose proof (scan_triples_length _ _ _ _ _ _ Hbody) as Hlen.
  rewrite <- Hlen in Hbody.
  rewrite (dmtx_read_loop_ok scan_d scan_le body _ fp1 fp2) by (assumption || lia).
  eexists. split; [reflexivity|].
  cbn [dCOOmat.row dCOOmat.col dCOOmat.nnz dCOOmat.I dCOOmat.J dCOOmat.val fasp_dcoo_create].
  repeat (split; [reflexivity|]).
  unfold coo_entries. cbn [dCOOmat.nnz dCOOmat.I dCOOmat.J dCOOmat.val].
  rewrite !write_list_calloc by (rewrite !length_map; lia).
  replace nnz with (Z.of_nat (length (map zero_based body))) by (rewrite length_map; lia).
  apply entries_of_columns.
Qed.

Lemma fasp_dmtx_read_entries_witness :
  exists Atmp : dCOOmat.t float,
    fasp_dmtx_read_coo 0%float token_d token_le locals_example (Some dmtx_example_file)
    = Some (Ok Atmp) /\
    dCOOmat.row Atmp = 2 /\ dCOOmat.col Atmp = 2 /\ dCOOmat.nnz Atmp = 4 /\
    coo_entries 0%float Atmp =
    map zero_based [(1, 1, 2%float); (1, 2, (-1)%float); (2, 1, (-1)%float);
                    (2, 2, 2%float)].
Proof.
  apply (fasp_dmtx_read_entries 0%float token_d token_le locals_example
           dmtx_example_file
           (map num [1; 1; 2;  1; 2; -1;  2; 1; -1;  2; 2; 2]) [] 2 2 4
           [(1, 1, 2%float); (1, 2, (-1)%float); (2, 1, (-1)%float); (2, 2, 2%float)]).
  - reflexivity.
  - reflexivity.
  - lia.
Defined.

Example fasp_dmtx_read_example :
  fasp_dmtx_read_coo 0%float token_d token_le locals_example (Some dmtx_example_file) =
  Some (Ok (dCOOmat.mk 2 2 4 [0; 0; 1; 1] [0; 1; 0; 1] [2; -1; -1; 2]%float)).
Proof. vm_compute. reflexivity. Qed.

(** On a file with the banner line of the format no conversion succeeds:
    the sizes keep what the stack held, every round stores the former
    contents of [i], [j] and [value], and no error is raised. *)
Example fasp_dmtx_read_banner :
  fasp_dmtx_read_coo 0%float token_d token_le locals_example
    (Some ([Word; Word; Word; Word; Word] ++ dmtx_example_file)) =
  Some (Ok (dCOOmat.mk 7 7 2 [4; 4] [2; 2] [9; 9]%float)).
Proof. vm_compute. reflexivity. Qed.

(** X17: a file of three sizes and complete triples that ends, after a
    complete triple, before it holds the [nnz] triples of its first line
    ends both coordinate readers with [exit(ERROR_WRONG_FILE)]; no matrix is
    returned. *)
Theorem fasp_dcoo_read_short_file {V FILE} (v0 : V)
    (scan_d : FILE -> scanned Z FILE) (scan_le : FILE -> scanned V FILE)
    (g : locals V) (fp fp1 fp2 : FILE) (m n nnz : Z) (body : list (Z * Z * V)) :
  scan_sizes scan_d fp = Some (m, n, nnz, fp1) ->
  scan_triples scan_d scan_le (length body) fp1 = Some (body, fp2) ->
  scan_d fp2 = InputEnd ->
  Z.of_nat (length body) < nnz ->
  fasp_dcoo_read_coo v0 scan_d scan_le g (Some fp) = Some (Exit ERROR_WRONG_FILE) /\
  fasp_dmtx_read_coo v0 scan_d scan_le g (Some fp) = Some (Exit ERROR_WRONG_FILE).
Proof.
  intros Hsizes Hbody Hend Hshort. unfold fasp_dcoo_read_coo, fasp_dmtx_read_coo.
  rewrite (scan_sizes_fscanf _ _ _ _ _ _ _ _ _ Hsizes). split.
  - apply (dcoo_read_loop_short scan_d scan_le body _ fp1 fp2); (assumption || lia).
  - apply (dmtx_read_loop_short scan_d scan_le body _ fp1 fp2); (assumption || lia).
Qed.

Lemma fasp_dcoo_read_short_file_witness :
  fasp_dcoo_read_coo 0%float token_d token_le locals_example
    (Some (map num [2; 2; 3;  1; 1; 2])) = Some (Exit ERROR_WRONG_FILE) /\
  fasp_dmtx_read_coo 0%float token_d token_le locals_example
    (Some (map num [2; 2; 3;  1; 1; 2])) = Some (Exit ERROR_WRONG_FILE).
Proof.
  apply (fasp_dcoo_read_short_file 0%float token_d token_le locals_example
           (map num [2; 2; 3;  1; 1; 2]) (map num [1; 1; 2]) [] 2 2 3 [(1, 1, 2%float)]).
  - reflexivity.
  - reflexivity.
  - reflexivity.
  - cbn. lia.
Defined.

(** A file that is cut inside a triple does not end the readers: the
    [fscanf] of the last round assigns [i], returns 1, and the round stores
    the new [i] with the [j] and the [value] of the triple before. *)
Example fasp_dmtx_read_cut_triple :
  fasp_dmtx_read_coo 0%float token_d token_le locals_example
    (Some (map num [2; 2; 2;  1; 1; 2;  2])) =
  Some (Ok (dCOOmat.mk 2 2 2 [0; 1] [0; 0] [2; 2]%float)).
Proof. vm_compute. reflexivity. Qed.

(** X18: [fasp_dmtx_read] on a file of three sizes and complete triples
    behaves as [fasp_dcoo_read] on the same file with every row and column
    index lowered by one: the two readers differ in the index base and in
    nothing else, the error exit included. *)
Theorem fasp_dmtx_read_as_dcoo_read {V FILE} (v0 : V)
    (scan_d : FILE -> scanned Z FILE) (scan_le : FILE -> scanned V FILE)
    (g g' : locals V) (fp fp1 fp2 fp' fp1' fp2' : FILE) (m n nnz : Z)
    (body : list (Z * Z * V)) :
  scan_sizes scan_d fp = Some (m, n, nnz, fp1) ->
  scan_triples scan_d scan_le (length body) fp1 = Some (body, fp2) ->
  scan_d fp2 = InputEnd ->
  scan_sizes scan_d fp' = Some (m, n, nnz, fp1') ->
  scan_triples scan_d scan_le (length body) fp1' = Some (map zero_based body, fp2') ->
  scan_d fp2' = InputEnd ->
  fasp_dmtx_read_coo v0 scan_d scan_le g (Some fp) =
  fasp_dcoo_read_coo v0 scan_d scan_le g' (Some fp').
Proof.
  intros Hsizes Hbody Hend Hsizes' Hbody' Hend'.
  unfold fasp_dcoo_read_coo, fasp_dmtx_read_coo.
  rewrite (scan_sizes_fscanf _ _ _ _ _ _ _ _ _ Hsizes).
  rewrite (scan_sizes_fscanf _ _ _ _ _ _ _ _ _ Hsizes').
  destruct (Z.lt_ge_cases (Z.of_nat (length body)) nnz) as [Hshort|Hlong].
  - rewrite (dmtx_read_loop_short scan_d scan_le body _ fp1 fp2) by (assumption || lia).
    rewrite <- (length_map zero_based body) in Hbody'.
    rewrite (dcoo_read_loop_short scan_d scan_le (map zero_based body) _ fp1' fp2')
      by (assumption || rewrite ?length_map; lia).
    reflexivity.
  - destruct (scan_triples_take scan_d scan_le body (Z.to_nat nnz) fp1 fp2 Hbody)
      as (fp3 & Ht).
    rewrite <- (length_map zero_based body) in Hbody'.
    destruct (scan_triples_take scan_d scan_le (map zero_based body) (Z.to_nat nnz)
                fp1' fp2' Hbody') as (fp3' & Ht').
    assert (Hl : length (take (Z.to_nat nnz) body) = Z.to_nat nnz)
      by (rewrite length_take; lia).
    assert (Hl' : length (take (Z.to_nat nnz) (map zero_based body)) = Z.to_nat nnz)
      by (rewrite length_take, length_map; lia).
    rewrite (dmtx_read_loop_ok scan_d scan_le _ _ fp1 fp3 _ _ _ _ _ _ Ht)
      by (rewrite Hl; lia).
    rewrite (dcoo_read_loop_ok scan_d scan_le _ _ fp1' fp3' _ _ _ _ _ _ Ht')
      by (rewrite Hl'; lia).
    rewrite <- (firstn_map zero_based). reflexivity.
Qed.

Lemma fasp_dmtx_read_as_dcoo_read_witness :
  fasp_dmtx_read_coo 0%float token_d token_le locals_example (Some dmtx_example_file) =
  fasp_dcoo_read_coo 0%float token_d token_le locals_example (Some dcoo_example_file).
Proof.
  apply (fasp_dmtx_read_as_dcoo_read 0%float token_d token_le locals_example locals_example
           dmtx_example_file (map num [1; 1; 2;  1; 2; -1;  2; 1; -1;  2; 2; 2]) []
           dcoo_example_file (map num [0; 0; 2;  0; 1; -1;  1; 0; -1;  1; 1; 2]) []
           2 2 4
           [(1, 1, 2%float); (1, 2, (-1)%float); (2, 1, (-1)%float); (2, 2, 2%float)]).
  - reflexivity.
  - reflexivity.
  - reflexivity.
  - reflexivity.
  - reflexivity.
  - reflexivity.
Defined.

(** ** io.c: the symmetric reader, whenever it stays inside its arrays *)

Section IOSymmetric.
Context {V FILE : Type} (v0 : V).
Variable scan_d : FILE -> scanned Z FILE.
Variable scan_le : FILE -> scanned V FILE.

(** Whatever the file holds, a run of the loop that ends without a store
    outside the arrays has filled the cells from [innz] on with the
    expansions of the triples that [i], [j] and [value] held round by
    round. *)
Lemma dmtxsym_read_loop_expansion (fuel : nat) :
  forall (fp : FILE) (Atmp A' : dCOOmat.t V) (i j : Z) (value : V) (innz cap : Z),
  dmtxsym_read_loop scan_d scan_le fuel fp Atmp i j value innz cap = Some (Ok A') ->
  innz <= cap ->
  exists held : list (Z * Z * V),
    innz + Z.of_nat (length (flat_map sym_expand held)) = cap /\
    A' = dCOOmat.mk (dCOOmat.row Atmp) (dCOOmat.col Atmp) (dCOOmat.nnz Atmp)
           (write_list (dCOOmat.I Atmp) innz
              (map (fun t => fst (fst t)) (flat_map sym_expand held)))
           (write_list (dCOOmat.J Atmp) innz
              (map (fun t => snd (fst t)) (flat_map sym_expand held)))
           (write_list (dCOOmat.val Atmp) innz (map snd (flat_map sym_expand held))).
Proof.
  induction fuel as [|fuel IH]; intros fp Atmp A' i j value innz cap Hloop Hle;
    cbn [dmtxsym_read_loop] in Hloop; destruct (Z.ltb_spec innz cap) as [Hlt|Hge];
    try discriminate Hloop;
    try (exists []; split; [cbn; lia|]; injection Hloop as <-; now destruct Atmp).
  destruct (fscanf_d_d_le scan_d scan_le fp i j value) as [[ret [[a b] c]] fp1].
  destruct (not_EOF ret); [|discriminate Hloop].
  destruct (Z.eqb_spec a b) as [Hab|Hab].
  - apply IH in Hloop; [|lia]. destruct Hloop as (held & Hcap & ->).
    exists ((a, b, c) :: held). cbn [flat_map].
    change (sym_expand (a, b, c))
      with (if a =? b then [(a - 1, b - 1, c)] else [(a - 1, b - 1, c); (b - 1, a - 1, c)]).
    destruct (Z.eqb_spec a b); [|contradiction].
    cbn [app length map fst snd write_list]. split; [lia|]. reflexivity.
  - destruct (Z.ltb_spec (innz + 1) cap); [|discriminate Hloop].
    apply IH in Hloop; [|lia]. destruct Hloop as (held & Hcap & ->).
    exists ((a, b, c) :: held). cbn [flat_map].
    change (sym_expand (a, b, c))
      with (if a =? b then [(a - 1, b - 1, c)] else [(a - 1, b - 1, c); (b - 1, a - 1, c)]).
    destruct (Z.eqb_spec a b); [contradiction|].
    cbn [app length map fst snd write_list]. split; [lia|].
    cbn [dCOOmat.row dCOOmat.col dCOOmat.nnz dCOOmat.I dCOOmat.J dCOOmat.val].
    replace (innz + 1 + 1) with (innz + 2) by lia. reflexivity.
Qed.

Lemma dmtxsym_read_loop_negative (fuel : nat) (fp : FILE) (Atmp A' : dCOOmat.t V)
    (i j : Z) (value : V) (innz cap : Z) :
  dmtxsym_read_loop scan_d scan_le fuel fp Atmp i j value innz cap = Some (Ok A') ->
  cap <= innz -> A' = Atmp.
Proof.
  intros Hloop Hle. destruct fuel; cbn [dmtxsym_read_loop] in Hloop;
    destruct (Z.ltb_spec innz cap); try lia; now injection Hloop as <-.
Qed.

Lemma sym_expand_symmetric (body : list (Z * Z * V)) (i j : Z) (value : V) :
  In (i, j, value) (flat_map sym_expand body) ->
  In (j, i, value) (flat_map sym_expand body).
Proof.
  rewrite !in_flat_map. intros ([[a b] c] & Hin & Hexp). exists (a, b, c).
  split; [exact Hin|]. cbn [sym_expand] in *.
  destruct (Z.eqb_spec a b) as [->|Hab]; cbn [In] in *.
  - destruct Hexp as [Heq|[]]. injection Heq as <- <- <-. now left.
  - destruct Hexp as [Heq|[Heq|[]]]; injection Heq as <- <- <-; [right; now left|now left].
Qed.

Lemma coo_entries_written (m n cap : Z) (L : list (Z * Z * V)) :
  Z.of_nat (length L) = cap ->
  coo_entries v0
    (dCOOmat.mk m n cap
       (write_list (calloc 0 cap) 0 (map (fun t => fst (fst t)) L))
       (write_list (calloc 0 cap) 0 (map (fun t => snd (fst t)) L))
       (write_list (calloc v0 cap) 0 (map snd L))) = L.
Proof.
  intros Hlen. unfold coo_entries. cbn [dCOOmat.nnz dCOOmat.I dCOOmat.J dCOOmat.val].
  rewrite !write_list_calloc by (rewrite length_map; lia).
  rewrite <- Hlen. apply entries_of_columns.
Qed.

Lemma fasp_dmtxsym_read_coo_expansion (g : locals V) (file : option FILE)
    (Atmp : dCOOmat.t V) :
  fasp_dmtxsym_read_coo v0 scan_d scan_le g file = Some (Ok Atmp) ->
  exists held : list (Z * Z * V), coo_entries v0 Atmp = flat_map sym_expand held.
Proof.
  destruct file as [fp|]; [|discriminate 1].
  unfold fasp_dmtxsym_read_coo.
  destruct (fscanf_d_d_d scan_d fp (m0 g) (n0 g) (nnz0 g)) as [[ret [[m n] nnz]] fp1].
  set (cap := 2 * (nnz - m) + m). intros Hloop.
  destruct (Z.le_gt_cases 0 cap) as [Hcap|Hcap].
  - apply dmtxsym_read_loop_expansion in Hloop; [|exact Hcap].
    destruct Hloop as (held & Hlen & ->). exists held.
    cbn [dCOOmat.row dCOOmat.col dCOOmat.nnz dCOOmat.I dCOOmat.J dCOOmat.val
         fasp_dcoo_create].
    apply coo_entries_written. lia.
  - apply dmtxsym_read_loop_negative in Hloop; [|lia]. subst Atmp.
    exists []. unfold coo_entries. cbn [dCOOmat.nnz fasp_dcoo_create].
    rewrite range_nil by lia. reflexivity.
Qed.

(** The loop on a file that holds complete triples up to its end. *)
Lemma dmtxsym_read_loop_prefix (body : list (Z * Z * V)) :
  forall (fuel : nat) (fp fp' : FILE) (Atmp A' : dCOOmat.t V) (i j : Z) (value : V)
         (innz cap : Z),
  scan_triples scan_d scan_le (length body) fp = Some (body, fp') ->
  scan_d fp' = InputEnd ->
  dmtxsym_read_loop scan_d scan_le fuel fp Atmp i j value innz cap = Some (Ok A') ->
  innz <= cap ->
  exists pre suf : list (Z * Z * V),
    body = pre ++ suf /\
    innz + Z.of_nat (length (flat_map sym_expand pre)) = cap /\
    A' = dCOOmat.mk (dCOOmat.row Atmp) (dCOOmat.col Atmp) (dCOOmat.nnz Atmp)
           (write_list (dCOOmat.I Atmp) innz
              (map (fun t => fst (fst t)) (flat_map sym_expand pre)))
           (write_list (dCOOmat.J Atmp) innz
              (map (fun t => snd (fst t)) (flat_map sym_expand pre)))
           (write_list (dCOOmat.val Atmp) innz (map snd (flat_map sym_expand pre))).
Proof.
  induction body as [|[[a b] c] body IH];
    intros fuel fp fp' Atmp A' i j value innz cap Hs Hend Hloop Hle;
    (destruct fuel as [|fuel]; cbn [dmtxsym_read_loop] in Hloop;
     destruct (Z.ltb_spec innz cap) as [Hlt|Hge]; try discriminate Hloop;
     try (exists [], (@nil (Z * Z * V)); split; [reflexivity|]; split; [cbn; lia|];
          injection Hloop as <-; now destruct Atmp);
     try (exists [], ((a, b, c) :: body); split; [reflexivity|]; split; [cbn; lia|];
          injection Hloop as <-; now destruct Atmp)).
  - cbn [length scan_triples] in Hs. injection Hs as <-.
    rewrite (fscanf_at_end _ _ _ _ _ _ Hend) in Hloop. discriminate Hloop.
  - cbn [length] in Hs. apply scan_triples_cons in Hs. destruct Hs as (fp1 & Ht & Hs).
    rewrite (scan_triple_fscanf _ _ _ _ _ _ _ _ _ _ Ht) in Hloop. cbn [not_EOF] in Hloop.
    destruct (Z.eqb_spec a b) as [Hab|Hab].
    + apply (IH fuel fp1 fp') in Hloop; [|assumption|assumption|lia].
      destruct Hloop as (pre & suf & -> & Hcap & ->).
      exists ((a, b, c) :: pre), suf. split; [reflexivity|]. cbn [flat_map].
      change (sym_expand (a, b, c))
        with (if a =? b then [(a - 1, b - 1, c)]
              else [(a - 1, b - 1, c); (b - 1, a - 1, c)]).
      destruct (Z.eqb_spec a b); [|contradiction].
      cbn [app length map fst snd write_list]. split; [lia|]. reflexivity.
    + destruct (Z.ltb_spec (innz + 1) cap); [|discriminate Hloop].
      apply (IH fuel fp1 fp') in Hloop; [|assumption|assumption|lia].
      destruct Hloop as (pre & suf & -> & Hcap & ->).
      exists ((a, b, c) :: pre), suf. split; [reflexivity|]. cbn [flat_map].
      change (sym_expand (a, b, c))
        with (if a =? b then [(a - 1, b - 1, c)]
              else [(a - 1, b - 1, c); (b - 1, a - 1, c)]).
      destruct (Z.eqb_spec a b); [contradiction|].
      cbn [app length map fst snd write_list]. split; [lia|].
      cbn [dCOOmat.row dCOOmat.col dCOOmat.nnz dCOOmat.I dCOOmat.J dCOOmat.val].
      replace (innz + 1 + 1) with (innz + 2) by lia. reflexivity.
Qed.

End IOSymmetric.

(** X19: in every run of [fasp_dmtxsym_read] that reaches the conversion
    and has stored inside the arrays of [Atmp] only, the matrix is
    symmetric: with an entry [(i, j, value)] it holds the entry
    [(j, i, value)].  This holds for every file (banner lines, cut triples
    and wrong counts included), for every behaviour of [%d] and [%le] and
    for every contents of the locals: a round stores either a diagonal entry
    or an entry and its mirror image, also when [fscanf] assigned nothing.
    A run that stores outside the arrays is not covered. *)
Theorem fasp_dmtxsym_read_symmetric {V FILE} (v0 : V)
    (scan_d : FILE -> scanned Z FILE) (scan_le : FILE -> scanned V FILE)
    (g : locals V) (file : option FILE) (Atmp : dCOOmat.t V) (i j : Z) (value : V) :
  fasp_dmtxsym_read_coo v0 scan_d scan_le g file = Some (Ok Atmp) ->
  In (i, j, value) (coo_entries v0 Atmp) ->
  In (j, i, value) (coo_entries v0 Atmp).
Proof.
  intros Hread.
  destruct (fasp_dmtxsym_read_coo_expansion v0 scan_d scan_le g file Atmp Hread)
    as (held & ->).
  apply sym_expand_symmetric.
Qed.

Lemma fasp_dmtxsym_read_symmetric_witness :
  In (0, 1, 9%float)
    (coo_entries 0%float
       (dCOOmat.mk 2 2 4 [1; 0; 1; 0] [0; 1; 0; 1] [9; 9; 9; 9]%float)).
Proof.
  apply (fasp_dmtxsym_read_symmetric 0%float token_d token_le
           (Build_locals 2 2 3 2 1 9%float) (Some dmtxsym_banner_file)
           (dCOOmat.mk 2 2 4 [1; 0; 1; 0] [0; 1; 0; 1] [9; 9; 9; 9]%float)
           1 0 9%float).
  - vm_compute. reflexivity.
  - vm_compute. left. reflexivity.
Defined.

(** X20: let the file hold no banner or comment line and be made of the
    three sizes and complete triples up to its end.  In every run of
    [fasp_dmtxsym_read] on it that reaches the conversion and has stored
    inside the arrays of [Atmp] only, the entries of the matrix are those of
    an initial part of the triples of the file, in the order of the file:
    each diagonal triple once and each other triple followed by its mirror
    image.  The rest of the file is not read. *)
Theorem fasp_dmtxsym_read_initial_part {V FILE} (v0 : V)
    (scan_d : FILE -> scanned Z FILE) (scan_le : FILE -> scanned V FILE)
    (g : locals V) (fp fp1 fp2 : FILE) (m n nnz : Z) (body : list (Z * Z * V))
    (Atmp : dCOOmat.t V) :
  scan_sizes scan_d fp = Some (m, n, nnz, fp1) ->
  scan_triples scan_d scan_le (length body) fp1 = Some (body, fp2) ->
  scan_d fp2 = InputEnd ->
  fasp_dmtxsym_read_coo v0 scan_d scan_le g (Some fp) = Some (Ok Atmp) ->
  exists pre suf : list (Z * Z * V),
    body = pre ++ suf /\ coo_entries v0 Atmp = flat_map sym_expand pre.
Proof.
  intros Hsizes Hbody Hend. unfold fasp_dmtxsym_read_coo.
  rewrite (scan_sizes_fscanf _ _ _ _ _ _ _ _ _ Hsizes).
  set (cap := 2 * (nnz - m) + m). intros Hloop.
  destruct (Z.le_gt_cases 0 cap) as [Hcap|Hcap].
  - apply (dmtxsym_read_loop_prefix scan_d scan_le body _ fp1 fp2) in Hloop;
      [|assumption|assumption|exact Hcap].
    destruct Hloop as (pre & suf & -> & Hlen & ->). exists pre, suf.
    split; [reflexivity|].
    cbn [dCOOmat.row dCOOmat.col dCOOmat.nnz dCOOmat.I dCOOmat.J dCOOmat.val
         fasp_dcoo_create].
    apply coo_entries_written. lia.
  - apply dmtxsym_read_loop_negative in Hloop; [|lia]. subst Atmp.
    exists [], body. split; [reflexivity|]. unfold coo_entries.
    cbn [dCOOmat.nnz fasp_dcoo_create]. rewrite range_nil by lia. reflexivity.
Qed.

Lemma fasp_dmtxsym_read_initial_part_witness :
  exists pre suf : list (Z * Z * float),
    [(1, 1, 4%float); (2, 1, (-1)%float); (3, 1, (-1)%float); (3, 2, (-1)%float)]
    = pre ++ suf /\
    coo_entries 0%float
      (dCOOmat.mk 3 3 5 [0; 1; 0; 2; 0] [0; 0; 1; 0; 2] [4; -1; -1; -1; -1]%float)
    = flat_map sym_expand pre.
Proof.
  apply (fasp_dmtxsym_read_initial_part 0%float token_d token_le locals_example
           dmtxsym_example_file
           (map num [1; 1; 4;  2; 1; -1;  3; 1; -1;  3; 2; -1]) [] 3 3 4).
  - reflexivity.
  - reflexivity.
  - reflexivity.
  - vm_compute. reflexivity.
Defined.
(** ** io.c: integer vectors written and read back *)

Lemma ivecind_read_loop_written (xs : list Z) :
  forall (pre : list Z) (index value : Z),
  exists index' value' : Z,
    fold_left ivecind_read_step
      (range (Z.of_nat (length pre)) (Z.of_nat (length pre) + Z.of_nat (length xs)))
      (Ok (flat_map (fun i => [i; rd 0 (pre ++ xs) i])
             (range (Z.of_nat (length pre)) (Z.of_nat (length pre) + Z.of_nat (length xs))),
           index, value, pre ++ replicate (length xs) 0))
    = Ok ([], index', value', pre ++ xs).
Proof.
  induction xs as [|x xs IH]; intros pre index value.
  - rewrite range_nil by (cbn; lia). cbn [fold_left flat_map length replicate].
    now exists index, value.
  - rewrite range_cons by (cbn [length]; lia).
    cbn [flat_map fold_left app ivecind_read_step scan_int].
    rewrite length_app, length_replicate.
    destruct (Z.leb_spec 0 (Z.of_nat (length pre))); [|lia].
    destruct (Z.ltb_spec (Z.of_nat (length pre))
                (Z.of_nat (length pre + length (x :: xs)))); [|cbn [length] in *; lia].
    cbn [andb].
    assert (Hrd : rd 0 (pre ++ x :: xs) (Z.of_nat (length pre)) = x).
    { unfold rd. destruct (Z.ltb_spec (Z.of_nat (length pre)) 0); [lia|].
      rewrite Nat2Z.id, app_nth2 by lia. now rewrite Nat.sub_diag. }
    rewrite Hrd.
    assert (Hwr : wr (pre ++ replicate (length (x :: xs)) 0) (Z.of_nat (length pre)) x
                  = (pre ++ [x]) ++ replicate (length xs) 0).
    { unfold wr. destruct (Z.ltb_spec (Z.of_nat (length pre)) 0); [lia|].
      rewrite Nat2Z.id. cbn [length replicate].
      rewrite insert_app_r_alt by lia. rewrite Nat.sub_diag. cbn.
      now rewrite <- app_assoc. }
    rewrite Hwr.
    specialize (IH (pre ++ [x]) (Z.of_nat (length pre)) x).
    rewrite length_app in IH. cbn [length] in *.
    replace (Z.of_nat (length pre + 1)) with (Z.of_nat (length pre) + 1) in IH by lia.
    replace (Z.of_nat (length pre) + Z.of_nat (S (length xs)))
      with (Z.of_nat (length pre) + 1 + Z.of_nat (length xs)) by lia.
    replace ((pre ++ [x]) ++ xs) with (pre ++ x :: xs) in IH
      by (now rewrite <- app_assoc).
    exact IH.
Qed.

(** X21: an integer vector whose [row] is the length of its array, written
    by [fasp_ivec_write] and read by [fasp_ivecind_read], comes back
    unchanged, whatever the locals of the reader held at the start. *)
Theorem fasp_ivec_write_read_back (n0 index0 value0 : Z) (vec : ivector.t) :
  ivector.row vec = Z.of_nat (length (ivector.val vec)) ->
  exists file : int_file,
    fasp_ivec_write true vec = Ok file /\
    fasp_ivecind_read n0 index0 value0 (Some file) = Ok vec.
Proof.
  destruct vec as [row val]. cbn [ivector.row ivector.val]. intros ->.
  eexists. split; [reflexivity|].
  cbn [fasp_ivecind_read scan_int ivector.row ivector.val fasp_ivec_alloc].
  unfold calloc. rewrite Nat2Z.id.
  destruct (ivecind_read_loop_written val [] index0 value0) as (index' & value' & Hloop).
  cbn [length app] in Hloop. change (Z.of_nat 0) with 0 in Hloop.
  rewrite Z.add_0_l in Hloop.
  match goal with
  | |- match ?t with _ => _ end = _ =>
      replace t with (@Ok (int_file * Z * Z * list Z) ([], index', value', val))
        by (symmetry; exact Hloop)
  end.
  reflexivity.
Qed.

Lemma fasp_ivec_write_read_back_witness :
  exists file : int_file,
    fasp_ivec_write true ivec_example = Ok file /\
    fasp_ivecind_read 11 12 13 (Some file) = Ok ivec_example.
Proof.
  apply (fasp_ivec_write_read_back 11 12 13 ivec_example). reflexivity.
Defined.

(** The array-format reader does not read back what [fasp_ivec_write]
    writes: it takes the indices of the file for values. *)
Example fasp_ivec_read_of_written :
  fasp_ivec_write true ivec_example = Ok [3; 0; 7; 1; -2; 2; 5] /\
  fasp_ivec_read 11 13 (Some [3; 0; 7; 1; -2; 2; 5]) = Ok (ivector.mk 3 [0; 7; 1]).
Proof. split; vm_compute; reflexivity. Qed.

(** A file that ends early leaves [index] and [value] as they were: the
    last pair is stored again. *)
Example fasp_ivecind_read_short_file :
  fasp_ivecind_read 11 12 13 (Some [3; 0; 7; 1; -2]) = Ok (ivector.mk 3 [7; -2; 0]).
Proof. vm_compute. reflexivity. Qed.

(** ** spbcgs.c: BiCGstab with safe net *)

Section SpbcgsProperties.
Context {R : Type} `{KrylovReal R} {M : Type} `{SpMV R M}.
Variable A : M.
Variable b : dvector.t R.
Variable pc : option (list R -> list R -> list R).
Variable tol : R.
Variable MaxIt : Z.
Variable stop : stop_type.

Import bcgs.

Local Abbreviation krylov_step' := (krylov_step A b pc tol stop).
Local Abbreviation check_stagnation' := (check_stagnation A b pc tol stop).
Local Abbreviation check_false_convergence' := (check_false_convergence A b pc tol stop).
Local Abbreviation loop_body' := (loop_body A b pc tol stop).
Local Abbreviation reinit' := (reinit A b pc).
Local Abbreviation m' := (m b).

Ltac break_step :=
  repeat match goal with
         | H : context [if ?c then _ else _] |- _ => destruct c eqn:?
         | H : context [let '(_, _) := ?x in _] |- _ => destruct x as [[? ?] ?] eqn:?
         | H : (_, _) = (_, _) |- _ => inversion H; subst; clear H
         end;
  try discriminate.

(** What a Krylov step that reaches the checks leaves behind: the counter is
    untouched and [tempr] is the inner product [(t,t)] of the step. *)
Lemma krylov_step_continue (st st1 : state R) :
  krylov_step' st = (Continue, st1) ->
  iter st1 = iter st /\
  normr0 st1 = normr0 st /\
  tempr st1 = fasp_blas_array_dotprod m' (t st1) (t st1) /\
  t st1 = blas_mxv A
            (precond b pc
               (fasp_blas_array_axpy m'
                  (- (temp1 st / fasp_blas_array_dotprod m'
                                   (blas_mxv A (precond b pc (p st) (pp st)) (z st)) (rho st)))%r
                  (blas_mxv A (precond b pc (p st) (pp st)) (z st))
                  (fasp_array_cp m' (r st) (s st)))
               (sp st))
            (t st).
Proof.
  unfold krylov_step. intros Hstep. break_step; cbn; repeat split; reflexivity.
Qed.

Lemma reinit_fields (st : state R) :
  iter (reinit' st) = iter st /\ t (reinit' st) = t st /\ tempr (reinit' st) = tempr st /\
  normr0 (reinit' st) = normr0 st /\ normu (reinit' st) = normu st /\
  u (reinit' st) = u st /\ z (reinit' st) = z st /\
  u_best (reinit' st) = u_best st /\ iter_best (reinit' st) = iter_best st /\
  absres_best (reinit' st) = absres_best st /\
  r (reinit' st) = blas_aAxpy (- one)%r A (u st) (fasp_array_cp m' (bval b) (r st)).
Proof. unfold reinit; cbn; repeat split; reflexivity. Qed.

Lemma check_stagnation_continue (st1 st2 : state R) :
  check_stagnation' st1 = (Continue, st2) ->
  iter st2 = iter st1 /\ t st2 = t st1 /\ tempr st2 = tempr st1 /\
  normr0 st2 = normr0 st1 /\ u st2 = u st1.
Proof.
  unfold check_stagnation. intros Hc. break_step; cbn; repeat split; reflexivity.
Qed.

(** C3: in the 'prevent false convergence' branch under [STOP_REL_PRECRES],
    once the fresh residual [r = b - A*u] is computed, [absres] is recomputed
    from it as [sqrt(|(r, B r)|)], but the relative residual that is compared
    with [tol] is [tempr/normr0], where [tempr] still is the inner product
    [(t,t)] of the BiCGstab step that precedes the check and is not
    recomputed from the new residual.  The statement holds for every matrix
    format with its products, hence for each of the four solvers of
    spbcgs.c. *)
Theorem false_convergence_relres_is_stale_tempr (st st1 st2 st' : state R) (e : exit_kind) :
  stop = STOP_REL_PRECRES ->
  krylov_step' st = (Continue, st1) ->
  check_stagnation' st1 = (Continue, st2) ->
  (relres st2 <? tol)%r = true ->
  check_false_convergence' st2 = (e, st') ->
  let r_new := blas_aAxpy (- one)%r A (u st1) (fasp_array_cp m' (bval b) (r st2)) in
  r st' = r_new /\
  absres st' = sqrt (ABS (fasp_blas_array_dotprod m' r_new (precond b pc r_new (z st2)))) /\
  tempr st1 = fasp_blas_array_dotprod m' (t st1) (t st1) /\
  relres st' = (tempr st1 / normr0 st1)%r /\
  (e = Break <-> (tempr st1 / normr0 st1 <? tol)%r = true).
Proof.
  intros Hstop Hk Hs Hrel Hc r_new.
  destruct (krylov_step_continue st st1 Hk) as (_ & _ & Htempr & _).
  destruct (check_stagnation_continue st1 st2 Hs) as (_ & _ & Ht2 & Hn2 & Hu2).
  assert (Hgoal :
    r st' = blas_aAxpy (- one)%r A (u st2) (fasp_array_cp m' (bval b) (r st2)) /\
    absres st' = sqrt (ABS (fasp_blas_array_dotprod m'
                              (blas_aAxpy (- one)%r A (u st2) (fasp_array_cp m' (bval b) (r st2)))
                              (precond b pc
                                 (blas_aAxpy (- one)%r A (u st2)
                                    (fasp_array_cp m' (bval b) (r st2))) (z st2)))) /\
    relres st' = (tempr st2 / normr0 st2)%r /\
    (e = Break <-> (tempr st2 / normr0 st2 <? tol)%r = true)).
  { clear Hk Hs Htempr Ht2 Hn2 Hu2.
    unfold check_false_convergence in Hc. rewrite Hrel in Hc.
    unfold compute_residuals in Hc. rewrite Hstop in Hc.
    destruct (reinit_fields st2) as (_ & _ & Htr & Hnr & _ & _ & Hz & _ & _ & _ & Hr).
    rewrite Htr, Hnr, Hz, Hr in Hc.
    destruct (tempr st2 / normr0 st2 <? tol)%r eqn:Hlt.
    - inversion Hc; subst; clear Hc. cbn. repeat split; try reflexivity.
    - destruct (more_step _ >=? MaxRestartStep); inversion Hc; subst; clear Hc; cbn;
        repeat split; try reflexivity; try discriminate. }
  destruct Hgoal as (Hr & Ha & Hrl & He). subst r_new.
  rewrite <- Hu2, <- Ht2, <- Hn2. repeat split; try assumption.
  - rewrite Ht2. exact Htempr.
  - apply He.
  - apply He.
Qed.

Lemma compute_residuals_absres (stale : bool) (r z : list R) (nu n0 tr a rl : R) :
  snd (fst (compute_residuals b pc stop stale r z nu n0 tr a rl)) =
  residual_measure b pc stop r z a.
Proof. unfold compute_residuals, residual_measure. destruct stop; reflexivity. Qed.

(** A step leaves the counter alone unless it jumps to [FINISHED]. *)
Lemma krylov_step_iter (st st' : state R) (e : exit_kind) :
  krylov_step' st = (e, st') -> e <> Goto_FINISHED -> iter st' = iter st /\ e <> Break.
Proof.
  unfold krylov_step. intros Hstep Hne. break_step; cbn; try (split; [reflexivity|discriminate]);
    contradiction.
Qed.

Lemma check_stagnation_exit (st1 st2 : state R) (e : exit_kind) :
  check_stagnation' st1 = (e, st2) ->
  (e <> Goto_FINISHED -> iter st2 = iter st1) /\
  e <> Goto_RESTORE_BESTSOL /\ e <> Loop_end /\
  (e = Break -> fresh_residual A b pc stop st2).
Proof.
  unfold check_stagnation. intros Hc.
  destruct (_ && _).
  - destruct (compute_residuals _ _ _ _ _ _ _ _ _ _ _) as [[z' a'] rl'] eqn:Hcr.
    pose proof (compute_residuals_absres false (r (reinit' st1)) (z (reinit' st1))
                  (normu (reinit' st1)) (normr0 (reinit' st1)) (tempr (reinit' st1))
                  (absres (reinit' st1)) (relres (reinit' st1))) as Ha.
    rewrite Hcr in Ha. cbn [fst snd] in Ha.
    destruct (reinit_fields st1) as (Hi & _ & _ & _ & _ & Hu & _ & _ & _ & _ & Hr).
    destruct (rl' <? tol)%r; [|destruct (_ >=? _)]; inversion Hc; subst; clear Hc; cbn;
      repeat split; try discriminate; try contradiction; intros; try discriminate.
    exists (r st1), (z (reinit' st1)), (absres (reinit' st1)). cbn. split; reflexivity.
  - inversion Hc; subst. repeat split; try discriminate; intros; discriminate.
Qed.

Lemma check_false_convergence_exit (st1 st2 : state R) (e : exit_kind) :
  check_false_convergence' st1 = (e, st2) ->
  (e <> Goto_FINISHED -> iter st2 = iter st1) /\
  e <> Goto_RESTORE_BESTSOL /\ e <> Loop_end /\
  (e = Break -> fresh_residual A b pc stop st2).
Proof.
  unfold check_false_convergence. intros Hc.
  destruct (relres st1 <? tol)%r.
  - destruct (compute_residuals _ _ _ _ _ _ _ _ _ _ _) as [[z' a'] rl'] eqn:Hcr.
    pose proof (compute_residuals_absres true (r (reinit' st1)) (z (reinit' st1))
                  (normu (reinit' st1)) (normr0 (reinit' st1)) (tempr (reinit' st1))
                  (absres (reinit' st1)) (relres (reinit' st1))) as Ha.
    rewrite Hcr in Ha. cbn [fst snd] in Ha.
    destruct (rl' <? tol)%r; [|destruct (_ >=? _)]; inversion Hc; subst; clear Hc; cbn;
      repeat split; try discriminate; try contradiction; intros; try discriminate.
    exists (r st1), (z (reinit' st1)), (absres (reinit' st1)). cbn. split; reflexivity.
  - inversion Hc; subst. repeat split; try discriminate; intros; discriminate.
Qed.

Lemma loop_body_exit (st st' : state R) (e : exit_kind) :
  loop_body' st = (e, st') ->
  (e <> Goto_FINISHED -> iter st' = iter st) /\
  e <> Loop_end /\
  (e = Break -> fresh_residual A b pc stop st').
Proof.
  unfold loop_body. intros Hb.
  destruct (krylov_step' st) as [e1 st1] eqn:Hk.
  assert (Hk1 : e1 <> Goto_FINISHED -> iter st1 = iter st /\ e1 <> Break)
    by (apply krylov_step_iter; exact Hk).
  assert (Hkl : e1 <> Loop_end).
  { unfold krylov_step in Hk. clear Hk1. break_step. }
  destruct e1; try (inversion Hb; subst; clear Hb;
    repeat split; try discriminate; try (intros; apply Hk1; discriminate);
    try (intros; exfalso; destruct Hk1 as [_ Hk1]; [discriminate|]; now apply Hk1);
    try contradiction; fail).
  destruct (Hk1 ltac:(discriminate)) as [Hi1 _].
  destruct (check_stagnation' st1) as [e2 st2] eqn:Hs.
  destruct (check_stagnation_exit st1 st2 e2 Hs) as (Hi2 & Hnr2 & Hnl2 & Hf2).
  destruct e2; try (inversion Hb; subst; clear Hb;
    repeat split; try discriminate; try contradiction;
    try (intros; rewrite Hi2 by discriminate; exact Hi1);
    try (intros; apply Hf2; reflexivity); fail).
  destruct (check_false_convergence' st2) as [e3 st3] eqn:Hf.
  destruct (check_false_convergence_exit st2 st3 e3 Hf) as (Hi3 & Hnr3 & Hnl3 & Hf3).
  specialize (Hi2 ltac:(discriminate)).
  destruct e3; inversion Hb; subst; clear Hb;
    repeat split; try discriminate; try contradiction;
    try (intros; cbn; rewrite Hi3 by discriminate; rewrite Hi2; exact Hi1);
    try (intros; apply Hf3; reflexivity).
Qed.

Lemma main_loop_break (fuel : nat) : forall st st' : state R,
  main_loop A b pc tol MaxIt stop fuel st = Some (Break, st') ->
  iter st < iter st' <= MaxIt /\ fresh_residual A b pc stop st'.
Proof.
  induction fuel as [|fuel IH]; intros st st' Hl; cbn [main_loop] in Hl.
  - destruct (iter st <? MaxIt); discriminate.
  - destruct (Z.ltb_spec (iter st) MaxIt) as [Hlt|Hge]; [|discriminate].
    destruct (loop_body' (set_iter st (iter st + 1))) as [e st1] eqn:Hb.
    destruct (loop_body_exit _ _ _ Hb) as (Hi & _ & Hf).
    destruct e; try discriminate.
    + specialize (Hi ltac:(discriminate)). cbn in Hi.
      destruct (IH st1 st' Hl) as [Hlt' Hfr]. split; [lia|exact Hfr].
    + injection Hl as <-. specialize (Hi ltac:(discriminate)). cbn in Hi.
      split; [lia|now apply Hf].
Qed.

(** The loop is left within [MaxIt - iter] rounds. *)
Lemma main_loop_total (fuel : nat) : forall st : state R,
  MaxIt - iter st <= Z.of_nat fuel ->
  exists e st', main_loop A b pc tol MaxIt stop fuel st = Some (e, st').
Proof.
  induction fuel as [|fuel IH]; intros st Hfuel; cbn [main_loop].
  - destruct (Z.ltb_spec (iter st) MaxIt); [lia|]. eauto.
  - destruct (Z.ltb_spec (iter st) MaxIt); [|eauto].
    destruct (loop_body' (set_iter st (iter st + 1))) as [e st1] eqn:Hb.
    destruct (loop_body_exit _ _ _ Hb) as (Hi & _ & _).
    destruct e; eauto.
    apply IH. specialize (Hi ltac:(discriminate)). cbn in Hi. lia.
Qed.

Lemma before_loop_continue (uval : list R) (st : state R) :
  before_loop A b tol stop uval = (Continue, st) -> iter st = 0.
Proof.
  unfold before_loop. intros Hb.
  destruct stop; break_step; reflexivity.
Qed.

Lemma before_loop_exit (uval : list R) (st : state R) (e : exit_kind) :
  before_loop A b tol stop uval = (e, st) -> e = Continue \/ e = Goto_FINISHED.
Proof.
  unfold before_loop. intros Hb.
  destruct stop; break_step; auto.
Qed.

(** The solver always returns. *)
Lemma fasp_solver_spbcgs_total (u0 : dvector.t R) :
  exists (ret : Z) (uval : list R),
    fasp_solver_spbcgs A b pc tol MaxIt stop u0 = Some (ret, uval).
Proof.
  unfold fasp_solver_spbcgs, spbcgs_run.
  destruct (before_loop A b tol stop (dvector.val u0)) as [e st] eqn:Hb.
  destruct (before_loop_exit _ _ _ Hb) as [-> | ->].
  - apply before_loop_continue in Hb.
    destruct (main_loop_total (Z.to_nat MaxIt) st ltac:(lia)) as (e & st' & ->).
    unfold FINISHED. destruct e; eauto.
  - unfold FINISHED. eauto.
Qed.

(** C1 (as amended): when the main loop is left by convergence ([break]),
    the residual [r = b - A*u] has just been recomputed from the last
    iterate and [absres] is its measure under the stopping criterion (the
    2-norm, or [sqrt(|(r, B r)|)] under [STOP_REL_PRECRES]); the solver
    returns the iteration count [1 <= iter <= MaxIt]; and the returned [u] is
    the saved best iterate exactly when [iter != iter_best] and
    [absres > absres_best + maxdiff], where [absres_best] is recomputed from
    the saved iterate and [maxdiff = tol*STAG_RATIO]; otherwise it is the
    last iterate.  Hence a returned last iterate with [iter != iter_best]
    satisfies the test [absres > absres_best + maxdiff] negatively, and no
    test is made when [iter = iter_best]. *)
Theorem spbcgs_safe_net (u0 : dvector.t R) (st : state R) :
  spbcgs_run A b pc tol MaxIt stop (dvector.val u0) = Some (Break, st) ->
  1 <= iter st <= MaxIt /\
  fresh_residual A b pc stop st /\
  fasp_solver_spbcgs A b pc tol MaxIt stop u0 =
  Some (iter st,
        if negb (iter st =? iter_best st)
           && (absres st >? snd (best_residual A b pc stop st) + maxdiff tol)%r
        then fasp_array_cp m' (u_best st) (u st)
        else u st).
Proof.
  intros Hrun. unfold fasp_solver_spbcgs. rewrite Hrun.
  unfold spbcgs_run in Hrun.
  destruct (before_loop A b tol stop (dvector.val u0)) as [e st0] eqn:Hb.
  destruct (before_loop_exit _ _ _ Hb) as [-> | ->]; [|discriminate].
  apply before_loop_continue in Hb.
  destruct (main_loop_break _ _ _ Hrun) as [Hiter Hfresh].
  split; [lia|]. split; [exact Hfresh|].
  unfold FINISHED, RESTORE_BESTSOL.
  destruct (iter st =? iter_best st) eqn:Hbest; cbn [negb andb].
  - destruct (Z.gtb_spec (iter st) MaxIt); [lia|]. reflexivity.
  - destruct (best_residual A b pc stop st) as [[r' z'] best']. cbn [snd iter u].
    destruct (Z.gtb_spec (iter st) MaxIt); [lia|]. reflexivity.
Qed.

(** The two division guards of the BiCGstab step.  When the denominator of
    [alpha] is not above [SMALLREAL] the step jumps to [FINISHED], with the
    counter and the iterate as they are. *)
Lemma krylov_step_alpha_denominator (st : state R) :
  (ABS (fasp_blas_array_dotprod m'
          (blas_mxv A (precond b pc (p st) (pp st)) (z st)) (rho st)) >? SMALLREAL)%r = false ->
  exists st', krylov_step' st = (Goto_FINISHED, st') /\ iter st' = iter st /\ u st' = u st.
Proof.
  intros Hsmall. unfold krylov_step. rewrite Hsmall. cbn [negb].
  eexists. split; [reflexivity|]. split; reflexivity.
Qed.

(** When the denominator [(t,t)] of [omega] is not above [SMALLREAL], [omega]
    is zero and the step goes on. *)
Lemma krylov_step_omega_denominator (st st1 : state R) :
  krylov_step' st = (Continue, st1) ->
  (ABS (tempr st1) >? SMALLREAL)%r = false ->
  omega st1 = zero.
Proof.
  unfold krylov_step. intros Hstep Hsmall. break_step; cbn in *; try reflexivity; congruence.
Qed.

End SpbcgsProperties.

(** *** Example runs *)

Example spbcgs_example_run :
  spbcgs_run spbcgs_example_A spbcgs_example_b (Some spbcgs_example_pc) 0.5%float 20
    STOP_REL_PRECRES (dvector.val spbcgs_example_u0) = Some (Break, spbcgs_example_final).
Proof. vm_compute. reflexivity. Qed.

(** C1, as stated, fails.  The run converges in one round and returns the
    last iterate [u = (0.1, 0.575)], which is also the saved best iterate
    ([iter = iter_best = 1], so the safe net makes no test).  The saved
    [absres_best = 0.0884] is the preconditioned measure [sqrt(|(r, B r)|)],
    half of the residual norm; the residual norm of the returned solution is
    [0.1768], above [absres_best + maxdiff = 0.0884 + 0.005]. *)
Lemma spbcgs_residual_exceeds_best_plus_maxdiff :
  let A := spbcgs_example_A in
  let b := spbcgs_example_b in
  let pc := Some spbcgs_example_pc in
  let tol := 0.5%float in
  let st := spbcgs_example_final in
  spbcgs_run A b pc tol 20 STOP_REL_PRECRES (dvector.val spbcgs_example_u0) = Some (Break, st) /\
  fasp_solver_dcsr_spbcgs A b pc tol 20 STOP_REL_PRECRES spbcgs_example_u0
  = Some (1, bcgs.u st) /\
  bcgs.iter_best st = 1 /\
  (fasp_blas_array_norm2 2 (blas_aAxpy (-1)%float A (bcgs.u st) (dvector.val b))
   <=? bcgs.absres_best st + maxdiff tol)%r = false.
Proof. vm_compute. repeat split; reflexivity. Qed.

Lemma spbcgs_safe_net_witness :
  1 <= bcgs.iter spbcgs_example_final <= 20 /\
  fresh_residual spbcgs_example_A spbcgs_example_b (Some spbcgs_example_pc) STOP_REL_PRECRES
    spbcgs_example_final /\
  fasp_solver_spbcgs spbcgs_example_A spbcgs_example_b (Some spbcgs_example_pc) 0.5%float 20
    STOP_REL_PRECRES spbcgs_example_u0 =
  Some (bcgs.iter spbcgs_example_final,
        if negb (bcgs.iter spbcgs_example_final =? bcgs.iter_best spbcgs_example_final)
           && (bcgs.absres spbcgs_example_final >?
               snd (best_residual spbcgs_example_A spbcgs_example_b (Some spbcgs_example_pc)
                      STOP_REL_PRECRES spbcgs_example_final) + maxdiff 0.5%float)%r
        then fasp_array_cp (m spbcgs_example_b) (bcgs.u_best spbcgs_example_final)
               (bcgs.u spbcgs_example_final)
        else bcgs.u spbcgs_example_final).
Proof.
  apply (spbcgs_safe_net spbcgs_example_A spbcgs_example_b (Some spbcgs_example_pc)
           0.5%float 20 STOP_REL_PRECRES spbcgs_example_u0 spbcgs_example_final).
  vm_compute. reflexivity.
Defined.

Lemma false_convergence_relres_is_stale_tempr_witness :
  let A := spbcgs_example_A in
  let b := spbcgs_example_b in
  let pc := Some spbcgs_example_pc in
  let st1 := spbcgs_example_st1 in
  let st2 := spbcgs_example_st2 in
  let st' := spbcgs_example_final in
  let r_new := blas_aAxpy (- one)%r A (bcgs.u st1) (fasp_array_cp (m b) (bval b) (bcgs.r st2)) in
  bcgs.r st' = r_new /\
  bcgs.absres st' =
    sqrt (ABS (fasp_blas_array_dotprod (m b) r_new (precond b pc r_new (bcgs.z st2)))) /\
  bcgs.tempr st1 = fasp_blas_array_dotprod (m b) (bcgs.t st1) (bcgs.t st1) /\
  bcgs.relres st' = (bcgs.tempr st1 / bcgs.normr0 st1)%r /\
  (Break = Break <-> (bcgs.tempr st1 / bcgs.normr0 st1 <? 0.5%float)%r = true).
Proof.
  apply (false_convergence_relres_is_stale_tempr spbcgs_example_A spbcgs_example_b
           (Some spbcgs_example_pc) 0.5%float STOP_REL_PRECRES
           spbcgs_example_st0 spbcgs_example_st1 spbcgs_example_st2 spbcgs_example_final Break).
  - reflexivity.
  - vm_compute. reflexivity.
  - vm_compute. reflexivity.
  - vm_compute. reflexivity.
  - vm_compute. reflexivity.
Defined.

(** In the example the relative residual compared with [tol] is
    [tempr/normr0 = 0.195/2.236 = 0.087], not [absres/normr0 = 0.0884/2.236 =
    0.040]. *)
Example spbcgs_example_relres :
  let st := spbcgs_example_final in
  bcgs.relres st = (bcgs.tempr st / bcgs.normr0 st)%float /\
  (bcgs.absres st / bcgs.normr0 st <? 0.0625)%float = true /\
  (0.0625 <? bcgs.relres st)%float = true.
Proof. vm_compute. repeat split; reflexivity. Qed.

(** Without preconditioner and with the 2-norm criterion the bound can fail
    by rounding alone: the recurrence residual saved as best is smaller than
    the residual recomputed from the same iterate. *)
Example spbcgs_rounding_run :
  let A := dCSRmat.mk 2 2 4 [0; 2; 4] [0; 1; 0; 1] [3; 4; 2; 4]%float in
  let b := dvector.mk 2 [5000; 3000]%float in
  let tol := 0x1.19799812dea11p-40%float in
  match spbcgs_run A b None tol 50 STOP_REL_RES [0; 0]%float with
  | Some (Break, st) =>
      bcgs.iter st = bcgs.iter_best st /\
      (fasp_blas_array_norm2 2 (blas_aAxpy (-1)%float A (bcgs.u st) (dvector.val b))
       <=? bcgs.absres_best st + maxdiff tol)%r = false
  | _ => False
  end.
Proof. vm_compute. split; reflexivity. Qed.

(** C4: the first round on [[0 1] [1 0]] u = [1 0] finds the denominator
    [(A p, rho) = 0] of [alpha]; the solver gives up and returns [1], the
    number of the round, as if it had converged in one iteration, with [u]
    unchanged; no error code is returned. *)
Theorem spbcgs_alpha_breakdown_returns_iteration_count :
  let st0 := snd (before_loop spbcgs_breakdown_A spbcgs_breakdown_b 0x1p-20%float STOP_REL_RES
                    (dvector.val spbcgs_breakdown_u0)) in
  (ABS (fasp_blas_array_dotprod 2
          (fasp_blas_dcsr_mxv spbcgs_breakdown_A (bcgs.p st0) (bcgs.z st0)) (bcgs.rho st0))
   >? SMALLREAL)%r = false /\
  fasp_solver_dcsr_spbcgs spbcgs_breakdown_A spbcgs_breakdown_b None 0x1p-20%float 10
    STOP_REL_RES spbcgs_breakdown_u0 = Some (1, [0; 0]%float) /\
  1 <> ERROR_SOLVER_MISC /\ 1 <> ERROR_SOLVER_MAXIT /\ 1 <> ERROR_SOLVER_STAG /\
  1 <> ERROR_SOLVER_SOLSTAG /\ 1 <> ERROR_SOLVER_TOLSMALL.
Proof. vm_compute. repeat split; try reflexivity; discriminate. Qed.

(** ** smoother_str.c: the orderings of the Gauss-Seidel sweep *)

Lemma range_shift (lo hi d : Z) : range (lo + d) (hi + d) = map (fun k => k + d) (range lo hi).
Proof.
  unfold range. replace (hi + d - (lo + d)) with (hi - lo) by lia.
  rewrite map_map. apply map_ext. intros k. lia.
Qed.

Lemma rev_range (n : nat) :
  rev (range 0 (Z.of_nat n)) = map (fun k => Z.of_nat n - 1 - k) (range 0 (Z.of_nat n)).
Proof.
  induction n as [|n IH]; [reflexivity|].
  replace (Z.of_nat (Datatypes.S n)) with (Z.of_nat n + 1) by lia.
  rewrite range_snoc at 1 by lia. rewrite rev_app_distr. cbn [rev app]. rewrite IH.
  rewrite (range_cons 0 (Z.of_nat n + 1)) by lia. cbn [map]. f_equal; [lia|].
  rewrite (range_shift 0 (Z.of_nat n) 1). rewrite map_map.
  apply map_ext. intros k. lia.
Qed.

Lemma fold_left_map {X Y Z0} (f : X -> Y -> X) (g : Z0 -> Y) (l : list Z0) : forall a,
  fold_left f (map g l) a = fold_left (fun a x => f a (g x)) l a.
Proof. induction l as [|x l IH]; intros a; cbn; [reflexivity|apply IH]. Qed.

Lemma fold_left_id {X Y} (f : X -> Y -> X) (l : list Y) (a : X) :
  (forall a x, In x l -> f a x = a) -> fold_left f l a = a.
Proof.
  induction l as [|x l IH]; intros Hid; cbn [fold_left]; [reflexivity|].
  rewrite Hid by now left. apply IH. intros a' y Hy. apply Hid. now right.
Qed.

Section GsOrderings.
Context {R : Type} `{Real R}.
Variables (A : dSTRmat.t R) (b u : dvector.t R) (diaginv : list R).

Lemma gs_ascend_as_sweep :
  fasp_smoother_dstr_gs_ascend A b u diaginv =
  if dSTRmat.nc A =? 1 then
    dvector.mk (dvector.row u)
      (fold_left (gs_point A b) (range 0 (dSTRmat.ngrid A)) (dvector.val u))
  else if dSTRmat.nc A >? 1 then
    dvector.mk (dvector.row u)
      (snd (fold_left (gs_block A b diaginv) (range 0 (dSTRmat.ngrid A))
              (calloc zero (dSTRmat.nc A), dvector.val u)))
  else u.
Proof.
  unfold fasp_smoother_dstr_gs_ascend.
  destruct (dSTRmat.nc A =? 1); [reflexivity|].
  destruct (dSTRmat.nc A >? 1); [|reflexivity].
  do 2 f_equal. apply fold_left_ext_in. intros [vec_tmp u_val] block _. reflexivity.
Qed.

End GsOrderings.

(** X11: a Gauss-Seidel sweep in the user-defined order [0, 1, ...,
    ngrid-1] is the ascending sweep. *)
Theorem fasp_smoother_dstr_gs_order_ascending {R} `{Real R} (A : dSTRmat.t R)
    (b u : dvector.t R) (diaginv : list R) (mark : list Z) :
  (forall k, 0 <= k < dSTRmat.ngrid A -> rd 0 mark k = k) ->
  fasp_smoother_dstr_gs_order A b u diaginv mark =
  fasp_smoother_dstr_gs_ascend A b u diaginv.
Proof.
  intros Hmark. rewrite gs_ascend_as_sweep. unfold fasp_smoother_dstr_gs_order.
  destruct (dSTRmat.nc A =? 1).
  - f_equal. apply fold_left_ext_in. intros u_val index Hi. apply in_range in Hi.
    now rewrite Hmark.
  - destruct (dSTRmat.nc A >? 1); [|reflexivity].
    do 2 f_equal. apply fold_left_ext_in. intros st index Hi. apply in_range in Hi.
    now rewrite Hmark.
Qed.

Lemma fasp_smoother_dstr_gs_order_ascending_witness :
  fasp_smoother_dstr_gs_order stencil_example_A stencil_example_b stencil_example_u []
    [0; 1; 2; 3] =
  fasp_smoother_dstr_gs_ascend stencil_example_A stencil_example_b stencil_example_u [].
Proof.
  apply (fasp_smoother_dstr_gs_order_ascending stencil_example_A stencil_example_b
           stencil_example_u [] [0; 1; 2; 3]).
  intros k Hk. assert (Hk' : 0 <= k < 4) by exact Hk.
  assert (Hc : k = 0 \/ k = 1 \/ k = 2 \/ k = 3) by lia.
  destruct Hc as [-> | [-> | [-> | ->]]]; reflexivity.
Defined.

(** X12: a Gauss-Seidel sweep in the user-defined order [ngrid-1, ..., 1,
    0] is the descending sweep. *)
Theorem fasp_smoother_dstr_gs_order_descending {R} `{Real R} (A : dSTRmat.t R)
    (b u : dvector.t R) (diaginv : list R) (mark : list Z) :
  (forall k, 0 <= k < dSTRmat.ngrid A -> rd 0 mark k = dSTRmat.ngrid A - 1 - k) ->
  fasp_smoother_dstr_gs_order A b u diaginv mark =
  fasp_smoother_dstr_gs_descend A b u diaginv.
Proof.
  intros Hmark.
  unfold fasp_smoother_dstr_gs_order, fasp_smoother_dstr_gs_descend.
  assert (Hrev : rev (range 0 (dSTRmat.ngrid A)) =
                 map (fun k => dSTRmat.ngrid A - 1 - k) (range 0 (dSTRmat.ngrid A))).
  { destruct (Z.le_gt_cases 0 (dSTRmat.ngrid A)) as [Hn|Hn].
    - pose proof (rev_range (Z.to_nat (dSTRmat.ngrid A))) as Hr.
      rewrite Z2Nat.id in Hr by lia. exact Hr.
    - rewrite range_nil by lia. reflexivity. }
  rewrite Hrev, !fold_left_map.
  destruct (dSTRmat.nc A =? 1).
  - f_equal. apply fold_left_ext_in. intros u_val index Hi. apply in_range in Hi.
    now rewrite Hmark.
  - destruct (dSTRmat.nc A >? 1); [|reflexivity].
    do 2 f_equal. apply fold_left_ext_in. intros st index Hi. apply in_range in Hi.
    now rewrite Hmark.
Qed.

Lemma fasp_smoother_dstr_gs_order_descending_witness :
  fasp_smoother_dstr_gs_order stencil_example_A stencil_example_b stencil_example_u []
    [3; 2; 1; 0] =
  fasp_smoother_dstr_gs_descend stencil_example_A stencil_example_b stencil_example_u [].
Proof.
  apply (fasp_smoother_dstr_gs_order_descending stencil_example_A stencil_example_b
           stencil_example_u [] [3; 2; 1; 0]).
  intros k Hk. assert (Hk' : 0 <= k < 4) by exact Hk.
  assert (Hc : k = 0 \/ k = 1 \/ k = 2 \/ k = 3) by lia.
  destruct Hc as [-> | [-> | [-> | ->]]]; reflexivity.
Defined.

Example gs_descend_example :
  dvector.val (fasp_smoother_dstr_gs_descend stencil_example_A stencil_example_b
                 stencil_example_u []) = [1.625; 2.25; 2.5; 2]%float.
Proof. vm_compute. reflexivity. Qed.

(** X13: when every point carries the marker [order] and [order] is not
    zero, the C/F sweep is the ascending sweep: the second pass finds nothing
    to smooth. *)
Theorem fasp_smoother_dstr_gs_cf_one_colour {R} `{Real R} (A : dSTRmat.t R)
    (b u : dvector.t R) (diaginv : list R) (mark : list Z) (order : Z) :
  order <> 0 ->
  (forall k, 0 <= k < dSTRmat.ngrid A -> rd 0 mark k = order) ->
  fasp_smoother_dstr_gs_cf A b u diaginv mark order =
  fasp_smoother_dstr_gs_ascend A b u diaginv.
Proof.
  intros Horder Hmark. rewrite gs_ascend_as_sweep. unfold fasp_smoother_dstr_gs_cf.
  destruct (dSTRmat.nc A =? 1).
  - f_equal. rewrite fold_left_id.
    + apply fold_left_ext_in. intros u_val point Hp. apply in_range in Hp.
      now rewrite Hmark, Z.eqb_refl.
    + intros u_val point Hp. apply in_range in Hp. rewrite Hmark by exact Hp.
      destruct (Z.eqb_spec order (- order)); [lia|reflexivity].
  - destruct (dSTRmat.nc A >? 1); [|reflexivity].
    do 2 f_equal. rewrite fold_left_id.
    + apply fold_left_ext_in. intros st block Hp. apply in_range in Hp.
      now rewrite Hmark, Z.eqb_refl.
    + intros st block Hp. apply in_range in Hp. rewrite Hmark by exact Hp.
      destruct (Z.eqb_spec order (- order)); [lia|reflexivity].
Qed.

Lemma fasp_smoother_dstr_gs_cf_one_colour_witness :
  fasp_smoother_dstr_gs_cf stencil_example_A stencil_example_b stencil_example_u []
    [1; 1; 1; 1] CPFIRST =
  fasp_smoother_dstr_gs_ascend stencil_example_A stencil_example_b stencil_example_u [].
Proof.
  apply (fasp_smoother_dstr_gs_cf_one_colour stencil_example_A stencil_example_b
           stencil_example_u [] [1; 1; 1; 1] CPFIRST).
  - discriminate.
  - intros k Hk. assert (Hk' : 0 <= k < 4) by exact Hk.
    assert (Hc : k = 0 \/ k = 1 \/ k = 2 \/ k = 3) by lia.
    destruct Hc as [-> | [-> | [-> | ->]]]; reflexivity.
Defined.

(** ** smoother_str.c: what a sweep leaves alone *)

Lemma rd_fold_frame {X Y} (d : X) (f : list X -> Y -> list X) (k : Z) (l : list Y) :
  forall c, (forall c i, In i l -> rd d (f c i) k = rd d c k) ->
  rd d (fold_left f l c) k = rd d c k.
Proof.
  induction l as [|i l IH]; intros c Hf; cbn [fold_left]; [reflexivity|].
  rewrite IH by (intros c' i' Hi'; apply Hf; now right). apply Hf. now left.
Qed.

Section SweepFrame.
Context {R : Type} `{Real R}.

(** [fasp_blas_smat_mxv] writes the [n] cells of [c] from [oc] on and no
    other. *)
Lemma fasp_blas_smat_mxv_frame (n : Z) (a : list R) (oa : Z) (b c : list R) (oc k : Z) :
  k < oc \/ oc + n <= k ->
  rd zero (fasp_blas_smat_mxv a oa b c oc n) k = rd zero c k.
Proof.
  intros Hk. unfold fasp_blas_smat_mxv.
  destruct (Z.eqb_spec n 2) as [->|_].
  { unfold fasp_blas_smat_mxv_nc2. cbv zeta. now rewrite !rd_wr_ne by lia. }
  destruct (Z.eqb_spec n 3) as [->|_].
  { unfold fasp_blas_smat_mxv_nc3. cbv zeta. now rewrite !rd_wr_ne by lia. }
  destruct (Z.eqb_spec n 5) as [->|_].
  { unfold fasp_blas_smat_mxv_nc5. cbv zeta. now rewrite !rd_wr_ne by lia. }
  destruct (Z.eqb_spec n 7) as [->|_].
  { unfold fasp_blas_smat_mxv_nc7. cbv zeta. now rewrite !rd_wr_ne by lia. }
  apply rd_fold_frame. intros c' i Hi. apply in_range in Hi. cbv zeta.
  apply rd_wr_ne. lia.
Qed.

Variables (A : dSTRmat.t R) (b : dvector.t R) (diaginv : list R).

Lemma gs_point_frame (u_val : list R) (point k : Z) :
  point <> k -> rd zero (gs_point A b u_val point) k = rd zero u_val k.
Proof. intros Hne. unfold gs_point. cbv zeta. now apply rd_wr_ne. Qed.

Lemma gs_block_frame (st : list R * list R) (block k : Z) :
  k < dSTRmat.nc A * block \/ dSTRmat.nc A * block + dSTRmat.nc A <= k ->
  rd zero (snd (gs_block A b diaginv st block)) k = rd zero (snd st) k.
Proof.
  intros Hk. destruct st as [vec_tmp u_val]. unfold gs_block. cbv zeta. cbn [snd].
  now apply fasp_blas_smat_mxv_frame.
Qed.

Lemma gs_cf_pass_point (mark : list Z) (colour p : Z) (l : list Z) (u_val : list R) :
  rd 0 mark p <> colour ->
  rd zero (fold_left (fun u_val point =>
                        if rd 0 mark point =? colour then gs_point A b u_val point else u_val)
             l u_val) p = rd zero u_val p.
Proof.
  intros Hp. apply rd_fold_frame. intros c i _.
  destruct (Z.eqb_spec (rd 0 mark i) colour) as [Hi|]; [|reflexivity].
  apply gs_point_frame. congruence.
Qed.

Lemma gs_cf_pass_block (mark : list Z) (colour p q : Z) (l : list Z) :
  forall st : list R * list R,
  1 < dSTRmat.nc A -> 0 <= q < dSTRmat.nc A ->
  rd 0 mark p <> colour ->
  rd zero (snd (fold_left (fun st block =>
                             if rd 0 mark block =? colour then gs_block A b diaginv st block
                             else st) l st)) (dSTRmat.nc A * p + q) =
  rd zero (snd st) (dSTRmat.nc A * p + q).
Proof.
  induction l as [|block l IH]; intros st Hnc Hq Hp; cbn [fold_left]; [reflexivity|].
  rewrite IH by assumption.
  destruct (Z.eqb_spec (rd 0 mark block) colour) as [Hb|]; [|reflexivity].
  apply gs_block_frame. assert (block <> p) by congruence. nia.
Qed.

End SweepFrame.

(** X14: the C/F sweep smooths the points marked [order] and [-order] only:
    a point (for [nc > 1], the [nc] unknowns of a block) with any other
    marker keeps its value.  With [order = CPFIRST = 1] these are the points
    marked 0 or 2. *)
Theorem fasp_smoother_dstr_gs_cf_other_markers {R} `{Real R} (A : dSTRmat.t R)
    (b u : dvector.t R) (diaginv : list R) (mark : list Z) (order p q : Z) :
  rd 0 mark p <> order -> rd 0 mark p <> - order ->
  0 <= q < dSTRmat.nc A ->
  rd zero (dvector.val (fasp_smoother_dstr_gs_cf A b u diaginv mark order))
     (dSTRmat.nc A * p + q) =
  rd zero (dvector.val u) (dSTRmat.nc A * p + q).
Proof.
  intros H1 H2 Hq. unfold fasp_smoother_dstr_gs_cf.
  destruct (Z.eqb_spec (dSTRmat.nc A) 1) as [Hnc|Hnc].
  - cbn [dvector.val]. replace (dSTRmat.nc A * p + q) with p by lia.
    now rewrite !gs_cf_pass_point.
  - destruct (Z.gtb_spec (dSTRmat.nc A) 1) as [Hgt|Hle]; [|reflexivity].
    cbn [dvector.val]. rewrite !gs_cf_pass_block by (assumption || lia). reflexivity.
Qed.

Lemma fasp_smoother_dstr_gs_cf_other_markers_witness :
  rd zero (dvector.val (fasp_smoother_dstr_gs_cf stencil_example_A stencil_example_b
                          stencil_example_u [] [1; 0; 1; 0] CPFIRST))
     (dSTRmat.nc stencil_example_A * 1 + 0) =
  rd zero (dvector.val stencil_example_u) (dSTRmat.nc stencil_example_A * 1 + 0).
Proof.
  apply (fasp_smoother_dstr_gs_cf_other_markers stencil_example_A stencil_example_b
           stencil_example_u [] [1; 0; 1; 0] CPFIRST 1 0).
  - discriminate.
  - discriminate.
  - cbn. lia.
Defined.

Example gs_cf_skips_points_marked_zero :
  dvector.val (fasp_smoother_dstr_gs_cf stencil_example_A stencil_example_b
                 stencil_example_u [] [1; 0; 1; 0] CPFIRST) = [0.5; 0; 1.5; 0]%float.
Proof. vm_compute. reflexivity. Qed.

(** ** smoother_str.c: Jacobi *)

Section Jacobi.
Context {R : Type} `{Real R}.
Variables (A : dSTRmat.t R) (u_val : list R).

(** The band loop changes the cell [point] of [b_tmp] as the band loop of
    Gauss-Seidel changes [rhs]. *)
Lemma jacobi_bands_cell (b_tmp : list R) (point : Z) :
  jacobi_bands A u_val b_tmp point =
  wr b_tmp point (band_rhs A (rd zero b_tmp point) u_val point).
Proof.
  unfold jacobi_bands, band_rhs. cbv zeta.
  rewrite <- (fold_cell zero
    (fun band a =>
       if rd 0 (dSTRmat.offsets A) band <? 0
       then if point + rd 0 (dSTRmat.offsets A) band >=? 0
            then (a - rd zero (rd [] (dSTRmat.offdiag A) band)
                        (point + rd 0 (dSTRmat.offsets A) band)
                      * rd zero u_val (point + rd 0 (dSTRmat.offsets A) band))%r
            else a
       else if point + rd 0 (dSTRmat.offsets A) band <? dSTRmat.ngrid A
            then (a - rd zero (rd [] (dSTRmat.offdiag A) band) point
                      * rd zero u_val (point + rd 0 (dSTRmat.offsets A) band))%r
            else a)
    point (range 0 (dSTRmat.nband A)) b_tmp).
  apply fold_left_ext_in. intros bt band _. cbv beta.
  destruct (_ <? 0); [destruct (_ >=? 0)|destruct (_ <? dSTRmat.ngrid A)];
    try reflexivity; symmetry; apply wr_rd_id.
Qed.

Lemma rd_jacobi_bands (n : nat) (b_tmp : list R) (k : Z) :
  0 <= k < Z.of_nat (length b_tmp) ->
  rd zero (fold_left (jacobi_bands A u_val) (range 0 (Z.of_nat n)) b_tmp) k =
  if k <? Z.of_nat n then band_rhs A (rd zero b_tmp k) u_val k else rd zero b_tmp k.
Proof.
  intros Hk.
  rewrite (fold_left_ext_in _
             (fun y i => wr y (0 + i) ((fun i a => band_rhs A a u_val i) i (rd zero y (0 + i)))))
    by (intros a i _; apply jacobi_bands_cell).
  rewrite (rd_fold_upd zero (fun i a => band_rhs A a u_val i) 0 n b_tmp k) by lia.
  rewrite Z.sub_0_r. destruct (Z.leb_spec 0 k), (Z.ltb_spec k (0 + Z.of_nat n)),
    (Z.ltb_spec k (Z.of_nat n)); cbn; try reflexivity; lia.
Qed.

End Jacobi.

(** X15: for [nc = 1] the Jacobi sweep computes every new entry from the
    old iterate alone, by the band formula of Gauss-Seidel:
    [u[point] = (b[point] - sum over the bands of offdiag * u_old) /
    diag[point]]. *)
Theorem fasp_smoother_dstr_jacobi1_point {R} `{Real R} (A : dSTRmat.t R)
    (b u : dvector.t R) (diaginv : list R) (point : Z) :
  dSTRmat.nc A = 1 ->
  0 <= point < dSTRmat.ngrid A ->
  dSTRmat.ngrid A <= Z.of_nat (length (dvector.val u)) ->
  rd zero (dvector.val (fasp_smoother_dstr_jacobi1 A b u diaginv)) point =
  (band_rhs A (rd zero (dvector.val b) point) (dvector.val u) point
   / rd zero (dSTRmat.diag A) point)%r.
Proof.
  intros Hnc Hpoint Hlen. unfold fasp_smoother_dstr_jacobi1. rewrite Hnc.
  change (1 =? 1) with true. cbv iota zeta. cbn [dvector.val].
  rewrite Z.mul_1_l.
  set (ngrid := dSTRmat.ngrid A) in *.
  set (b_tmp0 := fold_left _ (range 0 ngrid) (calloc zero ngrid)).
  assert (Hlen0 : Z.of_nat (length b_tmp0) = ngrid).
  { unfold b_tmp0. rewrite length_fold_left by (intros; apply length_wr).
    unfold calloc. rewrite length_replicate. lia. }
  pose proof (rd_fold_wr zero
    (fun p => (rd zero (fold_left (jacobi_bands A (dvector.val u)) (range 0 ngrid) b_tmp0) p
               / rd zero (dSTRmat.diag A) p)%r)
    0 (Z.to_nat ngrid) (dvector.val u) point ltac:(lia) ltac:(lia)) as Hr.
  rewrite Z.add_0_l, Z2Nat.id in Hr by lia. rewrite Hr. clear Hr.
  destruct (Z.leb_spec 0 point), (Z.ltb_spec point ngrid); try lia. cbn [andb].
  f_equal.
  pose proof (rd_jacobi_bands A (dvector.val u) (Z.to_nat ngrid) b_tmp0 point ltac:(lia)) as Hb.
  rewrite Z2Nat.id in Hb by lia. rewrite Hb. clear Hb.
  destruct (Z.ltb_spec point ngrid); [|lia]. f_equal.
  unfold b_tmp0.
  pose proof (rd_fold_wr zero (fun i => rd zero (dvector.val b) i) 0 (Z.to_nat ngrid)
                (calloc zero ngrid) point ltac:(lia)) as Hr.
  rewrite Z.add_0_l, Z2Nat.id in Hr by lia. rewrite Hr.
  - destruct (Z.leb_spec 0 point), (Z.ltb_spec point ngrid); try lia. reflexivity.
  - unfold calloc. rewrite length_replicate. lia.
Qed.

Lemma fasp_smoother_dstr_jacobi1_point_witness :
  rd zero (dvector.val (fasp_smoother_dstr_jacobi1 stencil_example_A stencil_example_b
                          stencil_example_u [])) 1 =
  (band_rhs stencil_example_A (rd zero (dvector.val stencil_example_b) 1)
     (dvector.val stencil_example_u) 1
   / rd zero (dSTRmat.diag stencil_example_A) 1)%r.
Proof.
  apply (fasp_smoother_dstr_jacobi1_point stencil_example_A stencil_example_b
           stencil_example_u [] 1).
  - reflexivity.
  - cbn. lia.
  - cbn. lia.
Defined.

Example jacobi1_example :
  dvector.val (fasp_smoother_dstr_jacobi1 stencil_example_A stencil_example_b
                 stencil_example_u []) = [0.5; 1; 1.5; 2]%float.
Proof. vm_compute. reflexivity. Qed.

(** ** smoother_str.c: SOR with weight one and Gauss-Seidel in IEEE double
    arithmetic *)

(** *** The arithmetic of doubles around zero and one *)

Lemma valid_finite (s : bool) (m : positive) (e : Z) :
  valid_binary (S754_finite s m e) = true ->
  fexp prec emax (Z.pos (digits2_pos m) + e) = e /\ e <= emax - prec.
Proof.
  cbn [valid_binary]. unfold bounded, canonical_mantissa. intros Hv.
  apply andb_prop in Hv. destruct Hv as [Hc He].
  apply Z.eqb_eq in Hc. apply Z.leb_le in He. now split.
Qed.

(** The product of a mantissa with [2^52], the mantissa of [1.0], is
    rounded back to the mantissa itself. *)
Lemma binary_round_aux_shift (s : bool) (m : positive) (e e1 : Z) :
  fexp prec emax (Z.pos (digits2_pos m) + e) = e ->
  e <= emax - prec ->
  e1 = e - 52 ->
  binary_round_aux prec emax s (Z.pos (4503599627370496 * m)) e1 loc_Exact
  = S754_finite s m e.
Proof.
  intros Hc He ->. unfold binary_round_aux.
  rewrite (Pos.mul_comm 4503599627370496 m), !Pos.mul_xO_r, Pos.mul_1_r.
  match goal with
  | |- context [shr_fexp prec emax (Z.pos ?p) (e - 52) loc_Exact] => set (product := p)
  end.
  assert (Hshift : shr_fexp prec emax (Z.pos product) (e - 52) loc_Exact
                   = ({| shr_m := Z.pos m; shr_r := false; shr_s := false |}, e)).
  { unfold shr_fexp, product. cbn [Zdigits2 digits2_pos shr_record_of_loc].
    match goal with
    | |- context [fexp prec emax (?a + (e - 52))] =>
        replace (a + (e - 52)) with (Z.pos (digits2_pos m) + e) by lia
    end.
    rewrite Hc. replace (e - (e - 52)) with 52 by lia.
    unfold shr. cbn [iter_pos shr_1 orb]. f_equal. lia. }
  rewrite Hshift. cbn [shr_m loc_of_shr_record round_nearest_even].
  unfold shr_fexp. cbn [Zdigits2 shr_record_of_loc]. rewrite Hc, Z.sub_diag.
  cbn [shr shr_m]. apply Z.leb_le in He. now rewrite He.
Qed.

Lemma SFmul_one_r (x : spec_float) :
  valid_binary x = true ->
  SF64mul x (S754_finite false 4503599627370496 (-52)) = x.
Proof.
  intros Hv. destruct x as [s|s| |s m e]; unfold SF64mul, SFmul;
    rewrite ?xorb_false_r; try reflexivity.
  destruct (valid_finite s m e Hv) as [Hc He].
  rewrite Pos.mul_comm. apply binary_round_aux_shift; (assumption || lia).
Qed.

Lemma SFmul_one_l (x : spec_float) :
  valid_binary x = true ->
  SF64mul (S754_finite false 4503599627370496 (-52)) x = x.
Proof.
  intros Hv. destruct x as [s|s| |s m e]; unfold SF64mul, SFmul;
    rewrite ?xorb_false_l; try reflexivity.
  destruct (valid_finite s m e Hv) as [Hc He].
  apply binary_round_aux_shift; (assumption || lia).
Qed.

(** [x * 1.0] and [1.0 * x] are [x], for every double. *)
Lemma float_mul_one_r (x : float) : (x * 1)%float = x.
Proof.
  apply Prim2SF_inj. rewrite mul_spec. apply SFmul_one_r. apply Prim2SF_valid.
Qed.

Lemma float_mul_one_l (x : float) : (1 * x)%float = x.
Proof.
  apply Prim2SF_inj. rewrite mul_spec. apply SFmul_one_l. apply Prim2SF_valid.
Qed.

(** Agreement of doubles, read off their values. *)
Lemma agree_float_spec (x y : float) :
  agree zero_float x y <->
  Prim2SF x = Prim2SF y \/ (SF_zero (Prim2SF x) = true /\ SF_zero (Prim2SF y) = true).
Proof.
  unfold agree, zero_float. split; intros [Heq|Hz]; auto.
  - left. now rewrite Heq.
  - left. now apply Prim2SF_inj.
Qed.

Ltac close_SF := first [left; reflexivity | right; split; reflexivity].

Ltac case_SF x := destruct x as [[]|[]| |[] ? ?]; try discriminate.

Lemma SF_add_agree (a a' b b' : spec_float) :
  a = a' \/ (SF_zero a = true /\ SF_zero a' = true) ->
  b = b' \/ (SF_zero b = true /\ SF_zero b' = true) ->
  SF64add a b = SF64add a' b' \/
  (SF_zero (SF64add a b) = true /\ SF_zero (SF64add a' b') = true).
Proof.
  intros [->|[Ha Ha']] [->|[Hb Hb']]; [now left|..].
  - case_SF b; case_SF b'; case_SF a'; cbn; close_SF.
  - case_SF a; case_SF a'; case_SF b'; cbn; close_SF.
  - case_SF a; case_SF a'; case_SF b; case_SF b'; cbn; close_SF.
Qed.

Lemma SF_sub_agree (a a' b b' : spec_float) :
  a = a' \/ (SF_zero a = true /\ SF_zero a' = true) ->
  b = b' \/ (SF_zero b = true /\ SF_zero b' = true) ->
  SF64sub a b = SF64sub a' b' \/
  (SF_zero (SF64sub a b) = true /\ SF_zero (SF64sub a' b') = true).
Proof.
  intros [->|[Ha Ha']] [->|[Hb Hb']]; [now left|..].
  - case_SF b; case_SF b'; case_SF a'; cbn; close_SF.
  - case_SF a; case_SF a'; case_SF b'; cbn; close_SF.
  - case_SF a; case_SF a'; case_SF b; case_SF b'; cbn; close_SF.
Qed.

Lemma SF_mul_agree (a b b' : spec_float) :
  b = b' \/ (SF_zero b = true /\ SF_zero b' = true) ->
  SF64mul a b = SF64mul a b' \/
  (SF_zero (SF64mul a b) = true /\ SF_zero (SF64mul a b') = true).
Proof.
  intros [->|[Hb Hb']]; [now left|].
  case_SF b; case_SF b'; case_SF a; cbn; close_SF.
Qed.

Lemma SF_div_agree (a a' d : spec_float) :
  a = a' \/ (SF_zero a = true /\ SF_zero a' = true) ->
  SF64div a d = SF64div a' d \/
  (SF_zero (SF64div a d) = true /\ SF_zero (SF64div a' d) = true).
Proof.
  intros [->|[Ha Ha']]; [now left|].
  case_SF a; case_SF a'; case_SF d; cbn; close_SF.
Qed.

Lemma float_add_agree (x x' y y' : float) :
  agree zero_float x x' -> agree zero_float y y' ->
  agree zero_float (x + y)%float (x' + y')%float.
Proof.
  rewrite !agree_float_spec, !add_spec. apply SF_add_agree.
Qed.

Lemma float_sub_agree (x x' y y' : float) :
  agree zero_float x x' -> agree zero_float y y' ->
  agree zero_float (x - y)%float (x' - y')%float.
Proof.
  rewrite !agree_float_spec, !sub_spec. apply SF_sub_agree.
Qed.

Lemma float_mul_agree (a x x' : float) :
  agree zero_float x x' -> agree zero_float (a * x)%float (a * x')%float.
Proof.
  rewrite !agree_float_spec, !mul_spec. apply SF_mul_agree.
Qed.

Lemma float_div_agree (x x' d : float) :
  agree zero_float x x' -> agree zero_float (x / d)%float (x' / d)%float.
Proof.
  rewrite !agree_float_spec, !div_spec. apply SF_div_agree.
Qed.

(** A zero plus [x] is [x], up to the sign of a zero. *)
Lemma float_add_zero (z x : float) :
  zero_float z -> agree zero_float (z + x)%float x.
Proof.
  unfold zero_float. rewrite agree_float_spec, add_spec. intros Hz.
  case_SF (Prim2SF z); case_SF (Prim2SF x); cbn; close_SF.
Qed.

(** A zero times a finite double is a zero. *)
Lemma float_zero_mul_l (z x : float) :
  zero_float z -> finite_float x -> zero_float (z * x)%float.
Proof.
  unfold zero_float, finite_float. rewrite mul_spec. intros Hz Hx.
  case_SF (Prim2SF z); case_SF (Prim2SF x); reflexivity.
Qed.

Lemma float_zero_mul_r (z x : float) :
  zero_float z -> finite_float x -> zero_float (x * z)%float.
Proof.
  unfold zero_float, finite_float. rewrite mul_spec. intros Hz Hx.
  case_SF (Prim2SF z); case_SF (Prim2SF x); reflexivity.
Qed.

Lemma is_finite_finite_float (x : float) :
  PrimFloat.is_finite x = true -> finite_float x.
Proof.
  unfold PrimFloat.is_finite, PrimFloat.is_nan, PrimFloat.is_infinity, finite_float.
  rewrite !FloatAxioms.eqb_spec, FloatAxioms.abs_spec.
  change (Prim2SF infinity) with (S754_infinity false).
  case_SF (Prim2SF x); cbn; intros Hx; (reflexivity || discriminate Hx).
Qed.

Lemma agree_same_number (x y : float) :
  agree zero_float x y -> same_number x y = true.
Proof.
  intros [->|[Hx Hy]]; unfold same_number.
  - unfold PrimFloat.is_nan. destruct (PrimFloat.eqb y y); reflexivity.
  - unfold zero_float in Hx, Hy. rewrite FloatAxioms.eqb_spec.
    case_SF (Prim2SF x); case_SF (Prim2SF y); reflexivity.
Qed.

(** *** The two sweeps side by side *)

Lemma rd_outside {A} (d : A) (l : list A) (k : Z) :
  k < 0 \/ Z.of_nat (length l) <= k -> rd d l k = d.
Proof.
  intros Hk. unfold rd. destruct (Z.ltb_spec k 0); [reflexivity|].
  apply nth_overflow. lia.
Qed.

Section SorGsAgree.
Context {R : Type} `{Real R}.
Variables (nul fin : R -> Prop).

Local Notation "x ~ y" := (agree nul x y) (at level 70).
Local Notation "l1 ~~ l2" := (agree_list nul l1 l2) (at level 70).

(** What the proof takes from the arithmetic. *)
Hypothesis one_is_not_zero : (one =? zero)%r = false.
Hypothesis nul_zero : nul zero.
Hypothesis fin_zero : fin zero.
Hypothesis nul_one_minus_one : nul (one - one)%r.
Hypothesis nul_quotient : nul ((one - one) / one)%r.
Hypothesis nul_times_l : forall z x, nul z -> fin x -> nul (z * x)%r.
Hypothesis nul_times_r : forall z x, nul z -> fin x -> nul (x * z)%r.
Hypothesis one_times : forall x, (one * x)%r = x.
Hypothesis times_one : forall x, (x * one)%r = x.
Hypothesis nul_plus : forall z x, nul z -> (z + x)%r ~ x.
Hypothesis plus_agree : forall x x' y y', x ~ x' -> y ~ y' -> (x + y)%r ~ (x' + y')%r.
Hypothesis minus_agree : forall x x' y y', x ~ x' -> y ~ y' -> (x - y)%r ~ (x' - y')%r.
Hypothesis times_agree : forall a x x', x ~ x' -> (a * x)%r ~ (a * x')%r.
Hypothesis over_agree : forall x x' d, x ~ x' -> (x / d)%r ~ (x' / d)%r.

Lemma agree_refl (x : R) : x ~ x.
Proof. now left. Qed.

Lemma agree_trans (x y z : R) : x ~ y -> y ~ z -> x ~ z.
Proof.
  intros [->|[Hx Hy]] [->|[Hy' Hz]]; [now left|now right|now right|now right].
Qed.

Lemma agree_list_refl (l : list R) : l ~~ l.
Proof. split; [reflexivity|]. intros k. apply agree_refl. Qed.

Lemma agree_list_rd (l1 l2 : list R) (k : Z) : l1 ~~ l2 -> rd zero l1 k ~ rd zero l2 k.
Proof. intros [_ Hk]. apply Hk. Qed.

Lemma agree_list_wr (l1 l2 : list R) (i : Z) (x y : R) :
  l1 ~~ l2 -> x ~ y -> wr l1 i x ~~ wr l2 i y.
Proof.
  intros [Hlen Hrd] Hxy. split; [now rewrite !length_wr|].
  intros k. destruct (Z.eq_dec i k) as [->|Hne].
  - destruct (Z.ltb_spec k 0); [rewrite !wr_neg by lia; apply Hrd|].
    destruct (Z.ltb_spec k (Z.of_nat (length l1))).
    + rewrite !rd_wr_eq by lia. exact Hxy.
    + rewrite !wr_oob by lia. apply Hrd.
  - rewrite !rd_wr_ne by assumption. apply Hrd.
Qed.

Lemma fold_agree_list {B} (f1 f2 : list R -> B -> list R) (l : list B) :
  (forall y1 y2 j, y1 ~~ y2 -> f1 y1 j ~~ f2 y2 j) ->
  forall y1 y2, y1 ~~ y2 -> fold_left f1 l y1 ~~ fold_left f2 l y2.
Proof.
  intros Hf. induction l as [|j l IH]; intros y1 y2 Hy; cbn [fold_left]; [exact Hy|].
  apply IH. now apply Hf.
Qed.

Lemma fold_agree {B} (f1 f2 : R -> B -> R) (l : list B) :
  (forall a1 a2 j, a1 ~ a2 -> f1 a1 j ~ f2 a2 j) ->
  forall a1 a2, a1 ~ a2 -> fold_left f1 l a1 ~ fold_left f2 l a2.
Proof.
  intros Hf. induction l as [|j l IH]; intros a1 a2 Ha; cbn [fold_left]; [exact Ha|].
  apply IH. now apply Hf.
Qed.

(** The band loops read the iterate and nothing else that differs. *)
Lemma band_rhs_agree (A : dSTRmat.t R) (b_point : R) (u1 u2 : list R) (point : Z) :
  u1 ~~ u2 -> band_rhs A b_point u1 point ~ band_rhs A b_point u2 point.
Proof.
  intros Hu. unfold band_rhs. cbv zeta.
  apply fold_agree; [|apply agree_refl].
  intros a1 a2 band Ha.
  destruct (_ <? 0); [destruct (_ >=? 0)|destruct (_ <? dSTRmat.ngrid A)];
    try exact Ha; apply minus_agree; try exact Ha; apply times_agree;
    now apply agree_list_rd.
Qed.

Lemma blkcontr2_str_agree (start_data start_vecx start_vecy nc : Z)
    (data x1 x2 y1 y2 : list R) :
  x1 ~~ x2 -> y1 ~~ y2 ->
  blkcontr2_str start_data start_vecx start_vecy nc data x1 y1 ~~
  blkcontr2_str start_data start_vecx start_vecy nc data x2 y2.
Proof.
  intros Hx Hy. unfold blkcontr2_str.
  destruct (start_vecy =? 0); (apply fold_agree_list; [|exact Hy]);
    intros a1 a2 i Ha; cbv zeta; (apply fold_agree_list; [|exact Ha]);
    intros c1 c2 j Hc; (apply agree_list_wr; [exact Hc|]);
    (apply minus_agree; [now apply agree_list_rd|]);
    apply times_agree; now apply agree_list_rd.
Qed.

Lemma band_vec_agree (A : dSTRmat.t R) (u1 u2 v1 v2 : list R) (block : Z) :
  u1 ~~ u2 -> v1 ~~ v2 -> band_vec A u1 v1 block ~~ band_vec A u2 v2 block.
Proof.
  intros Hu Hv. unfold band_vec. cbv zeta.
  apply fold_agree_list; [|exact Hv].
  intros a1 a2 band Ha.
  destruct (_ <? 0); [destruct (_ >=? 0)|destruct (_ <? dSTRmat.ngrid A)];
    try exact Ha; now apply blkcontr2_str_agree.
Qed.

Lemma load_block_agree (nc ncb : Z) (b_val v1 v2 : list R) :
  v1 ~~ v2 -> load_block nc ncb b_val v1 ~~ load_block nc ncb b_val v2.
Proof.
  intros Hv. unfold load_block. apply fold_agree_list; [|exact Hv].
  intros a1 a2 point Ha. apply agree_list_wr; [exact Ha|apply agree_refl].
Qed.

(** **** Scalar case, [nc = 1] *)

Lemma sor_point_agrees_with_gs_point (u_old q1 q2 : R) :
  fin u_old -> q1 ~ q2 -> ((one - one) * u_old + one * q1)%r ~ q2.
Proof.
  intros Hfin Hq. rewrite one_times.
  apply agree_trans with q1; [|exact Hq].
  apply nul_plus. now apply nul_times_l.
Qed.

Lemma sweep_points_agree (A : dSTRmat.t R) (b_val : list R) (n : nat) :
  forall (point : Z) (u1 u2 : list R),
  u1 ~~ u2 ->
  (forall k, point <= k -> fin (rd zero u1 k)) ->
  fold_left (fun u_val point =>
     let rhs := band_rhs A (rd zero b_val point) u_val point in
     wr u_val point
       ((one - one) * rd zero u_val point + one * (rhs / rd zero (dSTRmat.diag A) point))%r)
    (range point (point + Z.of_nat n)) u1 ~~
  fold_left (fun u_val point =>
     let rhs := band_rhs A (rd zero b_val point) u_val point in
     wr u_val point (rhs / rd zero (dSTRmat.diag A) point)%r)
    (range point (point + Z.of_nat n)) u2.
Proof.
  induction n as [|n IH]; intros point u1 u2 Hu Hfin.
  - rewrite range_nil by lia. exact Hu.
  - rewrite range_cons by lia. cbn [fold_left]. cbv zeta.
    replace (point + Z.of_nat (S n)) with (point + 1 + Z.of_nat n) by lia.
    apply IH.
    + apply agree_list_wr; [exact Hu|].
      apply sor_point_agrees_with_gs_point; [apply Hfin; lia|].
      apply over_agree. now apply band_rhs_agree.
    + intros k Hk. rewrite rd_wr_ne by lia. apply Hfin. lia.
Qed.

(** **** Block case, [nc > 1] *)

(** The Gauss-Seidel block update stores [mxv_row] in each cell. *)
Lemma fasp_blas_smat_mxv_rows (n : Z) (a : list R) (oa : Z) (b c : list R) (oc : Z) :
  fasp_blas_smat_mxv a oa b c oc n = region_set c oc n (mxv_row a oa b n).
Proof.
  unfold fasp_blas_smat_mxv, mxv_row, region_set.
  destruct (Z.eqb_spec n 2) as [->|_].
  { unfold fasp_blas_smat_mxv_nc2. change (range 0 2) with [0; 1].
    change (range 1 2) with [1]. cbn [fold_left orb Z.eqb Pos.eqb].
    repeat (f_equal; try lia). }
  destruct (Z.eqb_spec n 3) as [->|_].
  { unfold fasp_blas_smat_mxv_nc3. change (range 0 3) with [0; 1; 2].
    change (range 1 3) with [1; 2]. cbn [fold_left orb Z.eqb Pos.eqb].
    repeat (f_equal; try lia). }
  destruct (Z.eqb_spec n 5) as [->|_].
  { unfold fasp_blas_smat_mxv_nc5. change (range 0 5) with [0; 1; 2; 3; 4].
    change (range 1 5) with [1; 2; 3; 4]. cbn [fold_left orb Z.eqb Pos.eqb].
    repeat (f_equal; try lia). }
  destruct (Z.eqb_spec n 7) as [->|_].
  { unfold fasp_blas_smat_mxv_nc7. change (range 0 7) with [0; 1; 2; 3; 4; 5; 6].
    change (range 1 7) with [1; 2; 3; 4; 5; 6]. cbn [fold_left orb Z.eqb Pos.eqb].
    repeat (f_equal; try lia). }
  cbn [orb]. reflexivity.
Qed.

(** Row [i] of the SOR block update, started from a zero, agrees with the
    entry of the Gauss-Seidel update. *)
Lemma row_agree (n : Z) (A : list R) (oA : Z) (x1 x2 : list R) (i : Z) (z : R) :
  x1 ~~ x2 -> nul z ->
  fold_left (fun a j => (a + rd zero A (oA + (i * n + j)) * rd zero x1 j)%r) (range 0 n) z
  ~ mxv_row A oA x2 n i.
Proof.
  intros Hx Hz. unfold mxv_row.
  assert (Hstep : forall a1 a2 j, a1 ~ a2 ->
            (a1 + rd zero A (oA + (i * n + j)) * rd zero x1 j)%r ~
            (a2 + rd zero A (oA + i * n + j) * rd zero x2 j)%r).
  { intros a1 a2 j Ha. replace (oA + (i * n + j)) with (oA + i * n + j) by lia.
    apply plus_agree; [exact Ha|]. apply times_agree. now apply agree_list_rd. }
  destruct ((n =? 2) || (n =? 3) || (n =? 5) || (n =? 7)) eqn:Hspecial.
  - assert (Hn : 0 < n).
    { repeat (apply orb_prop in Hspecial; destruct Hspecial as [Hspecial|Hspecial]);
        apply Z.eqb_eq in Hspecial; lia. }
    rewrite (range_cons 0 n) by lia. cbn [fold_left]. change (0 + 1) with 1.
    apply fold_agree; [exact Hstep|].
    apply agree_trans with (rd zero A (oA + (i * n + 0)) * rd zero x1 0)%r;
      [now apply nul_plus|].
    replace (oA + (i * n + 0)) with (oA + i * n + 0) by lia.
    apply times_agree. now apply agree_list_rd.
  - unfold row_sum. apply fold_agree; [exact Hstep|]. right. now split.
Qed.

(** The rows one after the other: the cells of the block not yet reached
    hold zeros on the SOR side. *)
Lemma block_rows_agree (g1 : Z -> R -> R) (g2 : Z -> R) (oy : Z) (m : nat) :
  0 <= oy ->
  (forall i z, nul z -> g1 i z ~ g2 i) ->
  forall (k : Z) (y c : list R),
  0 <= k ->
  length y = length c ->
  (forall idx, oy + k <= idx < oy + k + Z.of_nat m -> nul (rd zero y idx)) ->
  (forall idx, ~ (oy + k <= idx < oy + k + Z.of_nat m) -> rd zero y idx ~ rd zero c idx) ->
  fold_left (fun y i => wr y (oy + i) (g1 i (rd zero y (oy + i)))) (range k (k + Z.of_nat m)) y
  ~~ fold_left (fun c i => wr c (oy + i) (g2 i)) (range k (k + Z.of_nat m)) c.
Proof.
  intros Hoy Hg. induction m as [|m IH]; intros k y c Hk Hlen Hin Hout.
  - rewrite range_nil by lia. cbn [fold_left]. split; [exact Hlen|].
    intros idx. apply Hout. lia.
  - rewrite range_cons by lia. cbn [fold_left].
    replace (k + Z.of_nat (S m)) with (k + 1 + Z.of_nat m) by lia.
    apply IH; [lia|now rewrite !length_wr| |].
    + intros idx Hidx. rewrite rd_wr_ne by lia. apply Hin. lia.
    + intros idx Hidx. destruct (Z.eq_dec idx (oy + k)) as [->|Hne].
      * destruct (Z.ltb_spec (oy + k) (Z.of_nat (length y))).
        -- rewrite !rd_wr_eq by lia. apply Hg. apply Hin. lia.
        -- rewrite !wr_oob by lia. rewrite !rd_outside by lia. apply agree_refl.
      * rewrite !rd_wr_ne by lia. apply Hout. lia.
Qed.

Lemma sor_block_agrees_with_gs_block (n : Z) (A : list R) (oA : Z)
    (x1 x2 y c : list R) (oy : Z) :
  0 <= oy -> 0 <= n ->
  x1 ~~ x2 -> y ~~ c ->
  (forall idx, oy <= idx < oy + n -> fin (rd zero y idx)) ->
  saAxpby one (one - one)%r n A oA x1 y oy ~~ fasp_blas_smat_mxv A oA x2 c oy n.
Proof.
  intros Hoy Hn Hx [Hlen Hy] Hfin.
  rewrite fasp_blas_smat_mxv_rows. unfold region_set, saAxpby.
  rewrite one_is_not_zero. cbv zeta.
  set (Y1 := fold_left _ (range 0 n) y).
  assert (HlenY1 : length Y1 = length y).
  { apply length_fold_left. intros. apply length_wr. }
  (* the last loop multiplies by one *)
  assert (HL3 : forall z : list R,
    fold_left (fun y i => wr y (oy + i) (rd zero y (oy + i) * one)%r) (range 0 n) z = z).
  { generalize (range 0 n). intros l. induction l as [|i l IH]; intros z; cbn [fold_left];
      [reflexivity|]. now rewrite times_one, wr_rd_id. }
  rewrite HL3.
  rewrite (fold_left_ext_in _
    (fun y i => wr y (oy + i)
       ((fun i a => fold_left (fun a j => (a + rd zero A (oA + (i * n + j)) * rd zero x1 j)%r)
                      (range 0 n) a) i (rd zero y (oy + i))))).
  2:{ intros a i _.
      exact (fold_cell zero
               (fun j a0 => (a0 + rd zero A (oA + (i * n + j)) * rd zero x1 j)%r)
               (oy + i) (range 0 n) a). }
  (* the first loop leaves zeros in the block *)
  assert (HY1 : forall idx, 0 <= idx < Z.of_nat (length y) ->
            rd zero Y1 idx =
            if (oy <=? idx) && (idx <? oy + n)
            then (rd zero y idx * ((one - one) / one))%r else rd zero y idx).
  { intros idx Hidx. unfold Y1.
    pose proof (rd_fold_upd zero (fun _ a => (a * ((one - one) / one))%r) oy (Z.to_nat n)
                  y idx Hoy Hidx) as Hr.
    rewrite Z2Nat.id in Hr by lia. exact Hr. }
  assert (Hrange : forall idx, 0 <= idx < Z.of_nat (length y) \/
                               (idx < 0 \/ Z.of_nat (length y) <= idx)) by (intros; lia).
  pose proof (block_rows_agree
    (fun i a => fold_left (fun a j => (a + rd zero A (oA + (i * n + j)) * rd zero x1 j)%r)
                  (range 0 n) a)
    (mxv_row A oA x2 n) oy (Z.to_nat n) Hoy
    (fun i z Hz => row_agree n A oA x1 x2 i z Hx Hz) 0 Y1 c) as Hrows.
  rewrite !Z.add_0_l, !Z.add_0_r, Z2Nat.id in Hrows by lia.
  apply Hrows; try lia.
  - intros idx Hidx. destruct (Hrange idx) as [Hi|Ho].
    + rewrite HY1 by exact Hi.
      destruct (Z.leb_spec oy idx), (Z.ltb_spec idx (oy + n)); cbn [andb]; try lia.
      apply nul_times_r; [exact nul_quotient|]. apply Hfin. lia.
    + rewrite rd_outside by lia. exact nul_zero.
  - intros idx Hidx. destruct (Hrange idx) as [Hi|Ho].
    + rewrite HY1 by exact Hi.
      destruct (Z.leb_spec oy idx), (Z.ltb_spec idx (oy + n)); cbn [andb]; try lia;
        apply Hy.
    + rewrite !rd_outside by lia. apply agree_refl.
Qed.

(** [saAxpby] writes the [size] cells of [y] from [oy] on and no other. *)
Lemma saAxpby_frame (alpha beta : R) (size : Z) (A : list R) (oA : Z) (x y : list R)
    (oy idx : Z) :
  idx < oy \/ oy + size <= idx ->
  rd zero (saAxpby alpha beta size A oA x y oy) idx = rd zero y idx.
Proof.
  intros Hidx. unfold saAxpby.
  assert (Hone : forall (g : Z -> R -> R) (l : list R),
            rd zero (fold_left (fun y i => wr y (oy + i) (g i (rd zero y (oy + i))))
                       (range 0 size) l) idx = rd zero l idx).
  { intros g l. apply rd_fold_frame. intros c i Hi. apply in_range in Hi.
    apply rd_wr_ne. lia. }
  destruct (alpha =? zero)%r.
  - apply (Hone (fun _ a => (a * beta)%r)).
  - cbv zeta. rewrite (Hone (fun _ a => (a * alpha)%r)).
    rewrite rd_fold_frame.
    + apply (Hone (fun _ a => (a * (beta / alpha))%r)).
    + intros c i Hi. apply in_range in Hi. apply rd_fold_frame.
      intros c' j _. apply rd_wr_ne. lia.
Qed.

Lemma sweep_blocks_agree (A : dSTRmat.t R) (b_val diaginv : list R) (n : nat) :
  1 < dSTRmat.nc A ->
  forall (block : Z) (v1 v2 u1 u2 : list R),
  0 <= block ->
  v1 ~~ v2 -> u1 ~~ u2 ->
  (forall k, dSTRmat.nc A * block <= k -> fin (rd zero u1 k)) ->
  snd (fold_left (fun '(vec_tmp, u_val) block =>
         let ncb := dSTRmat.nc A * block in
         let vec_tmp := load_block (dSTRmat.nc A) ncb b_val vec_tmp in
         let start_DATA := dSTRmat.nc A * dSTRmat.nc A * block in
         let vec_tmp := band_vec A u_val vec_tmp block in
         (vec_tmp, saAxpby one (one - one)%r (dSTRmat.nc A) diaginv start_DATA vec_tmp
                     u_val (dSTRmat.nc A * block)))
         (range block (block + Z.of_nat n)) (v1, u1)) ~~
  snd (fold_left (fun '(vec_tmp, u_val) block =>
         let ncb := dSTRmat.nc A * block in
         let vec_tmp := load_block (dSTRmat.nc A) ncb b_val vec_tmp in
         let start_DATA := dSTRmat.nc A * dSTRmat.nc A * block in
         let vec_tmp := band_vec A u_val vec_tmp block in
         (vec_tmp, fasp_blas_smat_mxv diaginv start_DATA vec_tmp u_val
                     (dSTRmat.nc A * block) (dSTRmat.nc A)))
         (range block (block + Z.of_nat n)) (v2, u2)).
Proof.
  intros Hnc. induction n as [|n IH]; intros block v1 v2 u1 u2 Hblock Hv Hu Hfin.
  - rewrite range_nil by lia. exact Hu.
  - rewrite range_cons by lia. cbn [fold_left]. cbv zeta.
    replace (block + Z.of_nat (S n)) with (block + 1 + Z.of_nat n) by lia.
    assert (Hvec : band_vec A u1 (load_block (dSTRmat.nc A) (dSTRmat.nc A * block) b_val v1)
                     block ~~
                   band_vec A u2 (load_block (dSTRmat.nc A) (dSTRmat.nc A * block) b_val v2)
                     block).
    { apply band_vec_agree; [exact Hu|]. now apply load_block_agree. }
    apply IH; [lia|exact Hvec| |].
    + apply sor_block_agrees_with_gs_block; [nia|lia|exact Hvec|exact Hu|].
      intros idx Hidx. apply Hfin. lia.
    + intros k Hk. rewrite saAxpby_frame by nia. apply Hfin. nia.
Qed.

(** One ascending SOR sweep with weight one and one ascending Gauss-Seidel
    sweep, from an iterate with finite entries. *)
Lemma sor_agrees_with_gs (A : dSTRmat.t R) (b u : dvector.t R) (diaginv : list R) :
  (forall k, fin (rd zero (dvector.val u) k)) ->
  dvector.row (fasp_smoother_dstr_sor_ascend A b u diaginv one) =
  dvector.row (fasp_smoother_dstr_gs_ascend A b u diaginv) /\
  dvector.val (fasp_smoother_dstr_sor_ascend A b u diaginv one) ~~
  dvector.val (fasp_smoother_dstr_gs_ascend A b u diaginv).
Proof.
  intros Hfin. unfold fasp_smoother_dstr_sor_ascend, fasp_smoother_dstr_gs_ascend.
  cbv zeta.
  assert (Hrange : range 0 (dSTRmat.ngrid A)
                   = range 0 (0 + Z.of_nat (Z.to_nat (dSTRmat.ngrid A)))).
  { destruct (Z.le_gt_cases 0 (dSTRmat.ngrid A)); [f_equal; lia|].
    rewrite !range_nil by lia. reflexivity. }
  destruct (Z.eqb_spec (dSTRmat.nc A) 1) as [Hnc1|Hnc1].
  - cbn [dvector.row dvector.val]. split; [reflexivity|].
    rewrite Hrange. apply sweep_points_agree; [apply agree_list_refl|].
    intros k _. apply Hfin.
  - destruct (Z.gtb_spec (dSTRmat.nc A) 1) as [Hgt|Hle].
    + cbn [dvector.row dvector.val]. split; [reflexivity|].
      rewrite Hrange. apply sweep_blocks_agree; try lia; try apply agree_list_refl.
      intros k _. apply Hfin.
    + split; [reflexivity|apply agree_list_refl].
Qed.

End SorGsAgree.

(** C9 (as amended): in IEEE double arithmetic, for every STR matrix [A],
    right-hand side [b], block inverses [diaginv] and block size, and for
    every initial iterate [u] all of whose entries are finite (no infinity,
    no NaN), one ascending SOR sweep with weight [1.0] and one ascending
    Gauss-Seidel sweep return vectors of the same length whose entries are
    the same numbers, cell by cell: the two entries compare equal ([==],
    which holds for zeros of either sign) or both are NaN.  The matrix, the
    right-hand side and the intermediate values may be infinite or NaN. *)
Theorem sor_ascend_weight_one_agrees_with_gs_ascend (A : dSTRmat.t float)
    (b u : dvector.t float) (diaginv : list float) :
  forallb PrimFloat.is_finite (dvector.val u) = true ->
  dvector.row (fasp_smoother_dstr_sor_ascend A b u diaginv 1%float) =
  dvector.row (fasp_smoother_dstr_gs_ascend A b u diaginv) /\
  length (dvector.val (fasp_smoother_dstr_sor_ascend A b u diaginv 1%float)) =
  length (dvector.val (fasp_smoother_dstr_gs_ascend A b u diaginv)) /\
  forall k : Z,
    same_number
      (rd zero (dvector.val (fasp_smoother_dstr_sor_ascend A b u diaginv 1%float)) k)
      (rd zero (dvector.val (fasp_smoother_dstr_gs_ascend A b u diaginv)) k) = true.
Proof.
  intros Hfin.
  assert (Hfin' : forall k, finite_float (rd zero (dvector.val u) k)).
  { intros k.
    destruct (Z.ltb_spec k 0) as [Hneg|Hpos]; [rewrite rd_outside by lia; reflexivity|].
    destruct (Z.ltb_spec k (Z.of_nat (length (dvector.val u)))) as [Hin|Hout];
      [|rewrite rd_outside by lia; reflexivity].
    apply is_finite_finite_float.
    rewrite forallb_forall in Hfin. apply Hfin.
    unfold rd. destruct (Z.ltb_spec k 0); [lia|]. apply nth_In. lia. }
  pose proof (@sor_agrees_with_gs float binary64 zero_float finite_float) as Hgen.
  repeat match type of Hgen with
         | ?P -> _ =>
             let HP := fresh in
             assert (HP : P)
               by first [ reflexivity | exact float_zero_mul_l | exact float_zero_mul_r
                        | exact float_mul_one_l | exact float_mul_one_r
                        | exact float_add_zero | exact float_add_agree
                        | exact float_sub_agree | exact float_mul_agree
                        | exact float_div_agree ];
             specialize (Hgen HP); clear HP
         end.
  destruct (Hgen A b u diaginv Hfin') as (Hrow & Hlen & Hval).
  split; [exact Hrow|]. split; [exact Hlen|].
  intros k. apply agree_same_number. apply Hval.
Qed.

Lemma sor_ascend_weight_one_agrees_with_gs_ascend_witness :
  dvector.row (fasp_smoother_dstr_sor_ascend sor_gs_finite_A sor_gs_finite_b
                 sor_gs_finite_u sor_gs_finite_diaginv 1%float) =
  dvector.row (fasp_smoother_dstr_gs_ascend sor_gs_finite_A sor_gs_finite_b
                 sor_gs_finite_u sor_gs_finite_diaginv) /\
  length (dvector.val (fasp_smoother_dstr_sor_ascend sor_gs_finite_A sor_gs_finite_b
                         sor_gs_finite_u sor_gs_finite_diaginv 1%float)) =
  length (dvector.val (fasp_smoother_dstr_gs_ascend sor_gs_finite_A sor_gs_finite_b
                         sor_gs_finite_u sor_gs_finite_diaginv)) /\
  forall k : Z,
    same_number
      (rd zero (dvector.val (fasp_smoother_dstr_sor_ascend sor_gs_finite_A sor_gs_finite_b
                               sor_gs_finite_u sor_gs_finite_diaginv 1%float)) k)
      (rd zero (dvector.val (fasp_smoother_dstr_gs_ascend sor_gs_finite_A sor_gs_finite_b
                               sor_gs_finite_u sor_gs_finite_diaginv)) k) = true.
Proof.
  apply (sor_ascend_weight_one_agrees_with_gs_ascend sor_gs_finite_A sor_gs_finite_b
           sor_gs_finite_u sor_gs_finite_diaginv).
  reflexivity.
Defined.

(** The two results on this input. *)
Example sor_gs_finite_values :
  dvector.val (fasp_smoother_dstr_gs_ascend sor_gs_finite_A sor_gs_finite_b
                 sor_gs_finite_u sor_gs_finite_diaginv) = [(-0.25); 0.625; 0.6875; 1.15625]%float /\
  dvector.val (fasp_smoother_dstr_sor_ascend sor_gs_finite_A sor_gs_finite_b
                 sor_gs_finite_u sor_gs_finite_diaginv 1%float) = [(-0.25); 0.625; 0.6875; 1.15625]%float.
Proof. vm_compute. split; reflexivity. Qed.

(** ** blas_smat.c: the small inverses are inverses *)

Ltac read_cells :=
  repeat first
    [ rewrite rd_wr_eq by (rewrite ?length_wr; lia)
    | rewrite rd_wr_ne by lia ].

(** Replaces the read of cell [k] of the array [t], a chain of writes, by
    the value written there. *)
Ltac read_written t k :=
  let v := fresh "v" in
  let Hv := fresh "Hv" in
  evar (v : Qc);
  assert (Hv : rd zero t k = v)
    by (unfold fasp_blas_smat_inv_nc2, fasp_blas_smat_inv_nc3; cbv zeta;
        read_cells; unfold v; reflexivity);
  rewrite !Hv; unfold v; clear Hv v.

(** X22: in exact arithmetic [fasp_blas_smat_inv_nc2] turns a 2*2 matrix
    with a determinant other than zero into its inverse:
    [fasp_blas_smat_mul_nc2] of the result and the matrix, in either order,
    is the identity matrix. *)
Theorem fasp_blas_smat_inv_nc2_inverse (a : list Qc) (oa : Z) (c : list Qc) (oc : Z) :
  0 <= oa -> oa + 4 <= Z.of_nat (length a) ->
  0 <= oc -> oc + 4 <= Z.of_nat (length c) ->
  det_nc2 a oa <> zero ->
  cells (fasp_blas_smat_mul_nc2 (fasp_blas_smat_inv_nc2 a oa) oa a oa c oc) oc 4
    = [one; zero; zero; one] /\
  cells (fasp_blas_smat_mul_nc2 a oa (fasp_blas_smat_inv_nc2 a oa) oa c oc) oc 4
    = [one; zero; zero; one].
Proof.
  intros Hoa Hla Hoc Hlc Hdet. unfold det_nc2 in Hdet.
  unfold cells. change (range 0 4) with [0; 1; 2; 3]. cbn [map].
  unfold fasp_blas_smat_mul_nc2. cbv zeta. read_cells.
  read_written (fasp_blas_smat_inv_nc2 a oa) (oa + 0).
  read_written (fasp_blas_smat_inv_nc2 a oa) (oa + 1).
  read_written (fasp_blas_smat_inv_nc2 a oa) (oa + 2).
  read_written (fasp_blas_smat_inv_nc2 a oa) (oa + 3).
  set (a0 := rd zero a (oa + 0)) in *. set (a1 := rd zero a (oa + 1)) in *.
  set (a2 := rd zero a (oa + 2)) in *. set (a3 := rd zero a (oa + 3)) in *.
  cbn [zero one add sub mul div neg exact] in *.
  split; repeat f_equal; field; exact Hdet.
Qed.

Lemma fasp_blas_smat_inv_nc2_inverse_witness :
  cells (fasp_blas_smat_mul_nc2 (fasp_blas_smat_inv_nc2 smat_example_nc2 0) 0
           smat_example_nc2 0 smat_example_nc2 0) 0 4
    = [one; zero; zero; one] /\
  cells (fasp_blas_smat_mul_nc2 smat_example_nc2 0
           (fasp_blas_smat_inv_nc2 smat_example_nc2 0) 0 smat_example_nc2 0) 0 4
    = [one; zero; zero; one].
Proof.
  apply (fasp_blas_smat_inv_nc2_inverse smat_example_nc2 0 smat_example_nc2 0).
  - lia.
  - cbn. lia.
  - lia.
  - cbn. lia.
  - intros E. apply (f_equal this) in E. vm_compute in E. discriminate E.
Defined.

(** In double arithmetic a singular matrix is only reported on the screen:
    the routine divides by the zero determinant and fills the matrix with
    infinities and NaN. *)
Example fasp_blas_smat_inv_nc2_singular :
  fasp_blas_smat_inv_nc2 [1; 2; 2; 4]%float 0
  = [infinity; neg_infinity; neg_infinity; infinity]%float /\
  fasp_blas_smat_inv_nc2 [0; 0; 0; 0]%float 0 = [nan; nan; nan; nan]%float.
Proof. split; vm_compute; reflexivity. Qed.

(** X23: in exact arithmetic [fasp_blas_smat_inv_nc3] turns a 3*3 matrix
    with a determinant other than zero into its inverse:
    [fasp_blas_smat_mul_nc3] of the result and the matrix, in either order,
    is the identity matrix. *)
Theorem fasp_blas_smat_inv_nc3_inverse (a : list Qc) (oa : Z) (c : list Qc) (oc : Z) :
  0 <= oa -> oa + 9 <= Z.of_nat (length a) ->
  0 <= oc -> oc + 9 <= Z.of_nat (length c) ->
  det_nc3 a oa <> zero ->
  cells (fasp_blas_smat_mul_nc3 (fasp_blas_smat_inv_nc3 a oa) oa a oa c oc) oc 9
    = [one; zero; zero; zero; one; zero; zero; zero; one] /\
  cells (fasp_blas_smat_mul_nc3 a oa (fasp_blas_smat_inv_nc3 a oa) oa c oc) oc 9
    = [one; zero; zero; zero; one; zero; zero; zero; one].
Proof.
  intros Hoa Hla Hoc Hlc Hdet. unfold det_nc3 in Hdet. cbv zeta in Hdet.
  unfold cells. change (range 0 9) with [0; 1; 2; 3; 4; 5; 6; 7; 8]. cbn [map].
  unfold fasp_blas_smat_mul_nc3. cbv zeta. read_cells.
  read_written (fasp_blas_smat_inv_nc3 a oa) (oa + 0).
  read_written (fasp_blas_smat_inv_nc3 a oa) (oa + 1).
  read_written (fasp_blas_smat_inv_nc3 a oa) (oa + 2).
  read_written (fasp_blas_smat_inv_nc3 a oa) (oa + 3).
  read_written (fasp_blas_smat_inv_nc3 a oa) (oa + 4).
  read_written (fasp_blas_smat_inv_nc3 a oa) (oa + 5).
  read_written (fasp_blas_smat_inv_nc3 a oa) (oa + 6).
  read_written (fasp_blas_smat_inv_nc3 a oa) (oa + 7).
  read_written (fasp_blas_smat_inv_nc3 a oa) (oa + 8).
  set (a0 := rd zero a (oa + 0)) in *. set (a1 := rd zero a (oa + 1)) in *.
  set (a2 := rd zero a (oa + 2)) in *. set (a3 := rd zero a (oa + 3)) in *.
  set (a4 := rd zero a (oa + 4)) in *. set (a5 := rd zero a (oa + 5)) in *.
  set (a6 := rd zero a (oa + 6)) in *. set (a7 := rd zero a (oa + 7)) in *.
  set (a8 := rd zero a (oa + 8)) in *.
  cbn [zero one add sub mul div neg exact] in *.
  split; repeat f_equal; field; exact Hdet.
Qed.

Lemma fasp_blas_smat_inv_nc3_inverse_witness :
  cells (fasp_blas_smat_mul_nc3 (fasp_blas_smat_inv_nc3 smat_example_nc3 0) 0
           smat_example_nc3 0 smat_example_nc3 0) 0 9
    = [one; zero; zero; zero; one; zero; zero; zero; one] /\
  cells (fasp_blas_smat_mul_nc3 smat_example_nc3 0
           (fasp_blas_smat_inv_nc3 smat_example_nc3 0) 0 smat_example_nc3 0) 0 9
    = [one; zero; zero; zero; one; zero; zero; zero; one].
Proof.
  apply (fasp_blas_smat_inv_nc3_inverse smat_example_nc3 0 smat_example_nc3 0).
  - lia.
  - cbn. lia.
  - lia.
  - cbn. lia.
  - intros E. apply (f_equal this) in E. vm_compute in E. discriminate E.
Defined.

(** ** blas_vec.c: [axpyz] and [axpy] *)

Lemma memcpy_whole {R} `{Real R} (dst src : list R) (n : Z) :
  Z.of_nat (length dst) = n -> Z.of_nat (length src) = n -> memcpy dst src n = src.
Proof.
  intros Hd Hs. unfold memcpy. apply (rd_ext zero).
  - rewrite length_fold_left by (intros; apply length_wr). lia.
  - intros i Hi.
    pose proof (rd_fold_wr zero (fun i => rd zero src i) 0 (Z.to_nat n) dst i
                  ltac:(lia) ltac:(lia)) as Hr.
    rewrite Z.add_0_l, Z2Nat.id in Hr by lia. rewrite Hr.
    rewrite length_fold_left in Hi by (intros; apply length_wr).
    destruct (Z.leb_spec 0 i), (Z.ltb_spec i n); try lia. reflexivity.
Qed.

(** X24: for vectors of one length [fasp_blas_dvec_axpyz] stores in [z]
    what [fasp_blas_dvec_axpy] leaves in [y]: the former contents of [z] do
    not matter. *)
Theorem fasp_blas_dvec_axpyz_as_axpy {R} `{Real R} (a : R) (x y z : dvector.t R) :
  0 <= dvector.row x < 2 ^ 32 ->
  dvector.row y = dvector.row x ->
  Z.of_nat (length (dvector.val y)) = dvector.row x ->
  Z.of_nat (length (dvector.val z)) = dvector.row x ->
  fasp_blas_dvec_axpyz a x y z = fasp_blas_dvec_axpy a x y.
Proof.
  intros Hrow Hy Hly Hlz. unfold fasp_blas_dvec_axpyz, fasp_blas_dvec_axpy.
  rewrite (to_unsigned_small (dvector.row x)) by lia.
  rewrite Hy, Z.sub_diag. change (to_unsigned 0) with 0. cbn [Z.eqb negb].
  rewrite memcpy_whole by assumption. reflexivity.
Qed.

Lemma fasp_blas_dvec_axpyz_as_axpy_witness :
  fasp_blas_dvec_axpyz 2%float (dvector.mk 2 [1; 2]%float) (dvector.mk 2 [3; 4]%float)
    (dvector.mk 2 [9; 9]%float)
  = fasp_blas_dvec_axpy 2%float (dvector.mk 2 [1; 2]%float) (dvector.mk 2 [3; 4]%float).
Proof.
  apply (fasp_blas_dvec_axpyz_as_axpy 2%float (dvector.mk 2 [1; 2]%float)
           (dvector.mk 2 [3; 4]%float) (dvector.mk 2 [9; 9]%float)).
  - cbn. lia.
  - reflexivity.
  - reflexivity.
  - reflexivity.
Defined.

Example fasp_blas_dvec_axpyz_example :
  fasp_blas_dvec_axpyz 2%float (dvector.mk 2 [1; 2]%float) (dvector.mk 2 [3; 4]%float)
    (dvector.mk 2 [9; 9]%float) = Ok (dvector.mk 2 [5; 8]%float).
Proof. vm_compute. reflexivity. Qed.

(** ** smoother_poly.c: a polynomial of degree one or less *)

Section PolyLowDegree.
Context {R : Type} `{KrylovReal R}.
Variable blas_dcsr_mxv : dCSRmat.t R -> list R -> list R -> list R.
Variable blas_array_axpyz : Z -> R -> list R -> list R -> list R -> list R.
Variable blas_array_axpy : Z -> R -> list R -> list R -> list R.
Variables lit_2 lit_4 : R.

(** For [m <= 1] the loop over [j] is empty: [Rr] does not store in
    [vnew]. *)
Lemma Rr_low_degree (Amat : dCSRmat.t R) (Dinv r rbar v0 v1 vnew k : list R) (m : Z) :
  m <= 1 ->
  snd (Rr blas_dcsr_mxv Amat Dinv r rbar v0 v1 vnew k m) = vnew.
Proof.
  intros Hm. unfold Rr. cbv zeta. rewrite (range_nil 1 m) by lia.
  destruct (fold_left _ _ _) as [v0' v1']. reflexivity.
Qed.

Lemma poly_round_low_degree (Amat : dCSRmat.t R) (b Dinv k : list R) (n ndeg : Z)
    (st : list R * list R * list R * list R * list R * list R) :
  ndeg <= 1 ->
  let st' := poly_round blas_dcsr_mxv blas_array_axpyz blas_array_axpy
               Amat b Dinv k n ndeg st in
  snd st' = snd st /\
  fst (fst (fst (fst (fst st')))) =
  blas_array_axpy n one (snd st) (fst (fst (fst (fst (fst st))))).
Proof.
  intros Hdeg. destruct st as [[[[[u r] rbar] v0] v1] error]. cbv zeta.
  unfold poly_round.
  pose proof (Rr_low_degree Amat Dinv
                (blas_array_axpyz n (- one)%r (blas_dcsr_mxv Amat u r) b
                   (blas_dcsr_mxv Amat u r)) rbar v0 v1 error k ndeg Hdeg) as Hr.
  destruct (Rr _ _ _ _ _ _ _ _ _ _) as [[[rbar' v0'] v1'] error'].
  cbn [fst snd] in *. subst error'. split; reflexivity.
Qed.

Lemma poly_rounds_low_degree (Amat : dCSRmat.t R) (b Dinv k : list R) (n ndeg : Z)
    (rounds : nat) :
  ndeg <= 1 ->
  forall (lo : Z) (st : list R * list R * list R * list R * list R * list R),
  let st' := fold_left (fun st _ => poly_round blas_dcsr_mxv blas_array_axpyz
                                      blas_array_axpy Amat b Dinv k n ndeg st)
               (range lo (lo + Z.of_nat rounds)) st in
  snd st' = snd st /\
  fst (fst (fst (fst (fst st')))) =
  Nat.iter rounds (blas_array_axpy n one (snd st)) (fst (fst (fst (fst (fst st))))).
Proof.
  intros Hdeg. induction rounds as [|rounds IH]; intros lo st; cbv zeta.
  - rewrite range_nil by lia. split; reflexivity.
  - replace (lo + Z.of_nat (S rounds)) with (lo + Z.of_nat rounds + 1) by lia.
    rewrite range_snoc by lia. rewrite fold_left_app. cbn [fold_left Nat.iter].
    destruct (IH lo st) as [He Hu].
    destruct (poly_round_low_degree Amat b Dinv k n ndeg
                (fold_left (fun st _ => poly_round blas_dcsr_mxv blas_array_axpyz
                                          blas_array_axpy Amat b Dinv k n ndeg st)
                   (range lo (lo + Z.of_nat rounds)) st) Hdeg) as [He' Hu'].
    split; [now rewrite He'|]. rewrite Hu', He, Hu. reflexivity.
Qed.

End PolyLowDegree.

(** X26: with a polynomial of degree [ndeg <= 1] the smoother never looks
    at the matrix or the right-hand side: [Rr] leaves the correction at the
    zeros of its allocation, and each of the [L] rounds adds this zero
    vector to the solution by [fasp_blas_array_axpy(n, 1, error, u)]. *)
Theorem fasp_smoother_dcsr_poly_low_degree {R} `{KrylovReal R}
    (blas_dcsr_mxv : dCSRmat.t R -> list R -> list R -> list R)
    (blas_array_axpyz : Z -> R -> list R -> list R -> list R -> list R)
    (blas_array_axpy : Z -> R -> list R -> list R -> list R)
    (lit_2 lit_4 : R)
    (Amat : dCSRmat.t R) (brhs usol : dvector.t R) (n ndeg L : Z) :
  ndeg <= 1 ->
  fasp_smoother_dcsr_poly blas_dcsr_mxv blas_array_axpyz blas_array_axpy lit_2 lit_4
    Amat brhs usol n ndeg L =
  dvector.mk (dvector.row usol)
    (Nat.iter (Z.to_nat L) (blas_array_axpy n one (calloc zero n)) (dvector.val usol)).
Proof.
  intros Hdeg. unfold fasp_smoother_dcsr_poly. cbv zeta.
  set (Dinv := Diaginv Amat (calloc zero n)).
  set (k := poly_coefficients lit_2 lit_4 _ _).
  pose proof (poly_rounds_low_degree blas_dcsr_mxv blas_array_axpyz blas_array_axpy
                Amat (dvector.val brhs) Dinv k n ndeg (Z.to_nat L) Hdeg 0
                (dvector.val usol, calloc zero n, calloc zero n, calloc zero n,
                 calloc zero n, calloc zero n)) as Hr.
  cbv zeta in Hr. cbn [fst snd] in Hr.
  replace (0 + Z.of_nat (Z.to_nat L)) with (Z.max 0 L) in Hr by lia.
  assert (Hrange : range 0 (Z.max 0 L) = range 0 L).
  { destruct (Z.le_gt_cases 0 L); [f_equal; lia|].
    rewrite !range_nil by lia. reflexivity. }
  rewrite Hrange in Hr.
  destruct (fold_left _ _ _) as [[[[[u r] rbar] v0] v1] error].
  cbn [fst snd] in Hr. destruct Hr as [_ ->]. reflexivity.
Qed.

Lemma fasp_smoother_dcsr_poly_low_degree_witness :
  fasp_smoother_dcsr_poly fasp_blas_dcsr_mxv fasp_blas_array_axpyz fasp_blas_array_axpy
    2%float 4%float poly_example_A (dvector.mk 2 [1; 2]%float)
    (dvector.mk 2 [0.5; 0.25]%float) 2 1 3 =
  dvector.mk 2
    (Nat.iter (Z.to_nat 3) (fasp_blas_array_axpy 2 one (calloc zero 2)) [0.5; 0.25]%float).
Proof.
  apply (fasp_smoother_dcsr_poly_low_degree fasp_blas_dcsr_mxv fasp_blas_array_axpyz
           fasp_blas_array_axpy 2%float 4%float poly_example_A (dvector.mk 2 [1; 2]%float)
           (dvector.mk 2 [0.5; 0.25]%float) 2 1 3).
  lia.
Defined.

(** With the array routines of the package and in double arithmetic:
    degree one returns the solution as it was, degree two changes it. *)
Example fasp_smoother_dcsr_poly_degrees :
  fasp_smoother_dcsr_poly fasp_blas_dcsr_mxv fasp_blas_array_axpyz fasp_blas_array_axpy
    2%float 4%float poly_example_A (dvector.mk 2 [1; 2]%float)
    (dvector.mk 2 [0.5; 0.25]%float) 2 1 3 = dvector.mk 2 [0.5; 0.25]%float /\
  fasp_smoother_dcsr_poly fasp_blas_dcsr_mxv fasp_blas_array_axpyz fasp_blas_array_axpy
    2%float 4%float poly_example_A (dvector.mk 2 [1; 2]%float)
    (dvector.mk 2 [0.5; 0.25]%float) 2 2 3 <> dvector.mk 2 [0.5; 0.25]%float.
Proof.
  split; [vm_compute; reflexivity|].
  vm_compute. intros E. discriminate E.
Qed.

(** ** spbcgs.c: the values the solver returns *)

Section SpbcgsReturn.
Context {R : Type} `{KrylovReal R} {M : Type} `{SpMV R M}.
Variable A : M.
Variable b : dvector.t R.
Variable pc : option (list R -> list R -> list R).
Variable tol : R.
Variable MaxIt : Z.
Variable stop : stop_type.

Import bcgs.

Ltac break_all :=
  repeat match goal with
         | H : context [if ?c then _ else _] |- _ => destruct c eqn:?
         | H : context [let '(_, _) := ?x in _] |- _ => destruct x as [[? ?] ?] eqn:?
         | H : (_, _) = (_, _) |- _ => inversion H; subst; clear H
         end;
  try discriminate.

Lemma krylov_step_codes (st st' : state R) (e : exit_kind) :
  krylov_step A b pc tol stop st = (e, st') ->
  iter st' = iter st \/ stagnation_code (iter st').
Proof.
  unfold krylov_step, stagnation_code. intros Hstep. break_all; cbn; auto.
Qed.

Lemma check_stagnation_codes (st st' : state R) (e : exit_kind) :
  check_stagnation A b pc tol stop st = (e, st') ->
  iter st' = iter st \/ stagnation_code (iter st').
Proof.
  unfold check_stagnation, stagnation_code. intros Hc. break_all; cbn; auto.
Qed.

Lemma check_false_convergence_codes (st st' : state R) (e : exit_kind) :
  check_false_convergence A b pc tol stop st = (e, st') ->
  iter st' = iter st \/ stagnation_code (iter st').
Proof.
  unfold check_false_convergence, stagnation_code. intros Hc. break_all; cbn; auto.
Qed.

Lemma codes_trans (n1 n2 n3 : Z) :
  n2 = n1 \/ stagnation_code n2 -> n3 = n2 \/ stagnation_code n3 ->
  n3 = n1 \/ stagnation_code n3.
Proof. intros [->|H12] [->|H23]; auto. Qed.

Lemma loop_body_codes (st st' : state R) (e : exit_kind) :
  loop_body A b pc tol stop st = (e, st') ->
  iter st' = iter st \/ stagnation_code (iter st').
Proof.
  unfold loop_body. intros Hb.
  destruct (krylov_step A b pc tol stop st) as [e1 st1] eqn:Hk.
  pose proof (krylov_step_codes _ _ _ Hk) as H1k.
  destruct e1; try (injection Hb as <- <-; exact H1k).
  destruct (check_stagnation A b pc tol stop st1) as [e2 st2] eqn:Hs.
  pose proof (codes_trans _ _ _ H1k (check_stagnation_codes _ _ _ Hs)) as H2s.
  destruct e2; try (injection Hb as <- <-; exact H2s).
  destruct (check_false_convergence A b pc tol stop st2) as [e3 st3] eqn:Hf.
  pose proof (codes_trans _ _ _ H2s (check_false_convergence_codes _ _ _ Hf)) as H3f.
  destruct e3; injection Hb as <- <-; exact H3f.
Qed.

Lemma main_loop_codes (fuel : nat) : forall (st st' : state R) (e : exit_kind),
  main_loop A b pc tol MaxIt stop fuel st = Some (e, st') ->
  0 <= iter st ->
  0 <= iter st' \/ stagnation_code (iter st').
Proof.
  induction fuel as [|fuel IH]; intros st st' e Hl Hst; cbn [main_loop] in Hl.
  - destruct (iter st <? MaxIt); [discriminate|]. injection Hl as <- <-. cbn. lia.
  - destruct (iter st <? MaxIt); [|injection Hl as <- <-; cbn; lia].
    destruct (loop_body A b pc tol stop (set_iter st (iter st + 1))) as [e1 st1] eqn:Hb.
    pose proof (loop_body_codes _ _ _ Hb) as Hc. cbn [set_iter iter] in Hc.
    destruct (loop_body_exit A b pc tol stop _ _ _ Hb) as (Hi & _ & _).
    cbn [set_iter iter] in Hi.
    assert (Hst1 : 0 <= iter st1 \/ stagnation_code (iter st1))
      by (destruct Hc as [->|?]; [left; lia|now right]).
    destruct e1; try (injection Hl as <- <-; exact Hst1).
    apply (IH st1 st' e Hl). rewrite Hi by discriminate. lia.
Qed.

Lemma before_loop_iter (uval : list R) (st : state R) (e : exit_kind) :
  before_loop A b tol stop uval = (e, st) -> iter st = 0.
Proof.
  unfold before_loop. intros Hb. destruct stop; break_all; reflexivity.
Qed.

Lemma RESTORE_BESTSOL_iter (st : state R) :
  iter (RESTORE_BESTSOL A b pc tol stop st) = iter st.
Proof.
  unfold RESTORE_BESTSOL. destruct (negb _); [|reflexivity].
  destruct (best_residual A b pc stop st) as [[r z] a]. reflexivity.
Qed.

Lemma FINISHED_codes (st : state R) :
  0 <= iter st \/ stagnation_code (iter st) ->
  0 <= fst (FINISHED MaxIt st) <= MaxIt \/
  fst (FINISHED MaxIt st) = ERROR_SOLVER_MAXIT \/
  stagnation_code (fst (FINISHED MaxIt st)).
Proof.
  intros Hst. unfold FINISHED. cbn [fst].
  destruct (Z.gtb_spec (iter st) MaxIt); [now right; left|].
  destruct Hst as [Hst|Hst]; [left; lia|now right; right].
Qed.

End SpbcgsReturn.

(** X25: [fasp_solver_spbcgs] always returns, and the value it returns is
    a count of rounds between [0] and [MaxIt] or one of the four codes
    [ERROR_SOLVER_MAXIT], [ERROR_SOLVER_SOLSTAG], [ERROR_SOLVER_STAG] and
    [ERROR_SOLVER_TOLSMALL]; no other negative value is returned, whatever
    the matrix, the preconditioner and the stopping criterion. *)
Theorem fasp_solver_spbcgs_return_values {R} `{KrylovReal R} {M} `{SpMV R M}
    (A : M) (b : dvector.t R) (pc : option (list R -> list R -> list R))
    (tol : R) (MaxIt : Z) (stop : stop_type) (u0 : dvector.t R) :
  exists (ret : Z) (uval : list R),
    fasp_solver_spbcgs A b pc tol MaxIt stop u0 = Some (ret, uval) /\
    (0 <= ret <= MaxIt \/ ret = ERROR_SOLVER_MAXIT \/ stagnation_code ret).
Proof.
  unfold fasp_solver_spbcgs, spbcgs_run.
  destruct (before_loop A b tol stop (dvector.val u0)) as [e st] eqn:Hb.
  pose proof (before_loop_iter _ _ _ _ _ _ _ Hb) as Hi.
  destruct (before_loop_exit _ _ _ _ _ _ _ Hb) as [-> | ->].
  - destruct (main_loop_total A b pc tol MaxIt stop (Z.to_nat MaxIt) st ltac:(lia))
      as (e & st' & Hl).
    rewrite Hl. pose proof (main_loop_codes _ _ _ _ _ _ _ _ _ _ Hl ltac:(lia)) as Hc.
    destruct e;
      try (eexists _, _; split; [unfold FINISHED; reflexivity|];
           apply FINISHED_codes; rewrite ?RESTORE_BESTSOL_iter; exact Hc).
  - eexists _, _. split; [unfold FINISHED; reflexivity|].
    apply FINISHED_codes. left. lia.
Qed.
